(** * Trace critical-path analyzer: a shallow embedding

    This development embeds the trace parser ([scripts/trace_parser.py])
    and the statistics engine ([scripts/trace_statistics.py]) of the
    benchmark tooling and proves properties of the embedded functions.

    Conventions of the embedding.
    - A span is a JSON object; the keys the analyzer reads become optional
      fields of the record [span]: [None] is an absent key, and a key that is
      present holds a value of its JSON type (a string, an integer, an object
      of strings).
    - Python numbers are exact rationals ([Q]); rounding of binary floats is
      not modelled.  Timestamps and durations are integer microseconds, as
      Zipkin writes them.
    - Python strings are [string]s; [str.lower] acts on the ASCII letters.
    - A [dict] whose iteration order is observable is an association list in
      insertion order.
    - Exceptions are results of type [res]; a recursive method takes a fuel
      argument and answers [OutOfFuel] when the fuel does not suffice. *)

From Stdlib Require Import ZArith QArith Qround Lqa List String Ascii Bool Lia.
From Stdlib Require Import Permutation Sorted DecimalString.
Import ListNotations.

Local Open Scope string_scope.
Local Open Scope list_scope.
Local Open Scope Z_scope.
Local Open Scope Q_scope.

(** ** Results of Python computations *)

Inductive exn : Type :=
| KeyError (key : string)
| ValueError (msg : string)
| IndexError
| AttributeError
| TypeError.

Inductive res (A : Type) : Type :=
| Ok (a : A)
| Raise (e : exn)
| OutOfFuel.

Arguments Ok {A} a.
Arguments Raise {A} e.
Arguments OutOfFuel {A}.

Definition bind {A B : Type} (c : res A) (k : A -> res B) : res B :=
  match c with
  | Ok a => k a
  | Raise e => Raise e
  | OutOfFuel => OutOfFuel
  end.

Notation "x <- c ;; k" := (bind c (fun x => k))
  (at level 61, c at next level, right associativity).

(** A [for] loop that appends one computed element per iteration. *)
Fixpoint mapM {A B : Type} (f : A -> res B) (l : list A) : res (list B) :=
  match l with
  | [] => Ok []
  | a :: l' => b <- f a ;; bs <- mapM f l' ;; Ok (b :: bs)
  end.

(** ** Numbers *)

Definition Qlt_bool (x y : Q) : bool := negb (Qle_bool y x).

(** [max(x, y)] and [min(x, y)]: the first argument wins a tie. *)
Definition pymax (x y : Q) : Q := if Qlt_bool x y then y else x.
Definition pymin (x y : Q) : Q := if Qlt_bool y x then y else x.

(** [sum(l)] *)
Definition pysum (l : list Q) : Q := fold_left Qplus l 0.

(** [max(l)] and [min(l)] of a non-empty list given as head and tail. *)
Definition pymax_list (x : Q) (l : list Q) : Q := fold_left pymax l x.
Definition pymin_list (x : Q) (l : list Q) : Q := fold_left pymin l x.

(** [int(x)]: truncation towards zero. *)
Definition pyint (x : Q) : Z := Z.quot (Qnum x) (Zpos (Qden x)).

(** [x.is_integer()] *)
Definition is_integer (x : Q) : bool := Qeq_bool x (inject_Z (pyint x)).

(** [str(n)] for an integer. *)
Definition str_of_Z (n : Z) : string := NilZero.string_of_int (Z.to_int n).

(** ** Strings *)

Definition lower_ascii (c : ascii) : ascii :=
  let n := nat_of_ascii c in
  if ((65 <=? n) && (n <=? 90))%nat then ascii_of_nat (n + 32) else c.

(** [s.lower()] *)
Fixpoint lower (s : string) : string :=
  match s with
  | EmptyString => EmptyString
  | String c s' => String (lower_ascii c) (lower s')
  end.

(** [s.startswith(p)] *)
Definition startswith (s p : string) : bool := prefix p s.

(** [sub in s] *)
Fixpoint contains (sub s : string) : bool :=
  prefix sub s ||
  match s with
  | EmptyString => false
  | String _ s' => contains sub s'
  end.

(** ** Lists and dictionaries *)

(** [sorted(l, key=key)] and [l.sort(key=key)]: a stable sort; [leb] is the
    order of the keys. *)
Section Sorting.
Context {A K : Type} (leb : K -> K -> bool) (key : A -> K).

Fixpoint insert_by (x : A) (l : list A) : list A :=
  match l with
  | [] => [x]
  | y :: l' => if leb (key x) (key y) then x :: y :: l' else y :: insert_by x l'
  end.

Fixpoint sort_by (l : list A) : list A :=
  match l with
  | [] => []
  | x :: l' => insert_by x (sort_by l')
  end.
End Sorting.

Definition dict (V : Type) : Type := list (string * V).

(** [d[k] = v]: a key already present keeps its position. *)
Fixpoint dict_set {V : Type} (k : string) (v : V) (d : dict V) : dict V :=
  match d with
  | [] => [(k, v)]
  | (k', v') :: d' =>
      if String.eqb k k' then (k', v) :: d' else (k', v') :: dict_set k v d'
  end.

Fixpoint dict_get {V : Type} (k : string) (d : dict V) : option V :=
  match d with
  | [] => None
  | (k', v') :: d' => if String.eqb k k' then Some v' else dict_get k d'
  end.

(** [d.values()] *)
Definition dict_values {V : Type} (d : dict V) : list V := map snd d.

(** [x.get(k, default)] on an optional field. *)
Definition get_or {A : Type} (o : option A) (default : A) : A :=
  match o with Some a => a | None => default end.

(** ** Spans and traces *)

Record span : Type := mkSpan {
  traceId : option string;
  id : option string;
  parentId : option string;
  name : option string;
  timestamp : option Z;
  duration : option Z;
  tags : option (dict string)
}.

Definition trace : Type := list span.

(** [span.get('timestamp', 0) / 1000] and [span.get('duration', 0) / 1000] *)
Definition timestamp_ms (sp : span) : Q := inject_Z (get_or (timestamp sp) 0%Z) / 1000.
Definition duration_ms (sp : span) : Q := inject_Z (get_or (duration sp) 0%Z) / 1000.

(** [any(span.get('name', '').lower().startswith(pattern) for pattern in patterns)] *)
Definition name_matches (patterns : list string) (sp : span) : bool :=
  existsb (fun pattern => startswith (lower (get_or (name sp) EmptyString)) pattern) patterns.

(** [trace[0].get('traceId', '')] of a non-empty trace. *)
Definition first_trace_id (sp : span) : string := get_or (traceId sp) EmptyString.

(** * [TraceParser] ([scripts/trace_parser.py]) *)

(** The parser object; a method that assigns to [self] returns the new
    object, and [print] appends a line to the output it returns. *)
Record TraceParser : Type := mkTraceParser {
  trace_file_path : string;
  warmup_iterations : Z;
  traces : list trace
}.

Definition set_traces (self : TraceParser) (ts : list trace) : TraceParser :=
  {| trace_file_path := trace_file_path self;
     warmup_iterations := warmup_iterations self;
     traces := ts |}.

(** The record appended to [critical_io_values] for each trace. *)
Record critical_io_value : Type := mkCriticalIo {
  trace_id : string;
  critical_io_ms : Q;
  spans_count : nat;
  execution_pattern : string
}.

(** The [patterns] argument: a single string or a list of strings. *)
Inductive patterns_arg : Type :=
| PatStr (s : string)
| PatList (l : list string).

(** [if isinstance(patterns, str): patterns = [patterns]] *)
Definition normalize_patterns (patterns : patterns_arg) : list string :=
  match patterns with
  | PatStr s => [s]
  | PatList l => l
  end.

(** ** Warm-up exclusion *)

(** [_is_benchmark_trace] *)
Definition _is_benchmark_trace (tr : trace) : bool :=
  existsb (fun sp =>
    match name sp with
    | None => false
    | Some n => contains "http" (lower n) && contains "benchmark/analyze" (lower n)
    end) tr.

(** A timestamp or [float('inf')] ([None]), and the order on them. *)
Definition ts_leb (a b : option Z) : bool :=
  match a, b with
  | _, None => true
  | None, Some _ => false
  | Some x, Some y => (x <=? y)%Z
  end.

Definition ts_min (a b : option Z) : option Z := if ts_leb a b then a else b.

(** [min(span.get('timestamp', float('inf')) for span in trace)]; the
    traces it is applied to hold at least one span. *)
Definition min_start (tr : trace) : option Z :=
  match tr with
  | [] => None
  | sp :: tr' => fold_left (fun m s => ts_min m (timestamp s)) tr' (timestamp sp)
  end.

(** [trace and trace[0].get('traceId', '') in warmup_trace_ids] *)
Definition in_warmup (warmup_trace_ids : list string) (tr : trace) : bool :=
  match tr with
  | [] => false
  | sp :: _ => existsb (String.eqb (first_trace_id sp)) warmup_trace_ids
  end.

(** [{trace[0].get('traceId', '') for trace in benchmark_traces[:n]}] *)
Definition warmup_ids (sorted_benchmark : list trace) (n : Z) : list string :=
  map (fun tr => match tr with [] => EmptyString | sp :: _ => first_trace_id sp end)
      (firstn (Z.to_nat n) sorted_benchmark).

(** [_exclude_warmup_iterations]: the new object and the lines printed. *)
Definition _exclude_warmup_iterations (self : TraceParser) : TraceParser * list string :=
  let warmup_iterations := warmup_iterations self in
  if (warmup_iterations <=? 0)%Z then (self, [])
  else
    let benchmark_traces := filter _is_benchmark_trace (traces self) in
    if (Z.of_nat (List.length benchmark_traces) <=? warmup_iterations)%Z then
      (self,
       [("Warning: Only " ++ str_of_Z (Z.of_nat (List.length benchmark_traces))
          ++ " iterations found, but " ++ str_of_Z warmup_iterations
          ++ " warmup iterations to exclude")%string])
    else
      let benchmark_traces := sort_by ts_leb min_start benchmark_traces in
      let warmup_trace_ids := warmup_ids benchmark_traces warmup_iterations in
      let original_count := List.length (traces self) in
      let kept := filter (fun tr => negb (in_warmup warmup_trace_ids tr)) (traces self) in
      let excluded_count := (Z.of_nat original_count - Z.of_nat (List.length kept))%Z in
      (set_traces self kept,
       [("Excluded " ++ str_of_Z excluded_count ++ " warmup traces ("
          ++ str_of_Z warmup_iterations ++ " iterations)")%string]).

(** ** Standardized span dictionaries *)

Module StdSpan.
(** The dictionary [_create_span_dict] returns. *)
Record t : Type := mk {
  trace_id : string;
  span_name : string;
  duration_ms : Q;
  timestamp : Q;
  span_id : string;
  parent_id : string;
  tags : dict string
}.
End StdSpan.

(** [span[key]] on an optional field. *)
Definition field {A : Type} (key : string) (o : option A) : res A :=
  match o with
  | Some a => Ok a
  | None => Raise (KeyError key)
  end.

(** [_create_span_dict] *)
Definition _create_span_dict (sp : span) : res StdSpan.t :=
  trace_id <- field "traceId" (traceId sp) ;;
  span_name <- field "name" (name sp) ;;
  duration <- field "duration" (duration sp) ;;
  Ok {| StdSpan.trace_id := trace_id;
        StdSpan.span_name := span_name;
        StdSpan.duration_ms := inject_Z duration / 1000;
        StdSpan.timestamp := timestamp_ms sp;
        StdSpan.span_id := get_or (id sp) EmptyString;
        StdSpan.parent_id := get_or (parentId sp) "ROOT";
        StdSpan.tags := get_or (tags sp) [] |}.

(** The test of [_get_critical_spans] on one span: both keys are present
    and the lower-cased name starts with one of the patterns. *)
Definition is_critical_span (patterns : list string) (sp : span) : bool :=
  match name sp, duration sp with
  | Some n, Some _ => existsb (fun pattern => startswith (lower n) pattern) patterns
  | _, _ => false
  end.

(** [_get_critical_spans]: the value returned or the exception raised, and
    the object afterwards. *)
Definition _get_critical_spans (patterns : list string) (self : TraceParser)
  : res (list StdSpan.t) * TraceParser :=
  (mapM _create_span_dict (filter (is_critical_span patterns) (List.concat (traces self))), self).

(** ** Interval-union critical I/O *)

Module Interval.
(** The dictionary built for each I/O span; [merged_spans] is the key the
    merge adds. *)
Record t : Type := mk {
  start : Q;
  end_ : Q;
  duration : Q;
  span_id : string;
  span_name : string;
  merged_spans : option (list string)
}.
End Interval.

(** The body of the loop "Convert spans to intervals". *)
Definition span_interval (sp : span) : res Interval.t :=
  let start_time := timestamp_ms sp in
  let duration := duration_ms sp in
  let end_time := start_time + duration in
  match id sp with
  | None => Raise (KeyError "id")
  | Some i =>
      Ok {| Interval.start := start_time;
            Interval.end_ := end_time;
            Interval.duration := duration;
            Interval.span_id := i;
            Interval.span_name := get_or (name sp) "N/A";
            Interval.merged_spans := None |}
  end.

(** The loop of [_merge_intervals]: [merged] is the list built so far,
    [current] the open interval. *)
Fixpoint merge_loop (merged : list Interval.t) (current : Interval.t)
    (rest : list Interval.t) : list Interval.t :=
  match rest with
  | [] => merged ++ [current]
  | next :: rest' =>
      if Qle_bool (Interval.start next) (Interval.end_ current) then
        let e := pymax (Interval.end_ current) (Interval.end_ next) in
        let ms := match Interval.merged_spans current with
                  | None => [Interval.span_id current]
                  | Some l => l
                  end in
        merge_loop merged
          {| Interval.start := Interval.start current;
             Interval.end_ := e;
             Interval.duration := e - Interval.start current;
             Interval.span_id := Interval.span_id current;
             Interval.span_name := Interval.span_name current;
             Interval.merged_spans := Some (ms ++ [Interval.span_id next]) |}
          rest'
      else merge_loop (merged ++ [current]) next rest'
  end.

(** [_merge_intervals] *)
Definition _merge_intervals (intervals : list Interval.t) : list Interval.t :=
  match intervals with
  | [] => []
  | first :: rest => merge_loop [] first rest
  end.

(** The body of the loop over [self.traces] in
    [_get_critical_io_union_intervals]. *)
Definition union_intervals_of_trace (patterns : list string) (tr : trace)
  : res critical_io_value :=
  match tr with
  | [] => Ok {| trace_id := EmptyString; critical_io_ms := 0; spans_count := 0;
                execution_pattern := "no_trace" |}
  | first :: _ =>
      let io_spans := filter (name_matches patterns) tr in
      match io_spans with
      | [] => Ok {| trace_id := first_trace_id first; critical_io_ms := 0;
                    spans_count := 0; execution_pattern := "no_io_spans" |}
      | _ :: _ =>
          intervals <- mapM span_interval io_spans ;;
          let intervals := sort_by Qle_bool Interval.start intervals in
          let merged_intervals := _merge_intervals intervals in
          let total_critical_io := pysum (map Interval.duration merged_intervals) in
          Ok {| trace_id := first_trace_id first;
                critical_io_ms := total_critical_io;
                spans_count := List.length io_spans;
                execution_pattern := "union_intervals" |}
      end
  end.

(** [_get_critical_io_union_intervals]: the value returned or the exception
    raised, and the object afterwards. *)
Definition _get_critical_io_union_intervals (patterns : patterns_arg)
    (self : TraceParser) : res (list critical_io_value) * TraceParser :=
  let patterns := normalize_patterns patterns in
  (mapM (union_intervals_of_trace patterns) (traces self), self).

(** ** Recursive hierarchical aggregation *)

(** The dictionaries [{'timestamp': ..., 'duration_ms': ...}] handed to
    [_check_concurrency]. *)
Module SpanDict.
Record t : Type := mk { timestamp : Q; duration_ms : Q }.
End SpanDict.

Definition span_dict_of (sp : span) : SpanDict.t :=
  {| SpanDict.timestamp := timestamp_ms sp; SpanDict.duration_ms := duration_ms sp |}.

(** The loop of [_check_concurrency] over [sorted_spans]. *)
Fixpoint overlap_scan (sorted_spans : list SpanDict.t) : bool :=
  match sorted_spans with
  | current :: (next :: _) as rest =>
      let current_end := SpanDict.timestamp current + SpanDict.duration_ms current in
      let next_start := SpanDict.timestamp next in
      if Qlt_bool next_start current_end then true else overlap_scan rest
  | _ => false
  end.

(** [_check_concurrency] *)
Definition _check_concurrency (spans : list SpanDict.t) : bool :=
  if (List.length spans <=? 1)%nat then false
  else overlap_scan (sort_by Qle_bool SpanDict.timestamp spans).

(** [span['id']] *)
Definition span_id_of (sp : span) : res string :=
  match id sp with
  | Some i => Ok i
  | None => Raise (KeyError "id")
  end.

(** [{span['id']: span for span in trace}], continuing from [d]. *)
Fixpoint build_span_lookup (tr : trace) (d : dict span) : res (dict span) :=
  match tr with
  | [] => Ok d
  | sp :: tr' => i <- span_id_of sp ;; build_span_lookup tr' (dict_set i sp d)
  end.

(** [s.get('parentId') == span_id] *)
Definition is_child_of (span_id : string) (s : span) : bool :=
  match parentId s with
  | Some p => String.eqb p span_id
  | None => false
  end.

(** [[s for s in span_lookup.values() if s.get('parentId') == span_id]] *)
Definition children_of (span_lookup : dict span) (span_id : string) : list span :=
  filter (is_child_of span_id) (dict_values span_lookup).

(** The duration of a critical span, [0] for any other span. *)
Definition own_value (critical_patterns : list string) (sp : span) : Q :=
  if name_matches critical_patterns sp then duration_ms sp else 0.

(** The children [child] with [child_values[i] > 0], and those values. *)
Definition critical_children_of (children : list span) (child_values : list Q)
  : list span :=
  map fst (filter (fun cv => Qlt_bool 0 (snd cv)) (combine children child_values)).

Definition critical_values_of (children : list span) (child_values : list Q)
  : list Q :=
  map snd (filter (fun cv => Qlt_bool 0 (snd cv)) (combine children child_values)).

(** The part of [_aggregate_span_recursive] after the recursive calls. *)
Definition combine_values (span_value : Q) (children : list span)
    (child_values : list Q) : Q :=
  let all_values := span_value :: child_values in
  if (List.length all_values =? 1)%nat then span_value
  else
    let critical_children := critical_children_of children child_values in
    if (List.length critical_children <=? 1)%nat then pysum all_values
    else
      let child_span_dicts := map span_dict_of critical_children in
      let critical_values := critical_values_of children child_values in
      let children_aggregated :=
        if _check_concurrency child_span_dicts then
          match critical_values with
          | [] => 0
          | v :: vs => pymax_list v vs
          end
        else pysum critical_values in
      span_value + children_aggregated.

(** [_aggregate_span_recursive] *)
Fixpoint _aggregate_span_recursive (fuel : nat) (span_lookup : dict span)
    (critical_patterns : list string) (sp : span) : res Q :=
  match fuel with
  | O => OutOfFuel
  | S fuel' =>
      span_id <- span_id_of sp ;;
      let children := children_of span_lookup span_id in
      child_values <-
        mapM (_aggregate_span_recursive fuel' span_lookup critical_patterns) children ;;
      Ok (combine_values (own_value critical_patterns sp) children child_values)
  end.

(** [span.get('parentId') is None] *)
Definition is_root (sp : span) : bool :=
  match parentId sp with None => true | Some _ => false end.

(** [_calculate_final_critical_io_recursive] *)
Definition _calculate_final_critical_io_recursive (fuel : nat) (tr : trace)
    (critical_patterns : list string) : res Q :=
  span_lookup <- build_span_lookup tr [] ;;
  let root_spans := filter is_root tr in
  match root_spans with
  | [] => Ok 0
  | _ :: _ =>
      root_values <-
        mapM (_aggregate_span_recursive fuel span_lookup critical_patterns) root_spans ;;
      match root_values with
      | [v] => Ok v
      | [] => Raise IndexError
      | v :: vs =>
          if _check_concurrency (map span_dict_of root_spans)
          then Ok (pymax_list v vs)
          else Ok (pysum root_values)
      end
  end.

(** The body of the loop over [self.traces] in [_get_critical_io_by_pattern];
    [pattern_name] is ['total'] unless a single string was passed. *)
Definition critical_io_of_trace (fuel : nat) (patterns : list string)
    (pattern_name : string) (tr : trace) : res critical_io_value :=
  match tr with
  | [] => Ok {| trace_id := EmptyString; critical_io_ms := 0; spans_count := 0;
                execution_pattern := "no_trace" |}
  | first :: _ =>
      let critical_spans := filter (name_matches patterns) tr in
      match critical_spans with
      | [] =>
          let pattern_key :=
            if (List.length patterns =? 1)%nat
            then ("no_" ++ pattern_name ++ "_spans")%string
            else "no_critical_spans" in
          Ok {| trace_id := first_trace_id first; critical_io_ms := 0;
                spans_count := 0; execution_pattern := pattern_key |}
      | _ :: _ =>
          critical_io <- _calculate_final_critical_io_recursive fuel tr patterns ;;
          Ok {| trace_id := first_trace_id first;
                critical_io_ms := critical_io;
                spans_count := List.length critical_spans;
                execution_pattern := "recursive_hierarchical" |}
      end
  end.

(** [_get_critical_io_by_pattern]: the value returned or the exception
    raised, and the object afterwards. *)
Definition _get_critical_io_by_pattern (fuel : nat) (patterns : patterns_arg)
    (self : TraceParser) : res (list critical_io_value) * TraceParser :=
  let pattern_name :=
    match patterns with
    | PatStr s => s
    | PatList _ => "total"
    end in
  let patterns := normalize_patterns patterns in
  (mapM (critical_io_of_trace fuel patterns pattern_name) (traces self), self).

(** * [TraceStatistics] ([scripts/trace_statistics.py]) *)

(** [sorted(values)] *)
Definition sorted (values : list Q) : list Q := sort_by Qle_bool (fun v => v) values.

(** [l[i]]: a negative index counts from the end. *)
Definition pyindex {A : Type} (l : list A) (i : Z) : res A :=
  let n := Z.of_nat (List.length l) in
  let j := if (i <? 0)%Z then (i + n)%Z else i in
  if (j <? 0)%Z then Raise IndexError
  else match nth_error l (Z.to_nat j) with
       | Some a => Ok a
       | None => Raise IndexError
       end.

(** The result dictionary of [calculate_percentiles]: the entry of key
    [f'p{p}'] is stored under [p]. *)
Definition pdict : Type := list (Q * Q).

Fixpoint pdict_set (p v : Q) (d : pdict) : pdict :=
  match d with
  | [] => [(p, v)]
  | (p', v') :: d' =>
      if Qeq_bool p p' then (p', v) :: d' else (p', v') :: pdict_set p v d'
  end.

Fixpoint pdict_get (p : Q) (d : pdict) : option Q :=
  match d with
  | [] => None
  | (p', v') :: d' => if Qeq_bool p p' then Some v' else pdict_get p d'
  end.

(** The body of the loop [for p in percentiles]. *)
Definition percentile_value (sorted_values : list Q) (p : Q) : res Q :=
  let index := (p / 100) * inject_Z (Z.of_nat (List.length sorted_values) - 1) in
  if is_integer index then pyindex sorted_values (pyint index)
  else
    lower <- pyindex sorted_values (pyint index) ;;
    upper <- pyindex sorted_values (pyint index + 1) ;;
    Ok (lower + (upper - lower) * (index - inject_Z (pyint index))).

Fixpoint percentiles_loop (sorted_values : list Q) (percentiles : list Q)
    (result : pdict) : res pdict :=
  match percentiles with
  | [] => Ok result
  | p :: ps =>
      v <- percentile_value sorted_values p ;;
      percentiles_loop sorted_values ps (pdict_set p v result)
  end.

(** [calculate_percentiles]; [None] is the default argument. *)
Definition calculate_percentiles (values : list Q) (percentiles : option (list Q))
  : res pdict :=
  let percentiles := get_or percentiles [50; 90; 95; 99] in
  match values with
  | [] => Ok (fold_left (fun d p => pdict_set p 0 d) percentiles [])
  | _ :: _ => percentiles_loop (sorted values) percentiles []
  end.

(** [statistics.quantiles(data, n=4)] of the standard library (method
    ['exclusive']), for at least two data points. *)
Definition quantiles4 (data : list Q) : res (list Q) :=
  let data := sorted data in
  let ld := Z.of_nat (List.length data) in
  let m := (ld + 1)%Z in
  mapM (fun i =>
          let j := (i * m / 4)%Z in
          let j := if (j <? 1)%Z then 1%Z else if (ld - 1 <? j)%Z then (ld - 1)%Z else j in
          let delta := (i * m - j * 4)%Z in
          lo <- pyindex data (j - 1) ;;
          hi <- pyindex data j ;;
          Ok ((lo * inject_Z (4 - delta) + hi * inject_Z delta) / 4))
       [1%Z; 2%Z; 3%Z].

(** [min(durations)] and [max(durations)] *)
Definition list_min (l : list Q) : res Q :=
  match l with
  | [] => Raise (ValueError "min() arg is an empty sequence")
  | x :: l' => Ok (pymin_list x l')
  end.

Definition list_max (l : list Q) : res Q :=
  match l with
  | [] => Raise (ValueError "max() arg is an empty sequence")
  | x :: l' => Ok (pymax_list x l')
  end.

(** [q1] and [q3] of [analyze_performance_stability]. *)
Definition quartile_bounds (durations : list Q) : res (Q * Q) :=
  q1 <- (if (4 <=? List.length durations)%nat
         then qs <- quantiles4 durations ;; pyindex qs 0
         else list_min durations) ;;
  q3 <- (if (4 <=? List.length durations)%nat
         then qs <- quantiles4 durations ;; pyindex qs 2
         else list_max durations) ;;
  Ok (q1, q3).

(** The fence [(lower_bound, upper_bound)]. *)
Definition outlier_fence (q1 q3 : Q) : Q * Q :=
  let iqr := q3 - q1 in
  (q1 - (3 # 2) * iqr, q3 + (3 # 2) * iqr).

(** The entry ['outliers'] of the result. *)
Record outliers_info : Type := mkOutliers {
  outliers_count : nat;
  outliers_values : list Q;
  outliers_percentage : Q
}.

(** [analyze_performance_stability], restricted to the outlier check:
    [None] is the answer [{'stability': 'unknown', 'reason': 'no data'}],
    [Some o] the entry ['outliers'].  The entries ['stability'], ['reason'],
    ['coefficient_of_variation'] and ['stats'] are computed from the standard
    deviation (a square root) before the outlier check, which does not read
    them; they are not embedded. *)
Definition analyze_performance_stability (durations : list Q)
  : res (option outliers_info) :=
  match durations with
  | [] => Ok None
  | _ :: _ =>
      bounds <- quartile_bounds durations ;;
      let (lower_bound, upper_bound) := outlier_fence (fst bounds) (snd bounds) in
      let outliers :=
        filter (fun d => Qlt_bool d lower_bound || Qlt_bool upper_bound d) durations in
      Ok (Some {| outliers_count := List.length outliers;
                  outliers_values := outliers;
                  outliers_percentage :=
                    (inject_Z (Z.of_nat (List.length outliers))
                     / inject_Z (Z.of_nat (List.length durations))) * 100 |})
  end.

(** * Loading ([json] of the standard library and [_load_traces_direct]) *)

(** JSON values as [json.loads] builds them: an object is a [dict] (a
    repeated key keeps its first position and its last value), a number
    without fraction and exponent is an [int], any other number a [float],
    kept as its literal. *)
#[local] Set Warnings "-register-all".

Inductive json : Type :=
| JNull
| JBool (b : bool)
| JInt (n : Z)
| JFloat (literal : string)
| JStr (s : string)
| JArr (items : list json)
| JObj (members : dict json).

Module Json.

Definition quote : ascii := ascii_of_nat 34.
Definition backslash : ascii := ascii_of_nat 92.

Definition is_ws (c : ascii) : bool :=
  let n := nat_of_ascii c in
  ((n =? 32) || (n =? 9) || (n =? 10) || (n =? 13))%nat.

Fixpoint skip_ws (s : string) : string :=
  match s with
  | String c r => if is_ws c then skip_ws r else s
  | EmptyString => s
  end.

Definition is_digit (c : ascii) : bool :=
  let n := nat_of_ascii c in ((48 <=? n) && (n <=? 57))%nat.

Definition hex_value (c : ascii) : option nat :=
  let n := nat_of_ascii c in
  if ((48 <=? n) && (n <=? 57))%nat then Some (n - 48)%nat
  else if ((65 <=? n) && (n <=? 70))%nat then Some (n - 55)%nat
  else if ((97 <=? n) && (n <=? 102))%nat then Some (n - 87)%nat
  else None.

(** The UTF-8 bytes of a code point below 65536 (a surrogate half is
    written like any other code point). *)
Definition utf8 (cp : nat) : string :=
  if (cp <? 128)%nat then String (ascii_of_nat cp) EmptyString
  else if (cp <? 2048)%nat then
    String (ascii_of_nat (192 + cp / 64))
      (String (ascii_of_nat (128 + cp mod 64)) EmptyString)
  else
    String (ascii_of_nat (224 + cp / 4096))
      (String (ascii_of_nat (128 + (cp / 64) mod 64))
         (String (ascii_of_nat (128 + cp mod 64)) EmptyString)).

(** The characters of a string literal after its opening quote, and the
    text after its closing quote. *)
Fixpoint scan_string (s : string) : option (string * string) :=
  match s with
  | EmptyString => None
  | String c r =>
      if Ascii.eqb c quote then Some (EmptyString, r)
      else if Ascii.eqb c backslash then
        match r with
        | String e r' =>
            let simple (x : ascii) :=
              match scan_string r' with
              | Some (str, rest) => Some (String x str, rest)
              | None => None
              end in
            if Ascii.eqb e quote then simple quote
            else if Ascii.eqb e backslash then simple backslash
            else if Ascii.eqb e "/" then simple "/"%char
            else if Ascii.eqb e "b" then simple (ascii_of_nat 8)
            else if Ascii.eqb e "f" then simple (ascii_of_nat 12)
            else if Ascii.eqb e "n" then simple (ascii_of_nat 10)
            else if Ascii.eqb e "r" then simple (ascii_of_nat 13)
            else if Ascii.eqb e "t" then simple (ascii_of_nat 9)
            else if Ascii.eqb e "u" then
              match r' with
              | String h1 (String h2 (String h3 (String h4 r''))) =>
                  match hex_value h1, hex_value h2, hex_value h3, hex_value h4 with
                  | Some a, Some b, Some c', Some d =>
                      match scan_string r'' with
                      | Some (str, rest) =>
                          Some ((utf8 (((a * 16 + b) * 16 + c') * 16 + d) ++ str)%string,
                                rest)
                      | None => None
                      end
                  | _, _, _, _ => None
                  end
              | _ => None
              end
            else None
        | EmptyString => None
        end
      else if (nat_of_ascii c <? 32)%nat then None
      else
        match scan_string r with
        | Some (str, rest) => Some (String c str, rest)
        | None => None
        end
  end.

(** The longest run of digits at the head of [s], and the rest. *)
Fixpoint take_digits (s : string) : string * string :=
  match s with
  | String c r =>
      if is_digit c then let (ds, rest) := take_digits r in (String c ds, rest)
      else (EmptyString, s)
  | EmptyString => (EmptyString, s)
  end.

Fixpoint digits_value (ds : string) (acc : Z) : Z :=
  match ds with
  | String c r => digits_value r (acc * 10 + Z.of_nat (nat_of_ascii c - 48))%Z
  | EmptyString => acc
  end.

(** The optional fraction (a dot and at least one digit) and the optional
    exponent (e or E, an optional sign and at least one digit): the text
    matched and the rest. *)
Definition scan_frac (s : string) : string * string :=
  match s with
  | String c r =>
      if Ascii.eqb c "." then
        match take_digits r with
        | (EmptyString, _) => (EmptyString, s)
        | (ds, rest) => (String c ds, rest)
        end
      else (EmptyString, s)
  | EmptyString => (EmptyString, s)
  end.

Definition scan_exp (s : string) : string * string :=
  match s with
  | String c r =>
      if Ascii.eqb c "e" || Ascii.eqb c "E" then
        let (sign, r1) :=
          match r with
          | String c1 r' =>
              if Ascii.eqb c1 "+" || Ascii.eqb c1 "-"
              then (String c1 EmptyString, r') else (EmptyString, r)
          | EmptyString => (EmptyString, r)
          end in
        match take_digits r1 with
        | (EmptyString, _) => (EmptyString, s)
        | (ds, rest) => (String c (sign ++ ds)%string, rest)
        end
      else (EmptyString, s)
  | EmptyString => (EmptyString, s)
  end.

(** A number: an optional minus sign, [0] or a digit from 1 to 9 followed
    by digits, then an optional fraction and an optional exponent. *)
Definition scan_number (s : string) : option (json * string) :=
  let (negative, s1) :=
    match s with
    | String c r => if Ascii.eqb c "-" then (true, r) else (false, s)
    | EmptyString => (false, s)
    end in
  let integer :=
    match s1 with
    | String c r =>
        if Ascii.eqb c "0" then Some (String c EmptyString, r)
        else if is_digit c then
          let (ds, rest) := take_digits r in Some (String c ds, rest)
        else None
    | EmptyString => None
    end in
  match integer with
  | None => None
  | Some (ds, rest) =>
      let (frac, rest1) := scan_frac rest in
      let (exp, rest2) := scan_exp rest1 in
      match frac, exp with
      | EmptyString, EmptyString =>
          Some (JInt (if negative then - digits_value ds 0 else digits_value ds 0)%Z,
                rest2)
      | _, _ =>
          Some (JFloat ((if negative then "-" else EmptyString) ++ ds ++ frac ++ exp)%string,
                rest2)
      end
  end.

(** [prefix p s] and the text after [p]. *)
Definition strip_prefix (p s : string) : option string :=
  if prefix p s then Some (substring (String.length p) (String.length s - String.length p) s)
  else None.

(** The scanner: a value at the head of [s] and the text after it;
    [scan_items] and [scan_members] read the rest of an array after an
    element boundary and the rest of an object before a key. *)
Fixpoint scan_value (fuel : nat) (s : string) : option (json * string) :=
  match fuel with
  | O => None
  | S fuel' =>
      match s with
      | EmptyString => None
      | String c r =>
          if Ascii.eqb c quote then
            match scan_string r with
            | Some (str, rest) => Some (JStr str, rest)
            | None => None
            end
          else if Ascii.eqb c "{" then
            match skip_ws r with
            | String c1 r1 =>
                if Ascii.eqb c1 "}" then Some (JObj [], r1)
                else scan_members fuel' (String c1 r1) []
            | EmptyString => None
            end
          else if Ascii.eqb c "[" then
            match skip_ws r with
            | String c1 r1 =>
                if Ascii.eqb c1 "]" then Some (JArr [], r1)
                else scan_items fuel' (String c1 r1) []
            | EmptyString => None
            end
          else
            match strip_prefix "null" s, strip_prefix "true" s, strip_prefix "false" s with
            | Some rest, _, _ => Some (JNull, rest)
            | _, Some rest, _ => Some (JBool true, rest)
            | _, _, Some rest => Some (JBool false, rest)
            | _, _, _ =>
                match strip_prefix "NaN" s, strip_prefix "Infinity" s,
                      strip_prefix "-Infinity" s with
                | Some rest, _, _ => Some (JFloat "NaN", rest)
                | _, Some rest, _ => Some (JFloat "Infinity", rest)
                | _, _, Some rest => Some (JFloat "-Infinity", rest)
                | _, _, _ => scan_number s
                end
            end
      end
  end
with scan_items (fuel : nat) (s : string) (acc : list json) : option (json * string) :=
  match fuel with
  | O => None
  | S fuel' =>
      match scan_value fuel' s with
      | None => None
      | Some (v, rest) =>
          match skip_ws rest with
          | String c r =>
              if Ascii.eqb c "]" then Some (JArr (acc ++ [v]), r)
              else if Ascii.eqb c "," then scan_items fuel' (skip_ws r) (acc ++ [v])
              else None
          | EmptyString => None
          end
      end
  end
with scan_members (fuel : nat) (s : string) (acc : dict json) : option (json * string) :=
  match fuel with
  | O => None
  | S fuel' =>
      match s with
      | String q r =>
          if Ascii.eqb q quote then
            match scan_string r with
            | None => None
            | Some (key, rest) =>
                match skip_ws rest with
                | String colon r1 =>
                    if Ascii.eqb colon ":" then
                      match scan_value fuel' (skip_ws r1) with
                      | None => None
                      | Some (v, rest1) =>
                          match skip_ws rest1 with
                          | String c r2 =>
                              if Ascii.eqb c "}" then Some (JObj (dict_set key v acc), r2)
                              else if Ascii.eqb c ","
                              then scan_members fuel' (skip_ws r2) (dict_set key v acc)
                              else None
                          | EmptyString => None
                          end
                      end
                    else None
                | EmptyString => None
                end
            end
          else None
      | EmptyString => None
      end
  end.

(** [json.loads(s)] for a string [s]; [None] is [json.JSONDecodeError]. *)
Definition loads (s : string) : option json :=
  match scan_value (2 * String.length s + 2) (skip_ws s) with
  | Some (v, rest) =>
      match skip_ws rest with
      | EmptyString => Some v
      | String _ _ => None
      end
  | None => None
  end.

End Json.

(** The files [open] can read: contents by path, already decoded; the
    encoding ['utf-8-sig'] drops a leading byte-order mark. *)
Definition filesystem : Type := dict string.

Definition strip_bom (s : string) : string :=
  match s with
  | String a (String b (String c r)) =>
      if ((nat_of_ascii a =? 239) && (nat_of_ascii b =? 187) && (nat_of_ascii c =? 191))%nat
      then r else s
  | _ => s
  end.

(** [_load_traces_direct]: every exception of the [try] block is raised
    again as a [ValueError]; the text of the cause is left out of the
    message. *)
Definition _load_traces_direct (fs : filesystem) (self : TraceParser) : res json :=
  let failed := Raise (ValueError ("Failed to load traces from " ++ trace_file_path self)%string) in
  match dict_get (trace_file_path self) fs with
  | None => failed
  | Some content =>
      match Json.loads (strip_bom content) with
      | None => failed
      | Some (JObj members) =>
          match get_or (dict_get "rawData" members) (JStr "[]") with
          | JStr raw =>
              match Json.loads raw with
              | Some v => Ok v
              | None => failed
              end
          | _ => failed
          end
      | Some _ => failed
      end
  end.

(** * Reference notions used in the statements *)

(** ** The union of the intervals of a trace, measured in microseconds *)

(** The interval [[start, start + duration)] of a span, in microseconds. *)
Definition span_bounds (sp : span) : Z * Z :=
  (get_or (timestamp sp) 0%Z, (get_or (timestamp sp) 0 + get_or (duration sp) 0)%Z).

(** The instant [t] lies in one of the intervals. *)
Definition covers (ivs : list (Z * Z)) (t : Z) : bool :=
  existsb (fun iv => (fst iv <=? t)%Z && (t <? snd iv)%Z) ivs.

(** The number of instants [lo, lo + 1, ..., lo + n - 1] that satisfy [P]. *)
Fixpoint count_from (P : Z -> bool) (lo : Z) (n : nat) : Z :=
  match n with
  | O => 0%Z
  | S n' => ((if P lo then 1 else 0) + count_from P (lo + 1) n')%Z
  end.

(** The number of instants of [[lo, hi)] that satisfy [P]. *)
Definition measure (P : Z -> bool) (lo hi : Z) : Z :=
  count_from P lo (Z.to_nat (hi - lo)).

Definition lowest_start (ivs : list (Z * Z)) : Z :=
  match ivs with
  | [] => 0%Z
  | iv :: ivs' => fold_left Z.min (map fst ivs') (fst iv)
  end.

Definition highest_end (ivs : list (Z * Z)) : Z :=
  match ivs with
  | [] => 0%Z
  | iv :: ivs' => fold_left Z.max (map snd ivs') (snd iv)
  end.

(** The total length of the union of the intervals: the number of
    microsecond instants that lie in at least one of them. *)
Definition union_length (ivs : list (Z * Z)) : Z :=
  measure (covers ivs) (lowest_start ivs) (highest_end ivs).


(** The merge of [_merge_intervals] on integer bounds: the total length of
    the merged intervals when [(cs, ce)] is the open interval. *)
Fixpoint merged_total (cs ce : Z) (ivs : list (Z * Z)) : Z :=
  match ivs with
  | [] => (ce - cs)%Z
  | (s, e) :: ivs' =>
      if (s <=? ce)%Z then merged_total cs (Z.max ce e) ivs'
      else (ce - cs + merged_total s e ivs')%Z
  end.

(** The spans the interval-union calculator and the aggregator select. *)
Definition io_spans_of (patterns : list string) (tr : trace) : list span :=
  filter (name_matches patterns) tr.

(** A selected span the data model admits: it carries an [id] and its
    duration is not negative. *)
Definition wf_io_span (sp : span) : Prop :=
  id sp <> None /\ (0 <= get_or (duration sp) 0)%Z.

(** The interval dictionary of a span that carries an [id]. *)
Definition interval_of (sp : span) : Interval.t :=
  {| Interval.start := timestamp_ms sp;
     Interval.end_ := timestamp_ms sp + duration_ms sp;
     Interval.duration := duration_ms sp;
     Interval.span_id := get_or (id sp) EmptyString;
     Interval.span_name := get_or (name sp) "N/A";
     Interval.merged_spans := None |}.

(** An interval dictionary in milliseconds stands for integer bounds in
    microseconds. *)
Definition represents (iv : Interval.t) (b : Z * Z) : Prop :=
  Interval.start iv == inject_Z (fst b) / 1000 /\
  Interval.end_ iv == inject_Z (snd b) / 1000 /\
  Interval.duration iv == inject_Z (snd b - fst b) / 1000.

(** Every interval lies in the window [[lo, hi)]. *)
Definition within (lo hi : Z) (zs : list (Z * Z)) : Prop :=
  Forall (fun z => (lo <= fst z)%Z /\ (snd z <= hi)%Z) zs.

(** ** Warm-up exclusion as the specification words it *)

(** The qualifying traces, earliest first. *)
Definition qualifying_sorted (ts : list trace) : list trace :=
  sort_by ts_leb min_start (filter _is_benchmark_trace ts).

(** The working set without the traces that share a trace identifier with
    one of the first [n] qualifying traces. *)
Definition without_warmup (n : Z) (ts : list trace) : list trace :=
  filter (fun tr => negb (in_warmup (warmup_ids (qualifying_sorted ts) n) tr)) ts.

(** ** The recursion of the aggregator and the spans it visits *)

(** [_aggregate_span_recursive] instrumented: the value, and the spans in
    the order in which their calls return. *)
Fixpoint aggregate_traced (fuel : nat) (span_lookup : dict span)
    (critical_patterns : list string) (sp : span) : res (Q * list span) :=
  match fuel with
  | O => OutOfFuel
  | S fuel' =>
      span_id <- span_id_of sp ;;
      let children := children_of span_lookup span_id in
      rs <- mapM (aggregate_traced fuel' span_lookup critical_patterns) children ;;
      Ok (combine_values (own_value critical_patterns sp) children (map fst rs),
          List.concat (map snd rs) ++ [sp])
  end.

(** The root-level aggregation of [_calculate_final_critical_io_recursive]. *)
Definition combine_roots (root_spans : list span) (root_values : list Q) : res Q :=
  match root_values with
  | [v] => Ok v
  | [] => Raise IndexError
  | v :: vs =>
      if _check_concurrency (map span_dict_of root_spans)
      then Ok (pymax_list v vs)
      else Ok (pysum root_values)
  end.

(** [_calculate_final_critical_io_recursive] instrumented in the same way. *)
Definition calculate_traced (fuel : nat) (tr : trace) (critical_patterns : list string)
  : res (Q * list span) :=
  span_lookup <- build_span_lookup tr [] ;;
  let root_spans := filter is_root tr in
  match root_spans with
  | [] => Ok (0, [])
  | _ :: _ =>
      rs <- mapM (aggregate_traced fuel span_lookup critical_patterns) root_spans ;;
      v <- combine_roots root_spans (map fst rs) ;;
      Ok (v, List.concat (map snd rs))
  end.

(** [c] names [p] as its parent. *)
Definition child_of (c p : span) : Prop :=
  exists i, parentId c = Some i /\ id p = Some i.

(** The parent chain of a span reaches a root in [n] steps. *)
Inductive depth (tr : trace) : span -> nat -> Prop :=
| depth_root sp : In sp tr -> parentId sp = None -> depth tr sp 0
| depth_child sp p n :
    In sp tr -> In p tr -> child_of sp p -> depth tr p n -> depth tr sp (S n).

(** [x] lies [k] parent links below [a]. *)
Inductive descends (tr : trace) : span -> span -> nat -> Prop :=
| descends_self a : In a tr -> descends tr a a 0
| descends_step a c x k :
    In a tr -> In c tr -> child_of c a -> descends tr c x k -> descends tr a x (S k).

(** The parent links of a trace form a forest: every span carries an id,
    the ids are pairwise distinct, and every parent chain reaches a root. *)
Definition forest (tr : trace) : Prop :=
  Forall (fun sp => id sp <> None) tr /\
  NoDup (map id tr) /\
  forall sp, In sp tr -> exists n, depth tr sp n.

(** [x] occurs before [y] in [l]. *)
Definition before {A : Type} (x y : A) (l : list A) : Prop :=
  exists l1 l2 l3, l = l1 ++ x :: l2 ++ y :: l3.

(** ** Concurrent and sequential children as the specification words them *)

(** After sorting by start timestamp, some span starts strictly before the
    end of the previous one. *)
Definition concurrent (spans : list span) : Prop :=
  exists l1 prev next l2,
    sort_by Qle_bool timestamp_ms spans = l1 ++ prev :: next :: l2 /\
    timestamp_ms next < timestamp_ms prev + duration_ms prev.

(** [m] is the greatest element of [l]. *)
Definition greatest (m : Q) (l : list Q) : Prop :=
  In m l /\ Forall (fun v => v <= m) l.

(** The children with a non-zero computed value, with these values. *)
Definition nonzero_children (children : list span) (child_values : list Q)
  : list (span * Q) :=
  filter (fun cv => negb (Qeq_bool (snd cv) 0)) (combine children child_values).

(** The list [vis] holds the spans of the subtree of [sp], each once, every
    span after its children. *)
Definition visits_subtree (tr : trace) (sp : span) (vis : list span) : Prop :=
  (forall x, In x vis <-> exists k, descends tr sp x k) /\
  NoDup vis /\
  (forall c p, In p vis -> In c tr -> child_of c p -> before c p vis).

(** ** Percentiles as the specification words them *)

(** The fractional rank of percentile [p] among [n] values. *)
Definition fractional_rank (n : nat) (p : Q) : Q :=
  (p / 100) * inject_Z (Z.of_nat n - 1).

(** [v] is the percentile [p] of the ascending list [s]: the order
    statistic at the fractional rank if the rank is an integer, else the
    interpolation between the order statistics at its floor and ceiling. *)
Definition is_percentile (s : list Q) (p v : Q) : Prop :=
  let idx := fractional_rank (List.length s) p in
  let k := Z.to_nat (Qfloor idx) in
  (k < List.length s)%nat /\
  (idx == inject_Z (Qfloor idx) -> v == nth k s 0) /\
  (~ idx == inject_Z (Qfloor idx) ->
   (S k < List.length s)%nat /\
   v == nth k s 0 + (nth (S k) s 0 - nth k s 0) * (idx - inject_Z (Qfloor idx))).

(** [m] is the least element of [l]. *)
Definition least (m : Q) (l : list Q) : Prop :=
  In m l /\ Forall (fun v => m <= v) l.

(** ** Loading as the specification words it *)

(** Loading has something to fail on: the file cannot be read, its text is
    not JSON, the wrapper is not an object, or the wrapper has a [rawData]
    entry that is not a string holding JSON text. *)
Definition load_fails (fs : filesystem) (self : TraceParser) : Prop :=
  dict_get (trace_file_path self) fs = None \/
  exists content,
    dict_get (trace_file_path self) fs = Some content /\
    (Json.loads (strip_bom content) = None \/
     (exists w, Json.loads (strip_bom content) = Some w /\ forall m, w <> JObj m) \/
     (exists members payload,
         Json.loads (strip_bom content) = Some (JObj members) /\
         dict_get "rawData" members = Some payload /\
         forall raw, payload = JStr raw -> Json.loads raw = None)).


(** * Sample inputs *)

Definition sample_union_parser : TraceParser :=
  {| trace_file_path := "raw-zipkin-traces.json";
     warmup_iterations := 0;
     traces :=
       [ [ mkSpan (Some "t1") (Some "a") None (Some "GET /benchmark") (Some 1000%Z) (Some 9000%Z) None;
           mkSpan (Some "t1") (Some "b") (Some "a") (Some "Gmail.list") (Some 2000%Z) (Some 3000%Z) None;
           mkSpan (Some "t1") (Some "c") (Some "a") (Some "gmail.get") (Some 4000%Z) (Some 2500%Z) None ];
         [] ] |}.


(** Two traces; the selected span of the first one has no [id]. *)
Definition sample_missing_id_parser : TraceParser :=
  {| trace_file_path := "raw-zipkin-traces.json";
     warmup_iterations := 0;
     traces :=
       [ [ mkSpan (Some "t1") None None (Some "gmail.list") (Some 1000%Z) (Some 5000%Z) None ];
         [ mkSpan (Some "t2") (Some "b") None (Some "gmail.get") (Some 2000%Z) (Some 3000%Z) None ] ] |}.

(** One trace; its selected span has neither [id] nor [traceId]. *)
Definition sample_anonymous_parser : TraceParser :=
  {| trace_file_path := "raw-zipkin-traces.json";
     warmup_iterations := 0;
     traces :=
       [ [ mkSpan None None None (Some "gmail.list") (Some 1000%Z) (Some 5000%Z) None ] ] |}.

Definition benchmark_span (trace_id : string) (start : Z) : span :=
  mkSpan (Some trace_id) (Some "root") None (Some "http post /benchmark/analyze")
         (Some start) (Some 9000%Z) None.

(** One qualifying trace and a warm-up count of one. *)
Definition sample_warmup_all : TraceParser :=
  {| trace_file_path := "raw-zipkin-traces.json";
     warmup_iterations := 1;
     traces := [ [ benchmark_span "t1" 1000 ] ] |}.

(** Three qualifying traces (the second in the list starts first), one other
    trace, and a warm-up count of two. *)
Definition sample_warmup : TraceParser :=
  {| trace_file_path := "raw-zipkin-traces.json";
     warmup_iterations := 2;
     traces :=
       [ [ benchmark_span "t1" 5000 ];
         [ benchmark_span "t2" 1000 ];
         [ mkSpan (Some "t9") (Some "x") None (Some "scheduler tick") (Some 10%Z) (Some 5%Z) None ];
         [ benchmark_span "t3" 9000 ] ] |}.

(** A trace whose only span names a parent that is not in the trace. *)
Definition sample_orphan_trace : trace :=
  [ mkSpan (Some "t1") (Some "a") (Some "zz") (Some "gmail.list")
           (Some 1000%Z) (Some 5000%Z) None ].

(** A root that is not critical with two critical children of 100 ms and
    150 ms that start at [t1] and [t2] microseconds. *)
Definition two_children_trace (t1 t2 : Z) : trace :=
  [ mkSpan (Some "t1") (Some "r") None (Some "http post /benchmark/analyze")
           (Some 0%Z) (Some 900000%Z) None;
    mkSpan (Some "t1") (Some "a") (Some "r") (Some "gmail.list")
           (Some t1) (Some 100000%Z) None;
    mkSpan (Some "t1") (Some "b") (Some "r") (Some "gmail.get")
           (Some t2) (Some 150000%Z) None ].

Definition sample_tree_parser : TraceParser :=
  {| trace_file_path := "raw-zipkin-traces.json";
     warmup_iterations := 0;
     traces := [ two_children_trace 1000 50000; two_children_trace 1000 200000; [] ] |}.

(** The lookup table of [two_children_trace 1000 50000] and its root. *)
Definition sample_tree_lookup : dict span :=
  match build_span_lookup (two_children_trace 1000 50000) [] with
  | Ok d => d
  | _ => []
  end.

Definition sample_tree_root : span :=
  mkSpan (Some "t1") (Some "r") None (Some "http post /benchmark/analyze")
         (Some 0%Z) (Some 900000%Z) None.

(** A root with a child and a grandchild, listed leaf first. *)
Definition sample_chain_trace : trace :=
  [ mkSpan (Some "t1") (Some "c") (Some "b") (Some "gmail.get")
           (Some 3000%Z) (Some 2000%Z) None;
    mkSpan (Some "t1") (Some "b") (Some "a") (Some "analyze account")
           (Some 2000%Z) (Some 5000%Z) None;
    mkSpan (Some "t1") (Some "a") None (Some "http post /benchmark/analyze")
           (Some 1000%Z) (Some 9000%Z) None ].

(** A file system with one file, a wrapper object without entries. *)
Definition sample_empty_wrapper : filesystem := [("raw-zipkin-traces.json", "{}")].

Definition sample_loader : TraceParser :=
  {| trace_file_path := "raw-zipkin-traces.json"; warmup_iterations := 0; traces := [] |}.

(** A wrapper whose payload holds one trace of one span; [q] is the
    quotation mark and [e] an escaped quotation mark inside the payload. *)
Definition sample_wrapper_text : string :=
  let q := String Json.quote EmptyString in
  let e := String Json.backslash q in
  ("{" ++ q ++ "rawData" ++ q ++ ": " ++ q
   ++ "[[{" ++ e ++ "id" ++ e ++ ": " ++ e ++ "a" ++ e ++ ", "
   ++ e ++ "duration" ++ e ++ ": 5000}]]" ++ q ++ "}")%string.

(** * Further notions used in the statements *)

(** An instant (in milliseconds) lies in one of the interval dictionaries. *)
Definition covered_by (ivs : list Interval.t) (t : Q) : Prop :=
  exists iv, In iv ivs /\ Interval.start iv <= t /\ t < Interval.end_ iv.


(** The matched time along a chain of parent links: [chain_value ps tr a x q]
    when [x] lies below [a] (or is [a]) and [q] is the sum of the durations
    of the spans from [a] down to [x] whose name matches [ps]. *)
Inductive chain_value (ps : list string) (tr : trace) : span -> span -> Q -> Prop :=
| chain_self a : In a tr -> chain_value ps tr a a (own_value ps a)
| chain_step a c x q :
    In a tr -> In c tr -> child_of c a -> chain_value ps tr c x q ->
    chain_value ps tr a x (own_value ps a + q).

(** The trace identifiers of the non-empty traces of a working set, each
    read from the first span as the warm-up exclusion reads it. *)
Definition trace_ids (ts : list trace) : list string :=
  flat_map (fun tr => match tr with [] => [] | sp :: _ => [first_trace_id sp] end) ts.

(** The string holds an upper-case ASCII letter. *)
Definition is_upper (c : ascii) : bool :=
  ((65 <=? nat_of_ascii c) && (nat_of_ascii c <=? 90))%nat.

Definition has_upper (s : string) : bool := existsb is_upper (list_ascii_of_string s).


(** * More of [TraceParser] *)

(** [get_gmail_api_critical_io], [get_ai_api_critical_io] and
    [get_total_critical_io] *)
Definition get_gmail_api_critical_io (self : TraceParser)
  : res (list critical_io_value) * TraceParser :=
  _get_critical_io_union_intervals (PatList ["gmail"]) self.

Definition get_ai_api_critical_io (self : TraceParser)
  : res (list critical_io_value) * TraceParser :=
  _get_critical_io_union_intervals (PatList ["chat"]) self.

Definition get_total_critical_io (self : TraceParser)
  : res (list critical_io_value) * TraceParser :=
  _get_critical_io_union_intervals (PatList ["gmail"; "chat"]) self.

(** The test of [_filter_spans_by_pattern] on one span. *)
Definition matches_pattern (pattern : string) (startswith_ : bool) (sp : span) : bool :=
  match name sp, duration sp with
  | Some n, Some _ =>
      let name_lower := lower n in
      let pattern_lower := lower pattern in
      (startswith_ && startswith name_lower pattern_lower)
      || (negb startswith_ && contains pattern_lower name_lower)
  | _, _ => false
  end.

(** [_filter_spans_by_pattern]: the value returned or the exception raised,
    and the object afterwards. *)
Definition _filter_spans_by_pattern (pattern : string) (startswith_ : bool)
    (self : TraceParser) : res (list StdSpan.t) * TraceParser :=
  (mapM _create_span_dict
        (filter (matches_pattern pattern startswith_) (List.concat (traces self))),
   self).

(** [get_spans_by_name] and [get_benchmark_requests] *)
Definition get_spans_by_name (span_name : string) (self : TraceParser)
  : res (list StdSpan.t) * TraceParser :=
  _filter_spans_by_pattern span_name false self.

Definition get_benchmark_requests (self : TraceParser)
  : res (list StdSpan.t) * TraceParser :=
  _filter_spans_by_pattern "benchmark/analyze" false self.

(** ** The unified recursive aggregation *)

(** [span_name.startswith('gmail') or span_name.startswith('chat')], and
    [startswith(('gmail', 'chat'))], on the lower-cased name. *)
Definition is_io_name (sp : span) : bool :=
  let span_name := lower (get_or (name sp) EmptyString) in
  startswith span_name "gmail" || startswith span_name "chat".

(** [_aggregate_unified_span_recursive]; the statements after the choice of
    [span_value] are those of [_aggregate_span_recursive]. *)
Fixpoint _aggregate_unified_span_recursive (fuel : nat) (span_lookup : dict span)
    (sp : span) : res Q :=
  match fuel with
  | O => OutOfFuel
  | S fuel' =>
      span_id <- span_id_of sp ;;
      let children := children_of span_lookup span_id in
      child_values <-
        mapM (_aggregate_unified_span_recursive fuel' span_lookup) children ;;
      let span_value := if is_io_name sp then duration_ms sp else 0 in
      Ok (combine_values span_value children child_values)
  end.

(** [_calculate_unified_critical_io_recursive] *)
Definition _calculate_unified_critical_io_recursive (fuel : nat) (tr : trace) : res Q :=
  span_lookup <- build_span_lookup tr [] ;;
  let root_spans := filter is_root tr in
  match root_spans with
  | [] => Ok 0
  | _ :: _ =>
      root_values <-
        mapM (_aggregate_unified_span_recursive fuel span_lookup) root_spans ;;
      match root_values with
      | [v] => Ok v
      | [] => Raise IndexError
      | v :: vs =>
          if _check_concurrency (map span_dict_of root_spans)
          then Ok (pymax_list v vs)
          else Ok (pysum root_values)
      end
  end.

(** The body of the loop over [self.traces] in [_get_unified_critical_io]. *)
Definition unified_of_trace (fuel : nat) (tr : trace) : res critical_io_value :=
  match tr with
  | [] => Ok {| trace_id := EmptyString; critical_io_ms := 0; spans_count := 0;
                execution_pattern := "no_trace" |}
  | first :: _ =>
      let io_spans := filter is_io_name tr in
      match io_spans with
      | [] => Ok {| trace_id := first_trace_id first; critical_io_ms := 0;
                    spans_count := 0; execution_pattern := "no_io_spans" |}
      | _ :: _ =>
          critical_io <- _calculate_unified_critical_io_recursive fuel tr ;;
          Ok {| trace_id := first_trace_id first;
                critical_io_ms := critical_io;
                spans_count := List.length io_spans;
                execution_pattern := "unified_recursive_hierarchical" |}
      end
  end.

(** [_get_unified_critical_io]: the value returned or the exception raised,
    and the object afterwards. *)
Definition _get_unified_critical_io (fuel : nat) (self : TraceParser)
  : res (list critical_io_value) * TraceParser :=
  (mapM (unified_of_trace fuel) (traces self), self).

(** The label [_get_unified_critical_io] writes where
    [_get_critical_io_by_pattern] writes [label] for a list of two patterns. *)
Definition unified_label (label : string) : string :=
  if String.eqb label "recursive_hierarchical" then "unified_recursive_hierarchical"
  else if String.eqb label "no_critical_spans" then "no_io_spans"
  else label.

Definition relabel_unified (r : critical_io_value) : critical_io_value :=
  {| trace_id := trace_id r;
     critical_io_ms := critical_io_ms r;
     spans_count := spans_count r;
     execution_pattern := unified_label (execution_pattern r) |}.

(** * Trace data processing ([scripts/dataUtils.py]) *)

(** [is_benchmark_span] *)
Definition is_benchmark_span (sp : span) : bool :=
  match name sp, duration sp with
  | Some n, Some _ => contains "http" (lower n) && contains "benchmark/analyze" (lower n)
  | _, _ => false
  end.

(** [count_benchmark_traces]: the sum of the truth values. *)
Definition count_benchmark_traces (traces : list trace) : Z :=
  fold_left (fun acc tr => (acc + (if existsb is_benchmark_span tr then 1 else 0))%Z)
            traces 0%Z.

(** [calculate_average]; the result [None] is Python's [None]. *)
Definition calculate_average (values : list Q) (filter_zeros : bool) : option Q :=
  match values with
  | [] => None
  | _ :: _ =>
      let filtered_values :=
        filter (fun v => negb filter_zeros || Qlt_bool 0 v) values in
      match filtered_values with
      | [] => None
      | _ :: _ =>
          Some (pysum filtered_values / inject_Z (Z.of_nat (List.length filtered_values)))
      end
  end.

(** The dictionary [{'duration_ms': ...}] of [extract_benchmark_spans]. *)
Module BenchmarkSpan.
Record t : Type := mk { duration_ms : Q }.
End BenchmarkSpan.

(** [extract_benchmark_spans] *)
Definition extract_benchmark_spans (traces : list trace) : res (list BenchmarkSpan.t) :=
  mapM (fun sp =>
          d <- field "duration" (duration sp) ;;
          Ok {| BenchmarkSpan.duration_ms := inject_Z d / 1000 |})
       (filter is_benchmark_span (List.concat traces)).

(** * More of [TraceStatistics] *)

(** [statistics.mean], [statistics.median] and [statistics.variance] of the
    standard library; [statistics.StatisticsError] is a [ValueError]. *)
Definition mean (data : list Q) : res Q :=
  match data with
  | [] => Raise (ValueError "mean requires at least one data point")
  | _ :: _ => Ok (pysum data / inject_Z (Z.of_nat (List.length data)))
  end.

Definition median (data : list Q) : res Q :=
  let data := sorted data in
  let n := Z.of_nat (List.length data) in
  if (n =? 0)%Z then Raise (ValueError "no median for empty data")
  else if (n mod 2 =? 1)%Z then pyindex data (n / 2)
  else
    let i := (n / 2)%Z in
    lo <- pyindex data (i - 1) ;;
    hi <- pyindex data i ;;
    Ok ((lo + hi) / 2).

Definition variance (data : list Q) : res Q :=
  let n := Z.of_nat (List.length data) in
  if (n <? 2)%Z then Raise (ValueError "variance requires at least two data points")
  else
    xbar <- mean data ;;
    Ok (pysum (map (fun x => (x - xbar) * (x - xbar)) data) / inject_Z (n - 1)).

(** The dictionary [calculate_basic_stats] returns, without its entry
    ['std_dev'] (the square root of ['variance']). *)
Module BasicStats.
Record t : Type := mk {
  count : nat;
  mean : Q;
  median : Q;
  min : Q;
  max : Q;
  range : Q;
  variance : Q
}.
End BasicStats.

(** [calculate_basic_stats] *)
Definition calculate_basic_stats (values : list Q) : res BasicStats.t :=
  match values with
  | [] => Ok {| BasicStats.count := 0; BasicStats.mean := 0; BasicStats.median := 0;
                BasicStats.min := 0; BasicStats.max := 0; BasicStats.range := 0;
                BasicStats.variance := 0 |}
  | _ :: _ =>
      mean_ <- mean values ;;
      median_ <- median values ;;
      min_ <- list_min values ;;
      max_ <- list_max values ;;
      variance_ <- (if (1 <? List.length values)%nat then variance values else Ok 0) ;;
      Ok {| BasicStats.count := List.length values;
            BasicStats.mean := mean_;
            BasicStats.median := median_;
            BasicStats.min := min_;
            BasicStats.max := max_;
            BasicStats.range := max_ - min_;
            BasicStats.variance := variance_ |}
  end.

(** * Token usage ([get_ai_token_usage]) *)

(** The counters of the loop over the spans of a trace. *)
Record token_counts : Type := mkTokens {
  total_tokens : Z;
  input_tokens : Z;
  output_tokens : Z
}.

(** The record appended to [token_usage_values] for each benchmark trace. *)
Module TokenUsage.
Record t : Type := mk {
  trace_id : string;
  counts : token_counts;
  ai_spans_with_tokens : nat
}.
End TokenUsage.

(** The functions below take Python's [int] on strings as the argument
    [int_]: [int_ s = None] when [int(s)] raises [ValueError]. *)

(** [if key in span['tags']: try: count += int(span['tags'][key])]: the new
    counter, or [None] when the [except] branch is taken. *)
Definition add_tag (int_ : string -> option Z) (tags_ : dict string) (key : string)
    (count : Z) : option Z :=
  match dict_get key tags_ with
  | None => Some count
  | Some s =>
      match int_ s with
      | Some k => Some (count + k)%Z
      | None => None
      end
  end.

(** ['name' in span and 'tags' in span and
    span['name'].lower().startswith('chat')] *)
Definition is_chat_span (sp : span) : bool :=
  match name sp, tags sp with
  | Some n, Some _ => startswith (lower n) "chat"
  | _, _ => false
  end.

(** One iteration of [for span in trace]; [continue] in an [except] branch
    leaves the body with the counters as they are at that point. *)
Definition count_span (int_ : string -> option Z) (c : token_counts) (sp : span)
  : token_counts :=
  if is_chat_span sp then
    let tags_ := get_or (tags sp) [] in
    match add_tag int_ tags_ "gen_ai.usage.total_tokens" (total_tokens c) with
    | None => c
    | Some t =>
        match add_tag int_ tags_ "gen_ai.usage.input_tokens" (input_tokens c) with
        | None => {| total_tokens := t; input_tokens := input_tokens c;
                     output_tokens := output_tokens c |}
        | Some i =>
            match add_tag int_ tags_ "gen_ai.usage.output_tokens" (output_tokens c) with
            | None => {| total_tokens := t; input_tokens := i;
                         output_tokens := output_tokens c |}
            | Some o => {| total_tokens := t; input_tokens := i; output_tokens := o |}
            end
        end
    end
  else c.

(** The test of the list comprehension for ['ai_spans_with_tokens']. *)
Definition has_total_tag (sp : span) : bool :=
  is_chat_span sp &&
  match dict_get "gen_ai.usage.total_tokens" (get_or (tags sp) []) with
  | Some _ => true
  | None => false
  end.

(** The body of the loop over the benchmark traces. *)
Definition token_usage_of_trace (int_ : string -> option Z) (tr : trace) : TokenUsage.t :=
  {| TokenUsage.trace_id :=
       match tr with [] => EmptyString | sp :: _ => first_trace_id sp end;
     TokenUsage.counts := fold_left (count_span int_) tr (mkTokens 0 0 0);
     TokenUsage.ai_spans_with_tokens := List.length (filter has_total_tag tr) |}.

(** [get_ai_token_usage]: the value returned and the object afterwards. *)
Definition get_ai_token_usage (int_ : string -> option Z) (self : TraceParser)
  : list TokenUsage.t * TraceParser :=
  (map (token_usage_of_trace int_) (filter _is_benchmark_trace (traces self)), self).

(** A reading of [int] on strings of ASCII digits. *)
Definition int_of_digits (s : string) : option Z :=
  match s with
  | EmptyString => None
  | String _ _ =>
      if forallb Json.is_digit (list_ascii_of_string s)
      then Some (Json.digits_value s 0)
      else None
  end.

Definition chat_span (total input output : string) : span :=
  mkSpan (Some "t1") (Some "c") (Some "root") (Some "chat gemini") (Some 2000%Z) (Some 500%Z)
         (Some [("gen_ai.usage.total_tokens", total);
                ("gen_ai.usage.input_tokens", input);
                ("gen_ai.usage.output_tokens", output)]).

(** * The aggregation in binary floating point

    The definitions above carry Python's floats as exact rationals.  The
    module [Rounded] embeds the recursive aggregation once more with the
    floats as they are, IEEE 754 binary64 numbers rounded to nearest even,
    for the statements that depend on the rounding. *)

From Stdlib Require SpecFloat.

Module Binary64.

Definition prec : Z := 53.
Definition emax : Z := 1024.

(** A Python [float]. *)
Definition t : Type := SpecFloat.spec_float.

(** The integer [n] as written, before any rounding. *)
Definition exact (n : Z) : t :=
  match n with
  | Z0 => SpecFloat.S754_zero false
  | Zpos p => SpecFloat.S754_finite false p 0
  | Zneg p => SpecFloat.S754_finite true p 0
  end.

(** [float(n)] *)
Definition of_Z (n : Z) : t := SpecFloat.binary_normalize prec emax n 0 false.

(** [a / b] for integers [a] and [b <> 0]: the quotient, rounded once. *)
Definition truediv (a b : Z) : t := SpecFloat.SFdiv prec emax (exact a) (exact b).

(** [x + y], [x < y] and [x > 0] *)
Definition add (x y : t) : t := SpecFloat.SFadd prec emax x y.
Definition ltb (x y : t) : bool := SpecFloat.SFltb x y.
Definition positive (x : t) : bool := ltb (of_Z 0) x.

(** [max(x, y)]: the first argument wins a tie. *)
Definition max (x y : t) : t := if ltb x y then y else x.

(** [sum(l)], the additions from left to right starting from [0], and
    [max(l)] of a non-empty list given as head and tail.  (From Python 3.12
    on [sum] compensates the rounding errors of the additions; a sum of
    floats that are added without rounding error, as all the sums evaluated
    below are, is the same.) *)
Definition sum (l : list t) : t := fold_left add l (of_Z 0).
Definition max_list (x : t) (l : list t) : t := fold_left max l x.

End Binary64.

Module Rounded.

(** [span.get('timestamp', 0) / 1000] and [span.get('duration', 0) / 1000] *)
Definition timestamp_ms (sp : span) : Binary64.t :=
  Binary64.truediv (get_or (timestamp sp) 0%Z) 1000.
Definition duration_ms (sp : span) : Binary64.t :=
  Binary64.truediv (get_or (duration sp) 0%Z) 1000.

(** The dictionaries [{'timestamp': ..., 'duration_ms': ...}]. *)
Module SpanDict.
Record t : Type := mk { timestamp : Binary64.t; duration_ms : Binary64.t }.
End SpanDict.

Definition span_dict_of (sp : span) : SpanDict.t :=
  {| SpanDict.timestamp := timestamp_ms sp; SpanDict.duration_ms := duration_ms sp |}.

(** The loop of [_check_concurrency] over [sorted_spans]. *)
Fixpoint overlap_scan (sorted_spans : list SpanDict.t) : bool :=
  match sorted_spans with
  | current :: (next :: _) as rest =>
      let current_end :=
        Binary64.add (SpanDict.timestamp current) (SpanDict.duration_ms current) in
      let next_start := SpanDict.timestamp next in
      if Binary64.ltb next_start current_end then true else overlap_scan rest
  | _ => false
  end.

(** [_check_concurrency]; [sorted] compares the keys with [<] only. *)
Definition _check_concurrency (spans : list SpanDict.t) : bool :=
  if (List.length spans <=? 1)%nat then false
  else overlap_scan
         (sort_by (fun a b => negb (Binary64.ltb b a)) SpanDict.timestamp spans).

(** The duration of a critical span, [0] for any other span; the integer
    [0] is carried as the float [0.0], which compares and adds alike. *)
Definition own_value (critical_patterns : list string) (sp : span) : Binary64.t :=
  if name_matches critical_patterns sp then duration_ms sp else Binary64.of_Z 0.

Definition critical_children_of (children : list span) (child_values : list Binary64.t)
  : list span :=
  map fst (filter (fun cv => Binary64.positive (snd cv)) (combine children child_values)).

Definition critical_values_of (children : list span) (child_values : list Binary64.t)
  : list Binary64.t :=
  map snd (filter (fun cv => Binary64.positive (snd cv)) (combine children child_values)).

(** The part of [_aggregate_span_recursive] after the recursive calls. *)
Definition combine_values (span_value : Binary64.t) (children : list span)
    (child_values : list Binary64.t) : Binary64.t :=
  let all_values := span_value :: child_values in
  if (List.length all_values =? 1)%nat then span_value
  else
    let critical_children := critical_children_of children child_values in
    if (List.length critical_children <=? 1)%nat then Binary64.sum all_values
    else
      let child_span_dicts := map span_dict_of critical_children in
      let critical_values := critical_values_of children child_values in
      let children_aggregated :=
        if _check_concurrency child_span_dicts then
          match critical_values with
          | [] => Binary64.of_Z 0
          | v :: vs => Binary64.max_list v vs
          end
        else Binary64.sum critical_values in
      Binary64.add span_value children_aggregated.

(** [_aggregate_span_recursive] *)
Fixpoint _aggregate_span_recursive (fuel : nat) (span_lookup : dict span)
    (critical_patterns : list string) (sp : span) : res Binary64.t :=
  match fuel with
  | O => OutOfFuel
  | S fuel' =>
      span_id <- span_id_of sp ;;
      let children := children_of span_lookup span_id in
      child_values <-
        mapM (_aggregate_span_recursive fuel' span_lookup critical_patterns) children ;;
      Ok (combine_values (own_value critical_patterns sp) children child_values)
  end.

(** [_calculate_final_critical_io_recursive] *)
Definition _calculate_final_critical_io_recursive (fuel : nat) (tr : trace)
    (critical_patterns : list string) : res Binary64.t :=
  span_lookup <- build_span_lookup tr [] ;;
  let root_spans := filter is_root tr in
  match root_spans with
  | [] => Ok (Binary64.of_Z 0)
  | _ :: _ =>
      root_values <-
        mapM (_aggregate_span_recursive fuel span_lookup critical_patterns) root_spans ;;
      match root_values with
      | [v] => Ok v
      | [] => Raise IndexError
      | v :: vs =>
          if _check_concurrency (map span_dict_of root_spans)
          then Ok (Binary64.max_list v vs)
          else Ok (Binary64.sum root_values)
      end
  end.

End Rounded.

(** A root that is not critical with two critical children; the second
    child starts at the microsecond at which the first one ends. *)
Definition touching_children_trace (t1 d1 d2 : Z) : trace :=
  [ mkSpan (Some "t1") (Some "r") None (Some "http post /benchmark/analyze")
           (Some 0%Z) (Some 900000%Z) None;
    mkSpan (Some "t1") (Some "a") (Some "r") (Some "gmail.list")
           (Some t1) (Some d1) None;
    mkSpan (Some "t1") (Some "b") (Some "r") (Some "gmail.get")
           (Some (t1 + d1)%Z) (Some d2) None ].

(** * The aggregation over an explicit store

    The methods above are functions of the values they read.  The module
    [Store] embeds the recursive aggregation once more with Python's objects
    in a store: lists and dictionaries are objects with an identity, a
    variable holds a reference, [append] writes to the object its receiver
    refers to, and an object that is reachable through two references is
    shared.  Numbers are rationals, as above; strings and numbers have no
    identity. *)

(** The result of a computation with its value dropped or mapped. *)
Definition unit_of {A : Type} (r : res A) : res unit :=
  match r with
  | Ok _ => Ok tt
  | Raise e => Raise e
  | OutOfFuel => OutOfFuel
  end.

Definition res_map {A B : Type} (f : A -> B) (r : res A) : res B :=
  match r with
  | Ok a => Ok (f a)
  | Raise e => Raise e
  | OutOfFuel => OutOfFuel
  end.

Module Store.

Definition ref : Type := nat.

Inductive value : Type :=
| VNone
| VNum (q : Q)
| VStr (s : string)
| VRef (r : ref).

(** A list, or a dictionary with string keys (a [dict], or the attributes
    of an instance). *)
Inductive object : Type :=
| OList (items : list value)
| ODict (entries : dict value).

(** The store: the object of reference [r] is at position [r]. *)
Definition store : Type := list object.

(** A computation: from a store to a result, an exception or [OutOfFuel],
    and the store it leaves. *)
Definition M (A : Type) : Type := store -> res A * store.

Definition ret {A : Type} (a : A) : M A := fun s => (Ok a, s).
Definition raise {A : Type} (e : exn) : M A := fun s => (Raise e, s).
Definition out_of_fuel {A : Type} : M A := fun s => (OutOfFuel, s).

Definition bind {A B : Type} (m : M A) (k : A -> M B) : M B :=
  fun s =>
    match m s with
    | (Ok a, s') => k a s'
    | (Raise e, s') => (Raise e, s')
    | (OutOfFuel, s') => (OutOfFuel, s')
    end.

Notation "x <~ m ;; k" := (bind m (fun x => k))
  (at level 61, m at next level, right associativity).

(** ** Objects *)

(** A new object; its reference is fresh. *)
Definition alloc (o : object) : M ref := fun s => (Ok (List.length s), s ++ [o]).

Definition lookup (r : ref) : M object :=
  fun s =>
    match nth_error s r with
    | Some o => (Ok o, s)
    | None => (Raise TypeError, s)
    end.

Fixpoint replace {A : Type} (n : nat) (a : A) (l : list A) : list A :=
  match l, n with
  | [], _ => []
  | _ :: l', O => a :: l'
  | x :: l', S n' => x :: replace n' a l'
  end.

(** The object of reference [r] becomes [o]. *)
Definition update (r : ref) (o : object) : M unit := fun s => (Ok tt, replace r o s).

(** The methods below are applied to lists, dictionaries, strings and
    numbers where the source expects them; on a value of another kind an
    accessor raises [TypeError] or [AttributeError]. *)

(** The items of a list, as [for x in l] and [len(l)] read them. *)
Definition items_of (v : value) : M (list value) :=
  match v with
  | VRef r =>
      o <~ lookup r ;;
      match o with
      | OList xs => ret xs
      | ODict _ => raise TypeError
      end
  | _ => raise TypeError
  end.

Definition entries_of (v : value) : M (dict value) :=
  match v with
  | VRef r =>
      o <~ lookup r ;;
      match o with
      | ODict d => ret d
      | OList _ => raise TypeError
      end
  | _ => raise TypeError
  end.

(** [d[key]], [d.get(key, default)] and [self.name] *)
Definition getitem (v : value) (key : string) : M value :=
  d <~ entries_of v ;;
  match dict_get key d with
  | Some x => ret x
  | None => raise (KeyError key)
  end.

Definition get (v : value) (key : string) (default : value) : M value :=
  d <~ entries_of v ;; ret (get_or (dict_get key d) default).

Definition getattr (v : value) (name : string) : M value :=
  d <~ entries_of v ;;
  match dict_get name d with
  | Some x => ret x
  | None => raise AttributeError
  end.

(** [l[i]] for [i >= 0] *)
Definition index (v : value) (i : nat) : M value :=
  xs <~ items_of v ;;
  match nth_error xs i with
  | Some x => ret x
  | None => raise IndexError
  end.

(** [l.append(x)]: the list [l] refers to is written. *)
Definition append (v x : value) : M unit :=
  match v with
  | VRef r =>
      o <~ lookup r ;;
      match o with
      | OList xs => update r (OList (xs ++ [x]))
      | ODict _ => raise AttributeError
      end
  | _ => raise AttributeError
  end.

(** A list display or comprehension, and a dictionary display or
    comprehension: a new object. *)
Definition new_list (xs : list value) : M value := r <~ alloc (OList xs) ;; ret (VRef r).
Definition new_dict (d : dict value) : M value := r <~ alloc (ODict d) ;; ret (VRef r).

(** A number where arithmetic or a comparison needs one, a string where
    [lower] is called, a string where a dictionary key is built. *)
Definition number (v : value) : M Q :=
  match v with
  | VNum q => ret q
  | _ => raise TypeError
  end.

Definition text (v : value) : M string :=
  match v with
  | VStr s => ret s
  | _ => raise AttributeError
  end.

Definition key_of (v : value) : M string :=
  match v with
  | VStr s => ret s
  | _ => raise TypeError
  end.

(** [a == b]; objects are compared by identity (the methods compare
    strings and [None]). *)
Definition equal (a b : value) : bool :=
  match a, b with
  | VNone, VNone => true
  | VNum p, VNum q => Qeq_bool p q
  | VStr s, VStr t => String.eqb s t
  | VRef r, VRef r' => Nat.eqb r r'
  | _, _ => false
  end.

(** [v is None] *)
Definition is_none (v : value) : bool :=
  match v with
  | VNone => true
  | _ => false
  end.

(** ** Loops *)

(** [for x in xs: body], over the items read when the loop starts.  Python
    reads the list again at every step; the loops below run over lists that
    no iteration writes to (an iteration writes only to the list it appends
    to, which is another object, see [for_each_inv] and the lemmas on the
    loops), so the items are those read at the start. *)
Fixpoint for_each {A : Type} (xs : list A) (body : A -> M unit) : M unit :=
  match xs with
  | [] => ret tt
  | x :: xs' => _ <~ body x ;; for_each xs' body
  end.

(** [[f(x) for x in xs]] and [[x for x in xs if test(x)]], before the new
    list is made. *)
Fixpoint map_each {A B : Type} (f : A -> M B) (xs : list A) : M (list B) :=
  match xs with
  | [] => ret []
  | x :: xs' => y <~ f x ;; ys <~ map_each f xs' ;; ret (y :: ys)
  end.

Fixpoint select {A : Type} (test : A -> M bool) (xs : list A) : M (list A) :=
  match xs with
  | [] => ret []
  | x :: xs' =>
      keep <~ test x ;;
      ys <~ select test xs' ;;
      ret (if keep then x :: ys else ys)
  end.

(** [enumerate(xs)] *)
Definition enumerate {A : Type} (xs : list A) : list (nat * A) :=
  combine (seq 0 (List.length xs)) xs.

(** [sum(l)] and [max(l)] of the list [l] refers to. *)
Definition sum (v : value) : M value :=
  xs <~ items_of v ;;
  qs <~ map_each number xs ;;
  ret (VNum (pysum qs)).

Definition max (v : value) : M value :=
  xs <~ items_of v ;;
  qs <~ map_each number xs ;;
  match qs with
  | [] => raise (ValueError "max() arg is an empty sequence")
  | q :: qs' => ret (VNum (pymax_list q qs'))
  end.

(** ** The methods *)

(** The loop of [_check_concurrency] over [sorted_spans]. *)
Fixpoint overlap_scan (sorted_spans : list value) : M bool :=
  match sorted_spans with
  | current :: (next :: _) as rest =>
      t <~ getitem current "timestamp" ;;
      tq <~ number t ;;
      d <~ getitem current "duration_ms" ;;
      dq <~ number d ;;
      let current_end := tq + dq in
      n <~ getitem next "timestamp" ;;
      next_start <~ number n ;;
      if Qlt_bool next_start current_end then ret true else overlap_scan rest
  | _ => ret false
  end.

(** [_check_concurrency]; [sorted] makes a new list. *)
Definition _check_concurrency (spans : value) : M bool :=
  xs <~ items_of spans ;;
  if (List.length xs <=? 1)%nat then ret false
  else
    keyed <~ map_each (fun x => k <~ getitem x "timestamp" ;;
                                q <~ number k ;;
                                ret (q, x)) xs ;;
    sorted_spans <~ new_list (map snd (sort_by Qle_bool fst keyed)) ;;
    sorted_now <~ items_of sorted_spans ;;
    overlap_scan sorted_now.

(** [{'timestamp': span.get('timestamp', 0) / 1000,
      'duration_ms': span.get('duration', 0) / 1000}] *)
Definition span_dict (span : value) : M value :=
  t <~ get span "timestamp" (VNum 0) ;;
  tq <~ number t ;;
  d <~ get span "duration" (VNum 0) ;;
  dq <~ number d ;;
  new_dict [("timestamp", VNum (tq / 1000)); ("duration_ms", VNum (dq / 1000))].

(** [any(name.startswith(pattern) for pattern in patterns)] for the
    lower-cased name of a span; the patterns are strings that the methods
    only read. *)
Fixpoint matches (patterns : list string) (span : value) : M bool :=
  match patterns with
  | [] => ret false
  | pattern :: patterns' =>
      n <~ get span "name" (VStr EmptyString) ;;
      t <~ text n ;;
      if startswith (lower t) pattern then ret true else matches patterns' span
  end.

(** [[child_values[i] for i, child in enumerate(children)
      if child_values[i] > 0]], before the new list is made. *)
Definition positive_values (children_now : list value) (child_values : value)
  : M (list value) :=
  vs <~ map_each (fun ic => index child_values (fst ic)) (enumerate children_now) ;;
  select (fun v => q <~ number v ;; ret (Qlt_bool 0 q)) vs.

(** [_aggregate_span_recursive] *)
Fixpoint _aggregate_span_recursive (fuel : nat) (span span_lookup : value)
    (critical_patterns : list string) : M value :=
  match fuel with
  | O => out_of_fuel
  | S fuel' =>
      span_id <~ getitem span "id" ;;
      n <~ get span "name" (VStr EmptyString) ;;
      t <~ text n ;;
      let span_name := lower t in
      lookup_entries <~ entries_of span_lookup ;;
      children_items <~
        select (fun s => p <~ get s "parentId" VNone ;; ret (equal p span_id))
               (dict_values lookup_entries) ;;
      children <~ new_list children_items ;;
      child_values <~ new_list [] ;;
      children_now <~ items_of children ;;
      _ <~ for_each children_now (fun child =>
             child_value <~
               _aggregate_span_recursive fuel' child span_lookup critical_patterns ;;
             append child_values child_value) ;;
      span_value <~
        (if existsb (fun pattern => startswith span_name pattern) critical_patterns
         then d <~ get span "duration" (VNum 0) ;;
              dq <~ number d ;;
              ret (VNum (dq / 1000))
         else ret (VNum 0)) ;;
      single <~ new_list [span_value] ;;
      single_now <~ items_of single ;;
      child_values_now <~ items_of child_values ;;
      all_values <~ new_list (single_now ++ child_values_now) ;;
      all_now <~ items_of all_values ;;
      if (List.length all_now =? 1)%nat then index all_values 0
      else
        critical_children <~ new_list [] ;;
        children_now <~ items_of children ;;
        _ <~ for_each (enumerate children_now) (fun ic =>
               v <~ index child_values (fst ic) ;;
               q <~ number v ;;
               if Qlt_bool 0 q then append critical_children (snd ic) else ret tt) ;;
        critical_now <~ items_of critical_children ;;
        if (List.length critical_now <=? 1)%nat then sum all_values
        else
          child_span_dicts <~ new_list [] ;;
          _ <~ for_each critical_now (fun child =>
                 entry <~ span_dict child ;;
                 append child_span_dicts entry) ;;
          concurrent_ <~ _check_concurrency child_span_dicts ;;
          children_aggregated <~
            (if concurrent_ then
               children_now <~ items_of children ;;
               critical_items <~ positive_values children_now child_values ;;
               critical_values <~ new_list critical_items ;;
               critical_values_now <~ items_of critical_values ;;
               match critical_values_now with
               | [] => ret (VNum 0)
               | _ :: _ => max critical_values
               end
             else
               children_now <~ items_of children ;;
               critical_items <~ positive_values children_now child_values ;;
               critical_values <~ new_list critical_items ;;
               sum critical_values) ;;
          sq <~ number span_value ;;
          aq <~ number children_aggregated ;;
          ret (VNum (sq + aq))
  end.

(** [{span['id']: span for span in trace}], before the new dictionary is
    made. *)
Fixpoint lookup_entries (spans : list value) (d : dict value) : M (dict value) :=
  match spans with
  | [] => ret d
  | span :: spans' =>
      i <~ getitem span "id" ;;
      k <~ key_of i ;;
      lookup_entries spans' (dict_set k span d)
  end.

(** [_calculate_final_critical_io_recursive] *)
Definition _calculate_final_critical_io_recursive (fuel : nat) (trace : value)
    (critical_patterns : list string) : M value :=
  trace_now <~ items_of trace ;;
  entries <~ lookup_entries trace_now [] ;;
  span_lookup <~ new_dict entries ;;
  root_items <~
    select (fun span => p <~ get span "parentId" VNone ;; ret (is_none p)) trace_now ;;
  root_spans <~ new_list root_items ;;
  roots_now <~ items_of root_spans ;;
  match roots_now with
  | [] => ret (VNum 0)
  | _ :: _ =>
      root_values <~ new_list [] ;;
      _ <~ for_each roots_now (fun root_span =>
             value_ <~
               _aggregate_span_recursive fuel root_span span_lookup critical_patterns ;;
             append root_values value_) ;;
      values_now <~ items_of root_values ;;
      if (List.length values_now =? 1)%nat then index root_values 0
      else
        root_span_dicts <~ new_list [] ;;
        _ <~ for_each roots_now (fun root_span =>
               entry <~ span_dict root_span ;;
               append root_span_dicts entry) ;;
        concurrent_ <~ _check_concurrency root_span_dicts ;;
        if concurrent_ then max root_values else sum root_values
  end.

(** The body of the loop over [self.traces] in
    [_get_critical_io_by_pattern]. *)
Definition critical_io_of_trace (fuel : nat) (patterns : list string)
    (pattern_name : string) (critical_io_values trace : value) : M unit :=
  trace_now <~ items_of trace ;;
  match trace_now with
  | [] =>
      entry <~ new_dict [("trace_id", VStr EmptyString);
                         ("critical_io_ms", VNum 0);
                         ("spans_count", VNum 0);
                         ("execution_pattern", VStr "no_trace")] ;;
      append critical_io_values entry
  | _ :: _ =>
      critical_items <~ select (matches patterns) trace_now ;;
      critical_spans <~ new_list critical_items ;;
      critical_now <~ items_of critical_spans ;;
      match critical_now with
      | [] =>
          let pattern_key :=
            if (List.length patterns =? 1)%nat
            then ("no_" ++ pattern_name ++ "_spans")%string
            else "no_critical_spans" in
          first <~ index trace 0 ;;
          trace_id <~ get first "traceId" (VStr EmptyString) ;;
          entry <~ new_dict [("trace_id", trace_id);
                             ("critical_io_ms", VNum 0);
                             ("spans_count", VNum 0);
                             ("execution_pattern", VStr pattern_key)] ;;
          append critical_io_values entry
      | _ :: _ =>
          critical_io <~ _calculate_final_critical_io_recursive fuel trace patterns ;;
          first <~ index trace 0 ;;
          trace_id <~ get first "traceId" (VStr EmptyString) ;;
          entry <~ new_dict [("trace_id", trace_id);
                             ("critical_io_ms", critical_io);
                             ("spans_count",
                              VNum (inject_Z (Z.of_nat (List.length critical_now))));
                             ("execution_pattern", VStr "recursive_hierarchical")] ;;
          append critical_io_values entry
      end
  end.

(** [_get_critical_io_by_pattern]; [self] refers to the parser object, whose
    attribute [traces] refers to the list of the traces. *)
Definition _get_critical_io_by_pattern (fuel : nat) (patterns : patterns_arg)
    (self : value) : M value :=
  critical_io_values <~ new_list [] ;;
  let pattern_name :=
    match patterns with
    | PatStr s => s
    | PatList _ => "total"
    end in
  let patterns := normalize_patterns patterns in
  traces_ <~ getattr self "traces" ;;
  traces_now <~ items_of traces_ ;;
  _ <~ for_each traces_now
         (critical_io_of_trace fuel patterns pattern_name critical_io_values) ;;
  ret critical_io_values.

(** ** Stores that hold a parser *)

(** The dictionary [d] is the span [sp]: the keys the methods read hold the
    fields of [sp]. *)
Definition span_entries (d : dict value) (sp : span) : Prop :=
  dict_get "traceId" d = option_map VStr (traceId sp) /\
  dict_get "id" d = option_map VStr (id sp) /\
  dict_get "parentId" d = option_map VStr (parentId sp) /\
  dict_get "name" d = option_map VStr (name sp) /\
  dict_get "timestamp" d = option_map (fun z => VNum (inject_Z z)) (timestamp sp) /\
  dict_get "duration" d = option_map (fun z => VNum (inject_Z z)) (duration sp).

Definition holds_span (s : store) (v : value) (sp : span) : Prop :=
  exists r d, v = VRef r /\ nth_error s r = Some (ODict d) /\ span_entries d sp.

Definition holds_trace (s : store) (v : value) (tr : trace) : Prop :=
  exists r items,
    v = VRef r /\ nth_error s r = Some (OList items) /\ Forall2 (holds_span s) items tr.

Definition holds_parser (s : store) (v : value) (self : TraceParser) : Prop :=
  exists r attrs r' items,
    v = VRef r /\ nth_error s r = Some (ODict attrs) /\
    dict_get "traces" attrs = Some (VRef r') /\
    nth_error s r' = Some (OList items) /\
    Forall2 (holds_trace s) items (traces self).

(** The dictionary appended for a result, and the list of results that [v]
    refers to. *)
Definition result_entries (r : critical_io_value) : dict value :=
  [("trace_id", VStr (trace_id r));
   ("critical_io_ms", VNum (critical_io_ms r));
   ("spans_count", VNum (inject_Z (Z.of_nat (spans_count r))));
   ("execution_pattern", VStr (execution_pattern r))].

Definition holds_results (s : store) (v : value) (rs : list critical_io_value) : Prop :=
  exists r items,
    v = VRef r /\ nth_error s r = Some (OList items) /\
    Forall2 (fun item res_ =>
               exists r', item = VRef r' /\
                          nth_error s r' = Some (ODict (result_entries res_)))
            items rs.

(** The outcome [r] of an invocation, read in the store [s] it leaves: the
    results [expected], or the exception [expected]. *)
Definition outcome (s : store) (r : res value)
    (expected : res (list critical_io_value)) : Prop :=
  match expected with
  | Ok rs => exists v, r = Ok v /\ holds_results s v rs
  | Raise e => r = Raise e
  | OutOfFuel => r = OutOfFuel
  end.

(** Every object of [s] is in [s'], at its place and as it was. *)
Definition preserved (s s' : store) : Prop :=
  forall r o, nth_error s r = Some o -> nth_error s' r = Some o.

(** The same, but for the object of reference [t]. *)
Definition preserved_but (t : ref) (s s' : store) : Prop :=
  forall r o, r <> t -> nth_error s r = Some o -> nth_error s' r = Some o.

(** The dictionaries handed to [_check_concurrency], and the list of them
    that [v] refers to. *)
Definition holds_span_dict (s : store) (v : value) (d : SpanDict.t) : Prop :=
  exists r,
    v = VRef r /\
    nth_error s r = Some (ODict [("timestamp", VNum (SpanDict.timestamp d));
                                 ("duration_ms", VNum (SpanDict.duration_ms d))]).

Definition holds_span_dicts (s : store) (v : value) (ds : list SpanDict.t) : Prop :=
  exists r items,
    v = VRef r /\ nth_error s r = Some (OList items) /\
    Forall2 (holds_span_dict s) items ds.

(** The span lookup table: the same keys in the same order, each with a
    reference to its span. *)
Definition holds_lookup (s : store) (v : value) (d : dict span) : Prop :=
  exists r entries,
    v = VRef r /\ nth_error s r = Some (ODict entries) /\
    Forall2 (fun e e' => fst e = fst e' /\ holds_span s (snd e) (snd e')) entries d.

End Store.

(** A store with a parser object (reference 6) whose trace list holds the
    same trace object twice and an empty trace, and the parser it holds. *)
Definition sample_store : Store.store :=
  [ Store.ODict [("traceId", Store.VStr "t1"); ("id", Store.VStr "r");
                 ("name", Store.VStr "http post /benchmark/analyze");
                 ("timestamp", Store.VNum 0); ("duration", Store.VNum 900000)];
    Store.ODict [("traceId", Store.VStr "t1"); ("id", Store.VStr "a");
                 ("parentId", Store.VStr "r"); ("name", Store.VStr "gmail.list");
                 ("timestamp", Store.VNum 1000); ("duration", Store.VNum 100000)];
    Store.ODict [("traceId", Store.VStr "t1"); ("id", Store.VStr "b");
                 ("parentId", Store.VStr "r"); ("name", Store.VStr "gmail.get");
                 ("timestamp", Store.VNum 50000); ("duration", Store.VNum 150000)];
    Store.OList [Store.VRef 0%nat; Store.VRef 1%nat; Store.VRef 2%nat];
    Store.OList [];
    Store.OList [Store.VRef 3%nat; Store.VRef 4%nat; Store.VRef 3%nat];
    Store.ODict [("trace_file_path", Store.VStr "raw-zipkin-traces.json");
                 ("warmup_iterations", Store.VNum 0);
                 ("traces", Store.VRef 5%nat)] ].

Definition sample_store_parser : TraceParser :=
  {| trace_file_path := "raw-zipkin-traces.json";
     warmup_iterations := 0;
     traces := [ two_children_trace 1000 50000; []; two_children_trace 1000 50000 ] |}.

(** * Properties *)

(** ** Results *)

Lemma mapM_ok {A B : Type} (f : A -> res B) (g : A -> B) (l : list A) :
  (forall a, In a l -> f a = Ok (g a)) -> mapM f l = Ok (map g l).
Proof.
  induction l as [|a l IH]; intros H; simpl.
  - reflexivity.
  - rewrite (H a (or_introl eq_refl)). simpl.
    rewrite IH by (intros b Hb; apply H; right; exact Hb).
    reflexivity.
Qed.

Lemma mapM_Forall2 {A B : Type} (f : A -> res B) (l : list A) (bs : list B) :
  mapM f l = Ok bs -> Forall2 (fun a b => f a = Ok b) l bs.
Proof.
  revert bs. induction l as [|a l IH]; intros bs; simpl.
  - intros H. inversion H. constructor.
  - destruct (f a) as [b| |] eqn:Ha; simpl; try discriminate.
    destruct (mapM f l) as [bs'| |]; simpl; try discriminate.
    intros H. inversion H. constructor; [exact Ha | apply IH; reflexivity].
Qed.

(** ** Rational arithmetic of the embedding *)

Lemma Qlt_bool_iff (x y : Q) : Qlt_bool x y = true <-> x < y.
Proof.
  unfold Qlt_bool. rewrite negb_true_iff.
  split.
  - intros H. apply Qnot_le_lt. intros Hle.
    apply (proj2 (Qle_bool_iff _ _)) in Hle. congruence.
  - intros H. destruct (Qle_bool y x) eqn:E; [|reflexivity].
    apply (proj1 (Qle_bool_iff _ _)) in E. exfalso. apply (Qlt_not_le _ _ H E).
Qed.

Lemma Qlt_bool_false_iff (x y : Q) : Qlt_bool x y = false <-> y <= x.
Proof.
  unfold Qlt_bool. rewrite negb_false_iff. apply Qle_bool_iff.
Qed.

Lemma ms_le (a b : Z) : inject_Z a / 1000 <= inject_Z b / 1000 <-> (a <= b)%Z.
Proof.
  rewrite (Zle_Qle a b). split; intros H.
  - apply Qmult_le_r with (z := / 1000); [reflexivity | exact H].
  - apply Qmult_le_r with (z := / 1000); [reflexivity | exact H].
Qed.

Lemma ms_leb (a b : Z) : Qle_bool (inject_Z a / 1000) (inject_Z b / 1000) = (a <=? b)%Z.
Proof.
  destruct (Z.leb_spec a b) as [H|H].
  - apply (proj2 (Qle_bool_iff _ _)), (proj2 (ms_le _ _)), H.
  - destruct (Qle_bool _ _) eqn:E; [|reflexivity].
    apply (proj1 (Qle_bool_iff _ _)) in E. apply (proj1 (ms_le _ _)) in E. lia.
Qed.

Lemma ms_plus (a b : Z) :
  inject_Z a / 1000 + inject_Z b / 1000 == inject_Z (a + b) / 1000.
Proof. rewrite inject_Z_plus. field. Qed.

Lemma ms_minus (a b : Z) :
  inject_Z a / 1000 - inject_Z b / 1000 == inject_Z (a - b) / 1000.
Proof.
  unfold Z.sub. rewrite inject_Z_plus, inject_Z_opp. field.
Qed.

Lemma pysum_from (l : list Q) (x : Q) : fold_left Qplus l x == x + pysum l.
Proof.
  unfold pysum. revert x. induction l as [|y l IH]; intros x; simpl.
  - ring.
  - rewrite IH. rewrite (IH (0 + y)). ring.
Qed.

Lemma pysum_cons (x : Q) (l : list Q) : pysum (x :: l) == x + pysum l.
Proof.
  unfold pysum at 1. simpl. rewrite pysum_from. ring.
Qed.


(** ** The stable sort *)

Section SortFacts.
Context {A K : Type} (leb : K -> K -> bool) (key : A -> K).

Let R (x y : A) : Prop := leb (key x) (key y) = true.

Lemma insert_by_perm (x : A) (l : list A) :
  Permutation (insert_by leb key x l) (x :: l).
Proof.
  induction l as [|y l IH]; simpl.
  - apply Permutation_refl.
  - destruct (leb (key x) (key y)).
    + apply Permutation_refl.
    + apply perm_trans with (y :: x :: l).
      * apply perm_skip, IH.
      * apply perm_swap.
Qed.

Lemma sort_by_perm (l : list A) : Permutation (sort_by leb key l) l.
Proof.
  induction l as [|x l IH]; simpl.
  - apply perm_nil.
  - apply perm_trans with (x :: sort_by leb key l).
    + apply insert_by_perm.
    + apply perm_skip, IH.
Qed.

Hypothesis leb_total : forall a b, leb a b = true \/ leb b a = true.
Hypothesis leb_trans : forall a b c, leb a b = true -> leb b c = true -> leb a c = true.

Lemma insert_by_sorted (x : A) (l : list A) :
  StronglySorted R l -> StronglySorted R (insert_by leb key x l).
Proof.
  induction 1 as [|y l Hs IH Hy]; simpl.
  - constructor; constructor.
  - destruct (leb (key x) (key y)) eqn:E.
    + constructor.
      * constructor; assumption.
      * constructor; [exact E|].
        apply Forall_impl with (P := R y); [|exact Hy].
        intros z Hz. unfold R in *. eapply leb_trans; eassumption.
    + constructor; [exact IH|].
      apply Forall_forall. intros z Hz.
      apply (Permutation_in _ (insert_by_perm x l)) in Hz.
      destruct Hz as [<-|Hz].
      * unfold R. destruct (leb_total (key x) (key y)) as [H|H]; congruence.
      * apply (proj1 (Forall_forall _ _) Hy z Hz).
Qed.

Lemma sort_by_sorted (l : list A) : StronglySorted R (sort_by leb key l).
Proof.
  induction l as [|x l IH]; simpl.
  - constructor.
  - apply insert_by_sorted, IH.
Qed.
End SortFacts.

Lemma sort_by_ext {A K K' : Type} (leb : K -> K -> bool) (key : A -> K)
    (leb' : K' -> K' -> bool) (key' : A -> K') (l : list A) :
  (forall a b, leb (key a) (key b) = leb' (key' a) (key' b)) ->
  sort_by leb key l = sort_by leb' key' l.
Proof.
  intros H. induction l as [|x l IH]; simpl; [reflexivity|].
  rewrite IH. generalize (sort_by leb' key' l) as s.
  induction s as [|y s IHs]; simpl; [reflexivity|].
  rewrite H, IHs. reflexivity.
Qed.

Lemma sort_by_map {A B K : Type} (leb : K -> K -> bool) (key : B -> K)
    (f : A -> B) (l : list A) :
  sort_by leb key (map f l) = map f (sort_by leb (fun a => key (f a)) l).
Proof.
  induction l as [|x l IH]; simpl; [reflexivity|].
  rewrite IH. generalize (sort_by leb (fun a => key (f a)) l) as s.
  induction s as [|y s IHs]; simpl; [reflexivity|].
  destruct (leb (key (f x)) (key (f y))); simpl; [reflexivity|].
  rewrite IHs. reflexivity.
Qed.

Lemma Qle_bool_total (a b : Q) : Qle_bool a b = true \/ Qle_bool b a = true.
Proof.
  destruct (Qlt_le_dec a b) as [H|H].
  - left. apply Qle_bool_iff, Qlt_le_weak, H.
  - right. apply Qle_bool_iff, H.
Qed.

Lemma Qle_bool_trans (a b c : Q) :
  Qle_bool a b = true -> Qle_bool b c = true -> Qle_bool a c = true.
Proof.
  rewrite !Qle_bool_iff. apply Qle_trans.
Qed.

(** ** Counting instants *)

Lemma count_from_ext (P P' : Z -> bool) (n : nat) (lo : Z) :
  (forall t, (lo <= t < lo + Z.of_nat n)%Z -> P t = P' t) ->
  count_from P lo n = count_from P' lo n.
Proof.
  revert lo. induction n as [|n IH]; intros lo H; simpl; [reflexivity|].
  rewrite (H lo) by lia. rewrite (IH (lo + 1)%Z); [reflexivity|].
  intros t Ht. apply H. lia.
Qed.

Lemma count_from_app (P : Z -> bool) (n m : nat) (lo : Z) :
  count_from P lo (n + m) = (count_from P lo n + count_from P (lo + Z.of_nat n) m)%Z.
Proof.
  revert lo. induction n as [|n IH]; intros lo.
  - simpl. rewrite Z.add_0_r. reflexivity.
  - cbn [Nat.add count_from]. rewrite IH.
    replace (lo + 1 + Z.of_nat n)%Z with (lo + Z.of_nat (S n))%Z by lia. lia.
Qed.

Lemma count_from_true (P : Z -> bool) (n : nat) (lo : Z) :
  (forall t, (lo <= t < lo + Z.of_nat n)%Z -> P t = true) ->
  count_from P lo n = Z.of_nat n.
Proof.
  revert lo. induction n as [|n IH]; intros lo H; [reflexivity|].
  cbn [count_from]. rewrite (H lo) by lia. rewrite IH; [lia|].
  intros t Ht. apply H. lia.
Qed.

Lemma count_from_false (P : Z -> bool) (n : nat) (lo : Z) :
  (forall t, (lo <= t < lo + Z.of_nat n)%Z -> P t = false) ->
  count_from P lo n = 0%Z.
Proof.
  revert lo. induction n as [|n IH]; intros lo H; [reflexivity|].
  cbn [count_from]. rewrite (H lo) by lia. rewrite IH; [lia|].
  intros t Ht. apply H. lia.
Qed.

Lemma measure_ext (P P' : Z -> bool) (lo hi : Z) :
  (forall t, (lo <= t < hi)%Z -> P t = P' t) -> measure P lo hi = measure P' lo hi.
Proof.
  intros H. unfold measure. apply count_from_ext. intros t Ht. apply H. lia.
Qed.

Lemma measure_split (P : Z -> bool) (lo mid hi : Z) :
  (lo <= mid <= hi)%Z -> measure P lo hi = (measure P lo mid + measure P mid hi)%Z.
Proof.
  intros H. unfold measure.
  replace (Z.to_nat (hi - lo)) with (Z.to_nat (mid - lo) + Z.to_nat (hi - mid))%nat by lia.
  rewrite count_from_app. repeat f_equal. lia.
Qed.

Lemma measure_true (P : Z -> bool) (lo hi : Z) :
  (lo <= hi)%Z -> (forall t, (lo <= t < hi)%Z -> P t = true) -> measure P lo hi = (hi - lo)%Z.
Proof.
  intros Hle H. unfold measure. rewrite count_from_true; [lia|].
  intros t Ht. apply H. lia.
Qed.

Lemma measure_false (P : Z -> bool) (lo hi : Z) :
  (forall t, (lo <= t < hi)%Z -> P t = false) -> measure P lo hi = 0%Z.
Proof.
  intros H. unfold measure. apply count_from_false.
  intros t Ht. apply H. lia.
Qed.



(** ** The interval merge *)

Lemma merge_loop_acc (rest : list Interval.t) :
  forall merged current,
    merge_loop merged current rest = merged ++ merge_loop [] current rest.
Proof.
  induction rest as [|next rest IH]; intros merged current; simpl.
  - reflexivity.
  - destruct (Qle_bool (Interval.start next) (Interval.end_ current)).
    + apply IH.
    + rewrite IH. rewrite (IH ([] ++ [current])). simpl.
      rewrite <- app_assoc. reflexivity.
Qed.

Lemma pymax_ms (a b : Q) (x y : Z) :
  a == inject_Z x / 1000 -> b == inject_Z y / 1000 ->
  pymax a b == inject_Z (Z.max x y) / 1000.
Proof.
  intros Ha Hb. unfold pymax.
  destruct (Qlt_bool a b) eqn:E.
  - apply (proj1 (Qlt_bool_iff _ _)) in E. rewrite Ha, Hb in E.
    assert (H : (x < y)%Z).
    { destruct (Z_lt_le_dec x y) as [H|H]; [exact H|].
      apply (proj2 (ms_le _ _)) in H. exfalso. apply (Qlt_not_le _ _ E H). }
    rewrite Z.max_r by lia. exact Hb.
  - apply (proj1 (Qlt_bool_false_iff _ _)) in E. rewrite Ha, Hb in E.
    apply (proj1 (ms_le _ _)) in E. rewrite Z.max_l by lia. exact Ha.
Qed.

Lemma merge_loop_total (rest : list Interval.t) (zs : list (Z * Z)) :
  Forall2 represents rest zs ->
  forall current cs ce,
    represents current (cs, ce) ->
    pysum (map Interval.duration (merge_loop [] current rest))
    == inject_Z (merged_total cs ce zs) / 1000.
Proof.
  induction 1 as [|next [s e] rest zs Hn _ IH]; intros current cs ce Hc.
  - simpl. destruct Hc as (_ & _ & Hd). simpl in Hd.
    unfold pysum. simpl. rewrite Hd. ring.
  - destruct Hc as (Hcs & Hce & Hcd). destruct Hn as (Hns & Hne & Hnd).
    simpl in Hcs, Hce, Hcd, Hns, Hne, Hnd.
    cbn [merge_loop merged_total].
    assert (E : Qle_bool (Interval.start next) (Interval.end_ current) = (s <=? ce)%Z).
    { rewrite (Qleb_comp _ _ Hns _ _ Hce). apply ms_leb. }
    rewrite E. destruct (s <=? ce)%Z.
    + apply IH. repeat split; simpl.
      * exact Hcs.
      * apply pymax_ms; assumption.
      * rewrite (pymax_ms _ _ ce e Hce Hne), Hcs. apply ms_minus.
    + rewrite merge_loop_acc. simpl. rewrite pysum_cons.
      rewrite (IH next s e) by (repeat split; assumption).
      rewrite Hcd, inject_Z_plus. field.
Qed.

(** ** The merge on integer bounds counts the covered instants *)

Lemma covers_cons (z : Z * Z) (zs : list (Z * Z)) (t : Z) :
  covers (z :: zs) t = ((fst z <=? t)%Z && (t <? snd z)%Z) || covers zs t.
Proof. reflexivity. Qed.

Lemma covers_false (zs : list (Z * Z)) (t : Z) :
  Forall (fun z => (t < fst z)%Z \/ (snd z <= t)%Z) zs -> covers zs t = false.
Proof.
  induction 1 as [|z zs Hz _ IH]; [reflexivity|].
  rewrite covers_cons, IH, orb_false_r.
  destruct (Z.leb_spec (fst z) t), (Z.ltb_spec t (snd z)); simpl; try reflexivity; lia.
Qed.

Lemma covers_perm (zs zs' : list (Z * Z)) (t : Z) :
  Permutation zs zs' -> covers zs t = covers zs' t.
Proof.
  intros H. unfold covers.
  destruct (existsb _ zs') eqn:E.
  - apply existsb_exists in E. destruct E as (z & Hin & Hz).
    apply existsb_exists. exists z. split; [|exact Hz].
    apply Permutation_in with zs'; [apply Permutation_sym, H | exact Hin].
  - destruct (existsb _ zs) eqn:E'; [|reflexivity].
    apply existsb_exists in E'. destruct E' as (z & Hin & Hz).
    rewrite <- E. symmetry. apply existsb_exists. exists z. split; [|exact Hz].
    apply Permutation_in with zs; assumption.
Qed.

Lemma measure_single (s e lo hi : Z) :
  (lo <= s)%Z -> (s <= e)%Z -> (e <= hi)%Z ->
  measure (fun t => (s <=? t)%Z && (t <? e)%Z) lo hi = (e - s)%Z.
Proof.
  intros H1 H2 H3.
  rewrite (measure_split _ lo s hi) by lia.
  rewrite (measure_split _ s e hi) by lia.
  rewrite (measure_false _ lo s), (measure_true _ s e), (measure_false _ e hi); try lia.
  all: intros t Ht;
    destruct (Z.leb_spec s t), (Z.ltb_spec t e); simpl; try reflexivity; lia.
Qed.

Lemma merged_total_measure (zs : list (Z * Z)) :
  forall cs ce hi,
    (cs <= ce)%Z ->
    StronglySorted (fun x y => (fst x <= fst y)%Z) ((cs, ce) :: zs) ->
    Forall (fun z => (fst z <= snd z)%Z) zs ->
    Forall (fun z => (snd z <= hi)%Z) ((cs, ce) :: zs) ->
    merged_total cs ce zs = measure (covers ((cs, ce) :: zs)) cs hi.
Proof.
  induction zs as [|[s e] zs IH]; intros cs ce hi Hle Hsort Hpos Hhi.
  - simpl. inversion Hhi as [|? ? Hce _]; subst. simpl in Hce.
    rewrite (measure_ext _ (fun t => (cs <=? t)%Z && (t <? ce)%Z)).
    + symmetry. apply measure_single; lia.
    + intros t _. rewrite covers_cons. apply orb_false_r.
  - inversion Hsort as [|? ? Hsort' Hfst]; subst.
    inversion Hfst as [|? ? Hcs Hfst']; subst. simpl in Hcs.
    inversion Hsort' as [|? ? Hsort'' Hs]; subst.
    inversion Hpos as [|? ? Hse Hpos']; subst. simpl in Hse.
    inversion Hhi as [|? ? Hce Hhi']; subst. simpl in Hce.
    inversion Hhi' as [|? ? He Hhi'']; subst. simpl in He.
    cbn [merged_total]. destruct (Z.leb_spec s ce) as [Hm|Hm].
    + rewrite (IH cs (Z.max ce e) hi).
      * apply measure_ext. intros t Ht. rewrite !covers_cons. simpl fst. simpl snd.
        rewrite orb_assoc. f_equal.
        destruct (Z.leb_spec cs t), (Z.ltb_spec t (Z.max ce e)), (Z.ltb_spec t ce),
          (Z.leb_spec s t), (Z.ltb_spec t e); simpl; try reflexivity; lia.
      * lia.
      * constructor; [exact Hsort''|exact Hfst'].
      * exact Hpos'.
      * constructor; [simpl; lia | exact Hhi''].
    + rewrite (IH s e hi Hse Hsort' Hpos' Hhi').
      rewrite (measure_split _ cs ce hi) by lia.
      rewrite (measure_split _ ce s hi) by lia.
      rewrite (measure_true _ cs ce), (measure_false _ ce s); try lia.
      * rewrite Z.add_0_l. f_equal.
        apply measure_ext. intros t Ht. rewrite (covers_cons (cs, ce)). simpl fst. simpl snd.
        destruct (Z.leb_spec cs t), (Z.ltb_spec t ce); simpl; try reflexivity; lia.
      * intros t Ht. apply covers_false. constructor; [simpl; lia|].
        constructor; [simpl; lia|].
        apply Forall_impl with (2 := Hs). simpl. intros z Hz. lia.
      * intros t Ht. rewrite covers_cons. simpl fst. simpl snd.
        destruct (Z.leb_spec cs t), (Z.ltb_spec t ce); simpl; try reflexivity; lia.
Qed.

(** ** The union length does not depend on the window *)

Lemma covers_false_outside (zs : list (Z * Z)) (lo hi t : Z) :
  within lo hi zs -> (t < lo \/ hi <= t)%Z -> covers zs t = false.
Proof.
  intros Hw Ht. apply covers_false.
  apply Forall_impl with (2 := Hw). simpl. intros z Hz. lia.
Qed.

Lemma measure_covers_widen (zs : list (Z * Z)) (lo hi lo' hi' : Z) :
  within lo hi zs -> (lo' <= lo)%Z -> (lo <= hi)%Z -> (hi <= hi')%Z ->
  measure (covers zs) lo' hi' = measure (covers zs) lo hi.
Proof.
  intros Hw H1 H2 H3.
  rewrite (measure_split _ lo' lo hi') by lia.
  rewrite (measure_split _ lo hi hi') by lia.
  rewrite (measure_false _ lo' lo), (measure_false _ hi hi'); [lia| |].
  - intros t Ht. apply (covers_false_outside zs lo hi); [exact Hw | lia].
  - intros t Ht. apply (covers_false_outside zs lo hi); [exact Hw | lia].
Qed.

Lemma measure_covers_window (zs : list (Z * Z)) (lo hi lo' hi' : Z) :
  within lo hi zs -> within lo' hi' zs -> (lo <= hi)%Z -> (lo' <= hi')%Z ->
  measure (covers zs) lo hi = measure (covers zs) lo' hi'.
Proof.
  intros Hw Hw' H H'.
  rewrite <- (measure_covers_widen zs lo hi (Z.min lo lo') (Z.max hi hi')) by (assumption || lia).
  apply measure_covers_widen; (assumption || lia).
Qed.

Lemma fold_min_le (l : list Z) (x : Z) :
  (fold_left Z.min l x <= x)%Z /\ Forall (fun y => (fold_left Z.min l x <= y)%Z) l.
Proof.
  revert x. induction l as [|y l IH]; intros x; simpl.
  - split; [lia | constructor].
  - destruct (IH (Z.min x y)) as [H1 H2]. split; [lia|].
    constructor; [lia | exact H2].
Qed.

Lemma fold_max_ge (l : list Z) (x : Z) :
  (x <= fold_left Z.max l x)%Z /\ Forall (fun y => (y <= fold_left Z.max l x)%Z) l.
Proof.
  revert x. induction l as [|y l IH]; intros x; simpl.
  - split; [lia | constructor].
  - destruct (IH (Z.max x y)) as [H1 H2]. split; [lia|].
    constructor; [lia | exact H2].
Qed.

Lemma within_extremes (zs : list (Z * Z)) :
  within (lowest_start zs) (highest_end zs) zs.
Proof.
  destruct zs as [|z zs]; [constructor|].
  unfold within, lowest_start, highest_end.
  destruct (fold_min_le (map fst zs) (fst z)) as [H1 H2].
  destruct (fold_max_ge (map snd zs) (snd z)) as [H3 H4].
  constructor; [split; assumption|].
  rewrite Forall_map in H2, H4.
  apply Forall_forall. intros y Hy. split.
  - apply (proj1 (Forall_forall _ _) H2 y Hy).
  - apply (proj1 (Forall_forall _ _) H4 y Hy).
Qed.

Lemma within_perm (lo hi : Z) (zs zs' : list (Z * Z)) :
  Permutation zs zs' -> within lo hi zs -> within lo hi zs'.
Proof.
  intros Hp Hw. apply Forall_forall. intros z Hz.
  apply (proj1 (Forall_forall _ _) Hw).
  apply Permutation_in with zs'; [apply Permutation_sym, Hp | exact Hz].
Qed.

Lemma extremes_ordered (zs : list (Z * Z)) :
  Forall (fun z => (fst z <= snd z)%Z) zs -> (lowest_start zs <= highest_end zs)%Z.
Proof.
  destruct zs as [|z zs]; intros H; [simpl; lia|].
  inversion H as [|? ? Hz _]; subst.
  pose proof (within_extremes (z :: zs)) as Hw.
  inversion Hw as [|? ? [H1 H2] _]; subst. lia.
Qed.

(** The merge computes the union length of the sorted bounds. *)
Lemma merged_total_union_length (z : Z * Z) (zs : list (Z * Z)) :
  StronglySorted (fun x y => (fst x <= fst y)%Z) (z :: zs) ->
  Forall (fun z => (fst z <= snd z)%Z) (z :: zs) ->
  merged_total (fst z) (snd z) zs = union_length (z :: zs).
Proof.
  intros Hsort Hpos. destruct z as [cs ce]. simpl fst. simpl snd.
  inversion Hpos as [|? ? Hz Hpos']; subst. simpl in Hz.
  pose proof (within_extremes ((cs, ce) :: zs)) as Hw.
  rewrite (merged_total_measure zs cs ce (highest_end ((cs, ce) :: zs))); try assumption.
  - unfold union_length.
    apply measure_covers_window.
    + apply Forall_forall. intros y Hy. split.
      * destruct Hy as [<-|Hy]; [simpl; lia|].
        inversion Hsort as [|? ? _ Hf]; subst.
        apply (proj1 (Forall_forall _ _) Hf y Hy).
      * apply (proj1 (Forall_forall _ _) Hw y Hy).
    + exact Hw.
    + inversion Hw as [|? ? [_ H2] _]; subst. cbn [snd] in H2. lia.
    + apply extremes_ordered, Hpos.
  - apply Forall_impl with (2 := Hw). intros y Hy. apply Hy.
Qed.

Lemma union_length_perm (zs zs' : list (Z * Z)) :
  Permutation zs zs' ->
  Forall (fun z => (fst z <= snd z)%Z) zs ->
  union_length zs = union_length zs'.
Proof.
  intros Hp Hpos. unfold union_length.
  rewrite (measure_ext _ (covers zs')) by (intros t _; apply covers_perm, Hp).
  apply measure_covers_window.
  - apply within_perm with zs; [exact Hp | apply within_extremes].
  - apply within_extremes.
  - apply extremes_ordered, Hpos.
  - apply extremes_ordered.
    apply Forall_forall. intros z Hz. apply (proj1 (Forall_forall _ _) Hpos).
    apply Permutation_in with zs'; [apply Permutation_sym, Hp | exact Hz].
Qed.



(** ** The interval-union calculator on a trace *)

Lemma span_interval_ok (sp : span) :
  id sp <> None -> span_interval sp = Ok (interval_of sp).
Proof.
  unfold span_interval, interval_of. destruct (id sp); [reflexivity | congruence].
Qed.

Lemma interval_of_represents (sp : span) : represents (interval_of sp) (span_bounds sp).
Proof.
  unfold represents, interval_of, span_bounds, timestamp_ms, duration_ms. simpl.
  split; [|split].
  - reflexivity.
  - apply ms_plus.
  - replace (get_or (timestamp sp) 0 + get_or (duration sp) 0 - get_or (timestamp sp) 0)%Z
      with (get_or (duration sp) 0%Z) by lia.
    reflexivity.
Qed.

Lemma StronglySorted_map {A B : Type} (R : B -> B -> Prop) (f : A -> B) (l : list A) :
  StronglySorted (fun x y => R (f x) (f y)) l -> StronglySorted R (map f l).
Proof.
  induction 1 as [|x l _ IH Hx]; simpl; constructor.
  - exact IH.
  - apply Forall_map. exact Hx.
Qed.

Lemma sorted_intervals (sps : list span) :
  sort_by Qle_bool Interval.start (map interval_of sps)
  = map interval_of (sort_by Z.leb (fun sp => fst (span_bounds sp)) sps).
Proof.
  rewrite sort_by_map. f_equal. apply sort_by_ext.
  intros a b. apply ms_leb.
Qed.

Lemma Zleb_total (a b : Z) : (a <=? b)%Z = true \/ (b <=? a)%Z = true.
Proof. rewrite !Z.leb_le. lia. Qed.

Lemma Zleb_trans (a b c : Z) :
  (a <=? b)%Z = true -> (b <=? c)%Z = true -> (a <=? c)%Z = true.
Proof. rewrite !Z.leb_le. lia. Qed.

Lemma wf_bounds (sps : list span) :
  Forall wf_io_span sps -> Forall (fun z => (fst z <= snd z)%Z) (map span_bounds sps).
Proof.
  intros H. apply Forall_map. apply Forall_impl with (2 := H).
  intros sp [_ Hd]. unfold span_bounds. simpl. lia.
Qed.

Lemma merged_sum_union_length (sps : list span) :
  Forall wf_io_span sps ->
  pysum (map Interval.duration
           (_merge_intervals (sort_by Qle_bool Interval.start (map interval_of sps))))
  == inject_Z (union_length (map span_bounds sps)) / 1000.
Proof.
  intros Hwf. rewrite sorted_intervals.
  set (key := fun sp => fst (span_bounds sp)).
  pose proof (sort_by_perm Z.leb key sps) as Hperm.
  pose proof (sort_by_sorted Z.leb key Zleb_total Zleb_trans sps) as Hsort.
  rewrite (union_length_perm (map span_bounds sps) (map span_bounds (sort_by Z.leb key sps)))
    by (try (apply Permutation_map, Permutation_sym, Hperm); apply wf_bounds, Hwf).
  assert (Hwf' : Forall wf_io_span (sort_by Z.leb key sps)).
  { apply Forall_forall. intros sp Hsp. apply (proj1 (Forall_forall _ _) Hwf).
    apply Permutation_in with (1 := Hperm). exact Hsp. }
  destruct (sort_by Z.leb key sps) as [|s0 srest].
  - reflexivity.
  - cbn [map _merge_intervals].
    rewrite (merge_loop_total _ (map span_bounds srest)) with (cs := fst (span_bounds s0))
                                                                (ce := snd (span_bounds s0)).
    + rewrite merged_total_union_length; [reflexivity| |].
      * apply (StronglySorted_map (fun x y => (fst x <= fst y)%Z) span_bounds (s0 :: srest)).
        eapply StronglySorted_ind with (l := s0 :: srest); [| |exact Hsort].
        -- constructor.
        -- intros a l _ IH Ha. constructor; [exact IH|].
           apply Forall_impl with (2 := Ha). intros b Hb. apply Z.leb_le, Hb.
      * apply (wf_bounds (s0 :: srest)), Hwf'.
    + clear. induction srest as [|sp srest IH]; simpl; constructor.
      * apply interval_of_represents.
      * exact IH.
    + rewrite <- surjective_pairing. apply interval_of_represents.
Qed.

Lemma union_intervals_of_trace_spec (patterns : list string) (tr : trace) :
  Forall wf_io_span (io_spans_of patterns tr) ->
  exists r,
    union_intervals_of_trace patterns tr = Ok r /\
    critical_io_ms r
    == inject_Z (union_length (map span_bounds (io_spans_of patterns tr))) / 1000.
Proof.
  intros Hwf. unfold union_intervals_of_trace.
  destruct tr as [|first tr'].
  - eexists. split; [reflexivity|]. reflexivity.
  - change (filter (name_matches patterns) (first :: tr'))
      with (io_spans_of patterns (first :: tr')).
    destruct (io_spans_of patterns (first :: tr')) as [|sp sps] eqn:E.
    + eexists. split; [reflexivity|]. reflexivity.
    + rewrite (mapM_ok span_interval interval_of).
      * cbn [bind]. eexists. split; [reflexivity|].
        cbn [critical_io_ms]. exact (merged_sum_union_length (sp :: sps) Hwf).
      * intros a Ha. apply span_interval_ok.
        apply (proj1 (Forall_forall _ _) Hwf a Ha).
Qed.

Lemma pysum_durations (sps : list span) :
  pysum (map duration_ms sps)
  == inject_Z (fold_right (fun z acc => (snd z - fst z + acc)%Z) 0%Z (map span_bounds sps))
     / 1000.
Proof.
  induction sps as [|sp sps IH].
  - reflexivity.
  - cbn [map fold_right]. rewrite pysum_cons, IH, inject_Z_plus.
    unfold duration_ms, span_bounds. cbn [fst snd].
    replace (get_or (timestamp sp) 0 + get_or (duration sp) 0 - get_or (timestamp sp) 0)%Z
      with (get_or (duration sp) 0%Z) by lia.
    field.
Qed.


Lemma mapM_Forall2_spec {A B : Type} (f : A -> res B) (P : A -> B -> Prop) (l : list A) :
  (forall a, In a l -> exists b, f a = Ok b /\ P a b) ->
  exists bs, mapM f l = Ok bs /\ Forall2 P l bs.
Proof.
  induction l as [|a l IH]; intros H.
  - exists []. split; [reflexivity | constructor].
  - destruct (H a (or_introl eq_refl)) as (b & Hb & HP).
    destruct IH as (bs & Hbs & HF); [intros x Hx; apply H; right; exact Hx|].
    exists (b :: bs). split.
    + simpl. rewrite Hb. simpl. rewrite Hbs. reflexivity.
    + constructor; assumption.
Qed.




Example sample_union_value :
  option_map (map (fun r => Qred (critical_io_ms r)))
    (match fst (_get_critical_io_union_intervals (PatList ["gmail"]) sample_union_parser) with
     | Ok rs => Some rs
     | _ => None
     end)
  = Some [9 # 2; 0].
Proof. vm_compute. reflexivity. Qed.

(** ** Spans that lack a key *)

Lemma mapM_raise {A B : Type} (f : A -> res B) (e : exn) (l : list A) :
  (forall a, In a l -> (exists b, f a = Ok b) \/ f a = Raise e) ->
  (exists a, In a l /\ f a = Raise e) ->
  mapM f l = Raise e.
Proof.
  induction l as [|a l IH]; intros Hall (x & Hx & Hfx).
  - destruct Hx.
  - simpl. destruct (Hall a (or_introl eq_refl)) as [(b & Hb)|Hr].
    + rewrite Hb. simpl. rewrite IH; [reflexivity| |].
      * intros y Hy. apply Hall. right. exact Hy.
      * destruct Hx as [->|Hx]; [congruence|]. exists x. split; assumption.
    + rewrite Hr. reflexivity.
Qed.

Lemma span_interval_cases (sp : span) :
  (id sp <> None /\ span_interval sp = Ok (interval_of sp)) \/
  (id sp = None /\ span_interval sp = Raise (KeyError "id")).
Proof.
  unfold span_interval, interval_of. destruct (id sp).
  - left. split; [discriminate | reflexivity].
  - right. split; reflexivity.
Qed.

Lemma has_id_dec (sp : span) : {id sp <> None} + {~ id sp <> None}.
Proof.
  destruct (id sp); [left; discriminate | right; intros H; apply H; reflexivity].
Qed.

Lemma union_intervals_of_trace_cases (patterns : list string) (tr : trace) :
  (Forall (fun sp => id sp <> None) (io_spans_of patterns tr) /\
   exists r, union_intervals_of_trace patterns tr = Ok r) \/
  (Exists (fun sp => id sp = None) (io_spans_of patterns tr) /\
   union_intervals_of_trace patterns tr = Raise (KeyError "id")).
Proof.
  unfold union_intervals_of_trace. destruct tr as [|first tr'].
  - left. split; [constructor | eexists; reflexivity].
  - change (filter (name_matches patterns) (first :: tr'))
      with (io_spans_of patterns (first :: tr')).
    destruct (io_spans_of patterns (first :: tr')) as [|sp sps].
    + left. split; [constructor | eexists; reflexivity].
    + destruct (Forall_Exists_dec (fun sp => id sp <> None) has_id_dec (sp :: sps))
        as [Hall|Hex].
      * left. split; [exact Hall|].
        rewrite (mapM_ok span_interval interval_of).
        -- cbn [bind]. eexists. reflexivity.
        -- intros a Ha. apply span_interval_ok.
           apply (proj1 (Forall_forall _ _) Hall a Ha).
      * right.
        assert (Hex' : Exists (fun sp => id sp = None) (sp :: sps)).
        { apply Exists_exists in Hex. destruct Hex as (x & Hx & Hn).
          apply Exists_exists. exists x. split; [exact Hx|].
          destruct (id x); [exfalso; apply Hn; discriminate | reflexivity]. }
        split; [exact Hex'|].
        rewrite (mapM_raise span_interval (KeyError "id")); [reflexivity| |].
        -- intros a _. destruct (span_interval_cases a) as [[_ H]|[_ H]];
             [left; eexists; exact H | right; exact H].
        -- apply Exists_exists in Hex'. destruct Hex' as (x & Hx & Hn).
           exists x. split; [exact Hx|].
           destruct (span_interval_cases x) as [[H _]|[_ H]]; [congruence | exact H].
Qed.

Lemma mapM_cases {A B : Type} (f : A -> res B) (e : exn) (P Q : A -> Prop) (l : list A) :
  (forall a, (P a /\ exists b, f a = Ok b) \/ (Q a /\ f a = Raise e)) ->
  (Forall P l /\ exists bs, mapM f l = Ok bs /\ List.length bs = List.length l) \/
  (Exists Q l /\ mapM f l = Raise e).
Proof.
  intros H. induction l as [|a l IH].
  - left. split; [constructor|]. exists []. split; reflexivity.
  - simpl. destruct (H a) as [(Ha & b & Hb)|(Ha & Hr)].
    + rewrite Hb. cbn [bind].
      destruct IH as [(Hl & bs & Hbs & Hlen)|(Hl & Hr)].
      * left. split; [constructor; assumption|].
        exists (b :: bs). rewrite Hbs. split; [reflexivity | simpl; congruence].
      * right. split; [apply Exists_cons_tl, Hl|]. rewrite Hr. reflexivity.
    + right. split; [apply Exists_cons_hd, Ha|]. rewrite Hr. reflexivity.
Qed.

Lemma create_span_dict_cases (patterns : list string) (sp : span) :
  is_critical_span patterns sp = true ->
  (traceId sp <> None /\ exists d, _create_span_dict sp = Ok d) \/
  (traceId sp = None /\ _create_span_dict sp = Raise (KeyError "traceId")).
Proof.
  unfold is_critical_span, _create_span_dict. intros H.
  destruct (name sp); [|discriminate]. destruct (duration sp); [|discriminate].
  destruct (traceId sp).
  - left. split; [discriminate | eexists; reflexivity].
  - right. split; reflexivity.
Qed.

(** C5, as stated, fails: the first of two traces holds a selected span
    without id, and the interval-union computation raises [KeyError('id')]
    for the whole call instead of returning results for the other trace. *)
Lemma union_intervals_aborts_on_missing_id :
  _get_critical_io_union_intervals (PatList ["gmail"]) sample_missing_id_parser
  = (Raise (KeyError "id"), sample_missing_id_parser) /\
  ~ (exists rs,
        fst (_get_critical_io_union_intervals (PatList ["gmail"]) sample_missing_id_parser)
        = Ok rs).
Proof.
  split.
  - vm_compute. reflexivity.
  - intros (rs & H). vm_compute in H. discriminate.
Qed.

(** C5, amended.  The interval-union computation has no per-trace recovery:
    either every selected span of every trace carries an id and one result
    per trace is returned, or some selected span lacks its id and the whole
    call raises [KeyError('id')]; likewise [_get_critical_spans] returns the
    standardized dictionaries when every span it selects carries a traceId and
    raises [KeyError('traceId')] otherwise.  In each case the parser object is
    left as it was. *)
Theorem critical_io_missing_key (patterns : patterns_arg) (self : TraceParser) :
  ((Forall (fun tr => Forall (fun sp => id sp <> None)
                        (io_spans_of (normalize_patterns patterns) tr)) (traces self) /\
    exists rs, _get_critical_io_union_intervals patterns self = (Ok rs, self) /\
               List.length rs = List.length (traces self))
   \/
   (Exists (fun tr => Exists (fun sp => id sp = None)
                        (io_spans_of (normalize_patterns patterns) tr)) (traces self) /\
    _get_critical_io_union_intervals patterns self = (Raise (KeyError "id"), self)))
  /\
  ((Forall (fun sp => traceId sp <> None)
      (filter (is_critical_span (normalize_patterns patterns)) (List.concat (traces self))) /\
    exists ds, _get_critical_spans (normalize_patterns patterns) self = (Ok ds, self))
   \/
   (Exists (fun sp => traceId sp = None)
      (filter (is_critical_span (normalize_patterns patterns)) (List.concat (traces self))) /\
    _get_critical_spans (normalize_patterns patterns) self = (Raise (KeyError "traceId"), self))).
Proof.
  split.
  - unfold _get_critical_io_union_intervals.
    destruct (mapM_cases (union_intervals_of_trace (normalize_patterns patterns))
                (KeyError "id")
                (fun tr => Forall (fun sp => id sp <> None)
                             (io_spans_of (normalize_patterns patterns) tr))
                (fun tr => Exists (fun sp => id sp = None)
                             (io_spans_of (normalize_patterns patterns) tr))
                (traces self)) as [(H1 & rs & Hrs & Hlen)|(H1 & Hr)].
    + intros tr. apply union_intervals_of_trace_cases.
    + left. split; [exact H1|]. exists rs. rewrite Hrs. split; [reflexivity | exact Hlen].
    + right. split; [exact H1|]. rewrite Hr. reflexivity.
  - unfold _get_critical_spans.
    set (sel := filter (is_critical_span (normalize_patterns patterns))
                  (List.concat (traces self))).
    assert (Hsel : Forall (fun sp => is_critical_span (normalize_patterns patterns) sp = true) sel).
    { apply Forall_forall. intros sp Hsp. apply filter_In in Hsp. apply Hsp. }
    induction sel as [|sp sel IH].
    + left. split; [constructor | exists []; reflexivity].
    + inversion Hsel as [|? ? Hsp Hsel']; subst. specialize (IH Hsel').
      simpl mapM.
      destruct (create_span_dict_cases _ sp Hsp) as [(Ht & d & Hd)|(Ht & Hr)].
      * rewrite Hd. cbn [bind].
        destruct IH as [(Hall & ds & Hds)|(Hex & Hr)].
        -- left. split; [constructor; assumption|].
           inversion Hds as [Hds']. exists (d :: ds). rewrite Hds'. reflexivity.
        -- right. split; [apply Exists_cons_tl, Hex|].
           inversion Hr as [Hr']. rewrite Hr'. reflexivity.
      * right. split; [apply Exists_cons_hd, Ht|]. rewrite Hr. reflexivity.
Qed.

Example sample_anonymous_spans :
  _get_critical_spans ["gmail"] sample_anonymous_parser
  = (Raise (KeyError "traceId"), sample_anonymous_parser).
Proof. vm_compute. reflexivity. Qed.

(** ** Warm-up exclusion *)

Lemma ts_leb_total (a b : option Z) : ts_leb a b = true \/ ts_leb b a = true.
Proof.
  destruct a as [x|], b as [y|]; simpl; auto.
  rewrite !Z.leb_le. lia.
Qed.

Lemma ts_leb_trans (a b c : option Z) :
  ts_leb a b = true -> ts_leb b c = true -> ts_leb a c = true.
Proof.
  destruct a as [x|], b as [y|], c as [z|]; simpl; auto; try discriminate.
  rewrite !Z.leb_le. lia.
Qed.

Lemma In_firstn {A : Type} (l : list A) (n : nat) (a : A) :
  In a (firstn n l) -> In a l.
Proof.
  intros H. rewrite <- (firstn_skipn n l). apply in_or_app. left. exact H.
Qed.

Lemma In_skipn {A : Type} (l : list A) (n : nat) (a : A) :
  In a (skipn n l) -> In a l.
Proof.
  intros H. rewrite <- (firstn_skipn n l). apply in_or_app. right. exact H.
Qed.

Lemma StronglySorted_firstn_skipn {A : Type} (R : A -> A -> Prop) (l : list A) (n : nat) :
  StronglySorted R l ->
  forall a b, In a (firstn n l) -> In b (skipn n l) -> R a b.
Proof.
  intros Hs. revert n. induction Hs as [|x l Hs IH Hx]; intros n a b Ha Hb.
  - rewrite firstn_nil in Ha. destruct Ha.
  - destruct n as [|n]; simpl in Ha, Hb; [destruct Ha|].
    destruct Ha as [<-|Ha].
    + apply (proj1 (Forall_forall _ _) Hx).
      apply In_skipn with n. exact Hb.
    + apply (IH n); assumption.
Qed.

Lemma in_warmup_spec (ids : list string) (tr : trace) :
  in_warmup ids tr = true <->
  exists sp rest, tr = sp :: rest /\ In (first_trace_id sp) ids.
Proof.
  unfold in_warmup. destruct tr as [|sp rest].
  - split; [discriminate | intros (? & ? & H & _); discriminate].
  - rewrite existsb_exists. split.
    + intros (i & Hi & He). apply String.eqb_eq in He. subst i.
      exists sp, rest. split; [reflexivity | exact Hi].
    + intros (sp' & rest' & H & Hi). inversion H; subst.
      exists (first_trace_id sp'). split; [exact Hi | apply String.eqb_refl].
Qed.

(** C3, as stated, fails at the upper bound: with one qualifying trace and
    a warm-up count of one (0 < 1 <= 1) the claim has the trace removed,
    but the method keeps the working set and prints the warning. *)
Lemma warmup_count_equal_is_skipped :
  (0 < warmup_iterations sample_warmup_all
     <= Z.of_nat (List.length (filter _is_benchmark_trace (traces sample_warmup_all))))%Z /\
  without_warmup (warmup_iterations sample_warmup_all) (traces sample_warmup_all) = [] /\
  _exclude_warmup_iterations sample_warmup_all
  = (sample_warmup_all,
     ["Warning: Only 1 iterations found, but 1 warmup iterations to exclude"]) /\
  traces (fst (_exclude_warmup_iterations sample_warmup_all))
  <> without_warmup (warmup_iterations sample_warmup_all) (traces sample_warmup_all).
Proof.
  repeat split; try (vm_compute; (reflexivity || discriminate)).
Qed.

(** C3, amended.  With [n] qualifying traces: a warm-up count [w <= 0]
    changes nothing and prints nothing; a count [w >= n] (not only [w > n])
    skips the exclusion, keeps the object and prints one warning line; a
    count [0 < w < n] sorts the qualifying traces by their minimum span
    start-timestamp (ascending, a span without timestamp counting as
    infinitely late), takes the first [w] of them, which start no later than
    the remaining qualifying traces, and replaces the working set by the
    traces whose first span does not carry the trace identifier of one of
    those [w] traces, in their original order. *)
Theorem warmup_exclusion (self : TraceParser) :
  let w := warmup_iterations self in
  let n := Z.of_nat (List.length (filter _is_benchmark_trace (traces self))) in
  ((w <= 0)%Z -> _exclude_warmup_iterations self = (self, [])) /\
  ((0 < w)%Z -> (n <= w)%Z ->
     fst (_exclude_warmup_iterations self) = self /\
     exists line, snd (_exclude_warmup_iterations self) = [line]) /\
  ((0 < w < n)%Z ->
     let sorted := qualifying_sorted (traces self) in
     let taken := firstn (Z.to_nat w) sorted in
     let ids := warmup_ids sorted w in
     Permutation sorted (filter _is_benchmark_trace (traces self)) /\
     StronglySorted (fun a b => ts_leb (min_start a) (min_start b) = true) sorted /\
     List.length taken = Z.to_nat w /\
     (forall a b, In a taken -> In b (skipn (Z.to_nat w) sorted) ->
                  ts_leb (min_start a) (min_start b) = true) /\
     (forall i, In i ids <->
                exists sp rest, In (sp :: rest) taken /\ first_trace_id sp = i) /\
     fst (_exclude_warmup_iterations self)
     = set_traces self (without_warmup w (traces self)) /\
     (forall tr, In tr (traces (fst (_exclude_warmup_iterations self))) <->
                 In tr (traces self) /\
                 ~ (exists sp rest, tr = sp :: rest /\ In (first_trace_id sp) ids)) /\
     exists line, snd (_exclude_warmup_iterations self) = [line]).
Proof.
  intros w n. split; [|split].
  - intros Hw. unfold _exclude_warmup_iterations. fold w.
    apply Z.leb_le in Hw. rewrite Hw. reflexivity.
  - intros Hw Hn. unfold _exclude_warmup_iterations. fold w. fold n.
    apply Z.leb_gt in Hw. rewrite Hw.
    apply Z.leb_le in Hn. rewrite Hn. split; [reflexivity | eexists; reflexivity].
  - intros [Hw Hn] sorted taken ids.
    assert (Hperm : Permutation sorted (filter _is_benchmark_trace (traces self)))
      by apply sort_by_perm.
    assert (Hsort : StronglySorted (fun a b => ts_leb (min_start a) (min_start b) = true) sorted)
      by apply (sort_by_sorted ts_leb min_start ts_leb_total ts_leb_trans).
    assert (Hne : Forall (fun tr => tr <> []) sorted).
    { apply Forall_forall. intros tr Htr.
      apply (Permutation_in _ Hperm) in Htr. apply filter_In in Htr.
      destruct Htr as [_ Hb]. destruct tr; [discriminate Hb | discriminate]. }
    split; [exact Hperm|]. split; [exact Hsort|]. split.
    { unfold taken. apply firstn_length_le.
      rewrite (Permutation_length Hperm). unfold n in Hn. lia. }
    split.
    { intros a b Ha Hb.
      exact (StronglySorted_firstn_skipn _ sorted (Z.to_nat w) Hsort a b Ha Hb). }
    split.
    { intros i. unfold ids, warmup_ids. fold taken. rewrite in_map_iff. split.
      - intros (tr & Hi & Htr). destruct tr as [|sp rest].
        + exfalso. apply (proj1 (Forall_forall _ _) Hne []); [|reflexivity].
          apply In_firstn in Htr. exact Htr.
        + exists sp, rest. split; assumption.
      - intros (sp & rest & Htr & Hi). exists (sp :: rest). split; assumption. }
    assert (Hrun : exists line,
               _exclude_warmup_iterations self
               = (set_traces self (without_warmup w (traces self)), [line])).
    { unfold _exclude_warmup_iterations. fold w. fold n.
      apply Z.leb_gt in Hw. rewrite Hw.
      assert (Hn' : (n <=? w)%Z = false) by (apply Z.leb_gt; exact Hn). rewrite Hn'.
      eexists. reflexivity. }
    destruct Hrun as (line & Hrun). rewrite Hrun. cbn [fst snd].
    split; [reflexivity|]. split.
    { intros tr. cbn [traces set_traces]. unfold without_warmup.
      rewrite filter_In, negb_true_iff.
      rewrite <- in_warmup_spec. fold sorted. fold ids.
      destruct (in_warmup ids tr); split; intros [H1 H2]; split; auto; congruence. }
    exists line. reflexivity.
Qed.

Lemma warmup_exclusion_witness :
  traces (fst (_exclude_warmup_iterations sample_warmup))
  = [ [ mkSpan (Some "t9") (Some "x") None (Some "scheduler tick") (Some 10%Z) (Some 5%Z) None ];
      [ benchmark_span "t3" 9000 ] ] /\
  exists line, snd (_exclude_warmup_iterations sample_warmup) = [line].
Proof.
  destruct (warmup_exclusion sample_warmup) as (_ & _ & H).
  destruct H as (_ & _ & _ & _ & _ & Hfst & _ & Hline).
  - vm_compute. split; reflexivity.
  - split; [rewrite Hfst; vm_compute; reflexivity | exact Hline].
Defined.

(** ** The recursive aggregator *)

Lemma mapM_ext {A B : Type} (f g : A -> res B) (l : list A) :
  (forall a, In a l -> f a = g a) -> mapM f l = mapM g l.
Proof.
  induction l as [|a l IH]; intros H; simpl; [reflexivity|].
  rewrite (H a (or_introl eq_refl)), IH; [reflexivity|].
  intros b Hb. apply H. right. exact Hb.
Qed.

Lemma mapM_map_fst {A B C : Type} (f : A -> res (B * C)) (l : list A) :
  mapM (fun a => r <- f a ;; Ok (fst r)) l = (rs <- mapM f l ;; Ok (map fst rs)).
Proof.
  induction l as [|a l IH]; simpl; [reflexivity|].
  destruct (f a) as [[b c]| |]; simpl; try reflexivity.
  rewrite IH. destruct (mapM f l); reflexivity.
Qed.

(** The instrumentation does not change the value. *)
Lemma aggregate_traced_value (fuel : nat) (d : dict span) (ps : list string) (sp : span) :
  _aggregate_span_recursive fuel d ps sp
  = (r <- aggregate_traced fuel d ps sp ;; Ok (fst r)).
Proof.
  revert sp. induction fuel as [|fuel IH]; intros sp; simpl; [reflexivity|].
  destruct (span_id_of sp) as [i| |]; simpl; try reflexivity.
  rewrite (mapM_ext _ (fun a => r <- aggregate_traced fuel d ps a ;; Ok (fst r)))
    by (intros a _; apply IH).
  rewrite mapM_map_fst.
  destruct (mapM (aggregate_traced fuel d ps) (children_of d i)); reflexivity.
Qed.

Lemma calculate_traced_value (fuel : nat) (tr : trace) (ps : list string) :
  _calculate_final_critical_io_recursive fuel tr ps
  = (r <- calculate_traced fuel tr ps ;; Ok (fst r)).
Proof.
  unfold _calculate_final_critical_io_recursive, calculate_traced.
  destruct (build_span_lookup tr []) as [d| |]; simpl; try reflexivity.
  destruct (filter is_root tr) as [|r0 roots]; [reflexivity|].
  rewrite (mapM_ext _ (fun a => r <- aggregate_traced fuel d ps a ;; Ok (fst r)))
    by (intros a _; apply aggregate_traced_value).
  rewrite mapM_map_fst.
  destruct (mapM (aggregate_traced fuel d ps) (r0 :: roots)) as [rs| |]; simpl; try reflexivity.
  unfold combine_roots.
  destruct (map fst rs) as [|v [|v' vs]]; simpl; try reflexivity.
  destruct (_check_concurrency _); reflexivity.
Qed.

(** More fuel does not change a result. *)
Lemma mapM_mono {A B : Type} (f g : A -> res B) (l : list A) (bs : list B) :
  (forall a b, In a l -> f a = Ok b -> g a = Ok b) ->
  mapM f l = Ok bs -> mapM g l = Ok bs.
Proof.
  revert bs. induction l as [|a l IH]; intros bs H; simpl; [auto|].
  destruct (f a) as [b| |] eqn:Ha; simpl; try discriminate.
  rewrite (H a b (or_introl eq_refl) Ha). simpl.
  destruct (mapM f l) as [bs'| |]; simpl; try discriminate.
  rewrite (IH bs'); [auto | | reflexivity].
  intros x y Hx. apply H. right. exact Hx.
Qed.

Lemma aggregate_traced_fuel (fuel fuel' : nat) (d : dict span) (ps : list string) :
  (fuel <= fuel')%nat ->
  forall sp r, aggregate_traced fuel d ps sp = Ok r -> aggregate_traced fuel' d ps sp = Ok r.
Proof.
  revert fuel'. induction fuel as [|fuel IH]; intros fuel' Hle sp r; simpl; [discriminate|].
  destruct fuel' as [|fuel']; [lia|]. simpl.
  destruct (span_id_of sp) as [i| |]; simpl; try discriminate.
  destruct (mapM (aggregate_traced fuel d ps) (children_of d i)) as [rs| |] eqn:E;
    simpl; try discriminate.
  rewrite (mapM_mono (aggregate_traced fuel d ps) (aggregate_traced fuel' d ps) _ rs);
    [auto| |exact E].
  intros a b _. apply IH. lia.
Qed.

Lemma aggregate_fuel (fuel fuel' : nat) (d : dict span) (ps : list string) (sp : span) (v : Q) :
  (fuel <= fuel')%nat ->
  _aggregate_span_recursive fuel d ps sp = Ok v ->
  _aggregate_span_recursive fuel' d ps sp = Ok v.
Proof.
  intros Hle. rewrite !aggregate_traced_value.
  destruct (aggregate_traced fuel d ps sp) as [r| |] eqn:E; simpl; try discriminate.
  rewrite (aggregate_traced_fuel fuel fuel' d ps Hle sp r E). auto.
Qed.

Lemma calculate_fuel (fuel fuel' : nat) (tr : trace) (ps : list string) (v : Q) :
  (fuel <= fuel')%nat ->
  _calculate_final_critical_io_recursive fuel tr ps = Ok v ->
  _calculate_final_critical_io_recursive fuel' tr ps = Ok v.
Proof.
  intros Hle. unfold _calculate_final_critical_io_recursive.
  destruct (build_span_lookup tr []) as [d| |]; simpl; try discriminate.
  destruct (filter is_root tr) as [|r0 roots]; [auto|].
  destruct (mapM (_aggregate_span_recursive fuel d ps) (r0 :: roots)) as [vs| |] eqn:E;
    try discriminate.
  rewrite (mapM_mono (_aggregate_span_recursive fuel d ps)
             (_aggregate_span_recursive fuel' d ps) _ vs); [auto| |exact E].
  intros a b _. apply aggregate_fuel, Hle.
Qed.

Lemma critical_io_of_trace_fuel (fuel fuel' : nat) (ps : list string) (pname : string)
    (tr : trace) (r : critical_io_value) :
  (fuel <= fuel')%nat ->
  critical_io_of_trace fuel ps pname tr = Ok r ->
  critical_io_of_trace fuel' ps pname tr = Ok r.
Proof.
  intros Hle. unfold critical_io_of_trace.
  destruct tr as [|first tr']; [auto|].
  destruct (filter (name_matches ps) (first :: tr')); [auto|].
  destruct (_calculate_final_critical_io_recursive fuel (first :: tr') ps) as [v| |] eqn:E;
    simpl; try discriminate.
  rewrite (calculate_fuel fuel fuel' _ ps v Hle E). auto.
Qed.

(** C4 (the code misses the case).  A span whose parentId names no span of
    the trace is not taken as a root by the recursive computation: the roots
    are the spans without parentId only, so the span is never visited and its
    5 ms are not counted, although it is reported in [spans_count]. *)
Theorem orphan_span_is_not_counted (fuel : nat) :
  critical_io_of_trace fuel ["gmail"] "total" sample_orphan_trace
  = Ok {| trace_id := "t1"; critical_io_ms := 0; spans_count := 1;
          execution_pattern := "recursive_hierarchical" |} /\
  Forall (fun sp => own_value ["gmail"] sp == 5 /\
                    exists p, parentId sp = Some p /\
                              forall s, In s sample_orphan_trace -> id s <> Some p)
         sample_orphan_trace.
Proof.
  split.
  - reflexivity.
  - repeat constructor.
    exists "zz". split; [reflexivity|].
    intros s [<-|[]]. discriminate.
Qed.


(** ** Values of the aggregator *)

Lemma pysum_nonneg (l : list Q) : Forall (fun v => 0 <= v) l -> 0 <= pysum l.
Proof.
  induction 1 as [|x l Hx _ IH].
  - apply Qle_refl.
  - rewrite pysum_cons. rewrite <- (Qplus_0_l 0). apply Qplus_le_compat; assumption.
Qed.

Lemma pymax_cases (x y : Q) : (pymax x y = x /\ y <= x) \/ (pymax x y = y /\ x < y).
Proof.
  unfold pymax. destruct (Qlt_bool x y) eqn:E.
  - right. split; [reflexivity | apply Qlt_bool_iff, E].
  - left. split; [reflexivity | apply Qlt_bool_false_iff, E].
Qed.

Lemma pymax_list_greatest (v : Q) (vs : list Q) : greatest (pymax_list v vs) (v :: vs).
Proof.
  unfold pymax_list. revert v. induction vs as [|y vs IH]; intros v.
  - simpl. split; [left; reflexivity | repeat constructor; apply Qle_refl].
  - cbn [fold_left]. destruct (IH (pymax v y)) as [Hin Hall].
    inversion Hall as [|? ? Hm Hall']; subst.
    destruct (pymax_cases v y) as [[E Hle]|[E Hlt]]; rewrite E in *.
    + split.
      * destruct Hin as [<-|Hin]; [left; reflexivity | right; right; exact Hin].
      * constructor; [exact Hm|]. constructor; [|exact Hall'].
        apply Qle_trans with v; assumption.
    + split.
      * destruct Hin as [<-|Hin]; [right; left; reflexivity | right; right; exact Hin].
      * constructor; [|constructor; assumption].
        apply Qle_trans with y; [apply Qlt_le_weak, Hlt | exact Hm].
Qed.

Lemma critical_values_in (children : list span) (cvs : list Q) (v : Q) :
  In v (critical_values_of children cvs) -> In v cvs.
Proof.
  unfold critical_values_of. rewrite in_map_iff.
  intros ([c v'] & <- & H). apply filter_In in H. destruct H as [H _].
  apply in_combine_r in H. exact H.
Qed.

Lemma critical_lengths (children : list span) (cvs : list Q) :
  List.length (critical_children_of children cvs)
  = List.length (critical_values_of children cvs) /\
  (List.length (critical_values_of children cvs) <= List.length cvs)%nat.
Proof.
  unfold critical_children_of, critical_values_of. rewrite !length_map. split; [reflexivity|].
  eapply Nat.le_trans; [apply filter_length_le|].
  rewrite length_combine. lia.
Qed.

Lemma combine_values_many (own : Q) (children : list span) (cvs : list Q) :
  (2 <= List.length (critical_children_of children cvs))%nat ->
  combine_values own children cvs
  = own + (if _check_concurrency (map span_dict_of (critical_children_of children cvs))
           then match critical_values_of children cvs with
                | [] => 0
                | v :: vs => pymax_list v vs
                end
           else pysum (critical_values_of children cvs)).
Proof.
  intros H. unfold combine_values.
  destruct (critical_lengths children cvs) as [H1 H2].
  replace (List.length (own :: cvs) =? 1)%nat with false
    by (symmetry; apply Nat.eqb_neq; simpl; lia).
  replace (List.length (critical_children_of children cvs) <=? 1)%nat with false
    by (symmetry; apply Nat.leb_gt; lia).
  reflexivity.
Qed.

Lemma combine_values_nonneg (own : Q) (children : list span) (cvs : list Q) :
  0 <= own -> Forall (fun v => 0 <= v) cvs -> 0 <= combine_values own children cvs.
Proof.
  intros Ho Hc.
  assert (Hcrit : Forall (fun v => 0 <= v) (critical_values_of children cvs)).
  { apply Forall_forall. intros v Hv. apply critical_values_in in Hv.
    apply (proj1 (Forall_forall _ _) Hc v Hv). }
  unfold combine_values.
  destruct (List.length (own :: cvs) =? 1)%nat; [exact Ho|].
  destruct (List.length (critical_children_of children cvs) <=? 1)%nat.
  - apply pysum_nonneg. constructor; assumption.
  - rewrite <- (Qplus_0_l 0). apply Qplus_le_compat; [exact Ho|].
    destruct (_check_concurrency _).
    + destruct (critical_values_of children cvs) as [|v vs]; [apply Qle_refl|].
      destruct (pymax_list_greatest v vs) as [Hin _].
      apply (proj1 (Forall_forall _ _) Hcrit _ Hin).
    + apply pysum_nonneg, Hcrit.
Qed.

Lemma own_value_nonneg (ps : list string) (sp : span) :
  (0 <= get_or (duration sp) 0)%Z -> 0 <= own_value ps sp.
Proof.
  intros H. unfold own_value. destruct (name_matches ps sp); [|apply Qle_refl].
  unfold duration_ms. apply Qle_shift_div_l; [reflexivity|].
  rewrite Qmult_0_l. rewrite <- (Zle_Qle 0). exact H.
Qed.

Lemma children_in_lookup (d : dict span) (i : string) (c : span) :
  In c (children_of d i) -> In c (dict_values d) /\ parentId c = Some i.
Proof.
  unfold children_of. rewrite filter_In. intros [Hin Hc]. split; [exact Hin|].
  unfold is_child_of in Hc. destruct (parentId c) as [p|]; [|discriminate].
  apply String.eqb_eq in Hc. congruence.
Qed.

Lemma aggregate_nonneg (d : dict span) (ps : list string) :
  Forall (fun s => (0 <= get_or (duration s) 0)%Z) (dict_values d) ->
  forall fuel sp v,
    (0 <= get_or (duration sp) 0)%Z ->
    _aggregate_span_recursive fuel d ps sp = Ok v -> 0 <= v.
Proof.
  intros Hd. induction fuel as [|fuel IH]; intros sp v Hsp; simpl; [discriminate|].
  destruct (span_id_of sp) as [i| |]; simpl; try discriminate.
  destruct (mapM (_aggregate_span_recursive fuel d ps) (children_of d i)) as [cvs| |] eqn:E;
    simpl; try discriminate.
  intros H. inversion H; subst. apply combine_values_nonneg.
  - apply own_value_nonneg, Hsp.
  - apply mapM_Forall2 in E. clear H.
    assert (Hch : Forall (fun c => (0 <= get_or (duration c) 0)%Z) (children_of d i)).
    { apply Forall_forall. intros c Hc. apply children_in_lookup in Hc.
      apply (proj1 (Forall_forall _ _) Hd c (proj1 Hc)). }
    induction E as [|c cv cs cvs Hc _ IHE]; [constructor|].
    inversion Hch; subst. constructor; [eapply IH; eassumption | apply IHE; assumption].
Qed.

Lemma critical_is_nonzero (children : list span) (cvs : list Q) :
  Forall (fun v => 0 <= v) cvs ->
  critical_children_of children cvs = map fst (nonzero_children children cvs) /\
  critical_values_of children cvs = map snd (nonzero_children children cvs).
Proof.
  intros H. unfold critical_children_of, critical_values_of, nonzero_children.
  rewrite (filter_ext_in (fun cv => Qlt_bool 0 (snd cv))
             (fun cv => negb (Qeq_bool (snd cv) 0))); [split; reflexivity|].
  intros [c v] Hin. apply in_combine_r in Hin. cbn [snd].
  apply (proj1 (Forall_forall _ _) H) in Hin.
  destruct (Qeq_bool v 0) eqn:E; simpl.
  - apply Qeq_bool_iff in E. apply Qlt_bool_false_iff. rewrite E. apply Qle_refl.
  - apply Qlt_bool_iff. apply Qle_lteq in Hin. destruct Hin as [Hlt|Heq]; [exact Hlt|].
    apply Qeq_bool_neq in E. exfalso. apply E. symmetry. exact Heq.
Qed.

(** ** The concurrency test *)

Lemma overlap_scan_spec (l : list span) :
  overlap_scan (map span_dict_of l) = true <->
  exists l1 prev next l2,
    l = l1 ++ prev :: next :: l2 /\
    timestamp_ms next < timestamp_ms prev + duration_ms prev.
Proof.
  induction l as [|a l IH].
  - simpl. split; [discriminate|]. intros (l1 & p & n & l2 & H & _).
    destruct l1; discriminate.
  - destruct l as [|b l].
    + simpl. split; [discriminate|]. intros (l1 & p & n & l2 & H & _).
      destruct l1 as [|? [|? ?]]; discriminate.
    + change (overlap_scan (map span_dict_of (a :: b :: l)))
        with (if Qlt_bool (timestamp_ms b) (timestamp_ms a + duration_ms a)
              then true else overlap_scan (map span_dict_of (b :: l))).
      destruct (Qlt_bool (timestamp_ms b) (timestamp_ms a + duration_ms a)) eqn:E.
      * split; [|reflexivity]. intros _. exists [], a, b, l.
        split; [reflexivity | apply Qlt_bool_iff, E].
      * rewrite IH. split.
        -- intros (l1 & p & n & l2 & H & Hlt). exists (a :: l1), p, n, l2.
           split; [simpl; rewrite H; reflexivity | exact Hlt].
        -- intros (l1 & p & n & l2 & H & Hlt). destruct l1 as [|x l1].
           ++ simpl in H. inversion H; subst.
              apply Qlt_bool_iff in Hlt. congruence.
           ++ simpl in H. inversion H as [[Hx Hl]]. exists l1, p, n, l2.
              split; [exact Hl | exact Hlt].
Qed.

Lemma check_concurrency_spec (l : list span) :
  (2 <= List.length l)%nat ->
  (_check_concurrency (map span_dict_of l) = true <-> concurrent l).
Proof.
  intros H. unfold _check_concurrency, concurrent.
  rewrite length_map.
  replace (List.length l <=? 1)%nat with false by (symmetry; apply Nat.leb_gt; lia).
  rewrite sort_by_map.
  change (fun a : span => SpanDict.timestamp (span_dict_of a)) with timestamp_ms.
  apply overlap_scan_spec.
Qed.

(** ** Children that touch *)

(** C2.  With the floats as the program has them, children that do not
    overlap are not always summed.  A root that is not critical has two
    critical children of 100 ms and 150 ms; the first starts at 2067 us and
    the second at 102067 us, the microsecond at which the first one ends.
    The end of the first child, 2067/1000 + 100000/1000, is rounded to a
    float above 102067/1000, the start of the second, so the strict test
    [next_start < current_end] of [_check_concurrency] answers True and the
    aggregation returns 150.0, the maximum, where the children are
    sequential and the sum is 250.  When the second child starts one
    microsecond later, and when both children start 67 us earlier (and
    still touch), the aggregation returns the sum 250.0.  The same happens
    with timestamps of the size of the epoch: the first child starts at
    1700000531969374 us and lasts 398964 us, the second starts where the
    first ends and lasts 150000 us, and the result is 398.964, the
    maximum.  Children that overlap (the second starts at 50000 us, while
    the first runs) give 150.0, as expected. *)
Theorem touching_children_taken_as_concurrent :
  two_children_trace 2067 102067 = touching_children_trace 2067 100000 150000 /\
  (102067 <? 2067 + 100000)%Z = false /\
  Binary64.ltb (Binary64.truediv 102067 1000)
               (Binary64.add (Binary64.truediv 2067 1000) (Binary64.truediv 100000 1000))
  = true /\
  (forall fuel,
      Rounded._calculate_final_critical_io_recursive
        (S (S fuel)) (two_children_trace 2067 102067) ["gmail"]
      = Ok (Binary64.of_Z 150)) /\
  (forall fuel,
      Rounded._calculate_final_critical_io_recursive
        (S (S fuel)) (two_children_trace 2067 102068) ["gmail"]
      = Ok (Binary64.of_Z 250)) /\
  (forall fuel,
      Rounded._calculate_final_critical_io_recursive
        (S (S fuel)) (two_children_trace 2000 102000) ["gmail"]
      = Ok (Binary64.of_Z 250)) /\
  (forall fuel,
      Rounded._calculate_final_critical_io_recursive
        (S (S fuel)) (touching_children_trace 1700000531969374 398964 150000) ["gmail"]
      = Ok (Binary64.truediv 398964 1000)) /\
  (forall fuel,
      Rounded._calculate_final_critical_io_recursive
        (S (S fuel)) (two_children_trace 1000 50000) ["gmail"]
      = Ok (Binary64.of_Z 150)).
Proof.
  split; [reflexivity|]. split; [reflexivity|]. split; [vm_compute; reflexivity|].
  split; [|split; [|split; [|split]]]; intros fuel; vm_compute; reflexivity.
Qed.

(** ** Forests *)

Lemma dict_set_fresh {V : Type} (k : string) (v : V) (d : dict V) :
  ~ In k (map fst d) -> dict_set k v d = d ++ [(k, v)].
Proof.
  induction d as [|[k' v'] d IH]; intros H; simpl; [reflexivity|].
  destruct (String.eqb_spec k k') as [->|Hne].
  - exfalso. apply H. left. reflexivity.
  - rewrite IH; [reflexivity|]. intros Hin. apply H. right. exact Hin.
Qed.

Lemma build_span_lookup_fresh (tr : trace) :
  forall d,
    Forall (fun sp => id sp <> None) tr ->
    NoDup (map id tr) ->
    (forall sp i, In sp tr -> id sp = Some i -> ~ In i (map fst d)) ->
    exists d', build_span_lookup tr d = Ok d' /\ dict_values d' = dict_values d ++ tr.
Proof.
  induction tr as [|sp tr IH]; intros d Hid Hnd Hfresh.
  - exists d. split; [reflexivity|]. rewrite app_nil_r. reflexivity.
  - inversion Hid as [|? ? Hsp Hid']; subst.
    inversion Hnd as [|? ? Hnotin Hnd']; subst.
    simpl. unfold span_id_of. destruct (id sp) as [i|] eqn:E; [|congruence]. cbn [bind].
    rewrite dict_set_fresh by (apply (Hfresh sp i); [left; reflexivity | exact E]).
    destruct (IH (d ++ [(i, sp)]) Hid' Hnd') as (d' & Hd' & Hv).
    + intros s j Hs Hj. rewrite map_app, in_app_iff. intros [Hin|[Heq|[]]].
      * apply (Hfresh s j); [right; exact Hs | exact Hj | exact Hin].
      * simpl in Heq. subst j. apply Hnotin. rewrite <- Hj. apply in_map. exact Hs.
    + exists d'. split; [exact Hd'|]. rewrite Hv. unfold dict_values.
      rewrite map_app. simpl. rewrite <- app_assoc. reflexivity.
Qed.

Section Forest.
Variable tr : trace.
Hypothesis Hforest : forest tr.

Lemma forest_ids (sp : span) : In sp tr -> exists i, id sp = Some i.
Proof.
  intros H. destruct Hforest as (Hid & _ & _).
  apply (proj1 (Forall_forall _ _) Hid) in H.
  destruct (id sp) as [i|]; [exists i; reflexivity | congruence].
Qed.

Lemma forest_unique (a b : span) : In a tr -> In b tr -> id a = id b -> a = b.
Proof.
  destruct Hforest as (_ & Hnd & _). clear Hforest.
  induction tr as [|x l IH]; intros Ha Hb Hab; [destruct Ha|].
  inversion Hnd as [|? ? Hx Hnd']; subst.
  destruct Ha as [<-|Ha], Hb as [<-|Hb].
  - reflexivity.
  - exfalso. apply Hx. rewrite Hab. apply in_map. exact Hb.
  - exfalso. apply Hx. rewrite <- Hab. apply in_map. exact Ha.
  - apply IH; assumption.
Qed.

Lemma forest_NoDup : NoDup tr.
Proof.
  destruct Hforest as (_ & Hnd & _). apply NoDup_map_inv in Hnd. exact Hnd.
Qed.

Lemma parent_unique (c p p' : span) :
  In p tr -> In p' tr -> child_of c p -> child_of c p' -> p = p'.
Proof.
  intros Hp Hp' (i & Hc & Hi) (i' & Hc' & Hi').
  apply forest_unique; [assumption | assumption | congruence].
Qed.

Lemma forest_lookup :
  exists d, build_span_lookup tr [] = Ok d /\ dict_values d = tr.
Proof.
  destruct Hforest as (Hid & Hnd & _).
  destruct (build_span_lookup_fresh tr [] Hid Hnd) as (d & Hd & Hv).
  - intros sp i _ _ [].
  - exists d. split; [exact Hd | exact Hv].
Qed.

Lemma depth_in (x : span) (n : nat) : depth tr x n -> In x tr.
Proof. intros H. destruct H; assumption. Qed.

Lemma depth_unique (x : span) (n : nat) :
  depth tr x n -> forall m, depth tr x m -> n = m.
Proof.
  induction 1 as [sp Hin Hroot | sp p n Hin Hp Hc Hd IH]; intros m Hm.
  - inversion Hm as [|? p' ? _ _ (i & Hpar & _) _]; subst; [reflexivity | congruence].
  - inversion Hm as [? _ Hroot | ? p' m' _ Hp' Hc' Hd']; subst.
    + destruct Hc as (i & Hpar & _). congruence.
    + f_equal. apply IH.
      rewrite (parent_unique sp p p' Hp Hp' Hc Hc'). exact Hd'.
Qed.

Lemma depth_bound :
  exists D, forall sp n, depth tr sp n -> (n <= D)%nat.
Proof.
  destruct Hforest as (_ & _ & Hdepth).
  assert (H : forall l, (forall sp, In sp l -> In sp tr) ->
                        exists D, forall sp n, In sp l -> depth tr sp n -> (n <= D)%nat).
  { induction l as [|x l IH]; intros Hl.
    - exists 0%nat. intros sp n [].
    - destruct IH as (D & HD); [intros sp Hsp; apply Hl; right; exact Hsp|].
      destruct (Hdepth x (Hl x (or_introl eq_refl))) as (nx & Hnx).
      exists (Nat.max D nx). intros sp n [<-|Hsp] Hn.
      + rewrite (depth_unique _ _ Hn _ Hnx). lia.
      + specialize (HD sp n Hsp Hn). lia. }
  destruct (H tr (fun sp Hsp => Hsp)) as (D & HD).
  exists D. intros sp n Hn. apply (HD sp n (depth_in _ _ Hn) Hn).
Qed.

Lemma descends_in (a x : span) (k : nat) : descends tr a x k -> In a tr /\ In x tr.
Proof.
  induction 1 as [a Ha | a c x k Ha Hc Hca Hd IH].
  - split; assumption.
  - split; [exact Ha | apply IH].
Qed.

Lemma descends_depth (a x : span) (k : nat) :
  descends tr a x k -> forall n, depth tr a n -> depth tr x (n + k).
Proof.
  induction 1 as [a Ha | a c x k Ha Hc Hca Hd IH]; intros n Hn.
  - rewrite Nat.add_0_r. exact Hn.
  - replace (n + S k)%nat with (S n + k)%nat by lia.
    apply IH. apply depth_child with a; assumption.
Qed.

Lemma descends_snoc (a p x : span) (k : nat) :
  descends tr a p k -> In x tr -> child_of x p -> descends tr a x (S k).
Proof.
  induction 1 as [a Ha | a c p k Ha Hc Hca Hd IH]; intros Hx Hxp.
  - apply descends_step with x; [assumption | assumption | assumption |].
    apply descends_self. exact Hx.
  - apply descends_step with c; [assumption | assumption | assumption |].
    apply IH; assumption.
Qed.

Lemma descends_top_unique (k : nat) :
  forall a b x, descends tr a x k -> descends tr b x k -> a = b.
Proof.
  induction k as [|k IH]; intros a b x Ha Hb.
  - inversion Ha; subst. inversion Hb; subst. reflexivity.
  - inversion Ha as [|? c ? ? Hain Hcin Hca Hcx]; subst.
    inversion Hb as [|? c' ? ? Hbin Hcin' Hcb Hcx']; subst.
    assert (c = c') by (apply (IH c c' x); assumption). subst c'.
    apply (parent_unique c a b); assumption.
Qed.

Lemma depth_root_descends (x : span) (n : nat) :
  depth tr x n -> exists r, In r tr /\ is_root r = true /\ descends tr r x n.
Proof.
  induction 1 as [sp Hin Hroot | sp p n Hin Hp Hc Hd IH].
  - exists sp. split; [exact Hin|]. split.
    + unfold is_root. rewrite Hroot. reflexivity.
    + apply descends_self. exact Hin.
  - destruct IH as (r & Hr & Hroot & Hdesc).
    exists r. split; [exact Hr|]. split; [exact Hroot|].
    apply descends_snoc with p; assumption.
Qed.

(** Two spans of the same depth have disjoint subtrees. *)
Lemma subtrees_disjoint (a b x : span) (n ka kb : nat) :
  depth tr a n -> depth tr b n ->
  descends tr a x ka -> descends tr b x kb -> a = b.
Proof.
  intros Ha Hb Hax Hbx.
  pose proof (descends_depth _ _ _ Hax _ Ha) as H1.
  pose proof (descends_depth _ _ _ Hbx _ Hb) as H2.
  pose proof (depth_unique _ _ H1 _ H2) as E.
  assert (ka = kb) by lia. subst kb.
  apply (descends_top_unique ka a b x); assumption.
Qed.

Lemma children_of_forest (d : dict span) (p c : span) (i : string) :
  dict_values d = tr -> id p = Some i ->
  (In c (children_of d i) <-> In c tr /\ child_of c p).
Proof.
  intros Hd Hi. unfold children_of. rewrite Hd, filter_In.
  unfold is_child_of, child_of. split.
  - intros [Hin Hc]. split; [exact Hin|].
    destruct (parentId c) as [j|]; [|discriminate].
    apply String.eqb_eq in Hc. subst j. exists i. split; [reflexivity | exact Hi].
  - intros [Hin (j & Hc & Hj)]. split; [exact Hin|].
    rewrite Hc. apply String.eqb_eq. congruence.
Qed.
End Forest.

(** ** The order of the visits *)

Lemma before_app_l {A : Type} (x y : A) (l l' : list A) :
  before x y l -> before x y (l ++ l').
Proof.
  intros (l1 & l2 & l3 & ->). exists l1, l2, (l3 ++ l').
  rewrite <- !app_assoc. simpl. rewrite <- app_assoc. reflexivity.
Qed.

Lemma before_app_r {A : Type} (x y : A) (l l' : list A) :
  before x y l' -> before x y (l ++ l').
Proof.
  intros (l1 & l2 & l3 & ->). exists (l ++ l1), l2, l3.
  rewrite <- app_assoc. reflexivity.
Qed.

Lemma before_concat {A : Type} (x y : A) (l : list A) (ls : list (list A)) :
  In l ls -> before x y l -> before x y (List.concat ls).
Proof.
  induction ls as [|l' ls IH]; intros Hin Hb; [destruct Hin|].
  simpl. destruct Hin as [->|Hin].
  - apply before_app_l, Hb.
  - apply before_app_r, IH; assumption.
Qed.

Lemma before_last {A : Type} (x y : A) (l : list A) :
  In x l -> before x y (l ++ [y]).
Proof.
  intros H. apply in_split in H. destruct H as (l1 & l2 & ->).
  exists l1, l2, []. rewrite <- app_assoc. reflexivity.
Qed.

Lemma Forall2_in_l {A B : Type} (P : A -> B -> Prop) (l : list A) (l' : list B) (a : A) :
  Forall2 P l l' -> In a l -> exists b, In b l' /\ P a b.
Proof.
  induction 1 as [|x y l l' Hxy _ IH]; intros Hin; [destruct Hin|].
  destruct Hin as [<-|Hin].
  - exists y. split; [left; reflexivity | exact Hxy].
  - destruct (IH Hin) as (b & Hb & HP). exists b. split; [right; exact Hb | exact HP].
Qed.

Lemma Forall2_in_r {A B : Type} (P : A -> B -> Prop) (l : list A) (l' : list B) (b : B) :
  Forall2 P l l' -> In b l' -> exists a, In a l /\ P a b.
Proof.
  induction 1 as [|x y l l' Hxy _ IH]; intros Hin; [destruct Hin|].
  destruct Hin as [<-|Hin].
  - exists x. split; [left; reflexivity | exact Hxy].
  - destruct (IH Hin) as (a & Ha & HP). exists a. split; [right; exact Ha | exact HP].
Qed.

Lemma NoDup_concat_Forall2 {A B V : Type} (Q : A -> B -> Prop)
    (cs : list A) (rs : list (V * list B)) :
  Forall2 (fun c r => NoDup (snd r) /\ forall x, In x (snd r) -> Q c x) cs rs ->
  NoDup cs ->
  (forall c1 c2 x, In c1 cs -> In c2 cs -> Q c1 x -> Q c2 x -> c1 = c2) ->
  NoDup (List.concat (map snd rs)).
Proof.
  induction 1 as [|c r cs rs [Hr HQ] HF IH]; intros Hnd Huniq; simpl; [constructor|].
  inversion Hnd as [|? ? Hc Hnd']; subst.
  apply NoDup_app.
  - exact Hr.
  - apply IH; [exact Hnd'|]. intros c1 c2 x H1 H2. apply Huniq; right; assumption.
  - intros x Hx Hx'. apply in_concat in Hx'. destruct Hx' as (l & Hl & Hxl).
    apply in_map_iff in Hl. destruct Hl as (r' & <- & Hr').
    destruct (Forall2_in_r _ _ _ _ HF Hr') as (c' & Hc' & _ & HQ').
    assert (c = c').
    { apply (Huniq c c' x); [left; reflexivity | right; exact Hc' | |].
      - apply HQ, Hx.
      - apply HQ', Hxl. }
    subst c'. contradiction.
Qed.

Lemma descends_inv (tr : trace) (a x : span) (k : nat) :
  descends tr a x k ->
  (k = 0%nat /\ x = a) \/
  (exists c k', k = S k' /\ In c tr /\ child_of c a /\ descends tr c x k').
Proof.
  intros H. destruct H as [a Ha | a c x k Ha Hc Hca Hd].
  - left. split; reflexivity.
  - right. exists c, k. repeat split; assumption.
Qed.

Section Traversal.
Variable tr : trace.
Hypothesis Hforest : forest tr.
Variable d : dict span.
Hypothesis Hd : dict_values d = tr.
Variable ps : list string.

Lemma visits_concat (roots : list span) (rs : list (Q * list span)) (n : nat) :
  NoDup roots ->
  (forall c, In c roots -> depth tr c n) ->
  Forall2 (fun c r => visits_subtree tr c (snd r)) roots rs ->
  (forall x, In x (List.concat (map snd rs)) <->
             exists c k, In c roots /\ descends tr c x k) /\
  NoDup (List.concat (map snd rs)) /\
  (forall c p, In p (List.concat (map snd rs)) -> In c tr -> child_of c p ->
               before c p (List.concat (map snd rs))).
Proof.
  intros Hnd Hdepth HF. split; [|split].
  - intros x. rewrite in_concat. split.
    + intros (l & Hl & Hx). apply in_map_iff in Hl. destruct Hl as (r & <- & Hr).
      destruct (Forall2_in_r _ _ _ _ HF Hr) as (c & Hc & Hspec & _).
      apply Hspec in Hx. destruct Hx as (k & Hk). exists c, k. split; assumption.
    + intros (c & k & Hc & Hk).
      destruct (Forall2_in_l _ _ _ _ HF Hc) as (r & Hr & Hspec & _).
      exists (snd r). split; [apply in_map, Hr | apply Hspec; exists k; exact Hk].
  - apply (NoDup_concat_Forall2 (fun c x => exists k, descends tr c x k) roots rs).
    + apply Forall2_impl with (2 := HF).
      intros c r (Hmem & Hnd' & _). split; [exact Hnd'|]. intros x Hx. apply Hmem, Hx.
    + exact Hnd.
    + intros c1 c2 x H1 H2 (k1 & Hk1) (k2 & Hk2).
      apply (subtrees_disjoint tr Hforest c1 c2 x n k1 k2); auto.
  - intros c p Hp Hc Hcp. apply in_concat in Hp. destruct Hp as (l & Hl & Hpl).
    apply in_map_iff in Hl. destruct Hl as (r & <- & Hr).
    destruct (Forall2_in_r _ _ _ _ HF Hr) as (c' & Hc' & _ & _ & Hbefore).
    apply before_concat with (snd r); [apply in_map, Hr|].
    apply Hbefore; assumption.
Qed.

Lemma aggregate_traced_step (fuel : nat) (sp : span) (n : nat) :
  depth tr sp n ->
  (forall c, In c tr -> child_of c sp ->
             exists r, aggregate_traced fuel d ps c = Ok r /\ visits_subtree tr c (snd r)) ->
  exists r, aggregate_traced (S fuel) d ps sp = Ok r /\ visits_subtree tr sp (snd r).
Proof.
  intros Hdepth Hchildren.
  pose proof (depth_in tr sp n Hdepth) as Hin.
  destruct (forest_ids tr Hforest sp Hin) as (i & Hi).
  destruct (mapM_Forall2_spec (aggregate_traced fuel d ps)
              (fun c r => visits_subtree tr c (snd r)) (children_of d i))
    as (rs & Hrs & HF).
  { intros c Hc. apply (children_of_forest tr d sp c i Hd Hi) in Hc.
    apply Hchildren; apply Hc. }
  cbn [aggregate_traced]. unfold span_id_of. rewrite Hi. cbn [bind].
  rewrite Hrs. cbn [bind]. eexists. split; [reflexivity|]. cbn [snd].
  assert (Hchild : forall c, In c (children_of d i) -> depth tr c (S n)).
  { intros c Hc. apply (children_of_forest tr d sp c i Hd Hi) in Hc.
    destruct Hc as [Hc1 Hc2]. apply depth_child with sp; assumption. }
  assert (Hnd : NoDup (children_of d i)).
  { unfold children_of. apply NoDup_filter. rewrite Hd. apply forest_NoDup, Hforest. }
  destruct (visits_concat (children_of d i) rs (S n) Hnd Hchild HF)
    as (Hmem & Hnodup & Hbefore).
  split; [|split].
  - intros x. rewrite in_app_iff, Hmem. split.
    + intros [(c & k & Hc & Hk)|[<-|[]]].
      * apply (children_of_forest tr d sp c i Hd Hi) in Hc. destruct Hc as [Hc1 Hc2].
        exists (S k). apply descends_step with c; assumption.
      * exists 0%nat. apply descends_self. exact Hin.
    + intros (k & Hk).
      destruct (descends_inv tr _ _ _ Hk) as [[_ ->]|(c & k' & _ & Hc & Hcs & Hcx)].
      * right. left. reflexivity.
      * left. exists c, k'. split; [|exact Hcx].
        apply (children_of_forest tr d sp c i Hd Hi). split; assumption.
  - apply NoDup_app.
    + exact Hnodup.
    + repeat constructor. intros [].
    + intros x Hx [<-|[]]. apply Hmem in Hx. destruct Hx as (c & k & Hc & Hk).
      pose proof (descends_depth tr _ _ _ Hk _ (Hchild c Hc)) as Hdx.
      pose proof (depth_unique tr Hforest _ _ Hdx _ Hdepth). lia.
  - intros c p Hp Hc Hcp. apply in_app_iff in Hp. destruct Hp as [Hp|[<-|[]]].
    + apply before_app_l. apply Hbefore; assumption.
    + apply before_last. apply Hmem. exists c, 0%nat. split.
      * apply (children_of_forest tr d sp c i Hd Hi). split; assumption.
      * apply descends_self. exact Hc.
Qed.

Lemma aggregate_traced_forest (D : nat) :
  (forall sp n, depth tr sp n -> (n <= D)%nat) ->
  forall k sp n fuel,
    depth tr sp n -> (D <= n + k)%nat -> (k < fuel)%nat ->
    exists r, aggregate_traced fuel d ps sp = Ok r /\ visits_subtree tr sp (snd r).
Proof.
  intros HD. induction k as [|k IH]; intros sp n fuel Hdepth Hk Hfuel.
  - destruct fuel as [|fuel]; [lia|].
    apply aggregate_traced_step with n; [exact Hdepth|].
    intros c Hc Hcs. exfalso.
    assert (Hdc : depth tr c (S n))
      by (apply depth_child with sp; [exact Hc | apply (depth_in tr sp n Hdepth) | exact Hcs | exact Hdepth]).
    specialize (HD c (S n) Hdc). lia.
  - destruct fuel as [|fuel]; [lia|].
    apply aggregate_traced_step with n; [exact Hdepth|].
    intros c Hc Hcs. apply (IH c (S n) fuel); [|lia|lia].
    apply depth_child with sp; [exact Hc | apply (depth_in tr sp n Hdepth) | exact Hcs | exact Hdepth].
Qed.
End Traversal.

(** C8.  When the parentId links of a trace form a forest (every span
    carries an id, the ids are distinct and every parent chain reaches a
    root), the recursive aggregation returns: there is a recursion depth that
    suffices, and with it or any larger one the computation yields a value
    and its calls return in an order that lists every span of the trace
    exactly once, each span after all its children (a post-order
    traversal). *)
Theorem recursive_traversal_terminates (tr : trace) (patterns : list string) :
  forest tr ->
  exists fuel, forall fuel', (fuel <= fuel')%nat ->
    exists v visits,
      calculate_traced fuel' tr patterns = Ok (v, visits) /\
      _calculate_final_critical_io_recursive fuel' tr patterns = Ok v /\
      Permutation visits tr /\
      NoDup visits /\
      (forall c p, In c tr -> In p tr -> child_of c p -> before c p visits).
Proof.
  intros Hforest.
  destruct (forest_lookup tr Hforest) as (d & Hbuild & Hd).
  destruct (depth_bound tr Hforest) as (D & HD).
  exists (S D). intros fuel Hfuel.
  assert (Hroot_depth : forall r, In r (filter is_root tr) -> depth tr r 0).
  { intros r Hr. apply filter_In in Hr. destruct Hr as [Hin Hroot].
    apply depth_root; [exact Hin|]. unfold is_root in Hroot.
    destruct (parentId r); [discriminate | reflexivity]. }
  destruct (mapM_Forall2_spec (aggregate_traced fuel d patterns)
              (fun c r => visits_subtree tr c (snd r)) (filter is_root tr))
    as (rs & Hrs & HF).
  { intros r Hr. apply (aggregate_traced_forest tr Hforest d Hd patterns D HD D r 0%nat fuel);
      [apply Hroot_depth, Hr | lia | lia]. }
  assert (Hroots_nd : NoDup (filter is_root tr))
    by (apply NoDup_filter, forest_NoDup, Hforest).
  destruct (visits_concat tr Hforest (filter is_root tr) rs 0%nat Hroots_nd Hroot_depth HF)
    as (Hmem & Hnodup & Hbefore).
  assert (Hall : forall x, In x (List.concat (map snd rs)) <-> In x tr).
  { intros x. rewrite Hmem. split.
    - intros (c & k & _ & Hk). apply (descends_in tr c x k Hk).
    - intros Hx. destruct Hforest as (_ & _ & Hdepth).
      destruct (Hdepth x Hx) as (n & Hn).
      destruct (depth_root_descends tr x n Hn) as (r & Hr & Hroot & Hdesc).
      exists r, n. split; [apply filter_In; split; assumption | exact Hdesc]. }
  assert (Hrun : exists v, calculate_traced fuel tr patterns
                           = Ok (v, List.concat (map snd rs))).
  { unfold calculate_traced. rewrite Hbuild. cbn [bind].
    destruct (filter is_root tr) as [|r0 roots] eqn:E.
    - inversion HF; subst. exists 0. reflexivity.
    - rewrite Hrs. cbn [bind].
      inversion HF as [|? r ? rs' _ _]; subst.
      unfold combine_roots. cbn [map].
      destruct (map fst rs') as [|v' vs].
      + eexists. reflexivity.
      + destruct (_check_concurrency _); eexists; reflexivity. }
  destruct Hrun as (v & Hrun).
  exists v, (List.concat (map snd rs)).
  split; [exact Hrun|]. split.
  { rewrite calculate_traced_value, Hrun. reflexivity. }
  split.
  { apply NoDup_Permutation; [exact Hnodup | apply forest_NoDup, Hforest | exact Hall]. }
  split; [exact Hnodup|].
  intros c p Hc Hp Hcp. apply Hbefore; [apply Hall, Hp | exact Hc | exact Hcp].
Qed.

Lemma recursive_traversal_terminates_witness :
  forest sample_chain_trace /\
  exists fuel, forall fuel', (fuel <= fuel')%nat ->
    exists v visits,
      calculate_traced fuel' sample_chain_trace ["gmail"] = Ok (v, visits) /\
      _calculate_final_critical_io_recursive fuel' sample_chain_trace ["gmail"] = Ok v /\
      Permutation visits sample_chain_trace /\
      NoDup visits /\
      (forall c p, In c sample_chain_trace -> In p sample_chain_trace ->
                   child_of c p -> before c p visits).
Proof.
  assert (Hforest : forest sample_chain_trace).
  {
    split; [|split].
    - repeat constructor; discriminate.
    - repeat constructor; simpl; intuition discriminate.
    - assert (Ha : depth sample_chain_trace
                     (mkSpan (Some "t1") (Some "a") None (Some "http post /benchmark/analyze")
                             (Some 1000%Z) (Some 9000%Z) None) 0).
      { apply depth_root; [right; right; left; reflexivity | reflexivity]. }
      assert (Hb : depth sample_chain_trace
                     (mkSpan (Some "t1") (Some "b") (Some "a") (Some "analyze account")
                             (Some 2000%Z) (Some 5000%Z) None) 1).
      { eapply depth_child; [right; left; reflexivity | | | exact Ha].
        - right; right; left; reflexivity.
        - exists "a". split; reflexivity. }
      intros sp [<-|[<-|[<-|[]]]].
      + exists 2%nat. eapply depth_child; [left; reflexivity | | | exact Hb].
        * right; left; reflexivity.
        * exists "b". split; reflexivity.
      + exists 1%nat. exact Hb.
      + exists 0%nat. exact Ha.
  }
  split.
  - exact Hforest.
  - apply (recursive_traversal_terminates sample_chain_trace ["gmail"]).
    exact Hforest.
Defined.

Example sample_chain_visits :
  calculate_traced 3 sample_chain_trace ["gmail"]
  = Ok (inject_Z 2000 / 1000, sample_chain_trace).
Proof. vm_compute. reflexivity. Qed.

(** ** Percentiles *)

Lemma pyint_floor (x : Q) : 0 <= x -> pyint x = Qfloor x.
Proof.
  destruct x as [n d]. unfold Qle, pyint, Qfloor. simpl. intros H.
  apply Z.quot_div_nonneg; lia.
Qed.

Lemma pyindex_nth {A : Type} (l : list A) (k : Z) (default : A) :
  (0 <= k < Z.of_nat (List.length l))%Z ->
  pyindex l k = Ok (nth (Z.to_nat k) l default).
Proof.
  intros H. unfold pyindex.
  replace (k <? 0)%Z with false by (symmetry; apply Z.ltb_ge; lia).
  replace (k <? 0)%Z with false by (symmetry; apply Z.ltb_ge; lia).
  destruct (nth_error l (Z.to_nat k)) as [a|] eqn:E.
  - rewrite (nth_error_nth _ _ default E). reflexivity.
  - apply nth_error_None in E. lia.
Qed.

Lemma rank_bounds (n : nat) (p : Q) :
  (1 <= n)%nat -> 0 <= p -> p <= 100 ->
  0 <= fractional_rank n p /\ fractional_rank n p <= inject_Z (Z.of_nat n - 1).
Proof.
  intros Hn H0 H100. unfold fractional_rank.
  assert (Hm : 0 <= inject_Z (Z.of_nat n - 1)).
  { rewrite <- (Zle_Qle 0). lia. }
  set (m := inject_Z (Z.of_nat n - 1)) in *.
  split.
  - apply Qmult_le_0_compat; [|exact Hm].
    apply Qle_shift_div_l; [reflexivity|]. rewrite Qmult_0_l. exact H0.
  - rewrite <- (Qmult_1_l m) at 2. apply Qmult_le_compat_r; [|exact Hm].
    apply Qle_shift_div_r; [reflexivity|]. rewrite Qmult_1_l. exact H100.
Qed.

Lemma rank_floor_bounds (n : nat) (p : Q) :
  (1 <= n)%nat -> 0 <= p -> p <= 100 ->
  let idx := fractional_rank n p in
  (0 <= Qfloor idx <= Z.of_nat n - 1)%Z /\
  (~ idx == inject_Z (Qfloor idx) -> (Qfloor idx + 1 <= Z.of_nat n - 1)%Z).
Proof.
  intros Hn H0 H100 idx.
  destruct (rank_bounds n p Hn H0 H100) as [Hlo Hhi]. fold idx in Hlo, Hhi.
  assert (H1 : (0 <= Qfloor idx)%Z).
  { rewrite <- (Qfloor_Z 0). apply Qfloor_resp_le. exact Hlo. }
  assert (H2 : (Qfloor idx <= Z.of_nat n - 1)%Z).
  { rewrite <- (Qfloor_Z (Z.of_nat n - 1)). apply Qfloor_resp_le. exact Hhi. }
  split; [split; assumption|].
  intros Hne.
  destruct (Z_le_lt_eq_dec _ _ H2) as [Hlt|Heq]; [lia|].
  exfalso. apply Hne. apply Qle_antisym.
  - rewrite Heq. exact Hhi.
  - apply Qfloor_le.
Qed.

Lemma percentile_value_spec (s : list Q) (p : Q) :
  s <> [] -> 0 <= p -> p <= 100 ->
  exists v, percentile_value s p = Ok v /\ is_percentile s p v.
Proof.
  intros Hs H0 H100.
  assert (Hn : (1 <= List.length s)%nat) by (destruct s; [congruence | simpl; lia]).
  destruct (rank_bounds _ p Hn H0 H100) as [Hlo _].
  destruct (rank_floor_bounds _ p Hn H0 H100) as [[Hf0 Hf1] Hf2].
  unfold percentile_value, is_percentile.
  change (p / 100 * inject_Z (Z.of_nat (List.length s) - 1))
    with (fractional_rank (List.length s) p).
  set (idx := fractional_rank (List.length s) p) in *.
  rewrite (pyint_floor idx Hlo). unfold is_integer. rewrite (pyint_floor idx Hlo).
  destruct (Qeq_bool idx (inject_Z (Qfloor idx))) eqn:E.
  - apply Qeq_bool_iff in E.
    rewrite (pyindex_nth s (Qfloor idx) 0) by lia.
    eexists. split; [reflexivity|]. split; [lia|]. split.
    + intros _. reflexivity.
    + intros Hne. contradiction.
  - apply Qeq_bool_neq in E. specialize (Hf2 E).
    rewrite (pyindex_nth s (Qfloor idx) 0) by lia. cbn [bind].
    rewrite (pyindex_nth s (Qfloor idx + 1) 0) by lia. cbn [bind].
    eexists. split; [reflexivity|]. split; [lia|]. split.
    + intros He. contradiction.
    + intros _. split; [lia|].
      replace (Z.to_nat (Qfloor idx + 1)) with (S (Z.to_nat (Qfloor idx))) by lia.
      reflexivity.
Qed.

Lemma fractional_rank_comp (n : nat) (p p' : Q) :
  p == p' -> fractional_rank n p == fractional_rank n p'.
Proof.
  intros H. unfold fractional_rank. rewrite H. reflexivity.
Qed.

Lemma is_percentile_comp (s : list Q) (p p' v : Q) :
  p == p' -> is_percentile s p' v -> is_percentile s p v.
Proof.
  intros H. unfold is_percentile. cbv zeta.
  pose proof (fractional_rank_comp (List.length s) p p' H) as Hidx.
  rewrite (Qfloor_comp _ _ Hidx).
  set (f := Qfloor (fractional_rank (List.length s) p')).
  intros (H1 & H2 & H3). split; [exact H1|]. split.
  - intros He. apply H2.
    apply Qeq_trans with (fractional_rank (List.length s) p); [symmetry; exact Hidx | exact He].
  - intros Hne. destruct H3 as [H3 H4].
    + intros He. apply Hne.
      apply Qeq_trans with (fractional_rank (List.length s) p'); [exact Hidx | exact He].
    + split; [exact H3|].
      apply Qeq_trans with (1 := H4).
      apply Qplus_comp; [reflexivity|]. apply Qmult_comp; [reflexivity|].
      apply Qplus_comp; [symmetry; exact Hidx | reflexivity].
Qed.

Lemma Qeq_bool_trans (a b c : Q) :
  Qeq_bool a b = true -> Qeq_bool b c = true -> Qeq_bool a c = true.
Proof.
  rewrite !Qeq_bool_iff. apply Qeq_trans.
Qed.

Lemma Qeq_bool_shift (a b c : Q) :
  Qeq_bool b c = true -> Qeq_bool a b = Qeq_bool a c.
Proof.
  intros H. destruct (Qeq_bool a c) eqn:E.
  - apply Qeq_bool_iff in E. apply Qeq_bool_iff in H. apply Qeq_bool_iff.
    rewrite E, H. reflexivity.
  - destruct (Qeq_bool a b) eqn:E'; [|reflexivity].
    rewrite <- E. symmetry. apply Qeq_bool_trans with b; assumption.
Qed.

Lemma pdict_get_set (q p v : Q) (d : pdict) :
  pdict_get q (pdict_set p v d) = if Qeq_bool q p then Some v else pdict_get q d.
Proof.
  induction d as [|[p0 v0] d IH]; simpl.
  - reflexivity.
  - destruct (Qeq_bool p p0) eqn:E; simpl.
    + rewrite (Qeq_bool_shift q p p0 E). destruct (Qeq_bool q p0); reflexivity.
    + rewrite IH. destruct (Qeq_bool q p0) eqn:E0; [|reflexivity].
      destruct (Qeq_bool q p) eqn:E1; [|reflexivity].
      exfalso. apply Qeq_bool_iff in E0. apply Qeq_bool_iff in E1.
      apply Qeq_bool_neq in E. apply E. rewrite <- E1, E0. reflexivity.
Qed.

Lemma percentiles_loop_spec (s : list Q) (ps : list Q) :
  s <> [] -> Forall (fun p => 0 <= p /\ p <= 100) ps ->
  forall d0,
    (forall q v, pdict_get q d0 = Some v -> is_percentile s q v) ->
    exists d,
      percentiles_loop s ps d0 = Ok d /\
      (forall q v, pdict_get q d = Some v -> is_percentile s q v) /\
      (forall q, In q ps \/ pdict_get q d0 <> None -> pdict_get q d <> None).
Proof.
  intros Hs. induction 1 as [|p ps [H0 H100] _ IH]; intros d0 Hinv.
  - exists d0. split; [reflexivity|]. split; [exact Hinv|].
    intros q [[]|H]. exact H.
  - destruct (percentile_value_spec s p Hs H0 H100) as (v & Hv & Hspec).
    destruct (IH (pdict_set p v d0)) as (d & Hd & Hinv' & Hpres).
    + intros q w. rewrite pdict_get_set. destruct (Qeq_bool q p) eqn:E.
      * intros Hw. inversion Hw; subst.
        apply is_percentile_comp with p; [apply Qeq_bool_iff, E | exact Hspec].
      * apply Hinv.
    + exists d. split; [simpl; rewrite Hv; exact Hd|]. split; [exact Hinv'|].
      intros q Hq. apply Hpres. destruct Hq as [[<-|Hq]|Hq].
      * right. rewrite pdict_get_set.
        replace (Qeq_bool p p) with true by (symmetry; apply Qeq_bool_iff; reflexivity).
        discriminate.
      * left. exact Hq.
      * right. rewrite pdict_get_set. destruct (Qeq_bool q p); [discriminate | exact Hq].
Qed.

Lemma zero_percentiles (ps : list Q) :
  forall d0,
    (forall q v, pdict_get q d0 = Some v -> v = 0) ->
    (forall q v, pdict_get q (fold_left (fun d p => pdict_set p 0 d) ps d0) = Some v -> v = 0) /\
    (forall q, In q ps \/ pdict_get q d0 <> None ->
               pdict_get q (fold_left (fun d p => pdict_set p 0 d) ps d0) <> None).
Proof.
  induction ps as [|p ps IH]; intros d0 Hinv; simpl.
  - split; [exact Hinv|]. intros q [[]|H]. exact H.
  - destruct (IH (pdict_set p 0 d0)) as [H1 H2].
    + intros q v. rewrite pdict_get_set. destruct (Qeq_bool q p).
      * intros H. inversion H. reflexivity.
      * apply Hinv.
    + split; [exact H1|]. intros q Hq. apply H2. destruct Hq as [[<-|Hq]|Hq].
      * right. rewrite pdict_get_set.
        replace (Qeq_bool p p) with true by (symmetry; apply Qeq_bool_iff; reflexivity).
        discriminate.
      * left. exact Hq.
      * right. rewrite pdict_get_set. destruct (Qeq_bool q p); [discriminate | exact Hq].
Qed.

Lemma sorted_ascending (values : list Q) :
  Permutation (sorted values) values /\ StronglySorted Qle (sorted values).
Proof.
  split; [apply sort_by_perm|].
  pose proof (sort_by_sorted Qle_bool (fun v : Q => v) Qle_bool_total Qle_bool_trans values)
    as H.
  unfold sorted. induction H as [|x l _ IH Hx]; constructor.
  - exact IH.
  - apply Forall_impl with (2 := Hx). intros y Hy. apply Qle_bool_iff, Hy.
Qed.

(** C7.  For a non-empty value list and requested percentiles in [0, 100]
    the percentile function returns, for each requested p, the order
    statistic of the ascending list at the fractional rank
    idx = (p / 100) * (n - 1) when idx is an integer, and otherwise
    lower + (upper - lower) * (idx - floor idx) for the order statistics at
    the floor and the ceiling of idx; percentiles([10, 20, 30, 40], [50]) is
    25; for the empty list every requested percentile is 0. *)
Theorem percentiles_interpolate :
  (forall (values ps : list Q),
      values <> [] -> Forall (fun p => 0 <= p /\ p <= 100) ps ->
      Permutation (sorted values) values /\
      StronglySorted Qle (sorted values) /\
      exists d,
        calculate_percentiles values (Some ps) = Ok d /\
        forall p, In p ps ->
                  exists v, pdict_get p d = Some v /\ is_percentile (sorted values) p v) /\
  (exists v, calculate_percentiles [10; 20; 30; 40] (Some [50]) = Ok [(50, v)] /\ v == 25) /\
  (forall (ps : option (list Q)),
      exists d,
        calculate_percentiles [] ps = Ok d /\
        forall p, In p (get_or ps [50; 90; 95; 99]) -> pdict_get p d = Some 0).
Proof.
  split; [|split].
  - intros values ps Hne Hps.
    destruct (sorted_ascending values) as [Hperm Hsort].
    split; [exact Hperm|]. split; [exact Hsort|].
    assert (Hs : sorted values <> []).
    { intros E. apply Hne. apply Permutation_nil. rewrite <- E. exact Hperm. }
    destruct (percentiles_loop_spec (sorted values) ps Hs Hps []) as (d & Hd & Hinv & Hpres).
    { intros q v H. discriminate H. }
    exists d. split.
    + unfold calculate_percentiles. cbn [get_or].
      destruct values; [congruence | exact Hd].
    + intros p Hp. specialize (Hpres p (or_introl Hp)).
      destruct (pdict_get p d) as [v|] eqn:E; [|congruence].
      exists v. split; [reflexivity | apply Hinv, E].
  - eexists. split; [vm_compute; reflexivity | reflexivity].
  - intros ps. unfold calculate_percentiles. eexists. split; [reflexivity|].
    intros p Hp.
    destruct (zero_percentiles (get_or ps [50; 90; 95; 99]) []) as [H1 H2].
    { intros q v H. discriminate H. }
    specialize (H2 p (or_introl Hp)).
    destruct (pdict_get p _) as [v|] eqn:E; [|congruence].
    rewrite (H1 p v E). reflexivity.
Qed.

Lemma percentiles_interpolate_witness :
  exists d,
    calculate_percentiles [40; 10; 30; 20] (Some [50; 100; 0]) = Ok d /\
    forall p, In p [50; 100; 0] ->
              exists v, pdict_get p d = Some v /\ is_percentile (sorted [40; 10; 30; 20]) p v.
Proof.
  destruct (proj1 percentiles_interpolate [40; 10; 30; 20] [50; 100; 0]) as (_ & _ & H).
  - discriminate.
  - repeat constructor; discriminate.
  - exact H.
Defined.

(** ** Outliers *)

Lemma pymin_cases (x y : Q) : (pymin x y = x /\ x <= y) \/ (pymin x y = y /\ y < x).
Proof.
  unfold pymin. destruct (Qlt_bool y x) eqn:E.
  - right. split; [reflexivity | apply Qlt_bool_iff, E].
  - left. split; [reflexivity | apply Qlt_bool_false_iff, E].
Qed.

Lemma pymin_list_least (v : Q) (vs : list Q) : least (pymin_list v vs) (v :: vs).
Proof.
  unfold pymin_list. revert v. induction vs as [|y vs IH]; intros v.
  - simpl. split; [left; reflexivity | repeat constructor; apply Qle_refl].
  - cbn [fold_left]. destruct (IH (pymin v y)) as [Hin Hall].
    inversion Hall as [|? ? Hm Hall']; subst.
    destruct (pymin_cases v y) as [[E Hle]|[E Hlt]]; rewrite E in *.
    + split.
      * destruct Hin as [<-|Hin]; [left; reflexivity | right; right; exact Hin].
      * constructor; [exact Hm|]. constructor; [|exact Hall'].
        apply Qle_trans with v; assumption.
    + split.
      * destruct Hin as [<-|Hin]; [right; left; reflexivity | right; right; exact Hin].
      * constructor; [|constructor; assumption].
        apply Qle_trans with y; [exact Hm | apply Qlt_le_weak, Hlt].
Qed.

Lemma filter_nil {A : Type} (f : A -> bool) (l : list A) :
  (forall a, In a l -> f a = false) -> filter f l = [].
Proof.
  induction l as [|a l IH]; intros H; simpl; [reflexivity|].
  rewrite (H a (or_introl eq_refl)). apply IH. intros b Hb. apply H. right. exact Hb.
Qed.

(** C10.  For a non-empty duration list with fewer than four samples the
    quartile bounds are q1 = min and q3 = max, every sample lies within the
    fence [min - 1.5 * (max - min), max + 1.5 * (max - min)], and the
    stability analysis reports no outlier: count 0, empty value list,
    percentage 0. *)
Theorem few_samples_no_outliers (durations : list Q) :
  durations <> [] -> (List.length durations < 4)%nat ->
  exists mn mx,
    least mn durations /\ greatest mx durations /\
    list_min durations = Ok mn /\ list_max durations = Ok mx /\
    quartile_bounds durations = Ok (mn, mx) /\
    Forall (fun d => fst (outlier_fence mn mx) <= d /\ d <= snd (outlier_fence mn mx))
           durations /\
    exists o,
      analyze_performance_stability durations = Ok (Some o) /\
      outliers_count o = 0%nat /\ outliers_values o = [] /\ outliers_percentage o == 0.
Proof.
  intros Hne Hlen. destruct durations as [|x l]; [congruence|].
  exists (pymin_list x l), (pymax_list x l).
  pose proof (pymin_list_least x l) as Hmin. pose proof (pymax_list_greatest x l) as Hmax.
  split; [exact Hmin|]. split; [exact Hmax|].
  split; [reflexivity|]. split; [reflexivity|].
  assert (Hq : quartile_bounds (x :: l) = Ok (pymin_list x l, pymax_list x l)).
  { unfold quartile_bounds.
    replace (4 <=? List.length (x :: l))%nat with false by (symmetry; apply Nat.leb_gt; exact Hlen).
    reflexivity. }
  split; [exact Hq|].
  assert (Hfence : Forall (fun d => fst (outlier_fence (pymin_list x l) (pymax_list x l)) <= d /\
                                    d <= snd (outlier_fence (pymin_list x l) (pymax_list x l)))
                          (x :: l)).
  { destruct Hmin as [_ Hmin]. destruct Hmax as [_ Hmax].
    apply Forall_forall. intros d Hd.
    pose proof (proj1 (Forall_forall _ _) Hmin d Hd) as H1.
    pose proof (proj1 (Forall_forall _ _) Hmax d Hd) as H2.
    cbn beta in H1, H2. unfold outlier_fence. cbn [fst snd].
    set (mn := pymin_list x l) in *. set (mx := pymax_list x l) in *.
    split; lra. }
  split; [exact Hfence|].
  unfold analyze_performance_stability. rewrite Hq. cbn [bind fst snd].
  destruct (outlier_fence (pymin_list x l) (pymax_list x l)) as [lo hi] eqn:E.
  cbn [fst snd] in Hfence.
  rewrite filter_nil.
  - eexists. split; [reflexivity|]. cbn. repeat split.
  - intros d Hd. apply (proj1 (Forall_forall _ _) Hfence) in Hd. destruct Hd as [H1 H2].
    apply orb_false_iff. split; apply Qlt_bool_false_iff; assumption.
Qed.

Lemma few_samples_no_outliers_witness :
  exists o,
    analyze_performance_stability [120; 95; 400] = Ok (Some o) /\
    outliers_count o = 0%nat /\ outliers_values o = [] /\ outliers_percentage o == 0.
Proof.
  destruct (few_samples_no_outliers [120; 95; 400]) as (mn & mx & _ & _ & _ & _ & _ & _ & H).
  - discriminate.
  - simpl. lia.
  - exact H.
Defined.

(** ** Loading *)

Lemma load_fails_iff (fs : filesystem) (self : TraceParser) (content : string) :
  dict_get (trace_file_path self) fs = Some content ->
  (load_fails fs self <->
   (Json.loads (strip_bom content) = None \/
    (exists w, Json.loads (strip_bom content) = Some w /\ forall m, w <> JObj m) \/
    (exists members payload,
        Json.loads (strip_bom content) = Some (JObj members) /\
        dict_get "rawData" members = Some payload /\
        forall raw, payload = JStr raw -> Json.loads raw = None))).
Proof.
  intros Ec. unfold load_fails. rewrite Ec. split.
  - intros [H|(c & Hc & H)]; [discriminate|]. inversion Hc; subst c. exact H.
  - intros H. right. exists content. split; [reflexivity | exact H].
Qed.

(** C6, as stated, fails: a well-formed wrapper object without the
    payload entry loads as the empty trace list instead of raising. *)
Lemma load_without_payload_returns_empty :
  Json.loads "{}" = Some (JObj []) /\
  dict_get "rawData" (@nil (string * json)) = None /\
  _load_traces_direct sample_empty_wrapper sample_loader = Ok (JArr []).
Proof.
  repeat split; vm_compute; reflexivity.
Qed.

(** C6, amended.  Loading raises [ValueError] exactly when the file cannot
    be read, its text is not JSON, the wrapper is not a JSON object, or the
    wrapper has a [rawData] entry that is not a string holding JSON text; a
    wrapper object without [rawData] loads as the empty list (the default
    ['[]']), and a payload that parses is returned as it is. *)
Theorem load_traces_direct_spec (fs : filesystem) (self : TraceParser) :
  (load_fails fs self <->
   _load_traces_direct fs self
   = Raise (ValueError ("Failed to load traces from " ++ trace_file_path self)%string)) /\
  (~ load_fails fs self <-> exists v, _load_traces_direct fs self = Ok v) /\
  (forall content members,
      dict_get (trace_file_path self) fs = Some content ->
      Json.loads (strip_bom content) = Some (JObj members) ->
      (dict_get "rawData" members = None -> _load_traces_direct fs self = Ok (JArr [])) /\
      (forall raw v, dict_get "rawData" members = Some (JStr raw) ->
                     Json.loads raw = Some v -> _load_traces_direct fs self = Ok v)).
Proof.
  assert (Hempty : Json.loads "[]" = Some (JArr [])) by (vm_compute; reflexivity).
  assert (Hcases :
    (load_fails fs self /\
     _load_traces_direct fs self
     = Raise (ValueError ("Failed to load traces from " ++ trace_file_path self)%string)) \/
    (~ load_fails fs self /\ exists v, _load_traces_direct fs self = Ok v)).
  { destruct (dict_get (trace_file_path self) fs) as [content|] eqn:Ec.
    2:{ left. split; [left; exact Ec|]. unfold _load_traces_direct. rewrite Ec. reflexivity. }
    pose proof (load_fails_iff fs self content Ec) as Hiff.
    unfold _load_traces_direct. rewrite Ec.
    destruct (Json.loads (strip_bom content)) as [w|] eqn:Ew.
    2:{ left. split; [apply Hiff; left; reflexivity | reflexivity]. }
    destruct w as [ |b|n|lit|s|items|members];
      try (left; split; [|reflexivity]; apply Hiff; right; left;
           eexists; split; [reflexivity | intros m; discriminate]).
    destruct (dict_get "rawData" members) as [payload|] eqn:Ep; cbn [get_or].
    - destruct payload as [ |b|n|lit|raw|items|members'];
        try (left; split; [|reflexivity]; apply Hiff; right; right;
             exists members; eexists; split; [reflexivity|];
             split; [exact Ep | intros raw; discriminate]).
      destruct (Json.loads raw) as [v|] eqn:Er.
      + right. split; [|exists v; reflexivity].
        intros Hf. apply Hiff in Hf.
        destruct Hf as [H|[(w & Hw & Hm)|(m & p & Hm & Hp & Hr)]]; [discriminate| |].
        * inversion Hw; subst w. apply (Hm members). reflexivity.
        * inversion Hm; subst m. rewrite Ep in Hp. inversion Hp; subst p.
          rewrite (Hr raw eq_refl) in Er. discriminate.
      + left. split; [|reflexivity]. apply Hiff. right. right.
        exists members, (JStr raw). split; [reflexivity|].
        split; [exact Ep|]. intros raw' H. inversion H; subst raw'. exact Er.
    - rewrite Hempty. right. split; [|exists (JArr []); reflexivity].
      intros Hf. apply Hiff in Hf.
      destruct Hf as [H|[(w & Hw & Hm)|(m & p & Hm & Hp & Hr)]]; [discriminate| |].
      + inversion Hw; subst w. apply (Hm members). reflexivity.
      + inversion Hm; subst m. rewrite Ep in Hp. discriminate. }
  split; [|split].
  - split.
    + intros Hf. destruct Hcases as [[_ H]|[Hn _]]; [exact H | contradiction].
    + intros Hr. destruct Hcases as [[H _]|[_ (v & Hv)]]; [exact H | congruence].
  - split.
    + intros Hn. destruct Hcases as [[H _]|[_ H]]; [contradiction | exact H].
    + intros (v & Hv) Hf. destruct Hcases as [[_ H]|[Hn _]]; [congruence | contradiction].
  - intros content members Hc Hw. unfold _load_traces_direct. rewrite Hc, Hw. split.
    + intros Hp. rewrite Hp. cbn [get_or]. rewrite Hempty. reflexivity.
    + intros raw v Hp Hr. rewrite Hp. cbn [get_or]. rewrite Hr. reflexivity.
Qed.

Lemma load_traces_direct_spec_witness :
  _load_traces_direct [("raw-zipkin-traces.json", sample_wrapper_text)] sample_loader
  = Ok (JArr [JArr [JObj [("id", JStr "a"); ("duration", JInt 5000)]]]).
Proof.
  destruct (load_traces_direct_spec [("raw-zipkin-traces.json", sample_wrapper_text)]
              sample_loader) as (_ & _ & H).
  eapply (proj2 (H sample_wrapper_text _ eq_refl eq_refl)).
  - vm_compute. reflexivity.
  - vm_compute. reflexivity.
Defined.

(** * Further properties *)

(** ** The merged intervals *)

Lemma merge_loop_cons (current next : Interval.t) (rest : list Interval.t) :
  Qle_bool (Interval.start next) (Interval.end_ current) = false ->
  merge_loop [] current (next :: rest) = current :: merge_loop [] next rest.
Proof.
  intros H. cbn [merge_loop]. rewrite H. rewrite merge_loop_acc. reflexivity.
Qed.

Lemma merge_loop_head (rest : list Interval.t) :
  forall current,
    exists first others,
      merge_loop [] current rest = first :: others /\
      Interval.start first = Interval.start current /\
      Interval.end_ current <= Interval.end_ first /\
      (List.length others <= List.length rest)%nat.
Proof.
  induction rest as [|next rest IH]; intros current.
  - exists current, []. repeat split; [apply Qle_refl | apply Nat.le_refl].
  - cbn [merge_loop].
    destruct (Qle_bool (Interval.start next) (Interval.end_ current)) eqn:E.
    + match goal with |- context [merge_loop [] ?c rest] => destruct (IH c) as (f & o & Hm & Hs & He & Hl) end.
      exists f, o. rewrite Hm. cbn [Interval.start Interval.end_] in Hs, He.
      split; [reflexivity|]. split; [exact Hs|]. split.
      * eapply Qle_trans; [|exact He]. unfold pymax.
        destruct (Qlt_bool (Interval.end_ current) (Interval.end_ next)) eqn:E'.
        -- apply Qlt_le_weak, Qlt_bool_iff, E'.
        -- apply Qle_refl.
      * simpl. lia.
    + rewrite merge_loop_acc. exists current, (merge_loop [] next rest).
      split; [reflexivity|]. split; [reflexivity|]. split; [apply Qle_refl|].
      destruct (IH next) as (f & o & Hm & _ & _ & Hl). rewrite Hm. simpl. lia.
Qed.

Lemma merge_loop_separated (rest : list Interval.t) :
  forall current l1 x y l2,
    merge_loop [] current rest = l1 ++ x :: y :: l2 ->
    Interval.end_ x < Interval.start y.
Proof.
  induction rest as [|next rest IH]; intros current l1 x y l2.
  - simpl. intros H. destruct l1 as [|? [|? ?]]; discriminate.
  - cbn [merge_loop].
    destruct (Qle_bool (Interval.start next) (Interval.end_ current)) eqn:E.
    + apply IH.
    + rewrite merge_loop_acc. cbn [app]. intros H.
      destruct l1 as [|z l1].
      * cbn [app] in H. inversion H as [[Hx Hy]].
        destruct (merge_loop_head rest next) as (f & o & Hm & Hs & _ & _).
        rewrite Hm in Hy. inversion Hy; subst. rewrite Hs.
        apply Qlt_bool_iff. unfold Qlt_bool. rewrite E. reflexivity.
      * cbn [app] in H. inversion H as [[Hz Hrest]]. apply (IH next l1 x y l2 Hrest).
Qed.

Lemma merge_loop_wellformed (rest : list Interval.t) :
  forall current,
    Interval.start current <= Interval.end_ current ->
    Forall (fun iv => Interval.start iv <= Interval.end_ iv) rest ->
    Forall (fun iv => Interval.start iv <= Interval.end_ iv) (merge_loop [] current rest).
Proof.
  induction rest as [|next rest IH]; intros current Hc Hr.
  - simpl. constructor; [exact Hc | constructor].
  - inversion Hr as [|? ? Hn Hr']; subst. cbn [merge_loop].
    destruct (Qle_bool (Interval.start next) (Interval.end_ current)) eqn:E.
    + apply IH; [|exact Hr']. cbn [Interval.start Interval.end_].
      eapply Qle_trans; [exact Hc|]. unfold pymax.
      destruct (Qlt_bool (Interval.end_ current) (Interval.end_ next)) eqn:E'.
      * apply Qlt_le_weak, Qlt_bool_iff, E'.
      * apply Qle_refl.
    + rewrite merge_loop_acc. cbn [app]. constructor; [exact Hc|]. apply IH; assumption.
Qed.

Lemma pymax_spec (x y t : Q) : t < pymax x y <-> t < x \/ t < y.
Proof.
  destruct (pymax_cases x y) as [[E H]|[E H]]; rewrite E; split.
  - intros Ht. left. exact Ht.
  - intros [Ht|Ht]; [exact Ht|]. eapply Qlt_le_trans; eassumption.
  - intros Ht. right. exact Ht.
  - intros [Ht|Ht]; [|exact Ht]. eapply Qlt_trans; eassumption.
Qed.

Lemma merge_loop_covers (rest : list Interval.t) (t : Q) :
  forall current,
    StronglySorted (fun a b => Interval.start a <= Interval.start b) (current :: rest) ->
    (covered_by (merge_loop [] current rest) t <-> covered_by (current :: rest) t).
Proof.
  induction rest as [|next rest IH]; intros current Hs.
  - simpl. reflexivity.
  - inversion Hs as [|? ? Hsn Hc]; subst.
    inversion Hc as [|? ? Hn Hc']; subst.
    inversion Hsn as [|? ? Hsr Hnr]; subst.
    cbn [merge_loop].
    destruct (Qle_bool (Interval.start next) (Interval.end_ current)) eqn:E.
    + apply Qle_bool_iff in E.
      rewrite IH by (constructor; [exact Hsr | exact Hc']).
      unfold covered_by. split.
      * intros (iv & [<-|Hin] & H1 & H2).
        -- cbn [Interval.start Interval.end_] in H1, H2.
           apply pymax_spec in H2. destruct H2 as [H2|H2].
           ++ exists current. split; [left; reflexivity | split; assumption].
           ++ destruct (Qlt_le_dec t (Interval.end_ current)) as [Hlt|Hge].
              ** exists current. split; [left; reflexivity | split; assumption].
              ** exists next. split; [right; left; reflexivity|]. split; [|exact H2].
                 eapply Qle_trans; eassumption.
        -- exists iv. split; [right; right; exact Hin | split; assumption].
      * intros (iv & [<-|[<-|Hin]] & H1 & H2).
        -- eexists. split; [left; reflexivity|]. cbn [Interval.start Interval.end_].
           split; [exact H1|]. apply pymax_spec. left. exact H2.
        -- eexists. split; [left; reflexivity|]. cbn [Interval.start Interval.end_].
           split; [eapply Qle_trans; eassumption|]. apply pymax_spec. right. exact H2.
        -- exists iv. split; [right; exact Hin | split; assumption].
    + rewrite merge_loop_acc. cbn [app]. unfold covered_by. split.
      * intros (iv & [<-|Hin] & H1 & H2).
        -- exists current. split; [left; reflexivity | split; assumption].
        -- assert (Hcov : covered_by (merge_loop [] next rest) t)
             by (exists iv; split; [exact Hin | split; assumption]).
           apply (IH next Hsn) in Hcov.
           destruct Hcov as (iv' & Hin' & H1' & H2').
           exists iv'. split; [right; exact Hin' | split; assumption].
      * intros (iv & [<-|Hin] & H1 & H2).
        -- exists current. split; [left; reflexivity | split; assumption].
        -- assert (Hcov : covered_by (next :: rest) t)
             by (exists iv; split; [exact Hin | split; assumption]).
           apply (IH next Hsn) in Hcov.
           destruct Hcov as (iv' & Hin' & H1' & H2').
           exists iv'. split; [right; exact Hin' | split; assumption].
Qed.

(** X1.  [_merge_intervals] on intervals sorted by start, none of which
    ends before it starts, returns blocks that cover exactly the instants
    the given intervals cover, with every block starting strictly after the
    previous block ends (so neither overlapping nor adjacent blocks remain);
    no block ends before it starts and there are at most as many blocks as
    intervals. *)
Theorem merge_intervals_canonical (intervals : list Interval.t) :
  StronglySorted (fun a b => Interval.start a <= Interval.start b) intervals ->
  Forall (fun iv => Interval.start iv <= Interval.end_ iv) intervals ->
  (forall t, covered_by (_merge_intervals intervals) t <-> covered_by intervals t) /\
  (forall l1 x y l2, _merge_intervals intervals = l1 ++ x :: y :: l2 ->
                     Interval.end_ x < Interval.start y) /\
  Forall (fun iv => Interval.start iv <= Interval.end_ iv) (_merge_intervals intervals) /\
  (List.length (_merge_intervals intervals) <= List.length intervals)%nat /\
  (intervals <> [] -> _merge_intervals intervals <> []).
Proof.
  intros Hs Hw. destruct intervals as [|first rest].
  - simpl. split; [reflexivity|]. split.
    + intros l1 x y l2 H. destruct l1; discriminate.
    + split; [constructor|]. split; [apply Nat.le_refl | congruence].
  - cbn [_merge_intervals]. inversion Hw as [|? ? Hf Hr]; subst.
    split; [intros t; apply merge_loop_covers, Hs|].
    split; [apply merge_loop_separated|].
    split; [apply merge_loop_wellformed; assumption|].
    destruct (merge_loop_head rest first) as (f & o & Hm & _ & _ & Hl).
    rewrite Hm. split; [simpl; lia | discriminate].
Qed.

Lemma merge_intervals_canonical_witness :
  (forall t,
      covered_by (_merge_intervals (map interval_of (two_children_trace 1000 50000))) t
      <-> covered_by (map interval_of (two_children_trace 1000 50000)) t) /\
  (forall l1 x y l2,
      _merge_intervals (map interval_of (two_children_trace 1000 50000)) = l1 ++ x :: y :: l2 ->
      Interval.end_ x < Interval.start y) /\
  (List.length (_merge_intervals (map interval_of (two_children_trace 1000 50000))) <= 3)%nat.
Proof.
  destruct (merge_intervals_canonical (map interval_of (two_children_trace 1000 50000)))
    as (H1 & H2 & _ & H4 & _).
  - repeat constructor; vm_compute; discriminate.
  - repeat constructor; vm_compute; discriminate.
  - split; [exact H1|]. split; [exact H2 | exact H4].
Defined.

(** ** Bounds of the interval-union critical I/O *)

Lemma count_from_mono (P P' : Z -> bool) (n : nat) (lo : Z) :
  (forall t, (lo <= t < lo + Z.of_nat n)%Z -> P t = true -> P' t = true) ->
  (count_from P lo n <= count_from P' lo n)%Z.
Proof.
  revert lo. induction n as [|n IH]; intros lo H; [apply Z.le_refl|].
  cbn [count_from]. specialize (IH (lo + 1)%Z).
  assert (Hrec : (count_from P (lo + 1) n <= count_from P' (lo + 1) n)%Z)
    by (apply IH; intros t Ht; apply H; lia).
  destruct (P lo) eqn:E.
  - rewrite (H lo) by (try lia; exact E). lia.
  - destruct (P' lo); lia.
Qed.

Lemma count_from_or_le (P P' : Z -> bool) (n : nat) (lo : Z) :
  (count_from (fun t => P t || P' t) lo n <= count_from P lo n + count_from P' lo n)%Z.
Proof.
  revert lo. induction n as [|n IH]; intros lo; [apply Z.le_refl|].
  cbn [count_from]. specialize (IH (lo + 1)%Z).
  destruct (P lo), (P' lo); cbn [orb]; lia.
Qed.

Lemma count_from_range (P : Z -> bool) (n : nat) (lo : Z) :
  (0 <= count_from P lo n <= Z.of_nat n)%Z.
Proof.
  revert lo. induction n as [|n IH]; intros lo; [simpl; lia|].
  cbn [count_from]. specialize (IH (lo + 1)%Z). destruct (P lo); lia.
Qed.

Lemma measure_mono (P P' : Z -> bool) (lo hi : Z) :
  (forall t, (lo <= t < hi)%Z -> P t = true -> P' t = true) ->
  (measure P lo hi <= measure P' lo hi)%Z.
Proof.
  intros H. unfold measure. apply count_from_mono. intros t Ht. apply H. lia.
Qed.

Lemma measure_or_le (P P' : Z -> bool) (lo hi : Z) :
  (measure (fun t => P t || P' t) lo hi <= measure P lo hi + measure P' lo hi)%Z.
Proof. unfold measure. apply count_from_or_le. Qed.

Lemma measure_range (P : Z -> bool) (lo hi : Z) :
  (lo <= hi)%Z -> (0 <= measure P lo hi <= hi - lo)%Z.
Proof.
  intros H. unfold measure.
  pose proof (count_from_range P (Z.to_nat (hi - lo)) lo). lia.
Qed.

Lemma union_length_window (zs : list (Z * Z)) (lo hi : Z) :
  Forall (fun z => (fst z <= snd z)%Z) zs -> within lo hi zs -> (lo <= hi)%Z ->
  union_length zs = measure (covers zs) lo hi.
Proof.
  intros Hpos Hw Hle. unfold union_length.
  apply measure_covers_window; [apply within_extremes | exact Hw | | exact Hle].
  apply extremes_ordered, Hpos.
Qed.

Lemma union_length_ge (zs : list (Z * Z)) (z : Z * Z) :
  Forall (fun z => (fst z <= snd z)%Z) zs -> In z zs ->
  (snd z - fst z <= union_length zs)%Z.
Proof.
  intros Hpos Hin. unfold union_length.
  pose proof (within_extremes zs) as Hw.
  pose proof (proj1 (Forall_forall _ _) Hw z Hin) as [H1 H2].
  pose proof (proj1 (Forall_forall _ _) Hpos z Hin) as H3.
  cbn beta in H1, H2, H3.
  rewrite <- (measure_single (fst z) (snd z) (lowest_start zs) (highest_end zs)) by lia.
  apply measure_mono. intros t _ Ht. unfold covers. apply existsb_exists.
  exists z. split; assumption.
Qed.

Lemma union_length_le_sum (zs : list (Z * Z)) :
  Forall (fun z => (fst z <= snd z)%Z) zs ->
  (union_length zs <= fold_right (fun z acc => (snd z - fst z + acc)%Z) 0%Z zs)%Z.
Proof.
  intros Hpos. unfold union_length.
  pose proof (within_extremes zs) as Hw.
  generalize dependent (highest_end zs). generalize dependent (lowest_start zs).
  induction Hpos as [|z zs Hz Hpos IH]; intros lo hi Hw.
  - rewrite measure_false by reflexivity. simpl. lia.
  - inversion Hw as [|? ? [H1 H2] Hw']; subst. cbn [fold_right].
    rewrite (measure_ext _ (fun t => ((fst z <=? t)%Z && (t <? snd z)%Z) || covers zs t))
      by (intros t _; apply covers_cons).
    eapply Z.le_trans; [apply measure_or_le|].
    rewrite measure_single by lia. specialize (IH lo hi Hw'). lia.
Qed.

Lemma union_length_le_window (zs : list (Z * Z)) :
  Forall (fun z => (fst z <= snd z)%Z) zs ->
  (0 <= union_length zs <= highest_end zs - lowest_start zs)%Z.
Proof.
  intros Hpos. unfold union_length. apply measure_range, extremes_ordered, Hpos.
Qed.

Lemma ms_le_of_Z (a b : Z) : (a <= b)%Z -> inject_Z a / 1000 <= inject_Z b / 1000.
Proof. apply ms_le. Qed.

(** X2.  For selected spans that carry an id and a non-negative duration,
    the interval-union critical I/O of a trace is at least the duration of
    each selected span, at most the sum of the selected durations, and at
    most the time from the earliest selected start to the latest selected
    end. *)
Theorem union_intervals_bounds (patterns : patterns_arg) (self : TraceParser) :
  (forall tr, In tr (traces self) ->
     Forall wf_io_span (io_spans_of (normalize_patterns patterns) tr)) ->
  exists rs,
    _get_critical_io_union_intervals patterns self = (Ok rs, self) /\
    Forall2
      (fun tr r =>
         let sps := io_spans_of (normalize_patterns patterns) tr in
         let zs := map span_bounds sps in
         (forall sp, In sp sps -> duration_ms sp <= critical_io_ms r) /\
         critical_io_ms r <= pysum (map duration_ms sps) /\
         0 <= critical_io_ms r /\
         critical_io_ms r <= inject_Z (highest_end zs - lowest_start zs) / 1000)
      (traces self) rs.
Proof.
  intros Hwf. unfold _get_critical_io_union_intervals.
  destruct (mapM_Forall2_spec
              (union_intervals_of_trace (normalize_patterns patterns))
              (fun tr r =>
                 let sps := io_spans_of (normalize_patterns patterns) tr in
                 let zs := map span_bounds sps in
                 (forall sp, In sp sps -> duration_ms sp <= critical_io_ms r) /\
                 critical_io_ms r <= pysum (map duration_ms sps) /\
                 0 <= critical_io_ms r /\
                 critical_io_ms r <= inject_Z (highest_end zs - lowest_start zs) / 1000)
              (traces self)) as (rs & Hrs & HF).
  - intros tr Htr. specialize (Hwf tr Htr).
    destruct (union_intervals_of_trace_spec _ tr Hwf) as (r & Hr & Hu).
    exists r. split; [exact Hr|]. cbv zeta.
    pose proof (wf_bounds _ Hwf) as Hb.
    split; [|split; [|split]].
    + intros sp Hsp. rewrite Hu.
      assert (Hd : duration_ms sp
                   == inject_Z (snd (span_bounds sp) - fst (span_bounds sp)) / 1000).
      { unfold duration_ms, span_bounds. cbn [fst snd].
        replace (get_or (timestamp sp) 0 + get_or (duration sp) 0 - get_or (timestamp sp) 0)%Z
          with (get_or (duration sp) 0%Z) by lia.
        reflexivity. }
      rewrite Hd. apply ms_le_of_Z. apply union_length_ge; [exact Hb|].
      apply in_map. exact Hsp.
    + rewrite Hu, pysum_durations. apply ms_le_of_Z, union_length_le_sum, Hb.
    + rewrite Hu. apply Qle_trans with (inject_Z 0 / 1000); [discriminate|].
      apply ms_le_of_Z, union_length_le_window, Hb.
    + rewrite Hu. apply ms_le_of_Z, union_length_le_window, Hb.
  - exists rs. split; [rewrite Hrs; reflexivity | exact HF].
Qed.

Lemma union_intervals_bounds_witness :
  exists rs,
    _get_critical_io_union_intervals (PatList ["gmail"]) sample_union_parser
    = (Ok rs, sample_union_parser) /\
    Forall2
      (fun tr r =>
         let sps := io_spans_of ["gmail"] tr in
         let zs := map span_bounds sps in
         (forall sp, In sp sps -> duration_ms sp <= critical_io_ms r) /\
         critical_io_ms r <= pysum (map duration_ms sps) /\
         0 <= critical_io_ms r /\
         critical_io_ms r <= inject_Z (highest_end zs - lowest_start zs) / 1000)
      (traces sample_union_parser) rs.
Proof.
  apply (union_intervals_bounds (PatList ["gmail"]) sample_union_parser).
  intros tr [<-|[<-|[]]]; vm_compute; repeat constructor; discriminate.
Defined.

(** ** Gmail, AI and total critical I/O *)

Lemma name_matches_app (p1 p2 : list string) (sp : span) :
  name_matches (p1 ++ p2) sp = name_matches p1 sp || name_matches p2 sp.
Proof. unfold name_matches. apply existsb_app. Qed.

Lemma covers_filter (f : span -> bool) (tr : trace) (t : Z) :
  covers (map span_bounds (filter f tr)) t
  = existsb (fun sp => f sp && ((fst (span_bounds sp) <=? t)%Z && (t <? snd (span_bounds sp))%Z)) tr.
Proof.
  induction tr as [|sp tr IH]; [reflexivity|].
  cbn [filter existsb]. destruct (f sp); cbn [map andb orb].
  - rewrite covers_cons, IH. reflexivity.
  - exact IH.
Qed.

Lemma covers_selection_app (p1 p2 : list string) (tr : trace) (t : Z) :
  covers (map span_bounds (io_spans_of (p1 ++ p2) tr)) t
  = covers (map span_bounds (io_spans_of p1 tr)) t
    || covers (map span_bounds (io_spans_of p2 tr)) t.
Proof.
  unfold io_spans_of. rewrite !covers_filter.
  induction tr as [|sp tr IH]; [reflexivity|].
  cbn [existsb]. rewrite IH, name_matches_app.
  destruct (name_matches p1 sp), (name_matches p2 sp); cbn [orb andb];
    repeat match goal with |- context [existsb ?f ?l] => destruct (existsb f l) end;
    repeat match goal with |- context [(?a && ?b)%bool] => destruct (a && b)%bool end;
    reflexivity.
Qed.

Lemma selection_app_incl (p1 p2 : list string) (tr : trace) (sp : span) :
  In sp (io_spans_of p1 tr) \/ In sp (io_spans_of p2 tr) -> In sp (io_spans_of (p1 ++ p2) tr).
Proof.
  unfold io_spans_of. rewrite !filter_In, name_matches_app.
  intros [[H1 H2]|[H1 H2]]; (split; [exact H1|]); rewrite H2;
    [reflexivity | apply orb_true_r].
Qed.

Lemma union_length_selection_app (p1 p2 : list string) (tr : trace) :
  Forall wf_io_span (io_spans_of (p1 ++ p2) tr) ->
  let u := fun ps => union_length (map span_bounds (io_spans_of ps tr)) in
  (u p1 <= u (p1 ++ p2))%Z /\ (u p2 <= u (p1 ++ p2))%Z /\ (u (p1 ++ p2) <= u p1 + u p2)%Z.
Proof.
  intros Hwf u. unfold u.
  set (zs := map span_bounds (io_spans_of (p1 ++ p2) tr)).
  pose proof (wf_bounds _ Hwf) as Hpos. fold zs in Hpos.
  pose proof (within_extremes zs) as Hw.
  pose proof (extremes_ordered zs Hpos) as Hle.
  assert (Hsub : forall ps,
             (forall sp, In sp (io_spans_of ps tr) -> In sp (io_spans_of (p1 ++ p2) tr)) ->
             union_length (map span_bounds (io_spans_of ps tr))
             = measure (covers (map span_bounds (io_spans_of ps tr)))
                       (lowest_start zs) (highest_end zs)).
  { intros ps Hin. apply union_length_window; [| |exact Hle].
    - apply Forall_forall. intros z Hz. apply in_map_iff in Hz.
      destruct Hz as (sp & <- & Hsp).
      apply (proj1 (Forall_forall _ _) Hpos). apply in_map, Hin, Hsp.
    - apply Forall_forall. intros z Hz. apply in_map_iff in Hz.
      destruct Hz as (sp & <- & Hsp).
      apply (proj1 (Forall_forall _ _) Hw). apply in_map, Hin, Hsp. }
  rewrite (Hsub p1) by (intros sp H; apply selection_app_incl; left; exact H).
  rewrite (Hsub p2) by (intros sp H; apply selection_app_incl; right; exact H).
  unfold union_length. fold zs.
  rewrite (measure_ext (covers zs)
             (fun t => covers (map span_bounds (io_spans_of p1 tr)) t
                       || covers (map span_bounds (io_spans_of p2 tr)) t))
    by (intros t _; apply covers_selection_app).
  split; [|split].
  - apply measure_mono. intros t _ H. rewrite H. reflexivity.
  - apply measure_mono. intros t _ H. rewrite H. apply orb_true_r.
  - apply measure_or_le.
Qed.

Lemma Forall2_nth_error_r {A B : Type} (P : A -> B -> Prop) (l : list A) (l' : list B) :
  Forall2 P l l' ->
  forall i b, nth_error l' i = Some b -> exists a, nth_error l i = Some a /\ P a b.
Proof.
  induction 1 as [|x y l l' Hxy _ IH]; intros i b Hi.
  - destruct i; discriminate.
  - destruct i as [|i]; simpl in Hi.
    + inversion Hi; subst. exists x. split; [reflexivity | exact Hxy].
    + apply IH, Hi.
Qed.

Lemma union_intervals_run (ps : list string) (self : TraceParser) :
  (forall tr, In tr (traces self) -> Forall wf_io_span (io_spans_of ps tr)) ->
  exists rs,
    _get_critical_io_union_intervals (PatList ps) self = (Ok rs, self) /\
    Forall2 (fun tr r =>
               critical_io_ms r
               == inject_Z (union_length (map span_bounds (io_spans_of ps tr))) / 1000)
            (traces self) rs.
Proof.
  intros Hwf. unfold _get_critical_io_union_intervals. cbn [normalize_patterns].
  destruct (mapM_Forall2_spec (union_intervals_of_trace ps)
              (fun tr r =>
                 critical_io_ms r
                 == inject_Z (union_length (map span_bounds (io_spans_of ps tr))) / 1000)
              (traces self)) as (rs & Hrs & HF).
  - intros tr Htr. destruct (union_intervals_of_trace_spec ps tr (Hwf tr Htr)) as (r & Hr & Hu).
    exists r. split; assumption.
  - exists rs. rewrite Hrs. split; [reflexivity | exact HF].
Qed.

(** X3.  For traces whose Gmail and chat spans carry an id and a
    non-negative duration, the three public calculators succeed with one
    result per trace, and for each trace the total critical I/O is at least
    the Gmail critical I/O and the AI critical I/O and at most their sum. *)
Theorem total_critical_io_between (self : TraceParser) :
  (forall tr, In tr (traces self) -> Forall wf_io_span (io_spans_of ["gmail"; "chat"] tr)) ->
  exists gmail ai total,
    get_gmail_api_critical_io self = (Ok gmail, self) /\
    get_ai_api_critical_io self = (Ok ai, self) /\
    get_total_critical_io self = (Ok total, self) /\
    List.length gmail = List.length (traces self) /\
    List.length ai = List.length (traces self) /\
    List.length total = List.length (traces self) /\
    forall i g a t,
      nth_error gmail i = Some g -> nth_error ai i = Some a -> nth_error total i = Some t ->
      critical_io_ms g <= critical_io_ms t /\
      critical_io_ms a <= critical_io_ms t /\
      critical_io_ms t <= critical_io_ms g + critical_io_ms a.
Proof.
  intros Hwf.
  assert (Hsel : forall ps tr,
             (forall sp, In sp (io_spans_of ps tr) -> In sp (io_spans_of ["gmail"; "chat"] tr)) ->
             In tr (traces self) -> Forall wf_io_span (io_spans_of ps tr)).
  { intros ps tr Hin Htr. apply Forall_forall. intros sp Hsp.
    apply (proj1 (Forall_forall _ _) (Hwf tr Htr)), Hin, Hsp. }
  destruct (union_intervals_run ["gmail"] self) as (gs & Hg & HFg).
  { intros tr Htr. apply Hsel; [|exact Htr]. intros sp H.
    apply (selection_app_incl ["gmail"] ["chat"]). left. exact H. }
  destruct (union_intervals_run ["chat"] self) as (cs & Hc & HFc).
  { intros tr Htr. apply Hsel; [|exact Htr]. intros sp H.
    apply (selection_app_incl ["gmail"] ["chat"]). right. exact H. }
  destruct (union_intervals_run ["gmail"; "chat"] self Hwf) as (ts & Ht & HFt).
  exists gs, cs, ts.
  split; [exact Hg|]. split; [exact Hc|]. split; [exact Ht|].
  split; [symmetry; apply (Forall2_length HFg)|].
  split; [symmetry; apply (Forall2_length HFc)|].
  split; [symmetry; apply (Forall2_length HFt)|].
  intros i g a t Hig Hia Hit.
  destruct (Forall2_nth_error_r _ _ _ HFg i g Hig) as (tr & Htr & Hgv).
  destruct (Forall2_nth_error_r _ _ _ HFc i a Hia) as (tr' & Htr' & Hav).
  destruct (Forall2_nth_error_r _ _ _ HFt i t Hit) as (tr'' & Htr'' & Htv).
  rewrite Htr in Htr', Htr''. inversion Htr'; subst tr'. inversion Htr''; subst tr''.
  destruct (union_length_selection_app ["gmail"] ["chat"] tr) as (H1 & H2 & H3).
  { apply Hwf. apply nth_error_In with i. exact Htr. }
  cbn [app] in H1, H2, H3.
  rewrite Hgv, Hav, Htv. split; [apply ms_le_of_Z, H1|]. split; [apply ms_le_of_Z, H2|].
  rewrite ms_plus. apply ms_le_of_Z, H3.
Qed.

Lemma total_critical_io_between_witness :
  exists gmail ai total,
    get_gmail_api_critical_io sample_tree_parser = (Ok gmail, sample_tree_parser) /\
    get_ai_api_critical_io sample_tree_parser = (Ok ai, sample_tree_parser) /\
    get_total_critical_io sample_tree_parser = (Ok total, sample_tree_parser) /\
    List.length gmail = 3%nat /\ List.length ai = 3%nat /\ List.length total = 3%nat /\
    forall i g a t,
      nth_error gmail i = Some g -> nth_error ai i = Some a -> nth_error total i = Some t ->
      critical_io_ms g <= critical_io_ms t /\
      critical_io_ms a <= critical_io_ms t /\
      critical_io_ms t <= critical_io_ms g + critical_io_ms a.
Proof.
  apply (total_critical_io_between sample_tree_parser).
  intros tr [<-|[<-|[<-|[]]]]; vm_compute; repeat constructor; discriminate.
Defined.

(** ** Concurrency detection *)







(** ** Bounds of the recursive aggregation *)

Lemma pysum_app (l l' : list Q) : pysum (l ++ l') == pysum l + pysum l'.
Proof.
  induction l as [|x l IH]; cbn [app].
  - unfold pysum at 2. simpl. ring.
  - rewrite !pysum_cons, IH. ring.
Qed.

Lemma pysum_perm (l l' : list Q) : Permutation l l' -> pysum l == pysum l'.
Proof.
  induction 1 as [|x l l' _ IH|x y l|l l' l'' _ IH1 _ IH2].
  - reflexivity.
  - rewrite !pysum_cons, IH. reflexivity.
  - rewrite !pysum_cons. ring.
  - rewrite IH1. exact IH2.
Qed.

Lemma pysum_in_le (l : list Q) (x : Q) :
  Forall (fun v => 0 <= v) l -> In x l -> x <= pysum l.
Proof.
  induction 1 as [|y l Hy Hl IH]; intros Hin; [destruct Hin|].
  rewrite pysum_cons. pose proof (pysum_nonneg l Hl) as Hs.
  destruct Hin as [->|Hin].
  - lra.
  - specialize (IH Hin). lra.
Qed.

Lemma critical_values_sum_le (children : list span) (cvs : list Q) :
  Forall (fun v => 0 <= v) cvs -> pysum (critical_values_of children cvs) <= pysum cvs.
Proof.
  intros H. revert children. induction H as [|v vs Hv Hvs IH]; intros children.
  - destruct children; apply Qle_refl.
  - destruct children as [|c cs].
    + apply (pysum_nonneg (v :: vs)). constructor; assumption.
    + unfold critical_values_of. cbn [combine filter snd].
      specialize (IH cs). unfold critical_values_of in IH.
      destruct (Qlt_bool 0 v); cbn [map]; rewrite ?pysum_cons; cbn [snd]; lra.
Qed.

Lemma critical_values_mem (children : list span) (cvs : list Q) (cv : Q) :
  List.length children = List.length cvs -> In cv cvs -> 0 < cv ->
  In cv (critical_values_of children cvs).
Proof.
  revert cvs. induction children as [|c cs IH]; intros [|v vs] Hlen Hin Hpos;
    try discriminate; [destruct Hin|].
  unfold critical_values_of. cbn [combine filter snd].
  destruct Hin as [->|Hin].
  - apply (proj2 (Qlt_bool_iff _ _)) in Hpos. rewrite Hpos. left. reflexivity.
  - assert (H : In cv (critical_values_of cs vs))
      by (apply IH; [simpl in Hlen; lia | exact Hin | exact Hpos]).
    unfold critical_values_of in H.
    destruct (Qlt_bool 0 v); [right|]; exact H.
Qed.

Lemma children_aggregated_bounds (children : list span) (cvs : list Q) (b : bool) :
  Forall (fun v => 0 <= v) cvs ->
  let agg := if b then match critical_values_of children cvs with
                       | [] => 0
                       | v :: vs => pymax_list v vs
                       end
             else pysum (critical_values_of children cvs) in
  0 <= agg /\ agg <= pysum cvs /\
  (forall cv, In cv (critical_values_of children cvs) -> cv <= agg).
Proof.
  intros Hnn agg.
  assert (Hcrit : Forall (fun v => 0 <= v) (critical_values_of children cvs)).
  { apply Forall_forall. intros v Hv. apply critical_values_in in Hv.
    apply (proj1 (Forall_forall _ _) Hnn v Hv). }
  pose proof (critical_values_sum_le children cvs Hnn) as Hsum.
  pose proof (pysum_nonneg cvs Hnn) as Hall.
  unfold agg. destruct b.
  - destruct (critical_values_of children cvs) as [|v vs] eqn:E.
    + split; [apply Qle_refl|]. split; [exact Hall|]. intros cv [].
    + destruct (pymax_list_greatest v vs) as [Hin Hmax].
      split; [apply (proj1 (Forall_forall _ _) Hcrit _ Hin)|]. split.
      * apply Qle_trans with (pysum (v :: vs)); [|exact Hsum].
        apply pysum_in_le; assumption.
      * intros cv Hcv. apply (proj1 (Forall_forall _ _) Hmax cv Hcv).
  - split; [apply pysum_nonneg, Hcrit|]. split; [exact Hsum|].
    intros cv Hcv. apply pysum_in_le; assumption.
Qed.

Lemma combine_values_bounds (own : Q) (children : list span) (cvs : list Q) :
  Forall (fun v => 0 <= v) cvs -> List.length children = List.length cvs ->
  own <= combine_values own children cvs /\
  combine_values own children cvs <= own + pysum cvs /\
  (forall cv, In cv cvs -> own + cv <= combine_values own children cvs).
Proof.
  intros Hnn Hlen.
  pose proof (pysum_nonneg cvs Hnn) as Hall.
  unfold combine_values.
  destruct cvs as [|v0 vs0] eqn:Ecvs.
  { cbn [List.length Nat.eqb]. unfold pysum in *. simpl.
    split; [apply Qle_refl|]. split; [lra|]. intros cv []. }
  rewrite <- Ecvs in *.
  replace (List.length (own :: cvs) =? 1)%nat with false
    by (symmetry; apply Nat.eqb_neq; rewrite Ecvs; simpl; lia).
  destruct (List.length (critical_children_of children cvs) <=? 1)%nat.
  - pose proof (pysum_cons own cvs) as Hc. split; [lra|]. split; [lra|].
    intros cv Hcv. pose proof (pysum_in_le cvs cv Hnn Hcv). lra.
  - destruct (children_aggregated_bounds children cvs
                (_check_concurrency (map span_dict_of (critical_children_of children cvs)))
                Hnn) as (H0 & Hle & Hmem).
    cbv zeta in H0, Hle, Hmem.
    split; [lra|]. split; [lra|].
    intros cv Hcv.
    destruct (Qlt_le_dec 0 cv) as [Hpos|Hzero].
    + specialize (Hmem cv (critical_values_mem children cvs cv Hlen Hcv Hpos)). lra.
    + lra.
Qed.

Lemma mapM_aggregate_nonneg (d : dict span) (ps : list string) (fuel : nat)
    (cs : list span) (cvs : list Q) :
  Forall (fun s => (0 <= get_or (duration s) 0)%Z) (dict_values d) ->
  (forall c, In c cs -> In c (dict_values d)) ->
  mapM (_aggregate_span_recursive fuel d ps) cs = Ok cvs ->
  Forall (fun v => 0 <= v) cvs /\ List.length cs = List.length cvs.
Proof.
  intros Hd Hcs E. apply mapM_Forall2 in E.
  split; [|apply (Forall2_length E)].
  induction E as [|c cv cs cvs Hc _ IH]; [constructor|].
  constructor.
  - apply (aggregate_nonneg d ps Hd fuel c cv); [|exact Hc].
    apply (proj1 (Forall_forall _ _) Hd c). apply Hcs. left. reflexivity.
  - apply IH. intros x Hx. apply Hcs. right. exact Hx.
Qed.

Section AggregateBounds.
Variable tr : trace.
Hypothesis Hnn : Forall (fun s => (0 <= get_or (duration s) 0)%Z) tr.
Variable d : dict span.
Hypothesis Hd : dict_values d = tr.
Variable ps : list string.

Lemma aggregate_step_inv (fuel : nat) (a : span) (v : Q) :
  _aggregate_span_recursive fuel d ps a = Ok v ->
  exists fuel' i cvs,
    fuel = S fuel' /\ id a = Some i /\
    mapM (_aggregate_span_recursive fuel' d ps) (children_of d i) = Ok cvs /\
    v = combine_values (own_value ps a) (children_of d i) cvs /\
    Forall (fun v => 0 <= v) cvs /\
    List.length (children_of d i) = List.length cvs.
Proof.
  destruct fuel as [|fuel]; [discriminate|]. cbn [_aggregate_span_recursive].
  unfold span_id_of. destruct (id a) as [i|]; [|discriminate]. cbn [bind].
  destruct (mapM _ (children_of d i)) as [cvs| |] eqn:E; try discriminate.
  cbn [bind]. intros H. injection H as <-.
  exists fuel, i, cvs.
  destruct (mapM_aggregate_nonneg d ps fuel (children_of d i) cvs) as [H1 H2].
  - rewrite Hd. exact Hnn.
  - intros c Hc. apply children_in_lookup in Hc. apply Hc.
  - exact E.
  - repeat (split; [reflexivity || assumption|]). exact H2.
Qed.

Lemma aggregate_chain_lower (a x : span) (q : Q) :
  chain_value ps tr a x q ->
  forall fuel v, _aggregate_span_recursive fuel d ps a = Ok v -> q <= v.
Proof.
  induction 1 as [a Ha | a c x q Ha Hc Hca Hchain IH]; intros fuel v Hv;
    destruct (aggregate_step_inv fuel a v Hv) as (fuel' & i & cvs & -> & Hi & Hm & -> & Hcvs & Hlen);
    destruct (combine_values_bounds (own_value ps a) (children_of d i) cvs Hcvs Hlen)
      as (Hown & _ & Hchild).
  - exact Hown.
  - assert (Hin : In c (children_of d i))
      by (apply (children_of_forest tr d a c i Hd Hi); split; assumption).
    apply mapM_Forall2 in Hm.
    destruct (Forall2_in_l _ _ _ _ Hm Hin) as (cv & Hcv & Hrun).
    specialize (IH fuel' cv Hrun). specialize (Hchild cv Hcv). lra.
Qed.

Lemma visited_sum (cs : list span) (rs : list (Q * list span)) :
  Forall2 (fun (c : span) r => fst r <= pysum (map (own_value ps) (snd r))) cs rs ->
  pysum (map fst rs) <= pysum (map (own_value ps) (List.concat (map snd rs))).
Proof.
  induction 1 as [|c r cs rs Hr _ IH]; [apply Qle_refl|].
  cbn [map List.concat]. rewrite map_app, pysum_app, pysum_cons. lra.
Qed.

Lemma aggregate_traced_upper (fuel : nat) :
  forall sp r, aggregate_traced fuel d ps sp = Ok r ->
               fst r <= pysum (map (own_value ps) (snd r)).
Proof.
  induction fuel as [|fuel IH]; intros sp r; [discriminate|].
  cbn [aggregate_traced]. destruct (span_id_of sp) as [i| |]; try discriminate. cbn [bind].
  destruct (mapM (aggregate_traced fuel d ps) (children_of d i)) as [rs| |] eqn:E;
    try discriminate.
  cbn [bind]. intros H. injection H as <-. cbn [fst snd].
  assert (Hvals : mapM (_aggregate_span_recursive fuel d ps) (children_of d i)
                  = Ok (map fst rs)).
  { rewrite (mapM_ext _ (fun a => r <- aggregate_traced fuel d ps a ;; Ok (fst r)))
      by (intros a _; apply aggregate_traced_value).
    rewrite mapM_map_fst, E. reflexivity. }
  destruct (mapM_aggregate_nonneg d ps fuel (children_of d i) (map fst rs)) as [H1 H2].
  { rewrite Hd. exact Hnn. }
  { intros c Hc. apply children_in_lookup in Hc. apply Hc. }
  { exact Hvals. }
  destruct (combine_values_bounds (own_value ps sp) (children_of d i) (map fst rs) H1 H2)
    as (_ & Hup & _).
  assert (Hsum : pysum (map fst rs)
                 <= pysum (map (own_value ps) (List.concat (map snd rs)))).
  { apply (visited_sum (children_of d i)).
    apply mapM_Forall2 in E. apply Forall2_impl with (2 := E).
    intros c r Hr. apply (IH c r Hr). }
  rewrite map_app, pysum_app. cbn [map]. rewrite (pysum_cons _ []).
  change (pysum []) with 0. lra.
Qed.
End AggregateBounds.

Lemma own_values_sum (ps : list string) (tr : trace) :
  pysum (map (own_value ps) tr) == pysum (map duration_ms (io_spans_of ps tr)).
Proof.
  unfold io_spans_of. induction tr as [|sp tr IH]; [reflexivity|].
  cbn [map filter]. unfold own_value at 1.
  destruct (name_matches ps sp); cbn [map]; rewrite !pysum_cons, ?IH; ring.
Qed.

Lemma roots_run (tr : trace) (ps : list string) :
  forest tr ->
  exists d D,
    build_span_lookup tr [] = Ok d /\ dict_values d = tr /\
    forall fuel, (D < fuel)%nat ->
      exists rs,
        mapM (aggregate_traced fuel d ps) (filter is_root tr) = Ok rs /\
        Permutation (List.concat (map snd rs)) tr.
Proof.
  intros Hforest.
  destruct (forest_lookup tr Hforest) as (d & Hbuild & Hd).
  destruct (depth_bound tr Hforest) as (D & HD).
  exists d, D. split; [exact Hbuild|]. split; [exact Hd|].
  intros fuel Hfuel.
  assert (Hroot_depth : forall r, In r (filter is_root tr) -> depth tr r 0).
  { intros r Hr. apply filter_In in Hr. destruct Hr as [Hin Hroot].
    apply depth_root; [exact Hin|]. unfold is_root in Hroot.
    destruct (parentId r); [discriminate | reflexivity]. }
  destruct (mapM_Forall2_spec (aggregate_traced fuel d ps)
              (fun c r => visits_subtree tr c (snd r)) (filter is_root tr))
    as (rs & Hrs & HF).
  { intros r Hr. apply (aggregate_traced_forest tr Hforest d Hd ps D HD D r 0%nat fuel);
      [apply Hroot_depth, Hr | lia | lia]. }
  exists rs. split; [exact Hrs|].
  assert (Hroots_nd : NoDup (filter is_root tr))
    by (apply NoDup_filter, forest_NoDup, Hforest).
  destruct (visits_concat tr Hforest (filter is_root tr) rs 0%nat Hroots_nd Hroot_depth HF)
    as (Hmem & Hnodup & _).
  apply NoDup_Permutation; [exact Hnodup | apply forest_NoDup, Hforest|].
  intros x. rewrite Hmem. split.
  - intros (c & k & _ & Hk). apply (descends_in tr c x k Hk).
  - intros Hx. destruct Hforest as (_ & _ & Hdepth).
    destruct (Hdepth x Hx) as (n & Hn).
    destruct (depth_root_descends tr x n Hn) as (r & Hr & Hroot & Hdesc).
    exists r, n. split; [apply filter_In; split; assumption | exact Hdesc].
Qed.

(** X5.  For a trace whose parent links form a forest and whose durations
    are not negative, the recursive aggregation returns (with enough
    recursion depth) a value that is at least the matched time along every
    chain of parent links that starts at a root, and at most the total
    duration of all matching spans of the trace. *)
Theorem recursive_critical_io_bounds (tr : trace) (patterns : list string) :
  forest tr ->
  Forall (fun sp => (0 <= get_or (duration sp) 0)%Z) tr ->
  exists fuel, forall fuel', (fuel <= fuel')%nat ->
    exists v,
      _calculate_final_critical_io_recursive fuel' tr patterns = Ok v /\
      (forall r x q, parentId r = None -> chain_value patterns tr r x q -> q <= v) /\
      v <= pysum (map duration_ms (io_spans_of patterns tr)).
Proof.
  intros Hforest Hnn.
  destruct (roots_run tr patterns Hforest) as (d & D & Hbuild & Hd & Hrun).
  exists (S D). intros fuel Hfuel.
  destruct (Hrun fuel) as (rs & Hrs & Hperm); [lia|].
  assert (Hvals : mapM (_aggregate_span_recursive fuel d patterns) (filter is_root tr)
                  = Ok (map fst rs)).
  { rewrite (mapM_ext _ (fun a => r <- aggregate_traced fuel d patterns a ;; Ok (fst r)))
      by (intros a _; apply aggregate_traced_value).
    rewrite mapM_map_fst, Hrs. reflexivity. }
  destruct (mapM_aggregate_nonneg d patterns fuel (filter is_root tr) (map fst rs))
    as [Hpos Hlen].
  { rewrite Hd. exact Hnn. }
  { intros c Hc. rewrite Hd. apply filter_In in Hc. apply Hc. }
  { exact Hvals. }
  assert (Hsum : pysum (map fst rs) <= pysum (map duration_ms (io_spans_of patterns tr))).
  { rewrite <- own_values_sum.
    rewrite <- (pysum_perm _ _ (Permutation_map (own_value patterns) Hperm)).
    apply (visited_sum patterns (filter is_root tr)).
    pose proof (mapM_Forall2 _ _ _ Hrs) as HF.
    apply Forall2_impl with (2 := HF).
    intros c r Hr. apply (aggregate_traced_upper tr Hnn d Hd patterns fuel c r Hr). }
  assert (Hchain : forall r x q cv,
             In r (filter is_root tr) -> chain_value patterns tr r x q ->
             _aggregate_span_recursive fuel d patterns r = Ok cv -> q <= cv).
  { intros r x q cv _ Hq Hcv.
    apply (aggregate_chain_lower tr Hnn d Hd patterns r x q Hq fuel cv Hcv). }
  assert (Hroot : forall r x q, parentId r = None -> chain_value patterns tr r x q ->
                                exists cv, In cv (map fst rs) /\ q <= cv).
  { intros r x q Hr Hq.
    assert (Hin : In r (filter is_root tr)).
    { apply filter_In. split.
      - inversion Hq; assumption.
      - unfold is_root. rewrite Hr. reflexivity. }
    pose proof (mapM_Forall2 _ _ _ Hvals) as HF.
    destruct (Forall2_in_l _ _ _ _ HF Hin) as (cv & Hcv & Hres).
    exists cv. split; [exact Hcv | apply (Hchain r x q cv Hin Hq Hres)]. }
  unfold _calculate_final_critical_io_recursive. rewrite Hbuild. cbn [bind].
  destruct (filter is_root tr) as [|r0 roots] eqn:Eroots.
  - exists 0. split; [reflexivity|]. split.
    + intros r x q Hr Hq. destruct (Hroot r x q Hr Hq) as (cv & Hcv & _).
      destruct rs; [destruct Hcv | discriminate].
    + apply Qle_trans with (pysum (map fst rs)); [|exact Hsum].
      apply pysum_nonneg, Hpos.
  - rewrite Hvals. cbn [bind].
    destruct (map fst rs) as [|v [|v' vs]] eqn:Evals; [discriminate| |].
    + exists v. split; [reflexivity|]. split.
      * intros r x q Hr Hq. destruct (Hroot r x q Hr Hq) as (cv & [<-|[]] & Hle). exact Hle.
      * rewrite (pysum_cons v []) in Hsum. change (pysum []) with 0 in Hsum. lra.
    + destruct (pymax_list_greatest v (v' :: vs)) as [Hin Hmax].
      destruct (_check_concurrency _); eexists; (split; [reflexivity|]); split.
      * intros r x q Hr Hq. destruct (Hroot r x q Hr Hq) as (cv & Hcv & Hle).
        apply Qle_trans with cv; [exact Hle|].
        apply (proj1 (Forall_forall _ _) Hmax cv Hcv).
      * apply Qle_trans with (pysum (v :: v' :: vs)); [|exact Hsum].
        apply pysum_in_le; assumption.
      * intros r x q Hr Hq. destruct (Hroot r x q Hr Hq) as (cv & Hcv & Hle).
        apply Qle_trans with cv; [exact Hle|]. apply pysum_in_le; assumption.
      * exact Hsum.
Qed.

Lemma recursive_critical_io_bounds_witness :
  exists fuel, forall fuel', (fuel <= fuel')%nat ->
    exists v,
      _calculate_final_critical_io_recursive fuel' (two_children_trace 1000 50000) ["gmail"]
      = Ok v /\
      (forall r x q, parentId r = None ->
                     chain_value ["gmail"] (two_children_trace 1000 50000) r x q -> q <= v) /\
      v <= pysum (map duration_ms (io_spans_of ["gmail"] (two_children_trace 1000 50000))).
Proof.
  set (tr := two_children_trace 1000 50000).
  apply (recursive_critical_io_bounds tr ["gmail"]).
  - assert (Hr : depth tr sample_tree_root 0)
      by (apply depth_root; [left; reflexivity | reflexivity]).
    split; [|split].
    + repeat constructor; discriminate.
    + repeat constructor; simpl; intuition discriminate.
    + intros sp [<-|[<-|[<-|[]]]].
      * exists 0%nat. exact Hr.
      * exists 1%nat. eapply depth_child; [right; left; reflexivity | left; reflexivity | | exact Hr].
        exists "r". split; reflexivity.
      * exists 1%nat. eapply depth_child; [right; right; left; reflexivity | left; reflexivity | | exact Hr].
        exists "r". split; reflexivity.
  - repeat constructor; discriminate.
Defined.

(** ** The traces the warm-up exclusion removes *)

Lemma filter_partition_length {A : Type} (f : A -> bool) (l : list A) :
  (List.length (filter f l) + List.length (filter (fun x => negb (f x)) l)
   = List.length l)%nat.
Proof.
  induction l as [|x l IH]; [reflexivity|].
  cbn [filter]. destruct (f x); cbn [negb List.length]; lia.
Qed.

Lemma filter_length_le' {A : Type} (f : A -> bool) (l : list A) :
  (List.length (filter f l) <= List.length l)%nat.
Proof.
  pose proof (filter_partition_length f l). lia.
Qed.

Lemma filter_perm {A : Type} (f : A -> bool) (l l' : list A) :
  Permutation l l' -> Permutation (filter f l) (filter f l').
Proof.
  induction 1 as [|x l l' _ IH|x y l|l l' l'' _ IH1 _ IH2].
  - apply perm_nil.
  - cbn [filter]. destruct (f x); [apply perm_skip|]; exact IH.
  - cbn [filter]. destruct (f x), (f y); try apply Permutation_refl. apply perm_swap.
  - apply perm_trans with (filter f l'); assumption.
Qed.

Lemma filter_all {A : Type} (f : A -> bool) (l : list A) :
  (forall x, In x l -> f x = true) -> filter f l = l.
Proof.
  induction l as [|x l IH]; intros H; [reflexivity|].
  cbn [filter]. rewrite (H x (or_introl eq_refl)), IH; [reflexivity|].
  intros y Hy. apply H. right. exact Hy.
Qed.

Lemma filter_comm {A : Type} (f g : A -> bool) (l : list A) :
  filter f (filter g l) = filter g (filter f l).
Proof.
  induction l as [|x l IH]; [reflexivity|].
  cbn [filter]. destruct (f x) eqn:Ef, (g x) eqn:Eg; cbn [filter];
    rewrite ?Ef, ?Eg, IH; reflexivity.
Qed.

Lemma benchmark_traces_nonempty (tr : trace) : _is_benchmark_trace tr = true -> tr <> [].
Proof. intros H ->. discriminate H. Qed.

(** The identifiers of the warm-up set are those of the traces taken. *)
Lemma in_warmup_taken (taken : list trace) (tr : trace) :
  Forall (fun t => t <> []) taken -> In tr taken ->
  in_warmup (map (fun t => match t with [] => EmptyString | sp :: _ => first_trace_id sp end)
                 taken) tr = true.
Proof.
  intros Hne Hin. apply in_warmup_spec.
  destruct tr as [|sp rest].
  - exfalso. apply (proj1 (Forall_forall _ _) Hne [] Hin). reflexivity.
  - exists sp, rest. split; [reflexivity|].
    apply in_map_iff. exists (sp :: rest). split; [reflexivity | exact Hin].
Qed.

Lemma trace_ids_unique (ts : list trace) (a b : span) (ra rb : list span) :
  NoDup (trace_ids ts) -> In (a :: ra) ts -> In (b :: rb) ts ->
  first_trace_id a = first_trace_id b -> a :: ra = b :: rb.
Proof.
  induction ts as [|t ts IH]; intros Hnd Ha Hb Heq; [destruct Ha|].
  unfold trace_ids in Hnd. cbn [flat_map] in Hnd.
  assert (Hmem : forall (s : span) (r : list span),
             In (s :: r) ts -> In (first_trace_id s) (trace_ids ts)).
  { intros s r Hs. unfold trace_ids. apply in_flat_map.
    exists (s :: r). split; [exact Hs | left; reflexivity]. }
  destruct t as [|s r].
  - destruct Ha as [Ha|Ha]; [discriminate|]. destruct Hb as [Hb|Hb]; [discriminate|].
    apply IH; assumption.
  - cbn [app] in Hnd. inversion Hnd as [|? ? Hnotin Hnd']; subst.
    destruct Ha as [Ha|Ha], Hb as [Hb|Hb].
    + congruence.
    + exfalso. apply Hnotin. inversion Ha; subst. rewrite Heq. apply (Hmem b rb Hb).
    + exfalso. apply Hnotin. inversion Hb; subst. rewrite <- Heq. apply (Hmem a ra Ha).
    + apply IH; assumption.
Qed.

Lemma trace_ids_NoDup (ts : list trace) :
  NoDup (trace_ids ts) ->
  NoDup (filter (fun tr => match tr with [] => false | _ :: _ => true end) ts).
Proof.
  induction ts as [|t ts IH]; intros Hnd; [constructor|].
  unfold trace_ids in Hnd. cbn [flat_map] in Hnd. cbn [filter].
  destruct t as [|s r].
  - apply IH, Hnd.
  - cbn [app] in Hnd. inversion Hnd as [|? ? Hnotin Hnd']; subst.
    constructor; [|apply IH, Hnd'].
    intros Hin. apply filter_In in Hin. destruct Hin as [Hin _].
    apply Hnotin. unfold trace_ids. apply in_flat_map.
    exists (s :: r). split; [exact Hin | left; reflexivity].
Qed.

Lemma NoDup_nonempty_filter (P : trace -> bool) (ts : list trace) :
  NoDup (trace_ids ts) -> (forall tr, P tr = true -> tr <> []) -> NoDup (filter P ts).
Proof.
  intros Hnd HP.
  set (ne := fun tr : trace => match tr with [] => false | _ :: _ => true end).
  assert (E : filter P ts = filter P (filter ne ts)).
  { rewrite filter_comm. symmetry. apply filter_all.
    intros tr Htr. apply filter_In in Htr. destruct Htr as [_ Htr].
    destruct tr; [exfalso; apply (HP [] Htr); reflexivity | reflexivity]. }
  rewrite E. apply NoDup_filter. apply (trace_ids_NoDup ts Hnd).
Qed.

Lemma NoDup_firstn' {A : Type} (l : list A) (n : nat) : NoDup l -> NoDup (firstn n l).
Proof.
  intros H. rewrite <- (firstn_skipn n l) in H. apply NoDup_app_remove_r in H. exact H.
Qed.

Section WarmupRun.
Variable self : TraceParser.
Let w := warmup_iterations self.
Let n := Z.of_nat (List.length (filter _is_benchmark_trace (traces self))).
Let sorted := qualifying_sorted (traces self).
Let taken := firstn (Z.to_nat w) sorted.
Let ids := warmup_ids sorted w.
Hypothesis Hw : (0 < w < n)%Z.

Lemma warmup_run :
  _exclude_warmup_iterations self
  = (set_traces self (filter (fun tr => negb (in_warmup ids tr)) (traces self)),
     [("Excluded "
         ++ str_of_Z (Z.of_nat (List.length (traces self))
                      - Z.of_nat (List.length
                                    (filter (fun tr => negb (in_warmup ids tr)) (traces self))))
         ++ " warmup traces (" ++ str_of_Z w ++ " iterations)")%string]).
Proof.
  unfold _exclude_warmup_iterations. fold w. fold n.
  replace (w <=? 0)%Z with false by (symmetry; apply Z.leb_gt; lia).
  replace (n <=? w)%Z with false by (symmetry; apply Z.leb_gt; lia).
  reflexivity.
Qed.

Lemma taken_facts :
  Permutation sorted (filter _is_benchmark_trace (traces self)) /\
  List.length taken = Z.to_nat w /\
  (forall tr, In tr taken ->
              In tr (traces self) /\ _is_benchmark_trace tr = true /\
              in_warmup ids tr = true).
Proof.
  assert (Hperm : Permutation sorted (filter _is_benchmark_trace (traces self)))
    by apply sort_by_perm.
  split; [exact Hperm|]. split.
  - unfold taken. apply firstn_length_le.
    rewrite (Permutation_length Hperm). unfold n in Hw. lia.
  - assert (Hin : forall tr, In tr taken ->
                             In tr (traces self) /\ _is_benchmark_trace tr = true).
    { intros tr Htr. apply In_firstn in Htr.
      apply (Permutation_in _ Hperm) in Htr. apply filter_In in Htr. exact Htr. }
    intros tr Htr. destruct (Hin tr Htr) as [H1 H2].
    split; [exact H1|]. split; [exact H2|].
    apply (in_warmup_taken taken tr); [|exact Htr].
    apply Forall_forall. intros t Ht. apply benchmark_traces_nonempty, (Hin t Ht).
Qed.

Lemma removed_at_least :
  (List.length taken <= List.length (filter (in_warmup ids) (traces self)))%nat.
Proof.
  destruct taken_facts as (Hperm & _ & Htaken).
  apply Nat.le_trans
    with (List.length (filter (in_warmup ids) (filter _is_benchmark_trace (traces self)))).
  - rewrite <- (Permutation_length (filter_perm (in_warmup ids) _ _ Hperm)).
    rewrite <- (firstn_skipn (Z.to_nat w) sorted). fold taken.
    rewrite filter_app, length_app.
    rewrite (filter_all _ taken) by (intros tr Htr; apply (Htaken tr Htr)).
    lia.
  - rewrite filter_comm. apply filter_length_le'.
Qed.

Lemma removed_is_taken :
  NoDup (trace_ids (traces self)) ->
  Permutation (filter (in_warmup ids) (traces self)) taken.
Proof.
  intros Hnd. destruct taken_facts as (Hperm & _ & Htaken).
  apply NoDup_Permutation.
  - apply (NoDup_nonempty_filter (in_warmup ids) (traces self) Hnd).
    intros tr Htr ->. discriminate Htr.
  - apply NoDup_firstn'. apply (Permutation_NoDup (Permutation_sym Hperm)).
    apply (NoDup_nonempty_filter _is_benchmark_trace (traces self) Hnd).
    apply benchmark_traces_nonempty.
  - intros tr. rewrite filter_In. split.
    + intros [Hin Hwarm]. apply in_warmup_spec in Hwarm.
      destruct Hwarm as (sp & rest & -> & Hid).
      unfold ids, warmup_ids in Hid. fold taken in Hid.
      apply in_map_iff in Hid. destruct Hid as (t & Ht & Ht_taken).
      destruct t as [|sp' rest'].
      * destruct (Htaken [] Ht_taken) as (_ & Hb & _). discriminate Hb.
      * rewrite (trace_ids_unique (traces self) sp sp' rest rest' Hnd Hin
                   (proj1 (Htaken _ Ht_taken)) (eq_sym Ht)).
        exact Ht_taken.
    + intros Htr. destruct (Htaken tr Htr) as (H1 & _ & H2). split; assumption.
Qed.
End WarmupRun.

(** X6.  When the warm-up count [w] is positive and smaller than the number
    of qualifying traces, the exclusion removes at least [w] traces.  If the
    non-empty traces carry pairwise distinct trace identifiers, it removes
    exactly the [w] earliest qualifying traces and nothing else, and the
    line it prints reports [w] excluded traces. *)
Theorem warmup_removes_first_iterations (self : TraceParser) :
  let w := warmup_iterations self in
  let n := Z.of_nat (List.length (filter _is_benchmark_trace (traces self))) in
  let taken := firstn (Z.to_nat w) (qualifying_sorted (traces self)) in
  let result := _exclude_warmup_iterations self in
  (0 < w < n)%Z ->
  (Z.of_nat (List.length (traces (fst result))) + w
   <= Z.of_nat (List.length (traces self)))%Z /\
  (NoDup (trace_ids (traces self)) ->
   (forall tr, In tr (traces (fst result)) <-> In tr (traces self) /\ ~ In tr taken) /\
   (Z.of_nat (List.length (traces (fst result)))
    = Z.of_nat (List.length (traces self)) - w)%Z /\
   snd result
   = [("Excluded " ++ str_of_Z w ++ " warmup traces (" ++ str_of_Z w ++ " iterations)")%string]).
Proof.
  intros w n taken result Hw.
  set (ids := warmup_ids (qualifying_sorted (traces self)) w).
  set (kept := filter (fun tr => negb (in_warmup ids tr)) (traces self)).
  set (removed := filter (in_warmup ids) (traces self)).
  destruct (taken_facts self Hw) as (_ & Hlen & _).
  pose proof (removed_at_least self Hw) as Hge.
  assert (Hpart : (List.length removed + List.length kept = List.length (traces self))%nat)
    by apply filter_partition_length.
  unfold result. rewrite (warmup_run self Hw). cbn [fst snd set_traces traces].
  fold w ids kept taken removed in Hlen, Hge |- *.
  split; [lia|].
  intros Hnd.
  pose proof (removed_is_taken self Hw Hnd) as Hperm.
  fold w ids taken removed in Hperm.
  assert (Hcount : List.length removed = Z.to_nat w)
    by (rewrite (Permutation_length Hperm); exact Hlen).
  split; [|split].
  - intros tr. unfold kept. rewrite filter_In, negb_true_iff.
    assert (Hmem : In tr removed <-> In tr taken).
    { split; apply Permutation_in; [exact Hperm | apply Permutation_sym, Hperm]. }
    rewrite <- Hmem. unfold removed. rewrite filter_In.
    destruct (in_warmup ids tr); split; intros [H1 H2]; split; auto; try congruence.
    + exfalso. apply H2. split; [exact H1 | reflexivity].
    + intros [_ H]. discriminate H.
  - lia.
  - replace (Z.of_nat (List.length (traces self)) - Z.of_nat (List.length kept))%Z
      with w by lia.
    reflexivity.
Qed.

Lemma warmup_removes_first_iterations_witness :
  (Z.of_nat (List.length (traces (fst (_exclude_warmup_iterations sample_warmup)))) + 2
   <= 4)%Z /\
  (forall tr, In tr (traces (fst (_exclude_warmup_iterations sample_warmup))) <->
              In tr (traces sample_warmup) /\
              ~ In tr [ [ benchmark_span "t2" 1000 ]; [ benchmark_span "t1" 5000 ] ]) /\
  Z.of_nat (List.length (traces (fst (_exclude_warmup_iterations sample_warmup)))) = 2%Z /\
  snd (_exclude_warmup_iterations sample_warmup)
  = ["Excluded 2 warmup traces (2 iterations)"%string].
Proof.
  destruct (warmup_removes_first_iterations sample_warmup) as [Hle Hexact].
  - vm_compute. split; reflexivity.
  - split; [exact Hle|]. apply Hexact.
    vm_compute. repeat constructor; simpl; intuition discriminate.
Defined.

(** ** Order properties of the percentiles *)

Lemma nth_sorted (s : list Q) :
  StronglySorted Qle s ->
  forall i j, (i <= j)%nat -> (j < List.length s)%nat -> nth i s 0 <= nth j s 0.
Proof.
  induction 1 as [|x l _ IH Hx]; intros i j Hij Hj; [simpl in Hj; lia|].
  destruct i as [|i], j as [|j]; cbn [nth]; try lia.
  - apply Qle_refl.
  - apply (proj1 (Forall_forall _ _) Hx). apply nth_In. simpl in Hj. lia.
  - apply IH; simpl in Hj; lia.
Qed.

Lemma fractional_rank_mono (n : nat) (p q : Q) :
  (1 <= n)%nat -> p <= q -> fractional_rank n p <= fractional_rank n q.
Proof.
  intros Hn Hpq. unfold fractional_rank.
  apply Qmult_le_compat_r.
  - apply Qmult_le_compat_r; [exact Hpq | discriminate].
  - rewrite <- (Zle_Qle 0). lia.
Qed.

Lemma percentile_between (s : list Q) (p v : Q) :
  StronglySorted Qle s -> s <> [] -> 0 <= p -> p <= 100 ->
  is_percentile s p v ->
  let idx := fractional_rank (List.length s) p in
  let k := Z.to_nat (Qfloor idx) in
  (k < List.length s)%nat /\
  nth k s 0 <= v /\
  ((idx == inject_Z (Qfloor idx) /\ v == nth k s 0) \/
   (~ idx == inject_Z (Qfloor idx) /\ (S k < List.length s)%nat /\
    v <= nth (S k) s 0 /\
    v == nth k s 0 + (nth (S k) s 0 - nth k s 0) * (idx - inject_Z (Qfloor idx)))).
Proof.
  intros Hs Hne H0 H100 (Hk & Hint & Hfrac) idx k. fold idx in Hint, Hfrac. fold k in Hk, Hint, Hfrac.
  split; [exact Hk|].
  destruct (Qeq_dec idx (inject_Z (Qfloor idx))) as [E|E].
  - specialize (Hint E). split; [rewrite Hint; apply Qle_refl|]. left. split; assumption.
  - destruct (Hfrac E) as [Hk' Hv].
    pose proof (nth_sorted s Hs k (S k) (Nat.le_succ_diag_r k) Hk') as Hle.
    pose proof (Qfloor_le idx) as Hf0.
    pose proof (Qlt_floor idx) as Hf1.
    rewrite inject_Z_plus in Hf1. change (inject_Z 1) with 1 in Hf1.
    set (L := nth k s 0) in *. set (U := nth (S k) s 0) in *.
    set (f := idx - inject_Z (Qfloor idx)) in *.
    assert (Hf : 0 <= f /\ f <= 1) by (unfold f; split; lra).
    assert (Hprod : 0 <= (U - L) * f /\ (U - L) * f <= (U - L)).
    { split.
      - apply Qmult_le_0_compat; lra.
      - rewrite <- (Qmult_1_r (U - L)) at 2.
        rewrite (Qmult_comm (U - L) f), (Qmult_comm (U - L) 1).
        apply Qmult_le_compat_r; lra. }
    split; [lra|]. right. split; [exact E|]. split; [exact Hk'|]. split; [lra | exact Hv].
Qed.

Lemma percentile_mono (s : list Q) (p q v v' : Q) :
  StronglySorted Qle s -> s <> [] ->
  0 <= p -> p <= q -> q <= 100 ->
  is_percentile s p v -> is_percentile s q v' -> v <= v'.
Proof.
  intros Hs Hne H0 Hpq H100 Hv Hv'.
  assert (Hn : (1 <= List.length s)%nat) by (destruct s; [congruence | simpl; lia]).
  assert (Hp100 : p <= 100) by lra. assert (Hq0 : 0 <= q) by lra.
  pose proof (fractional_rank_mono (List.length s) p q Hn Hpq) as Hidx.
  destruct (rank_floor_bounds (List.length s) p Hn H0 Hp100) as [[Hfp _] _].
  destruct (rank_floor_bounds (List.length s) q Hn Hq0 H100) as [[Hfq _] _].
  cbv zeta in Hfp, Hfq.
  destruct (percentile_between s p v Hs Hne H0 Hp100 Hv) as (Hk & Hlo & Hcase).
  destruct (percentile_between s q v' Hs Hne Hq0 H100 Hv') as (Hk' & Hlo' & Hcase').
  cbv zeta in Hk, Hlo, Hcase, Hk', Hlo', Hcase'.
  set (i := fractional_rank (List.length s) p) in *.
  set (j := fractional_rank (List.length s) q) in *.
  pose proof (Qfloor_resp_le _ _ Hidx) as Hfl.
  destruct (Z_le_lt_eq_dec _ _ Hfl) as [Hlt|Heq].
  - (* the floors differ *)
    assert (Hstep : (S (Z.to_nat (Qfloor i)) <= Z.to_nat (Qfloor j))%nat) by lia.
    apply Qle_trans with (nth (Z.to_nat (Qfloor j)) s 0); [|exact Hlo'].
    destruct Hcase as [[_ E]|(_ & Hk2 & Hup & _)].
    + rewrite E. apply nth_sorted; [exact Hs | lia | exact Hk'].
    + apply Qle_trans with (nth (S (Z.to_nat (Qfloor i))) s 0); [exact Hup|].
      apply nth_sorted; [exact Hs | exact Hstep | exact Hk'].
  - (* the floors agree *)
    rewrite <- Heq in *.
    destruct Hcase as [[_ E]|(Hni & Hk2 & Hup & E)].
    + rewrite E. exact Hlo'.
    + destruct Hcase' as [[Hj _]|(_ & _ & _ & E')].
      * exfalso. apply Hni. apply Qle_antisym; [|apply Qfloor_le].
        rewrite <- Hj. exact Hidx.
      * rewrite E, E'.
        pose proof (nth_sorted s Hs _ _ (Nat.le_succ_diag_r (Z.to_nat (Qfloor i))) Hk2) as Hle.
        set (L := nth (Z.to_nat (Qfloor i)) s 0) in *.
        set (U := nth (S (Z.to_nat (Qfloor i))) s 0) in *.
        apply Qplus_le_r.
        rewrite (Qmult_comm (U - L) (i - _)), (Qmult_comm (U - L) (j - _)).
        apply Qmult_le_compat_r; lra.
Qed.

Lemma percentile_extremes (s : list Q) (p v : Q) :
  StronglySorted Qle s -> s <> [] -> 0 <= p -> p <= 100 ->
  is_percentile s p v ->
  nth 0 s 0 <= v /\ v <= nth (List.length s - 1) s 0 /\
  (p == 0 -> v == nth 0 s 0) /\
  (p == 100 -> v == nth (List.length s - 1) s 0).
Proof.
  intros Hs Hne H0 H100 Hv.
  assert (Hn : (1 <= List.length s)%nat) by (destruct s; [congruence | simpl; lia]).
  destruct (percentile_between s p v Hs Hne H0 H100 Hv) as (Hk & Hlo & Hcase).
  cbv zeta in Hk, Hlo, Hcase.
  set (idx := fractional_rank (List.length s) p) in *.
  set (k := Z.to_nat (Qfloor idx)) in *.
  split; [|split; [|split]].
  - apply Qle_trans with (nth k s 0); [|exact Hlo].
    apply nth_sorted; [exact Hs | lia | exact Hk].
  - destruct Hcase as [[_ E]|(_ & Hk2 & Hup & _)].
    + rewrite E. apply nth_sorted; [exact Hs | lia | lia].
    + apply Qle_trans with (nth (S k) s 0); [exact Hup|].
      apply nth_sorted; [exact Hs | lia | lia].
  - intros Hp.
    assert (Hidx : idx == 0).
    { unfold idx, fractional_rank. rewrite Hp. field. }
    assert (Hk0 : k = 0%nat).
    { unfold k. rewrite (Qfloor_comp _ _ Hidx). reflexivity. }
    destruct Hcase as [[_ E]|(Hni & _)].
    + rewrite E, Hk0. reflexivity.
    + exfalso. apply Hni. rewrite (Qfloor_comp _ _ Hidx). exact Hidx.
  - intros Hp.
    assert (Hidx : idx == inject_Z (Z.of_nat (List.length s) - 1)).
    { unfold idx, fractional_rank. rewrite Hp. field. }
    assert (Hfl : Qfloor idx = (Z.of_nat (List.length s) - 1)%Z).
    { rewrite (Qfloor_comp _ _ Hidx). apply Qfloor_Z. }
    assert (Hk0 : k = (List.length s - 1)%nat) by (unfold k; rewrite Hfl; lia).
    destruct Hcase as [[_ E]|(Hni & _)].
    + rewrite E, Hk0. reflexivity.
    + exfalso. apply Hni. rewrite Hfl. exact Hidx.
Qed.

(** X7.  For a non-empty list of values and requested percentiles between 0
    and 100, [calculate_percentiles] returns a dictionary in which every
    requested percentile lies between the minimum and the maximum of the
    values, the percentile 0 is the minimum, the percentile 100 is the
    maximum, and a larger percentile never has a smaller value. *)
Theorem percentiles_ordered (values ps : list Q) :
  values <> [] -> Forall (fun p => 0 <= p /\ p <= 100) ps ->
  exists d lo hi,
    calculate_percentiles values (Some ps) = Ok d /\
    least lo values /\ greatest hi values /\
    (forall p, In p ps ->
       exists v, pdict_get p d = Some v /\ lo <= v /\ v <= hi /\
                 (p == 0 -> v == lo) /\ (p == 100 -> v == hi)) /\
    (forall p q v v', In p ps -> In q ps -> p <= q ->
       pdict_get p d = Some v -> pdict_get q d = Some v' -> v <= v').
Proof.
  intros Hne Hps.
  destruct (sorted_ascending values) as [Hperm Hsort].
  assert (Hs : sorted values <> []).
  { intros E. apply Hne. apply Permutation_nil. rewrite <- E. exact Hperm. }
  assert (Hn : (1 <= List.length (sorted values))%nat)
    by (destruct (sorted values); [congruence | simpl; lia]).
  destruct (percentiles_loop_spec (sorted values) ps Hs Hps []) as (d & Hd & Hinv & Hpres).
  { intros q v H. discriminate H. }
  set (s := sorted values) in *.
  exists d, (nth 0 s 0), (nth (List.length s - 1) s 0).
  split.
  { unfold calculate_percentiles. cbn [get_or]. destruct values; [congruence | exact Hd]. }
  split.
  { split.
    - apply (Permutation_in _ Hperm). apply nth_In. lia.
    - apply Forall_forall. intros x Hx. apply (Permutation_in _ (Permutation_sym Hperm)) in Hx.
      destruct (In_nth s x 0 Hx) as (i & Hi & <-).
      apply nth_sorted; [exact Hsort | lia | exact Hi]. }
  split.
  { split.
    - apply (Permutation_in _ Hperm). apply nth_In. lia.
    - apply Forall_forall. intros x Hx. apply (Permutation_in _ (Permutation_sym Hperm)) in Hx.
      destruct (In_nth s x 0 Hx) as (i & Hi & <-).
      apply nth_sorted; [exact Hsort | lia | lia]. }
  split.
  - intros p Hp. specialize (Hpres p (or_introl Hp)).
    destruct (pdict_get p d) as [v|] eqn:E; [|congruence].
    exists v. split; [reflexivity|].
    destruct (proj1 (Forall_forall _ _) Hps p Hp) as [H0 H100].
    apply (percentile_extremes s p v Hsort Hs H0 H100 (Hinv p v E)).
  - intros p q v v' Hp Hq Hpq Hv Hv'.
    destruct (proj1 (Forall_forall _ _) Hps p Hp) as [H0 _].
    destruct (proj1 (Forall_forall _ _) Hps q Hq) as [_ H100].
    apply (percentile_mono s p q v v' Hsort Hs H0 Hpq H100 (Hinv p v Hv) (Hinv q v' Hv')).
Qed.

Lemma percentiles_ordered_witness :
  exists d lo hi,
    calculate_percentiles [40; 10; 30; 20] (Some [90; 0; 50; 100]) = Ok d /\
    least lo [40; 10; 30; 20] /\ greatest hi [40; 10; 30; 20] /\
    (forall p, In p [90; 0; 50; 100] ->
       exists v, pdict_get p d = Some v /\ lo <= v /\ v <= hi /\
                 (p == 0 -> v == lo) /\ (p == 100 -> v == hi)) /\
    (forall p q v v', In p [90; 0; 50; 100] -> In q [90; 0; 50; 100] -> p <= q ->
       pdict_get p d = Some v -> pdict_get q d = Some v' -> v <= v').
Proof.
  apply (percentiles_ordered [40; 10; 30; 20] [90; 0; 50; 100]).
  - discriminate.
  - repeat constructor; discriminate.
Defined.

(** ** Percentiles outside of the range, and of a single value *)

Lemma pyindex_out {A : Type} (l : list A) (k : Z) :
  (Z.of_nat (List.length l) <= k)%Z -> pyindex l k = Raise IndexError.
Proof.
  intros H. unfold pyindex.
  replace (k <? 0)%Z with false by (symmetry; apply Z.ltb_ge; lia).
  replace (k <? 0)%Z with false by (symmetry; apply Z.ltb_ge; lia).
  replace (nth_error l (Z.to_nat k)) with (@None A); [reflexivity|].
  symmetry. apply nth_error_None. lia.
Qed.

Lemma percentile_out_of_range (s : list Q) (p : Q) :
  (2 <= List.length s)%nat -> 100 < p -> percentile_value s p = Raise IndexError.
Proof.
  intros Hn Hp. unfold percentile_value. cbv zeta.
  set (m := (Z.of_nat (List.length s) - 1)%Z).
  set (idx := p / 100 * inject_Z m).
  assert (Hm : 1 <= inject_Z m) by (rewrite <- (Zle_Qle 1); unfold m; lia).
  assert (Hidx : inject_Z m < idx).
  { unfold idx. rewrite <- (Qmult_1_l (inject_Z m)) at 1.
    apply Qmult_lt_compat_r; [lra|].
    apply Qlt_shift_div_l; [reflexivity | lra]. }
  assert (H0 : 0 <= idx) by lra.
  rewrite (pyint_floor idx H0).
  assert (Hfl : (m <= Qfloor idx)%Z).
  { rewrite <- (Qfloor_Z m). apply Qfloor_resp_le. lra. }
  unfold is_integer. rewrite (pyint_floor idx H0).
  destruct (Qeq_bool idx (inject_Z (Qfloor idx))) eqn:E.
  - apply Qeq_bool_iff in E. apply pyindex_out.
    assert (Hlt : (m < Qfloor idx)%Z) by (rewrite Zlt_Qlt, <- E; exact Hidx).
    unfold m in Hlt. lia.
  - destruct (Z_le_lt_eq_dec _ _ Hfl) as [Hlt|Heq].
    + rewrite pyindex_out by (unfold m in Hlt; lia). reflexivity.
    + rewrite (pyindex_nth s (Qfloor idx) 0) by (unfold m in Heq; lia).
      cbn [bind]. rewrite pyindex_out by (unfold m in Heq; lia). reflexivity.
Qed.

Lemma pyint_zero (x : Q) : x == 0 -> pyint x = 0%Z.
Proof.
  intros H. unfold pyint. unfold Qeq in H. simpl in H.
  replace (Qnum x) with 0%Z by lia. apply Z.quot_0_l. discriminate.
Qed.

Lemma percentile_single (x p : Q) : percentile_value [x] p = Ok x.
Proof.
  unfold percentile_value. cbv zeta. cbn [List.length].
  set (idx := p / 100 * inject_Z (Z.of_nat 1 - 1)).
  assert (Hidx : idx == 0) by (unfold idx; simpl; ring).
  unfold is_integer. rewrite (pyint_zero idx Hidx).
  replace (Qeq_bool idx (inject_Z 0)) with true
    by (symmetry; apply Qeq_bool_iff; exact Hidx).
  reflexivity.
Qed.

Lemma percentiles_loop_raises (s ps : list Q) :
  Forall (fun p => (exists v, percentile_value s p = Ok v) \/
                   percentile_value s p = Raise IndexError) ps ->
  Exists (fun p => percentile_value s p = Raise IndexError) ps ->
  forall d0, percentiles_loop s ps d0 = Raise IndexError.
Proof.
  induction 1 as [|p ps Hp _ IH]; intros Hex d0; [inversion Hex|].
  cbn [percentiles_loop]. destruct Hp as [(v & Hv)|Hr].
  - rewrite Hv. cbn [bind]. apply IH.
    inversion Hex as [? ? Hr|]; subst; [congruence | assumption].
  - rewrite Hr. reflexivity.
Qed.

Lemma percentiles_loop_constant (s ps : list Q) (x : Q) :
  (forall p, percentile_value s p = Ok x) ->
  forall d0,
    (forall q v, pdict_get q d0 = Some v -> v = x) ->
    exists d,
      percentiles_loop s ps d0 = Ok d /\
      (forall q v, pdict_get q d = Some v -> v = x) /\
      (forall q, In q ps \/ pdict_get q d0 <> None -> pdict_get q d <> None).
Proof.
  intros Hx. induction ps as [|p ps IH]; intros d0 Hinv.
  - exists d0. split; [reflexivity|]. split; [exact Hinv|].
    intros q [[]|H]. exact H.
  - destruct (IH (pdict_set p x d0)) as (d & Hd & Hinv' & Hpres).
    + intros q w. rewrite pdict_get_set. destruct (Qeq_bool q p).
      * intros Hw. inversion Hw. reflexivity.
      * apply Hinv.
    + exists d. split; [cbn [percentiles_loop]; rewrite Hx; exact Hd|].
      split; [exact Hinv'|].
      intros q Hq. apply Hpres. destruct Hq as [[<-|Hq]|Hq].
      * right. rewrite pdict_get_set.
        replace (Qeq_bool p p) with true by (symmetry; apply Qeq_bool_iff; reflexivity).
        discriminate.
      * left. exact Hq.
      * right. rewrite pdict_get_set. destruct (Qeq_bool q p); [discriminate | exact Hq].
Qed.

(** X8.  With at least two values, a requested percentile above 100 makes
    [calculate_percentiles] raise [IndexError] (the other requested
    percentiles being non-negative); with a single value, every requested
    percentile, whatever its rank, is that value. *)
Theorem percentiles_out_of_range :
  (forall (values ps : list Q),
      (2 <= List.length values)%nat ->
      Forall (fun p => 0 <= p) ps -> Exists (fun p => 100 < p) ps ->
      calculate_percentiles values (Some ps) = Raise IndexError) /\
  (forall (x : Q) (ps : list Q),
      exists d,
        calculate_percentiles [x] (Some ps) = Ok d /\
        forall p, In p ps -> pdict_get p d = Some x).
Proof.
  split.
  - intros values ps Hlen Hpos Hex.
    destruct (sorted_ascending values) as [Hperm _].
    assert (Hn : (2 <= List.length (sorted values))%nat)
      by (rewrite (Permutation_length Hperm); exact Hlen).
    assert (Hs : sorted values <> [])
      by (intros E; rewrite E in Hn; simpl in Hn; lia).
    unfold calculate_percentiles. cbn [get_or].
    destruct values as [|x values]; [simpl in Hlen; lia|].
    apply percentiles_loop_raises.
    + apply Forall_forall. intros p Hp.
      pose proof (proj1 (Forall_forall _ _) Hpos p Hp) as H0. cbn beta in H0.
      destruct (Qlt_le_dec 100 p) as [Hgt|Hle].
      * right. apply percentile_out_of_range; assumption.
      * left. destruct (percentile_value_spec (sorted (x :: values)) p Hs H0 Hle) as (v & Hv & _).
        exists v. exact Hv.
    + apply Exists_exists. apply Exists_exists in Hex. destruct Hex as (p & Hp & Hgt).
      exists p. split; [exact Hp | apply percentile_out_of_range; assumption].
  - intros x ps.
    destruct (percentiles_loop_constant [x] ps x (percentile_single x) []) as (d & Hd & Hinv & Hpres).
    { intros q v H. discriminate H. }
    exists d. split; [exact Hd|].
    intros p Hp. specialize (Hpres p (or_introl Hp)).
    destruct (pdict_get p d) as [v|] eqn:E; [|congruence].
    rewrite (Hinv p v E). reflexivity.
Qed.

Lemma percentiles_out_of_range_witness :
  calculate_percentiles [10; 20] (Some [50; 101]) = Raise IndexError /\
  exists d,
    calculate_percentiles [7] (Some [150; -20]) = Ok d /\
    forall p, In p [150; -20] -> pdict_get p d = Some 7.
Proof.
  split.
  - apply (proj1 percentiles_out_of_range [10; 20] [50; 101]).
    + simpl. lia.
    + repeat constructor; discriminate.
    + apply Exists_cons_tl, Exists_cons_hd. reflexivity.
  - apply (proj2 percentiles_out_of_range 7 [150; -20]).
Defined.

(** ** Letter case in the patterns *)

Lemma lower_ascii_not_upper (a : ascii) : is_upper (lower_ascii a) = false.
Proof. destruct a as [[] [] [] [] [] [] [] []]; reflexivity. Qed.

Lemma lower_ascii_idem (a : ascii) : lower_ascii (lower_ascii a) = lower_ascii a.
Proof. destruct a as [[] [] [] [] [] [] [] []]; reflexivity. Qed.

Lemma lower_idem (s : string) : lower (lower s) = lower s.
Proof.
  induction s as [|a s IH]; [reflexivity|].
  cbn [lower]. rewrite lower_ascii_idem, IH. reflexivity.
Qed.

Lemma upper_is_no_prefix (p s : string) :
  has_upper p = true -> prefix p (lower s) = false.
Proof.
  revert s. induction p as [|c p IH]; intros s H; [discriminate H|].
  destruct s as [|a s]; [reflexivity|].
  cbn [lower prefix]. destruct (ascii_dec c (lower_ascii a)) as [->|_]; [|reflexivity].
  apply IH. unfold has_upper in *. cbn [list_ascii_of_string existsb] in H.
  rewrite lower_ascii_not_upper in H. exact H.
Qed.

Lemma upper_patterns_match_nothing (patterns : list string) (n : string) :
  Forall (fun p => has_upper p = true) patterns ->
  existsb (fun pattern => startswith (lower n) pattern) patterns = false.
Proof.
  induction 1 as [|p ps Hp _ IH]; [reflexivity|].
  cbn [existsb]. unfold startswith at 1. rewrite (upper_is_no_prefix p n Hp). exact IH.
Qed.

Lemma filter_none {A : Type} (f : A -> bool) (l : list A) :
  (forall x, In x l -> f x = false) -> filter f l = [].
Proof.
  induction l as [|x l IH]; intros H; [reflexivity|].
  cbn [filter]. rewrite (H x (or_introl eq_refl)). apply IH.
  intros y Hy. apply H. right. exact Hy.
Qed.

(** X9.  [_filter_spans_by_pattern] ignores the letter case of its pattern,
    and with [startswith=True] it selects what [_get_critical_spans] selects
    for the lower-cased pattern.  [_get_critical_spans] and the interval-union
    calculator do not lower-case their patterns: when every pattern holds an
    upper-case ASCII letter, the first returns no span and the second reports
    no I/O span and zero critical I/O for every non-empty trace. *)
Theorem pattern_letter_case (self : TraceParser) :
  (forall pattern b,
      _filter_spans_by_pattern pattern b self
      = _filter_spans_by_pattern (lower pattern) b self) /\
  (forall pattern,
      _filter_spans_by_pattern pattern true self
      = _get_critical_spans [lower pattern] self) /\
  (forall patterns,
      Forall (fun p => has_upper p = true) patterns ->
      _get_critical_spans patterns self = (Ok [], self) /\
      _get_critical_io_union_intervals (PatList patterns) self
      = (Ok (map (fun tr =>
                    match tr with
                    | [] => {| trace_id := EmptyString; critical_io_ms := 0;
                               spans_count := 0; execution_pattern := "no_trace" |}
                    | first :: _ =>
                        {| trace_id := first_trace_id first; critical_io_ms := 0;
                           spans_count := 0; execution_pattern := "no_io_spans" |}
                    end) (traces self)),
         self)).
Proof.
  split; [|split].
  - intros pattern b. unfold _filter_spans_by_pattern.
    rewrite (filter_ext (matches_pattern pattern b) (matches_pattern (lower pattern) b));
      [reflexivity|].
    intros sp. unfold matches_pattern. rewrite lower_idem. reflexivity.
  - intros pattern. unfold _filter_spans_by_pattern, _get_critical_spans.
    rewrite (filter_ext (matches_pattern pattern true) (is_critical_span [lower pattern]));
      [reflexivity|].
    intros sp. unfold matches_pattern, is_critical_span.
    destruct (name sp) as [n|]; [|reflexivity].
    destruct (duration sp); [|reflexivity].
    cbn [existsb andb negb orb]. reflexivity.
  - intros patterns Hup. split.
    + unfold _get_critical_spans. rewrite filter_none; [reflexivity|].
      intros sp _. unfold is_critical_span.
      destruct (name sp) as [n|]; [|reflexivity].
      destruct (duration sp); [|reflexivity].
      apply upper_patterns_match_nothing, Hup.
    + unfold _get_critical_io_union_intervals. cbn [normalize_patterns].
      rewrite (mapM_ok (union_intervals_of_trace patterns)
                 (fun tr =>
                    match tr with
                    | [] => {| trace_id := EmptyString; critical_io_ms := 0;
                               spans_count := 0; execution_pattern := "no_trace" |}
                    | first :: _ =>
                        {| trace_id := first_trace_id first; critical_io_ms := 0;
                           spans_count := 0; execution_pattern := "no_io_spans" |}
                    end)); [reflexivity|].
      intros tr _. unfold union_intervals_of_trace. destruct tr as [|first rest]; [reflexivity|].
      rewrite filter_none; [reflexivity|].
      intros sp _. unfold name_matches. apply upper_patterns_match_nothing, Hup.
Qed.

Lemma pattern_letter_case_witness :
  _get_critical_spans ["Gmail"] sample_union_parser = (Ok [], sample_union_parser) /\
  exists rs,
    _get_critical_io_union_intervals (PatList ["Gmail"]) sample_union_parser
    = (Ok rs, sample_union_parser) /\
    map critical_io_ms rs = [0; 0].
Proof.
  destruct (proj2 (proj2 (pattern_letter_case sample_union_parser)) ["Gmail"]) as [H1 H2].
  - repeat constructor.
  - split; [exact H1|]. eexists. split; [exact H2 | reflexivity].
Defined.

(** ** The unified aggregation and the generic one *)

Lemma is_io_name_matches (sp : span) : is_io_name sp = name_matches ["gmail"; "chat"] sp.
Proof.
  unfold is_io_name, name_matches. cbn [existsb]. rewrite orb_false_r. reflexivity.
Qed.

Lemma aggregate_unified_generic (fuel : nat) (d : dict span) (sp : span) :
  _aggregate_unified_span_recursive fuel d sp
  = _aggregate_span_recursive fuel d ["gmail"; "chat"] sp.
Proof.
  revert sp. induction fuel as [|fuel IH]; intros sp; [reflexivity|].
  cbn [_aggregate_unified_span_recursive _aggregate_span_recursive].
  destruct (span_id_of sp) as [i| |]; cbn [bind]; try reflexivity.
  rewrite (mapM_ext _ (_aggregate_span_recursive fuel d ["gmail"; "chat"]))
    by (intros c _; apply IH).
  unfold own_value. rewrite is_io_name_matches. reflexivity.
Qed.

Lemma calculate_unified_generic (fuel : nat) (tr : trace) :
  _calculate_unified_critical_io_recursive fuel tr
  = _calculate_final_critical_io_recursive fuel tr ["gmail"; "chat"].
Proof.
  unfold _calculate_unified_critical_io_recursive, _calculate_final_critical_io_recursive.
  destruct (build_span_lookup tr []) as [d| |]; cbn [bind]; try reflexivity.
  destruct (filter is_root tr) as [|r0 roots]; [reflexivity|].
  rewrite (mapM_ext _ (_aggregate_span_recursive fuel d ["gmail"; "chat"]))
    by (intros c _; apply aggregate_unified_generic).
  reflexivity.
Qed.

Lemma mapM_map {A B C : Type} (f : A -> res B) (g : B -> C) (l : list A) :
  mapM (fun a => r <- f a ;; Ok (g r)) l = (rs <- mapM f l ;; Ok (map g rs)).
Proof.
  induction l as [|a l IH]; [reflexivity|].
  cbn [mapM]. destruct (f a) as [b| |]; cbn [bind]; try reflexivity.
  rewrite IH. destruct (mapM f l); reflexivity.
Qed.

(** X10.  [_get_unified_critical_io] computes what
    [_get_critical_io_by_pattern] computes for the patterns gmail and chat:
    the same exception or, trace by trace, the same trace identifier, the
    same critical I/O and the same span count; only the label of the
    execution pattern differs. *)
Theorem unified_is_generic_total (fuel : nat) (self : TraceParser) :
  _get_unified_critical_io fuel self
  = (rs <- fst (_get_critical_io_by_pattern fuel (PatList ["gmail"; "chat"]) self) ;;
     Ok (map relabel_unified rs),
     snd (_get_critical_io_by_pattern fuel (PatList ["gmail"; "chat"]) self)).
Proof.
  unfold _get_unified_critical_io, _get_critical_io_by_pattern.
  cbn [fst snd normalize_patterns].
  rewrite <- mapM_map. f_equal. apply mapM_ext. intros tr _.
  unfold unified_of_trace, critical_io_of_trace.
  destruct tr as [|first rest]; [reflexivity|].
  rewrite (filter_ext is_io_name (name_matches ["gmail"; "chat"]) is_io_name_matches).
  destruct (filter (name_matches ["gmail"; "chat"]) (first :: rest)) as [|s ss];
    [reflexivity|].
  rewrite calculate_unified_generic.
  destruct (_calculate_final_critical_io_recursive fuel (first :: rest) ["gmail"; "chat"]);
    reflexivity.
Qed.

(** ** Averages *)

Lemma pysum_bounds (l : list Q) (lo hi : Q) :
  Forall (fun v => lo <= v /\ v <= hi) l ->
  inject_Z (Z.of_nat (List.length l)) * lo <= pysum l /\
  pysum l <= inject_Z (Z.of_nat (List.length l)) * hi.
Proof.
  induction 1 as [|v l [Hlo Hhi] _ [IH1 IH2]].
  - change (pysum []) with 0. cbn [List.length Z.of_nat].
    change (inject_Z 0) with 0. split; lra.
  - rewrite pysum_cons. cbn [List.length].
    rewrite Nat2Z.inj_succ. unfold Z.succ. rewrite inject_Z_plus.
    change (inject_Z 1) with 1. split; lra.
Qed.

Lemma pysum_positive (v : Q) (l : list Q) :
  Forall (fun x => 0 < x) (v :: l) -> 0 < pysum (v :: l).
Proof.
  intros H. inversion H as [|? ? Hv Hl]; subst.
  rewrite pysum_cons.
  assert (H0 : 0 <= pysum l).
  { apply pysum_nonneg. apply Forall_impl with (2 := Hl). intros a Ha. lra. }
  lra.
Qed.

(** X11.  [calculate_average] with [filter_zeros] answers [None] exactly
    when no value is positive; otherwise the answer is positive, it is the
    sum of the positive values divided by their number, and it lies between
    any two bounds of the positive values.  Values that are zero or negative
    do not enter the average. *)
Theorem calculate_average_positive (values : list Q) :
  (calculate_average values true = None <-> Forall (fun v => v <= 0) values) /\
  (forall a, calculate_average values true = Some a ->
     0 < a /\
     a * inject_Z (Z.of_nat (List.length (filter (Qlt_bool 0) values)))
     == pysum (filter (Qlt_bool 0) values) /\
     (forall lo hi, (forall v, In v values -> 0 < v -> lo <= v /\ v <= hi) ->
                    lo <= a /\ a <= hi) /\
     calculate_average (filter (Qlt_bool 0) values) true = Some a).
Proof.
  assert (Hfilter : forall l, filter (fun v => negb true || Qlt_bool 0 v) l
                              = filter (Qlt_bool 0) l).
  { intros l. apply filter_ext. intros v. reflexivity. }
  assert (Hidem : forall l : list Q, filter (Qlt_bool 0) (filter (Qlt_bool 0) l)
                           = filter (Qlt_bool 0) l).
  { intros l. apply filter_all. intros x Hx. apply filter_In in Hx. apply Hx. }
  split.
  - unfold calculate_average. rewrite Hfilter. split.
    + intros H. apply Forall_forall. intros v Hv.
      destruct (Qlt_le_dec 0 v) as [Hpos|Hle]; [|exact Hle]. exfalso.
      assert (Hin : In v (filter (Qlt_bool 0) values))
        by (apply filter_In; split; [exact Hv | apply Qlt_bool_iff, Hpos]).
      destruct values as [|x values]; [destruct Hv|].
      destruct (filter (Qlt_bool 0) (x :: values)); [destruct Hin | discriminate H].
    + intros H. destruct values as [|x values]; [reflexivity|].
      rewrite filter_none; [reflexivity|].
      intros v Hv. apply Qlt_bool_false_iff. apply (proj1 (Forall_forall _ _) H v Hv).
  - intros a Ha. unfold calculate_average in Ha. rewrite Hfilter in Ha.
    destruct values as [|x values]; [discriminate Ha|].
    set (f := filter (Qlt_bool 0) (x :: values)) in *.
    assert (Hpos : Forall (fun v => 0 < v) f).
    { apply Forall_forall. intros v Hv. apply filter_In in Hv.
      apply Qlt_bool_iff, Hv. }
    assert (Hsub : forall v, In v f -> In v (x :: values)).
    { intros v Hv. apply filter_In in Hv. apply Hv. }
    destruct f as [|y f'] eqn:Ef; [discriminate Ha|].
    set (n := inject_Z (Z.of_nat (List.length (y :: f')))).
    assert (Ea : a = pysum (y :: f') / n) by (injection Ha as <-; reflexivity).
    rewrite Ea. clear Ea Ha.
    assert (Hn : 0 < n).
    { unfold n. rewrite <- (Zlt_Qlt 0). simpl. lia. }
    split; [|split; [|split]].
    + apply Qlt_shift_div_l; [exact Hn|]. rewrite Qmult_0_l.
      apply pysum_positive, Hpos.
    + rewrite Qmult_comm. apply Qmult_div_r.
      intros E. rewrite E in Hn. apply (Qlt_irrefl 0 Hn).
    + intros lo hi Hb.
      destruct (pysum_bounds (y :: f') lo hi) as [H1 H2].
      { apply Forall_forall. intros v Hv. apply Hb; [apply Hsub, Hv|].
        apply (proj1 (Forall_forall _ _) Hpos v Hv). }
      fold n in H1, H2. split.
      * apply Qle_shift_div_l; [exact Hn|]. rewrite Qmult_comm. exact H1.
      * apply Qle_shift_div_r; [exact Hn|]. rewrite Qmult_comm. exact H2.
    + unfold calculate_average. rewrite Hfilter.
      change (filter (Qlt_bool 0) (x :: values)) with (filter (Qlt_bool 0) (x :: values)).
      pose proof (Hidem (x :: values)) as Hi. fold f in Hi. rewrite Ef in Hi.
      rewrite Hi. reflexivity.
Qed.

Lemma calculate_average_positive_witness :
  exists a, calculate_average [0; 10; -5; 20] true = Some a /\ 0 < a /\ 10 <= a /\ a <= 20.
Proof.
  eexists. split; [reflexivity|].
  destruct (proj2 (calculate_average_positive [0; 10; -5; 20]) _ eq_refl)
    as (H0 & _ & Hb & _).
  split; [exact H0|]. apply Hb.
  intros v [<-|[<-|[<-|[<-|[]]]]] Hv; unfold Qle, Qlt in *; simpl in *; lia.
Defined.

(** ** Counting benchmark traces *)

Lemma count_benchmark_traces_from (ts : list trace) (acc : Z) :
  fold_left (fun acc tr => (acc + (if existsb is_benchmark_span tr then 1 else 0))%Z) ts acc
  = (acc + Z.of_nat (List.length (filter (existsb is_benchmark_span) ts)))%Z.
Proof.
  revert acc. induction ts as [|tr ts IH]; intros acc; cbn [fold_left filter].
  - simpl. lia.
  - rewrite IH. destruct (existsb is_benchmark_span tr); cbn [List.length]; lia.
Qed.

Lemma count_benchmark_traces_length (ts : list trace) :
  count_benchmark_traces ts
  = Z.of_nat (List.length (filter (existsb is_benchmark_span) ts)).
Proof. unfold count_benchmark_traces. rewrite count_benchmark_traces_from. lia. Qed.

Lemma benchmark_span_qualifies (tr : trace) :
  existsb is_benchmark_span tr = true -> _is_benchmark_trace tr = true.
Proof.
  unfold _is_benchmark_trace. rewrite !existsb_exists.
  intros (sp & Hsp & H). exists sp. split; [exact Hsp|].
  unfold is_benchmark_span in H. destruct (name sp); [|discriminate].
  destruct (duration sp); [exact H | discriminate].
Qed.

Lemma qualifies_benchmark_span (tr : trace) :
  Forall (fun sp => name sp <> None -> duration sp <> None) tr ->
  existsb is_benchmark_span tr = _is_benchmark_trace tr.
Proof.
  intros H. unfold _is_benchmark_trace. induction H as [|sp tr Hsp _ IH]; [reflexivity|].
  cbn [existsb]. rewrite IH. f_equal. unfold is_benchmark_span.
  destruct (name sp) as [n|]; [|reflexivity].
  destruct (duration sp); [reflexivity|].
  exfalso. apply Hsp; [discriminate | reflexivity].
Qed.

Lemma filter_length_impl {A : Type} (f g : A -> bool) (l : list A) :
  (forall x, In x l -> f x = true -> g x = true) ->
  (List.length (filter f l) <= List.length (filter g l))%nat.
Proof.
  induction l as [|x l IH]; intros H; [apply Nat.le_refl|].
  assert (IH' : (List.length (filter f l) <= List.length (filter g l))%nat)
    by (apply IH; intros y Hy; apply H; right; exact Hy).
  cbn [filter]. destruct (f x) eqn:Ef.
  - rewrite (H x (or_introl eq_refl) Ef). cbn [List.length]. lia.
  - destruct (g x); cbn [List.length]; lia.
Qed.

Lemma existsb_filter_length {A : Type} (f : A -> bool) (ls : list (list A)) :
  (List.length (filter (existsb f) ls) <= List.length (filter f (List.concat ls)))%nat.
Proof.
  induction ls as [|l ls IH]; [apply Nat.le_refl|].
  cbn [filter List.concat]. rewrite filter_app, length_app.
  destruct (existsb f l) eqn:E; [|lia].
  cbn [List.length].
  assert (H : (1 <= List.length (filter f l))%nat).
  { apply existsb_exists in E. destruct E as (x & Hx & Hfx).
    assert (Hin : In x (filter f l)) by (apply filter_In; split; assumption).
    destruct (filter f l); [destruct Hin | simpl; lia]. }
  lia.
Qed.

(** X12.  [count_benchmark_traces] never counts more traces than the
    warm-up exclusion regards as benchmark traces, and counts the same
    number when every named span carries a duration.
    [extract_benchmark_spans] does not raise: it returns the durations, in
    milliseconds, of the benchmark spans in trace order, at least one for
    each trace counted. *)
Theorem benchmark_counts (ts : list trace) :
  (0 <= count_benchmark_traces ts
     <= Z.of_nat (List.length (filter _is_benchmark_trace ts)))%Z /\
  (Forall (Forall (fun sp => name sp <> None -> duration sp <> None)) ts ->
   count_benchmark_traces ts = Z.of_nat (List.length (filter _is_benchmark_trace ts))) /\
  exists bs,
    extract_benchmark_spans ts = Ok bs /\
    map BenchmarkSpan.duration_ms bs
    = map duration_ms (filter is_benchmark_span (List.concat ts)) /\
    (count_benchmark_traces ts <= Z.of_nat (List.length bs))%Z.
Proof.
  rewrite count_benchmark_traces_length.
  split; [|split].
  - split; [lia|]. apply Nat2Z.inj_le. apply filter_length_impl.
    intros tr _. apply benchmark_span_qualifies.
  - intros H. f_equal. f_equal. apply filter_ext_in.
    intros tr Htr. apply qualifies_benchmark_span.
    apply (proj1 (Forall_forall _ _) H tr Htr).
  - unfold extract_benchmark_spans.
    rewrite (mapM_ok _ (fun sp => {| BenchmarkSpan.duration_ms := duration_ms sp |})).
    + eexists. split; [reflexivity|]. split.
      * rewrite map_map. reflexivity.
      * rewrite length_map. apply Nat2Z.inj_le. apply existsb_filter_length.
    + intros sp Hsp. apply filter_In in Hsp. destruct Hsp as [_ Hsp].
      unfold is_benchmark_span in Hsp. unfold duration_ms.
      destruct (name sp); [|discriminate]. destruct (duration sp); [|discriminate].
      reflexivity.
Qed.

Lemma benchmark_counts_witness :
  count_benchmark_traces (traces sample_warmup) = 3%Z.
Proof.
  rewrite (proj1 (proj2 (benchmark_counts (traces sample_warmup)))).
  - reflexivity.
  - repeat constructor; intros _; discriminate.
Defined.

(** X13.  When the warm-up count [w] is positive and smaller than the
    number [n] of qualifying traces, the non-empty traces carry pairwise
    distinct trace identifiers and every named span carries a duration, the
    working set left by the warm-up exclusion holds [n - w] benchmark traces
    for [count_benchmark_traces]. *)
Theorem count_after_warmup (self : TraceParser) :
  let w := warmup_iterations self in
  let n := Z.of_nat (List.length (filter _is_benchmark_trace (traces self))) in
  (0 < w < n)%Z ->
  NoDup (trace_ids (traces self)) ->
  Forall (Forall (fun sp => name sp <> None -> duration sp <> None)) (traces self) ->
  count_benchmark_traces (traces (fst (_exclude_warmup_iterations self))) = (n - w)%Z.
Proof.
  intros w n Hw Hnd Hdur.
  rewrite (warmup_run self Hw). cbn [fst set_traces traces].
  set (ids := warmup_ids (qualifying_sorted (traces self)) (warmup_iterations self)).
  destruct (taken_facts self Hw) as (_ & Hlen & Htaken).
  pose proof (removed_is_taken self Hw Hnd) as Hperm. fold ids in Hperm, Htaken.
  rewrite count_benchmark_traces_length.
  rewrite (filter_ext_in (existsb is_benchmark_span) _is_benchmark_trace).
  2:{ intros tr Htr. apply filter_In in Htr. apply qualifies_benchmark_span.
      apply (proj1 (Forall_forall _ _) Hdur tr (proj1 Htr)). }
  rewrite filter_comm.
  pose proof (filter_partition_length (in_warmup ids)
                (filter _is_benchmark_trace (traces self))) as Hpart.
  assert (Hrem : List.length (filter (in_warmup ids) (filter _is_benchmark_trace (traces self)))
                 = Z.to_nat w).
  { rewrite filter_comm.
    rewrite (Permutation_length (filter_perm _is_benchmark_trace _ _ Hperm)).
    rewrite filter_all by (intros tr Htr; apply (Htaken tr Htr)).
    exact Hlen. }
  unfold n, trace in *. lia.
Qed.

Lemma count_after_warmup_witness :
  count_benchmark_traces (traces (fst (_exclude_warmup_iterations sample_warmup))) = 1%Z.
Proof.
  apply (count_after_warmup sample_warmup).
  - vm_compute. split; reflexivity.
  - vm_compute. repeat constructor; simpl; intuition discriminate.
  - repeat constructor; intros _; discriminate.
Defined.

(** ** Basic statistics *)

Lemma Qfloor_unique (x : Q) (k : Z) :
  inject_Z k <= x -> x < inject_Z (k + 1) -> Qfloor x = k.
Proof.
  intros Hlo Hhi.
  assert (H1 : (k <= Qfloor x)%Z).
  { rewrite <- (Qfloor_Z k). apply Qfloor_resp_le, Hlo. }
  assert (H2 : (Qfloor x < k + 1)%Z).
  { rewrite Zlt_Qlt. apply Qle_lt_trans with x; [apply Qfloor_le | exact Hhi]. }
  lia.
Qed.

Lemma pysum_squares_nonneg (l : list Q) (m : Q) :
  0 <= pysum (map (fun x => (x - m) * (x - m)) l).
Proof.
  apply pysum_nonneg, Forall_forall. intros v Hv. apply in_map_iff in Hv.
  destruct Hv as (x & <- & _).
  destruct (Qlt_le_dec (x - m) 0) as [H|H].
  - setoid_replace ((x - m) * (x - m)) with ((m - x) * (m - x)) by ring.
    apply Qmult_le_0_compat; lra.
  - apply Qmult_le_0_compat; exact H.
Qed.

(** The median read off the ascending list. *)
Lemma median_spec (values : list Q) :
  values <> [] ->
  let s := sorted values in
  let n := List.length s in
  exists v,
    median values = Ok v /\
    ((Nat.odd n = true /\ v = nth (n / 2) s 0) \/
     (Nat.odd n = false /\ v = (nth (n / 2 - 1) s 0 + nth (n / 2) s 0) / 2)).
Proof.
  intros Hne s n.
  destruct (sorted_ascending values) as [Hperm _]. fold s in Hperm.
  assert (Hn : (1 <= n)%nat).
  { unfold n. rewrite (Permutation_length Hperm).
    destruct values; [congruence | simpl; lia]. }
  unfold median. cbv zeta. fold s. fold n.
  replace (Z.of_nat n =? 0)%Z with false by (symmetry; apply Z.eqb_neq; lia).
  pose proof (Nat.div_mod_eq n 2) as Hdm.
  pose proof (Nat.mod_upper_bound n 2 ltac:(lia)) as Hmod.
  assert (Hdiv : (Z.of_nat n / 2)%Z = Z.of_nat (n / 2))
    by (rewrite (Nat2Z.inj_div n 2); reflexivity).
  assert (Hm : (Z.of_nat n mod 2)%Z = Z.of_nat (n mod 2))
    by (rewrite (Nat2Z.inj_mod n 2); reflexivity).
  rewrite Hdiv, Hm.
  destruct (Nat.odd n) eqn:Eodd.
  - assert (H1 : (n mod 2 = 1)%nat).
    { rewrite <- Nat.bit0_mod, Nat.bit0_odd, Eodd. reflexivity. }
    rewrite H1. cbn [Z.of_nat Z.eqb Pos.eqb].
    rewrite (pyindex_nth s _ 0) by (fold n; lia).
    rewrite Nat2Z.id. eexists. split; [reflexivity|]. left. split; reflexivity.
  - assert (H0 : (n mod 2 = 0)%nat).
    { rewrite <- Nat.bit0_mod, Nat.bit0_odd, Eodd. reflexivity. }
    rewrite H0. cbn [Z.of_nat Z.eqb].
    rewrite (pyindex_nth s (Z.of_nat (n / 2) - 1) 0) by (fold n; lia).
    cbn [bind]. rewrite (pyindex_nth s (Z.of_nat (n / 2)) 0) by (fold n; lia).
    cbn [bind]. replace (Z.to_nat (Z.of_nat (n / 2) - 1)) with (n / 2 - 1)%nat by lia.
    rewrite Nat2Z.id. eexists. split; [reflexivity|]. right. split; reflexivity.
Qed.

(** The 50th percentile read off the ascending list. *)
Lemma percentile_50 (s : list Q) (v : Q) :
  s <> [] -> is_percentile s 50 v ->
  let n := List.length s in
  (Nat.odd n = true -> v == nth (n / 2) s 0) /\
  (Nat.odd n = false -> v == (nth (n / 2 - 1) s 0 + nth (n / 2) s 0) / 2).
Proof.
  intros Hne (Hk & Hint & Hfrac) n. fold n in Hk, Hint, Hfrac.
  assert (Hn : (1 <= n)%nat) by (unfold n; destruct s; [congruence | simpl; lia]).
  pose proof (Nat.div_mod_eq n 2) as Hdm.
  pose proof (Nat.mod_upper_bound n 2 ltac:(lia)) as Hmod.
  set (idx := fractional_rank n 50) in *.
  assert (Hidx : idx == inject_Z (Z.of_nat n - 1) / 2).
  { unfold idx, fractional_rank. field. }
  split; intros Eodd.
  - assert (H1 : (n mod 2 = 1)%nat).
    { rewrite <- Nat.bit0_mod, Nat.bit0_odd, Eodd. reflexivity. }
    assert (Hi : idx == inject_Z (Z.of_nat (n / 2))).
    { rewrite Hidx. replace (Z.of_nat n - 1)%Z with (Z.of_nat (n / 2) * 2)%Z by lia.
      rewrite inject_Z_mult. field. }
    assert (Hfl : Qfloor idx = Z.of_nat (n / 2)).
    { rewrite (Qfloor_comp _ _ Hi). apply Qfloor_Z. }
    rewrite Hfl in Hint. rewrite Nat2Z.id in Hint. apply Hint. exact Hi.
  - assert (H0 : (n mod 2 = 0)%nat).
    { rewrite <- Nat.bit0_mod, Nat.bit0_odd, Eodd. reflexivity. }
    assert (Hi : idx == inject_Z (Z.of_nat (n / 2) - 1) + (1 # 2)).
    { rewrite Hidx.
      replace (Z.of_nat n - 1)%Z with ((Z.of_nat (n / 2) - 1) * 2 + 1)%Z by lia.
      rewrite inject_Z_plus, inject_Z_mult. field. }
    assert (Hfl : Qfloor idx = (Z.of_nat (n / 2) - 1)%Z).
    { apply Qfloor_unique.
      - rewrite Hi. lra.
      - rewrite Hi, inject_Z_plus. change (inject_Z 1) with 1. lra. }
    rewrite Hfl in Hfrac.
    replace (Z.to_nat (Z.of_nat (n / 2) - 1)) with (n / 2 - 1)%nat in Hfrac by lia.
    replace (S (n / 2 - 1)) with (n / 2)%nat in Hfrac by lia.
    destruct Hfrac as [_ Hv].
    + rewrite Hi. intros E. lra.
    + rewrite Hv, Hi. field.
Qed.

(** X14.  For a non-empty list, [calculate_basic_stats] returns the number
    of values, their least and greatest element as minimum and maximum, a
    mean and a median that lie between the two, the difference of the two as
    range, and a variance that is not negative; the median is the value
    [calculate_percentiles] returns as 50th percentile. *)
Theorem basic_stats_ordered (values : list Q) :
  values <> [] ->
  exists st,
    calculate_basic_stats values = Ok st /\
    BasicStats.count st = List.length values /\
    least (BasicStats.min st) values /\
    greatest (BasicStats.max st) values /\
    BasicStats.min st <= BasicStats.mean st /\
    BasicStats.mean st <= BasicStats.max st /\
    BasicStats.min st <= BasicStats.median st /\
    BasicStats.median st <= BasicStats.max st /\
    BasicStats.range st = BasicStats.max st - BasicStats.min st /\
    0 <= BasicStats.range st /\
    0 <= BasicStats.variance st /\
    exists d v,
      calculate_percentiles values (Some [50]) = Ok d /\
      pdict_get 50 d = Some v /\ v == BasicStats.median st.
Proof.
  intros Hne.
  destruct (sorted_ascending values) as [Hperm Hsort].
  assert (Hs : sorted values <> []).
  { intros E. apply Hne. apply Permutation_nil. rewrite <- E. exact Hperm. }
  destruct (median_spec values Hne) as (med & Hmed & Hmedv). cbv zeta in Hmedv.
  destruct (percentiles_loop_spec (sorted values) [50] Hs) with (d0 := @nil (Q * Q))
    as (d & Hd & Hinv & Hpres).
  { repeat constructor; discriminate. }
  { intros q v H. discriminate H. }
  specialize (Hpres 50 (or_introl (or_introl eq_refl))).
  destruct (pdict_get 50 d) as [p50|] eqn:E50; [|congruence].
  pose proof (Hinv 50 p50 E50) as Hp50.
  destruct (percentile_50 (sorted values) p50 Hs Hp50) as [Hodd Heven]. cbv zeta in Hodd, Heven.
  destruct values as [|x l]; [congruence|].
  destruct (pymin_list_least x l) as [Hmin_in Hmin].
  destruct (pymax_list_greatest x l) as [Hmax_in Hmax].
  set (mn := pymin_list x l) in *. set (mx := pymax_list x l) in *.
  assert (Hbounds : Forall (fun v => mn <= v /\ v <= mx) (x :: l)).
  { apply Forall_forall. intros v Hv. split.
    - apply (proj1 (Forall_forall _ _) Hmin v Hv).
    - apply (proj1 (Forall_forall _ _) Hmax v Hv). }
  assert (Hnth : forall i, (i < List.length (sorted (x :: l)))%nat ->
                           mn <= nth i (sorted (x :: l)) 0 /\ nth i (sorted (x :: l)) 0 <= mx).
  { intros i Hi. apply (proj1 (Forall_forall _ _) Hbounds).
    apply (Permutation_in _ Hperm). apply nth_In. exact Hi. }
  set (N := inject_Z (Z.of_nat (List.length (x :: l)))).
  assert (HN : 0 < N) by (unfold N; rewrite <- (Zlt_Qlt 0); simpl; lia).
  destruct (pysum_bounds (x :: l) mn mx Hbounds) as [Hsum1 Hsum2]. fold N in Hsum1, Hsum2.
  assert (Hlen : List.length (sorted (x :: l)) = List.length (x :: l))
    by apply (Permutation_length Hperm).
  assert (Hge1 : (1 <= List.length (sorted (x :: l)))%nat) by (rewrite Hlen; simpl; lia).
  pose proof (Nat.div_mod_eq (List.length (sorted (x :: l))) 2) as Hdm.
  pose proof (Nat.mod_upper_bound (List.length (sorted (x :: l))) 2 ltac:(lia)) as Hmod.
  assert (Hvar : exists var,
             (if (1 <? List.length (x :: l))%nat then variance (x :: l) else Ok 0) = Ok var /\
             0 <= var).
  { destruct (1 <? List.length (x :: l))%nat eqn:E1; [|exists 0; split; [reflexivity | apply Qle_refl]].
    apply Nat.ltb_lt in E1. unfold variance. cbv zeta.
    replace (Z.of_nat (List.length (x :: l)) <? 2)%Z with false
      by (symmetry; apply Z.ltb_ge; lia).
    cbn [mean bind]. eexists. split; [reflexivity|].
    apply Qle_shift_div_l.
    - rewrite <- (Zlt_Qlt 0). lia.
    - rewrite Qmult_0_l. apply pysum_squares_nonneg. }
  destruct Hvar as (var & Hvar & Hvar0).
  eexists. split.
  { unfold calculate_basic_stats. cbn [mean bind]. rewrite Hmed. cbn [bind list_min list_max].
    rewrite Hvar. cbn [bind]. reflexivity. }
  cbn [BasicStats.count BasicStats.mean BasicStats.median BasicStats.min BasicStats.max
       BasicStats.range BasicStats.variance].
  fold mn mx N.
  split; [reflexivity|]. split; [split; assumption|]. split; [split; assumption|].
  split; [apply Qle_shift_div_l; [exact HN | rewrite Qmult_comm; exact Hsum1]|].
  split; [apply Qle_shift_div_r; [exact HN | rewrite Qmult_comm; exact Hsum2]|].
  assert (Hmed_bounds : mn <= med /\ med <= mx).
  { destruct Hmedv as [[_ ->]|[Ho ->]].
    - apply Hnth. lia.
    - assert (H0 : (List.length (sorted (x :: l)) mod 2 = 0)%nat).
      { rewrite <- Nat.bit0_mod, Nat.bit0_odd, Ho. reflexivity. }
      destruct (Hnth (List.length (sorted (x :: l)) / 2 - 1)%nat ltac:(lia)) as [A1 A2].
      destruct (Hnth (List.length (sorted (x :: l)) / 2)%nat ltac:(lia)) as [B1 B2].
      split.
      + apply Qle_shift_div_l; [reflexivity | lra].
      + apply Qle_shift_div_r; [reflexivity | lra]. }
  split; [apply Hmed_bounds|]. split; [apply Hmed_bounds|].
  split; [reflexivity|].
  split; [pose proof (proj1 (Forall_forall _ _) Hmax mn Hmin_in) as H; cbn beta in H; lra|].
  split; [exact Hvar0|].
  exists d, p50. split.
  { unfold calculate_percentiles. cbn [get_or]. exact Hd. }
  split; [exact E50|].
  destruct Hmedv as [[Ho ->]|[Ho ->]]; [apply Hodd, Ho | apply Heven, Ho].
Qed.

Lemma basic_stats_ordered_witness :
  exists st,
    calculate_basic_stats [40; 10; 30; 20] = Ok st /\
    BasicStats.min st <= BasicStats.median st /\
    BasicStats.median st <= BasicStats.max st /\
    exists d v,
      calculate_percentiles [40; 10; 30; 20] (Some [50]) = Ok d /\
      pdict_get 50 d = Some v /\ v == BasicStats.median st.
Proof.
  destruct (basic_stats_ordered [40; 10; 30; 20]) as (st & H).
  - discriminate.
  - exists st. destruct H as (H1 & _ & _ & _ & _ & _ & H2 & H3 & _ & _ & _ & H4).
    split; [exact H1|]. split; [exact H2|]. split; [exact H3 | exact H4].
Defined.

(** ** Quartiles of four or more samples *)





(** ** The order of the spans within a trace *)

Lemma union_intervals_of_trace_count (patterns : list string) (tr : trace) (r : critical_io_value) :
  union_intervals_of_trace patterns tr = Ok r ->
  spans_count r = List.length (io_spans_of patterns tr).
Proof.
  unfold union_intervals_of_trace, io_spans_of. destruct tr as [|first rest].
  - intros H. injection H as <-. reflexivity.
  - destruct (filter (name_matches patterns) (first :: rest)) as [|sp sps].
    + intros H. injection H as <-. reflexivity.
    + destruct (mapM span_interval (sp :: sps)); cbn [bind]; try discriminate.
      intros H. injection H as <-. reflexivity.
Qed.

(** X16.  The interval-union critical I/O of a trace does not depend on the
    order of its spans: for two working sets whose traces hold, trace by
    trace, the same spans in any order (the selected spans carrying an id and
    a non-negative duration), the calculator returns, trace by trace, the
    same critical I/O and the same span count. *)
Theorem union_intervals_order_independent (patterns : patterns_arg)
    (self self' : TraceParser) :
  Forall2 (fun tr tr' => Permutation tr tr') (traces self) (traces self') ->
  (forall tr, In tr (traces self) ->
              Forall wf_io_span (io_spans_of (normalize_patterns patterns) tr)) ->
  exists rs rs',
    _get_critical_io_union_intervals patterns self = (Ok rs, self) /\
    _get_critical_io_union_intervals patterns self' = (Ok rs', self') /\
    Forall2 (fun r r' => critical_io_ms r == critical_io_ms r' /\
                         spans_count r = spans_count r') rs rs'.
Proof.
  intros Hperm Hwf. unfold _get_critical_io_union_intervals. cbv zeta.
  set (ps := normalize_patterns patterns) in *.
  induction Hperm as [|tr tr' ts ts' Hp _ IH].
  - exists [], []. repeat split; constructor.
  - destruct IH as (rs & rs' & Hrs & Hrs' & HF).
    { intros t Ht. apply Hwf. right. exact Ht. }
    injection Hrs as Hrs. injection Hrs' as Hrs'.
    assert (Hsel : Permutation (io_spans_of ps tr) (io_spans_of ps tr'))
      by (apply filter_perm, Hp).
    assert (Hwf1 : Forall wf_io_span (io_spans_of ps tr)) by (apply Hwf; left; reflexivity).
    assert (Hwf2 : Forall wf_io_span (io_spans_of ps tr'))
      by (apply (Permutation_Forall Hsel), Hwf1).
    destruct (union_intervals_of_trace_spec ps tr Hwf1) as (r & Hr & Hv).
    destruct (union_intervals_of_trace_spec ps tr' Hwf2) as (r' & Hr' & Hv').
    exists (r :: rs), (r' :: rs').
    cbn [mapM]. rewrite Hr, Hr', Hrs, Hrs'. cbn [bind].
    split; [reflexivity|]. split; [reflexivity|].
    constructor; [|exact HF]. split.
    + rewrite Hv, Hv'.
      rewrite (union_length_perm _ _ (Permutation_map span_bounds Hsel) (wf_bounds _ Hwf1)).
      reflexivity.
    + rewrite (union_intervals_of_trace_count ps tr r Hr).
      rewrite (union_intervals_of_trace_count ps tr' r' Hr').
      apply Permutation_length, Hsel.
Qed.

Lemma union_intervals_order_independent_witness :
  exists rs rs',
    _get_critical_io_union_intervals (PatStr "gmail") sample_union_parser
    = (Ok rs, sample_union_parser) /\
    _get_critical_io_union_intervals (PatStr "gmail")
      (set_traces sample_union_parser (map (@rev span) (traces sample_union_parser)))
    = (Ok rs',
       set_traces sample_union_parser (map (@rev span) (traces sample_union_parser))) /\
    Forall2 (fun r r' => critical_io_ms r == critical_io_ms r' /\
                         spans_count r = spans_count r') rs rs'.
Proof.
  set (reversed := set_traces sample_union_parser
                     (map (@rev span) (traces sample_union_parser))).
  apply (union_intervals_order_independent (PatStr "gmail") sample_union_parser reversed).
  - cbn [reversed set_traces traces sample_union_parser map].
    repeat constructor; apply Permutation_rev.
  - intros tr [<-|[<-|[]]]; vm_compute; repeat constructor; discriminate.
Defined.

(** ** Token usage *)

Lemma count_span_skip (int_ : string -> option Z) (c : token_counts) (sp : span) (s : string) :
  dict_get "gen_ai.usage.total_tokens" (get_or (tags sp) []) = Some s ->
  int_ s = None ->
  count_span int_ c sp = c.
Proof.
  intros Htag Hint. unfold count_span. destruct (is_chat_span sp); [|reflexivity].
  unfold add_tag at 1. rewrite Htag, Hint. reflexivity.
Qed.

Lemma count_span_other (int_ : string -> option Z) (c : token_counts) (sp : span) :
  is_chat_span sp = false -> count_span int_ c sp = c.
Proof. intros H. unfold count_span. rewrite H. reflexivity. Qed.

(** X17.  [get_ai_token_usage] returns one record for each benchmark trace,
    in order.  Spans that are not chat spans with tags contribute nothing.
    A chat span whose total-token tag is not an integer contributes nothing
    to any of the three sums, whatever its input-token and output-token tags
    hold, but it is still counted in [ai_spans_with_tokens]. *)
Theorem token_usage_skips_span (int_ : string -> option Z) (self : TraceParser) :
  map TokenUsage.trace_id (fst (get_ai_token_usage int_ self))
  = map (fun tr => match tr with [] => EmptyString | sp :: _ => first_trace_id sp end)
        (filter _is_benchmark_trace (traces self)) /\
  snd (get_ai_token_usage int_ self) = self /\
  (forall l1 sp l2,
      is_chat_span sp = false ->
      TokenUsage.counts (token_usage_of_trace int_ (l1 ++ sp :: l2))
      = TokenUsage.counts (token_usage_of_trace int_ (l1 ++ l2))) /\
  (forall l1 sp l2 s,
      is_chat_span sp = true ->
      dict_get "gen_ai.usage.total_tokens" (get_or (tags sp) []) = Some s ->
      int_ s = None ->
      TokenUsage.counts (token_usage_of_trace int_ (l1 ++ sp :: l2))
      = TokenUsage.counts (token_usage_of_trace int_ (l1 ++ l2)) /\
      TokenUsage.ai_spans_with_tokens (token_usage_of_trace int_ (l1 ++ sp :: l2))
      = S (TokenUsage.ai_spans_with_tokens (token_usage_of_trace int_ (l1 ++ l2)))).
Proof.
  split; [|split; [|split]].
  - unfold get_ai_token_usage. cbn [fst]. rewrite map_map. reflexivity.
  - reflexivity.
  - intros l1 sp l2 Hsp. unfold token_usage_of_trace. cbn [TokenUsage.counts].
    rewrite !fold_left_app. cbn [fold_left]. rewrite (count_span_other int_ _ sp Hsp).
    reflexivity.
  - intros l1 sp l2 s Hchat Htag Hint. unfold token_usage_of_trace.
    cbn [TokenUsage.counts TokenUsage.ai_spans_with_tokens]. split.
    + rewrite !fold_left_app. cbn [fold_left].
      rewrite (count_span_skip int_ _ sp s Htag Hint). reflexivity.
    + rewrite !filter_app, !length_app. cbn [filter].
      unfold has_total_tag at 2. rewrite Hchat, Htag. cbn [andb List.length]. lia.
Qed.

Lemma token_usage_skips_span_witness :
  TokenUsage.counts
    (token_usage_of_trace int_of_digits
       [chat_span "30" "10" "20"; chat_span "n/a" "10" "20"; chat_span "30" "10" "20"])
  = mkTokens 60 20 40 /\
  TokenUsage.ai_spans_with_tokens
    (token_usage_of_trace int_of_digits
       [chat_span "30" "10" "20"; chat_span "n/a" "10" "20"; chat_span "30" "10" "20"])
  = 3%nat.
Proof.
  set (valid := chat_span "30" "10" "20").
  set (broken := chat_span "n/a" "10" "20").
  destruct (proj2 (proj2 (proj2 (token_usage_skips_span int_of_digits sample_loader)))
              [valid] broken [valid] "n/a" eq_refl eq_refl eq_refl) as [H1 H2].
  cbn [app] in H1, H2. rewrite H1, H2. split; reflexivity.
Defined.

(** ** The spans behind the merged intervals *)





(** ** The two calculators on the same working set *)

Lemma build_span_lookup_ids (tr : trace) :
  forall d0 d, build_span_lookup tr d0 = Ok d -> Forall (fun sp => id sp <> None) tr.
Proof.
  induction tr as [|sp tr IH]; intros d0 d H; [constructor|].
  cbn [build_span_lookup] in H. unfold span_id_of in H.
  destruct (id sp) as [i|] eqn:E; [|discriminate H]. cbn [bind] in H.
  constructor; [rewrite E; discriminate | apply (IH _ _ H)].
Qed.

Lemma critical_io_of_trace_union (fuel : nat) (ps : list string) (pname : string)
    (tr : trace) (r : critical_io_value) :
  critical_io_of_trace fuel ps pname tr = Ok r ->
  exists r', union_intervals_of_trace ps tr = Ok r' /\
             trace_id r' = trace_id r /\ spans_count r' = spans_count r.
Proof.
  unfold critical_io_of_trace, union_intervals_of_trace.
  destruct tr as [|first rest].
  { intros H. injection H as <-. eexists. split; [reflexivity|]. split; reflexivity. }
  destruct (filter (name_matches ps) (first :: rest)) as [|sp sps] eqn:Esel.
  { intros H. injection H as <-. eexists. split; [reflexivity|]. split; reflexivity. }
  destruct (_calculate_final_critical_io_recursive fuel (first :: rest) ps) as [v| |] eqn:Ecalc;
    cbn [bind]; try discriminate.
  intros H. injection H as <-.
  unfold _calculate_final_critical_io_recursive in Ecalc.
  destruct (build_span_lookup (first :: rest) []) as [d| |] eqn:Ebuild; try discriminate.
  pose proof (build_span_lookup_ids _ _ _ Ebuild) as Hids.
  rewrite (mapM_ok span_interval interval_of).
  - cbn [bind]. eexists. split; [reflexivity|]. split; reflexivity.
  - intros a Ha. apply span_interval_ok.
    apply (proj1 (Forall_forall _ _) Hids a).
    assert (Hin : In a (filter (name_matches ps) (first :: rest))) by (rewrite Esel; exact Ha).
    apply filter_In in Hin. apply Hin.
Qed.

(** X19.  Whenever the hierarchical calculator returns for a working set,
    the interval-union calculator returns for it as well, with the same
    trace identifiers and the same span counts, trace by trace. *)
Theorem hierarchical_implies_union (fuel : nat) (patterns : patterns_arg)
    (self : TraceParser) (rs : list critical_io_value) :
  fst (_get_critical_io_by_pattern fuel patterns self) = Ok rs ->
  exists rs',
    _get_critical_io_union_intervals patterns self = (Ok rs', self) /\
    map trace_id rs' = map trace_id rs /\
    map spans_count rs' = map spans_count rs.
Proof.
  unfold _get_critical_io_by_pattern, _get_critical_io_union_intervals. cbn [fst].
  set (ps := normalize_patterns patterns).
  set (pname := match patterns with PatStr s => s | PatList _ => "total" end).
  revert rs. induction (traces self) as [|tr ts IH]; intros rs H.
  - injection H as <-. exists []. repeat split.
  - cbn [mapM] in H.
    destruct (critical_io_of_trace fuel ps pname tr) as [r| |] eqn:Er; try discriminate H.
    cbn [bind] in H.
    destruct (mapM (critical_io_of_trace fuel ps pname) ts) as [rs0| |] eqn:Ers;
      try discriminate H.
    cbn [bind] in H. injection H as <-.
    destruct (critical_io_of_trace_union fuel ps pname tr r Er) as (r' & Hr' & Hid & Hcount).
    destruct (IH rs0 eq_refl) as (rs' & Hrs' & Hids & Hcounts).
    injection Hrs' as Hrs'.
    exists (r' :: rs'). cbn [mapM]. rewrite Hr', Hrs'. cbn [bind map].
    split; [reflexivity|]. split; congruence.
Qed.

Lemma hierarchical_implies_union_witness :
  exists rs',
    _get_critical_io_union_intervals (PatStr "gmail") sample_tree_parser
    = (Ok rs', sample_tree_parser) /\
    map trace_id rs' = ["t1"; "t1"; EmptyString] /\
    map spans_count rs' = [2%nat; 2%nat; 0%nat].
Proof.
  apply (hierarchical_implies_union 3 (PatStr "gmail") sample_tree_parser
           (match fst (_get_critical_io_by_pattern 3 (PatStr "gmail") sample_tree_parser) with
            | Ok rs => rs
            | _ => []
            end)).
  vm_compute. reflexivity.
Defined.

(** ** Critical I/O inside an enclosing span *)

(** X20.  The interval-union critical I/O of a trace never exceeds the
    duration of a span that encloses the selected spans: if every selected
    span (carrying an id and a non-negative duration) starts no earlier and
    ends no later than a span [root], the critical I/O of the trace is at
    most the duration of [root]. *)
Theorem critical_io_within_enclosing_span (patterns : patterns_arg) (self : TraceParser) :
  (forall tr, In tr (traces self) ->
              Forall wf_io_span (io_spans_of (normalize_patterns patterns) tr)) ->
  exists rs,
    _get_critical_io_union_intervals patterns self = (Ok rs, self) /\
    Forall2 (fun tr r =>
               forall root,
                 (0 <= get_or (duration root) 0)%Z ->
                 (forall sp, In sp (io_spans_of (normalize_patterns patterns) tr) ->
                             (fst (span_bounds root) <= fst (span_bounds sp))%Z /\
                             (snd (span_bounds sp) <= snd (span_bounds root))%Z) ->
                 critical_io_ms r <= duration_ms root)
            (traces self) rs.
Proof.
  intros Hwf. unfold _get_critical_io_union_intervals. cbv zeta.
  set (ps := normalize_patterns patterns) in *.
  destruct (mapM_Forall2_spec (union_intervals_of_trace ps)
              (fun tr r =>
                 forall root,
                   (0 <= get_or (duration root) 0)%Z ->
                   (forall sp, In sp (io_spans_of ps tr) ->
                               (fst (span_bounds root) <= fst (span_bounds sp))%Z /\
                               (snd (span_bounds sp) <= snd (span_bounds root))%Z) ->
                   critical_io_ms r <= duration_ms root)
              (traces self)) as (rs & Hrs & HF).
  - intros tr Htr.
    destruct (union_intervals_of_trace_spec ps tr (Hwf tr Htr)) as (r & Hr & Hv).
    exists r. split; [exact Hr|].
    intros root Hdur Hin. rewrite Hv. unfold duration_ms. apply ms_le_of_Z.
    pose proof (wf_bounds _ (Hwf tr Htr)) as Hpos.
    rewrite (union_length_window (map span_bounds (io_spans_of ps tr))
               (fst (span_bounds root)) (snd (span_bounds root))).
    + pose proof (measure_range (covers (map span_bounds (io_spans_of ps tr)))
                    (fst (span_bounds root)) (snd (span_bounds root))) as Hm.
      unfold span_bounds in *. cbn [fst snd] in *. lia.
    + exact Hpos.
    + apply Forall_forall. intros z Hz. apply in_map_iff in Hz.
      destruct Hz as (sp & <- & Hsp). apply Hin, Hsp.
    + unfold span_bounds. cbn [fst snd]. lia.
  - exists rs. rewrite Hrs. split; [reflexivity | exact HF].
Qed.

Lemma critical_io_within_enclosing_span_witness :
  exists rs,
    _get_critical_io_union_intervals (PatStr "gmail") sample_union_parser
    = (Ok rs, sample_union_parser) /\
    Forall2 (fun tr r =>
               forall root,
                 (0 <= get_or (duration root) 0)%Z ->
                 (forall sp, In sp (io_spans_of ["gmail"] tr) ->
                             (fst (span_bounds root) <= fst (span_bounds sp))%Z /\
                             (snd (span_bounds sp) <= snd (span_bounds root))%Z) ->
                 critical_io_ms r <= duration_ms root)
            (traces sample_union_parser) rs.
Proof.
  apply (critical_io_within_enclosing_span (PatStr "gmail") sample_union_parser).
  intros tr [<-|[<-|[]]]; vm_compute; repeat constructor; discriminate.
Defined.

(** ** Computations over the store *)

Lemma bind_ok {A B : Type} (m : Store.M A) (k : A -> Store.M B) (s s1 : Store.store)
    (a : A) :
  m s = (Ok a, s1) -> Store.bind m k s = k a s1.
Proof. intros H. unfold Store.bind. rewrite H. reflexivity. Qed.

Lemma bind_raise {A B : Type} (m : Store.M A) (k : A -> Store.M B)
    (s s1 : Store.store) (e : exn) :
  m s = (Raise e, s1) -> Store.bind m k s = (Raise e, s1).
Proof. intros H. unfold Store.bind. rewrite H. reflexivity. Qed.

Lemma bind_out_of_fuel {A B : Type} (m : Store.M A) (k : A -> Store.M B)
    (s s1 : Store.store) :
  m s = (OutOfFuel, s1) -> Store.bind m k s = (OutOfFuel, s1).
Proof. intros H. unfold Store.bind. rewrite H. reflexivity. Qed.

Lemma items_of_run (s : Store.store) (r : Store.ref) (xs : list Store.value) :
  nth_error s r = Some (Store.OList xs) -> Store.items_of (Store.VRef r) s = (Ok xs, s).
Proof.
  intros H. unfold Store.items_of, Store.bind, Store.lookup. rewrite H. reflexivity.
Qed.

Lemma entries_of_run (s : Store.store) (r : Store.ref) (d : dict Store.value) :
  nth_error s r = Some (Store.ODict d) -> Store.entries_of (Store.VRef r) s = (Ok d, s).
Proof.
  intros H. unfold Store.entries_of, Store.bind, Store.lookup. rewrite H. reflexivity.
Qed.

Lemma getitem_run (s : Store.store) (r : Store.ref) (d : dict Store.value)
    (key : string) (x : Store.value) :
  nth_error s r = Some (Store.ODict d) -> dict_get key d = Some x ->
  Store.getitem (Store.VRef r) key s = (Ok x, s).
Proof.
  intros H Hk. unfold Store.getitem.
  rewrite (bind_ok _ _ _ _ _ (entries_of_run _ _ _ H)). rewrite Hk. reflexivity.
Qed.

Lemma getitem_missing (s : Store.store) (r : Store.ref) (d : dict Store.value)
    (key : string) :
  nth_error s r = Some (Store.ODict d) -> dict_get key d = None ->
  Store.getitem (Store.VRef r) key s = (Raise (KeyError key), s).
Proof.
  intros H Hk. unfold Store.getitem.
  rewrite (bind_ok _ _ _ _ _ (entries_of_run _ _ _ H)). rewrite Hk. reflexivity.
Qed.

Lemma get_run (s : Store.store) (r : Store.ref) (d : dict Store.value)
    (key : string) (default : Store.value) :
  nth_error s r = Some (Store.ODict d) ->
  Store.get (Store.VRef r) key default s = (Ok (get_or (dict_get key d) default), s).
Proof.
  intros H. unfold Store.get.
  rewrite (bind_ok _ _ _ _ _ (entries_of_run _ _ _ H)). reflexivity.
Qed.

Lemma getattr_run (s : Store.store) (r : Store.ref) (d : dict Store.value)
    (key : string) (x : Store.value) :
  nth_error s r = Some (Store.ODict d) -> dict_get key d = Some x ->
  Store.getattr (Store.VRef r) key s = (Ok x, s).
Proof.
  intros H Hk. unfold Store.getattr.
  rewrite (bind_ok _ _ _ _ _ (entries_of_run _ _ _ H)). rewrite Hk. reflexivity.
Qed.

Lemma index_run (s : Store.store) (r : Store.ref) (xs : list Store.value) (i : nat)
    (x : Store.value) :
  nth_error s r = Some (Store.OList xs) -> nth_error xs i = Some x ->
  Store.index (Store.VRef r) i s = (Ok x, s).
Proof.
  intros H Hi. unfold Store.index.
  rewrite (bind_ok _ _ _ _ _ (items_of_run _ _ _ H)). rewrite Hi. reflexivity.
Qed.

Lemma append_run (s : Store.store) (r : Store.ref) (xs : list Store.value)
    (x : Store.value) :
  nth_error s r = Some (Store.OList xs) ->
  Store.append (Store.VRef r) x s
  = (Ok tt, Store.replace r (Store.OList (xs ++ [x])) s).
Proof.
  intros H. unfold Store.append, Store.bind, Store.lookup. rewrite H. reflexivity.
Qed.

Lemma new_list_run (s : Store.store) (xs : list Store.value) :
  Store.new_list xs s = (Ok (Store.VRef (List.length s)), s ++ [Store.OList xs]).
Proof. reflexivity. Qed.

Lemma new_dict_run (s : Store.store) (d : dict Store.value) :
  Store.new_dict d s = (Ok (Store.VRef (List.length s)), s ++ [Store.ODict d]).
Proof. reflexivity. Qed.

(** ** Objects that stay as they are *)

Lemma nth_error_replace_same {A : Type} (l : list A) (n : nat) (a b : A) :
  nth_error l n = Some a -> nth_error (Store.replace n b l) n = Some b.
Proof.
  revert n. induction l as [|x l IH]; intros [|n]; simpl; try discriminate.
  - reflexivity.
  - apply IH.
Qed.

Lemma nth_error_replace_other {A : Type} (l : list A) (n m : nat) (b : A) :
  m <> n -> nth_error (Store.replace n b l) m = nth_error l m.
Proof.
  revert n m. induction l as [|x l IH]; intros [|n] [|m] H; simpl; try reflexivity.
  - congruence.
  - apply IH. congruence.
Qed.

Lemma nth_error_fresh {A : Type} (l : list A) : nth_error l (List.length l) = None.
Proof. apply nth_error_None. apply Nat.le_refl. Qed.

Lemma nth_error_new {A : Type} (l : list A) (a : A) :
  nth_error (l ++ [a]) (List.length l) = Some a.
Proof. rewrite nth_error_app2, Nat.sub_diag by apply Nat.le_refl. reflexivity. Qed.

Lemma nth_error_old {A : Type} (l ext : list A) (n : nat) (a : A) :
  nth_error l n = Some a -> nth_error (l ++ ext) n = Some a.
Proof.
  intros H. rewrite nth_error_app1; [exact H|].
  apply nth_error_Some. congruence.
Qed.

Lemma preserved_refl (s : Store.store) : Store.preserved s s.
Proof. intros r o H. exact H. Qed.

Lemma preserved_trans (s1 s2 s3 : Store.store) :
  Store.preserved s1 s2 -> Store.preserved s2 s3 -> Store.preserved s1 s3.
Proof. intros H1 H2 r o H. apply H2, H1, H. Qed.

Lemma preserved_alloc (s : Store.store) (o : Store.object) : Store.preserved s (s ++ [o]).
Proof. intros r o' H. apply nth_error_old, H. Qed.

Lemma preserved_but_refl (t : Store.ref) (s : Store.store) : Store.preserved_but t s s.
Proof. intros r o _ H. exact H. Qed.

Lemma preserved_but_trans (t : Store.ref) (s1 s2 s3 : Store.store) :
  Store.preserved_but t s1 s2 -> Store.preserved_but t s2 s3 -> Store.preserved_but t s1 s3.
Proof. intros H1 H2 r o Hr H. apply H2, H1, H; exact Hr. Qed.

Lemma preserved_preserved_but (t : Store.ref) (s s' : Store.store) :
  Store.preserved s s' -> Store.preserved_but t s s'.
Proof. intros H r o _ Hr. apply H, Hr. Qed.

Lemma preserved_but_replace (t : Store.ref) (s : Store.store) (o : Store.object) :
  Store.preserved_but t s (Store.replace t o s).
Proof. intros r o' Hr H. rewrite nth_error_replace_other by exact Hr. exact H. Qed.

(** A write to an object that [s0] does not have leaves the objects of [s0]
    as they are. *)
Lemma preserved_but_fresh (t : Store.ref) (s0 s s' : Store.store) :
  nth_error s0 t = None -> Store.preserved s0 s -> Store.preserved_but t s s' ->
  Store.preserved s0 s'.
Proof.
  intros Hf H0 H r o Hr. apply H; [|apply H0, Hr].
  intros ->. congruence.
Qed.

(** What the relations between store and values say stays true. *)
Lemma holds_span_preserved (s s' : Store.store) (v : Store.value) (sp : span) :
  Store.preserved s s' -> Store.holds_span s v sp -> Store.holds_span s' v sp.
Proof.
  intros H (r & d & -> & Hr & Hd). exists r, d. repeat split; try apply Hd.
  apply H, Hr.
Qed.

Lemma holds_spans_preserved (s s' : Store.store) (items : list Store.value)
    (sps : list span) :
  Store.preserved s s' -> Forall2 (Store.holds_span s) items sps ->
  Forall2 (Store.holds_span s') items sps.
Proof.
  intros H HF. induction HF; constructor; [|assumption].
  eapply holds_span_preserved; eassumption.
Qed.

Lemma holds_trace_preserved (s s' : Store.store) (v : Store.value) (tr : trace) :
  Store.preserved s s' -> Store.holds_trace s v tr -> Store.holds_trace s' v tr.
Proof.
  intros H (r & items & -> & Hr & HF). exists r, items. repeat split.
  - apply H, Hr.
  - eapply holds_spans_preserved; eassumption.
Qed.

Lemma holds_parser_preserved (s s' : Store.store) (v : Store.value)
    (self : TraceParser) :
  Store.preserved s s' -> Store.holds_parser s v self -> Store.holds_parser s' v self.
Proof.
  intros H (r & attrs & r' & items & -> & Hr & Ha & Hr' & HF).
  exists r, attrs, r', items. repeat split; try assumption.
  - apply H, Hr.
  - apply H, Hr'.
  - clear Hr'. induction HF; constructor; [|assumption].
    eapply holds_trace_preserved; eassumption.
Qed.

(** ** Loops *)

(** A loop with an invariant: [Inv zs s] after the iterations whose
    counterparts returned [zs]; [Fail s] where an iteration raised. *)
Lemma for_each_inv {A Y Z : Type} (R : A -> Y -> Prop) (body : A -> Store.M unit)
    (f : Y -> res Z) (Inv : list Z -> Store.store -> Prop) (Fail : Store.store -> Prop) :
  (forall x y zs s,
      R x y -> Inv zs s ->
      exists s', body x s = (unit_of (f y), s') /\
                 match f y with
                 | Ok z => Inv (zs ++ [z]) s'
                 | _ => Fail s'
                 end) ->
  forall xs ys, Forall2 R xs ys ->
  forall zs s,
    Inv zs s ->
    exists s', Store.for_each xs body s = (unit_of (mapM f ys), s') /\
               match mapM f ys with
               | Ok zs' => Inv (zs ++ zs') s'
               | _ => Fail s'
               end.
Proof.
  intros Hbody xs ys HF. induction HF as [|x y xs ys Hxy HF IH]; intros zs s Hs.
  - exists s. split; [reflexivity|]. simpl. rewrite app_nil_r. exact Hs.
  - destruct (Hbody x y zs s Hxy Hs) as (s' & Hrun & Hpost).
    simpl. destruct (f y) as [z| |] eqn:Ef; simpl in Hrun |- *.
    + rewrite (bind_ok _ _ _ _ _ Hrun).
      destruct (IH (zs ++ [z]) s' Hpost) as (s'' & Hrun' & Hpost').
      exists s''. rewrite Hrun'.
      destruct (mapM f ys) as [zs'| |]; simpl; (split; [reflexivity|]).
      * rewrite <- app_assoc in Hpost'. exact Hpost'.
      * exact Hpost'.
      * exact Hpost'.
    + rewrite (bind_raise _ _ _ _ _ Hrun). exists s'. split; [reflexivity|exact Hpost].
    + rewrite (bind_out_of_fuel _ _ _ _ Hrun). exists s'.
      split; [reflexivity|exact Hpost].
Qed.

(** Reading every item: the store stays as it is. *)
Lemma map_each_read {A B Y : Type} (R : A -> Y -> Prop) (f : A -> Store.M B)
    (g : A -> Y -> B) (s : Store.store) :
  (forall x y, R x y -> f x s = (Ok (g x y), s)) ->
  forall xs ys, Forall2 R xs ys ->
    Store.map_each f xs s = (Ok (map (fun xy => g (fst xy) (snd xy)) (combine xs ys)), s).
Proof.
  intros Hf xs ys HF. induction HF as [|x y xs ys Hxy HF IH]; [reflexivity|].
  simpl. rewrite (bind_ok _ _ _ _ _ (Hf x y Hxy)).
  rewrite (bind_ok _ _ _ _ _ IH). reflexivity.
Qed.

Lemma select_read {A Y : Type} (R : A -> Y -> Prop) (test : A -> Store.M bool)
    (g : Y -> bool) (s : Store.store) :
  (forall x y, R x y -> test x s = (Ok (g y), s)) ->
  forall xs ys, Forall2 R xs ys ->
    exists zs, Store.select test xs s = (Ok zs, s) /\ Forall2 R zs (filter g ys).
Proof.
  intros Hf xs ys HF. induction HF as [|x y xs ys Hxy HF IH].
  - exists []. split; [reflexivity|constructor].
  - destruct IH as (zs & Hrun & Hzs). simpl.
    rewrite (bind_ok _ _ _ _ _ (Hf x y Hxy)).
    rewrite (bind_ok _ _ _ _ _ Hrun).
    destruct (g y).
    + exists (x :: zs). split; [reflexivity|]. constructor; assumption.
    + exists zs. split; [reflexivity|]. exact Hzs.
Qed.

(** ** The concurrency check over the store *)

Lemma Forall2_map_combine {A B Y : Type} (R : A -> Y -> Prop) (R' : B -> Y -> Prop)
    (g : A -> Y -> B) (xs : list A) (ys : list Y) :
  (forall x y, R x y -> R' (g x y) y) -> Forall2 R xs ys ->
  Forall2 R' (map (fun xy => g (fst xy) (snd xy)) (combine xs ys)) ys.
Proof.
  intros H HF. induction HF; simpl; constructor; auto.
Qed.

Lemma Forall2_map_l {A B Y : Type} (R : B -> Y -> Prop) (f : A -> B)
    (xs : list A) (ys : list Y) :
  Forall2 (fun x y => R (f x) y) xs ys -> Forall2 R (map f xs) ys.
Proof. intros HF. induction HF; simpl; constructor; auto. Qed.

Lemma insert_by_Forall2 {A B K : Type} (leb : K -> K -> bool) (ka : A -> K)
    (kb : B -> K) (R : A -> B -> Prop) (x : A) (y : B) (xs : list A) (ys : list B) :
  (forall a b, R a b -> ka a = kb b) -> R x y -> Forall2 R xs ys ->
  Forall2 R (insert_by leb ka x xs) (insert_by leb kb y ys).
Proof.
  intros Hk Hxy HF. induction HF as [|a b xs ys Hab HF IH]; simpl.
  - constructor; [exact Hxy|constructor].
  - rewrite (Hk _ _ Hxy), (Hk _ _ Hab).
    destruct (leb (kb y) (kb b)).
    + constructor; [exact Hxy|]. constructor; assumption.
    + constructor; assumption.
Qed.

Lemma sort_by_Forall2 {A B K : Type} (leb : K -> K -> bool) (ka : A -> K)
    (kb : B -> K) (R : A -> B -> Prop) (xs : list A) (ys : list B) :
  (forall a b, R a b -> ka a = kb b) -> Forall2 R xs ys ->
  Forall2 R (sort_by leb ka xs) (sort_by leb kb ys).
Proof.
  intros Hk HF. induction HF; simpl; [constructor|].
  apply insert_by_Forall2; assumption.
Qed.

Lemma span_dict_timestamp (s : Store.store) (v : Store.value) (d : SpanDict.t) :
  Store.holds_span_dict s v d ->
  Store.getitem v "timestamp" s = (Ok (Store.VNum (SpanDict.timestamp d)), s).
Proof. intros (r & -> & Hr). eapply getitem_run; [exact Hr|reflexivity]. Qed.

Lemma span_dict_duration_ms (s : Store.store) (v : Store.value) (d : SpanDict.t) :
  Store.holds_span_dict s v d ->
  Store.getitem v "duration_ms" s = (Ok (Store.VNum (SpanDict.duration_ms d)), s).
Proof. intros (r & -> & Hr). eapply getitem_run; [exact Hr|reflexivity]. Qed.

Lemma number_run (s : Store.store) (q : Q) : Store.number (Store.VNum q) s = (Ok q, s).
Proof. reflexivity. Qed.

Lemma overlap_scan_run (s : Store.store) (xs : list Store.value) (ds : list SpanDict.t) :
  Forall2 (Store.holds_span_dict s) xs ds ->
  Store.overlap_scan xs s = (Ok (overlap_scan ds), s).
Proof.
  intros HF. induction HF as [|x d xs ds Hxd HF IH]; [reflexivity|].
  destruct HF as [|x' d' xs' ds' Hxd' HF]; [reflexivity|].
  cbn [Store.overlap_scan overlap_scan].
  rewrite (bind_ok _ _ _ _ _ (span_dict_timestamp _ _ _ Hxd)).
  rewrite (bind_ok _ _ _ _ _ (number_run _ _)).
  rewrite (bind_ok _ _ _ _ _ (span_dict_duration_ms _ _ _ Hxd)).
  rewrite (bind_ok _ _ _ _ _ (number_run _ _)).
  cbv zeta.
  rewrite (bind_ok _ _ _ _ _ (span_dict_timestamp _ _ _ Hxd')).
  rewrite (bind_ok _ _ _ _ _ (number_run _ _)).
  destruct (Qlt_bool (SpanDict.timestamp d')
                     (SpanDict.timestamp d + SpanDict.duration_ms d)); [reflexivity|].
  exact IH.
Qed.

(** [_check_concurrency] returns what the function of the values returns;
    the list made by [sorted] is its only trace in the store. *)
Lemma check_concurrency_run (s : Store.store) (v : Store.value) (ds : list SpanDict.t) :
  Store.holds_span_dicts s v ds ->
  exists s', Store._check_concurrency v s = (Ok (_check_concurrency ds), s') /\
             Store.preserved s s'.
Proof.
  intros (r & items & -> & Hr & HF).
  unfold Store._check_concurrency, _check_concurrency.
  rewrite (bind_ok _ _ _ _ _ (items_of_run _ _ _ Hr)).
  rewrite (Forall2_length HF).
  destruct (List.length ds <=? 1)%nat.
  { exists s. split; [reflexivity|apply preserved_refl]. }
  rewrite (bind_ok _ _ _ _ _
             (map_each_read (Store.holds_span_dict s) _
                (fun x d => (SpanDict.timestamp d, x)) s
                (fun x d H => eq_trans
                   (bind_ok _ _ _ _ _ (span_dict_timestamp _ _ _ H)) eq_refl)
                items ds HF)).
  rewrite (bind_ok _ _ _ _ _ (new_list_run _ _)).
  rewrite (bind_ok _ _ _ _ _ (items_of_run _ _ _ (nth_error_new _ _))).
  eexists. split; [|apply preserved_alloc].
  apply overlap_scan_run.
  apply Forall2_map_l.
  apply Forall2_impl
    with (R1 := fun k d => Store.holds_span_dict (s ++ [Store.OList
                  (map snd (sort_by Qle_bool fst
                     (map (fun xy : Store.value * SpanDict.t =>
                             (SpanDict.timestamp (snd xy), fst xy))
                          (combine items ds))))]) (snd k) d /\
                           fst k = SpanDict.timestamp d);
    [intros k d H; exact (proj1 H)|].
  apply (sort_by_Forall2 Qle_bool fst SpanDict.timestamp
           (fun k d => Store.holds_span_dict _ (snd k) d /\
                       fst k = SpanDict.timestamp d)).
  - intros k d [_ E]. exact E.
  - apply Forall2_map_combine
      with (R := Store.holds_span_dict s) (g := fun x d => (SpanDict.timestamp d, x));
      [|exact HF].
    intros x d (r' & -> & Hr'). split; [|reflexivity].
    exists r'. split; [reflexivity|]. apply nth_error_old, Hr'.
Qed.

(** ** Spans in the store *)

Lemma list_is_not_dict (s : Store.store) (t r : Store.ref) (xs : list Store.value)
    (d : dict Store.value) :
  nth_error s t = Some (Store.OList xs) -> nth_error s r = Some (Store.ODict d) -> r <> t.
Proof. intros Ht Hr ->. congruence. Qed.

Lemma holds_span_preserved_but (s s' : Store.store) (t : Store.ref)
    (xs : list Store.value) (v : Store.value) (sp : span) :
  nth_error s t = Some (Store.OList xs) -> Store.preserved_but t s s' ->
  Store.holds_span s v sp -> Store.holds_span s' v sp.
Proof.
  intros Ht H (r & d & -> & Hr & Hd). exists r, d. repeat split; try apply Hd.
  apply H; [|exact Hr]. eapply list_is_not_dict; eassumption.
Qed.

Lemma holds_lookup_preserved_but (s s' : Store.store) (t : Store.ref)
    (xs : list Store.value) (v : Store.value) (d : dict span) :
  nth_error s t = Some (Store.OList xs) -> Store.preserved_but t s s' ->
  Store.holds_lookup s v d -> Store.holds_lookup s' v d.
Proof.
  intros Ht H (r & entries & -> & Hr & HF). exists r, entries. repeat split.
  - apply H; [|exact Hr]. eapply list_is_not_dict; eassumption.
  - clear Hr. induction HF as [|e e' es es' [Hk Hv] HF IH]; constructor; [|exact IH].
    split; [exact Hk|]. eapply holds_span_preserved_but; eassumption.
Qed.

Lemma holds_lookup_preserved (s s' : Store.store) (v : Store.value) (d : dict span) :
  Store.preserved s s' -> Store.holds_lookup s v d -> Store.holds_lookup s' v d.
Proof.
  intros H (r & entries & -> & Hr & HF). exists r, entries. repeat split.
  - apply H, Hr.
  - clear Hr. induction HF as [|e e' es es' [Hk Hv] HF IH]; constructor; [|exact IH].
    split; [exact Hk|]. eapply holds_span_preserved; eassumption.
Qed.

Lemma holds_span_dict_preserved_but (s s' : Store.store) (t : Store.ref)
    (xs : list Store.value) (v : Store.value) (d : SpanDict.t) :
  nth_error s t = Some (Store.OList xs) -> Store.preserved_but t s s' ->
  Store.holds_span_dict s v d -> Store.holds_span_dict s' v d.
Proof.
  intros Ht H (r & -> & Hr). exists r. split; [reflexivity|].
  apply H; [|exact Hr]. eapply list_is_not_dict; eassumption.
Qed.

Lemma holds_span_dict_preserved (s s' : Store.store) (v : Store.value) (d : SpanDict.t) :
  Store.preserved s s' -> Store.holds_span_dict s v d -> Store.holds_span_dict s' v d.
Proof. intros H (r & -> & Hr). exists r. split; [reflexivity|]. apply H, Hr. Qed.

(** What the methods read of a span. *)
Lemma span_id_run (s : Store.store) (v : Store.value) (sp : span) :
  Store.holds_span s v sp ->
  Store.getitem v "id" s = (res_map Store.VStr (span_id_of sp), s).
Proof.
  intros (r & d & -> & Hr & _ & Hid & _). unfold span_id_of.
  destruct (id sp) as [i|]; simpl in *.
  - eapply getitem_run; eassumption.
  - eapply getitem_missing; eassumption.
Qed.

Lemma span_name_run (s : Store.store) (v : Store.value) (sp : span) :
  Store.holds_span s v sp ->
  Store.get v "name" (Store.VStr EmptyString) s
  = (Ok (Store.VStr (get_or (name sp) EmptyString)), s).
Proof.
  intros (r & d & -> & Hr & _ & _ & _ & Hn & _).
  rewrite (get_run _ _ _ _ _ Hr), Hn. destruct (name sp); reflexivity.
Qed.

Lemma span_parent_run (s : Store.store) (v : Store.value) (sp : span) :
  Store.holds_span s v sp ->
  Store.get v "parentId" Store.VNone s
  = (Ok match parentId sp with Some p => Store.VStr p | None => Store.VNone end, s).
Proof.
  intros (r & d & -> & Hr & _ & _ & Hp & _).
  rewrite (get_run _ _ _ _ _ Hr), Hp. destruct (parentId sp); reflexivity.
Qed.

Lemma span_trace_id_run (s : Store.store) (v : Store.value) (sp : span) :
  Store.holds_span s v sp ->
  Store.get v "traceId" (Store.VStr EmptyString) s
  = (Ok (Store.VStr (first_trace_id sp)), s).
Proof.
  intros (r & d & -> & Hr & Ht & _).
  rewrite (get_run _ _ _ _ _ Hr), Ht. unfold first_trace_id.
  destruct (traceId sp); reflexivity.
Qed.

Lemma span_timestamp_run (s : Store.store) (v : Store.value) (sp : span) :
  Store.holds_span s v sp ->
  Store.get v "timestamp" (Store.VNum 0) s
  = (Ok (Store.VNum (inject_Z (get_or (timestamp sp) 0%Z))), s).
Proof.
  intros (r & d & -> & Hr & _ & _ & _ & _ & Ht & _).
  rewrite (get_run _ _ _ _ _ Hr), Ht. destruct (timestamp sp); reflexivity.
Qed.

Lemma span_duration_run (s : Store.store) (v : Store.value) (sp : span) :
  Store.holds_span s v sp ->
  Store.get v "duration" (Store.VNum 0) s
  = (Ok (Store.VNum (inject_Z (get_or (duration sp) 0%Z))), s).
Proof.
  intros (r & d & -> & Hr & _ & _ & _ & _ & _ & Hd).
  rewrite (get_run _ _ _ _ _ Hr), Hd. destruct (duration sp); reflexivity.
Qed.

Lemma matches_run (s : Store.store) (ps : list string) (v : Store.value) (sp : span) :
  Store.holds_span s v sp -> Store.matches ps v s = (Ok (name_matches ps sp), s).
Proof.
  intros H. unfold name_matches. induction ps as [|p ps IH]; [reflexivity|].
  cbn [Store.matches existsb].
  rewrite (bind_ok _ _ _ _ _ (span_name_run _ _ _ H)).
  rewrite (bind_ok _ _ _ _ (get_or (name sp) EmptyString) (eq_refl _)).
  destruct (startswith (lower (get_or (name sp) EmptyString)) p); [reflexivity|].
  exact IH.
Qed.

(** The dictionary made for the concurrency check. *)
Lemma span_dict_run (s : Store.store) (v : Store.value) (sp : span) :
  Store.holds_span s v sp ->
  Store.span_dict v s
  = (Ok (Store.VRef (List.length s)),
     s ++ [Store.ODict [("timestamp", Store.VNum (timestamp_ms sp));
                        ("duration_ms", Store.VNum (duration_ms sp))]]).
Proof.
  intros H. unfold Store.span_dict.
  rewrite (bind_ok _ _ _ _ _ (span_timestamp_run _ _ _ H)).
  rewrite (bind_ok _ _ _ _ _ (number_run _ _)).
  rewrite (bind_ok _ _ _ _ _ (span_duration_run _ _ _ H)).
  rewrite (bind_ok _ _ _ _ _ (number_run _ _)).
  reflexivity.
Qed.

Lemma mapM_Ok_id {A : Type} (l : list A) : mapM (fun a : A => Ok a) l = Ok l.
Proof. induction l as [|a l IH]; simpl; [reflexivity|]. rewrite IH. reflexivity. Qed.

(** The loop that appends a dictionary for each span. *)
Lemma span_dicts_loop (s : Store.store) (t : Store.ref) (items : list Store.value)
    (sps : list span) :
  nth_error s t = Some (Store.OList []) ->
  Forall2 (Store.holds_span s) items sps ->
  exists s',
    Store.for_each items (fun x => Store.bind (Store.span_dict x)
                                     (fun entry => Store.append (Store.VRef t) entry)) s
    = (Ok tt, s') /\
    Store.preserved_but t s s' /\
    Store.holds_span_dicts s' (Store.VRef t) (map span_dict_of sps).
Proof.
  intros Ht HF.
  destruct (for_each_inv (Store.holds_span s)
              (fun x => Store.bind (Store.span_dict x)
                          (fun entry => Store.append (Store.VRef t) entry))
              (fun sp => Ok sp)
              (fun zs st => Store.preserved_but t s st /\
                            Store.holds_span_dicts st (Store.VRef t) (map span_dict_of zs))
              (fun _ => False)) with (xs := items) (ys := sps) (zs := @nil span) (s := s)
    as (s' & Hrun & Hpost).
  - intros x sp zs st Hx [Hp (r & content & Er & Hr & Hc)].
    injection Er as <-.
    assert (Hx' : Store.holds_span st x sp)
      by exact (holds_span_preserved_but _ _ _ _ _ _ Ht Hp Hx).
    rewrite (bind_ok _ _ _ _ _ (span_dict_run _ _ _ Hx')).
    rewrite (append_run _ _ _ _ (nth_error_old _ _ _ _ Hr)).
    eexists. split; [reflexivity|]. split.
    + eapply preserved_but_trans; [exact Hp|].
      eapply preserved_but_trans;
        [apply preserved_preserved_but, preserved_alloc|apply preserved_but_replace].
    + exists t, (content ++ [Store.VRef (List.length st)]).
      split; [reflexivity|]. split.
      * eapply nth_error_replace_same, nth_error_old, Hr.
      * rewrite map_app. apply Forall2_app.
        -- eapply Forall2_impl; [|exact Hc].
           intros a b Hab.
           eapply holds_span_dict_preserved_but;
             [eapply nth_error_old, Hr|apply preserved_but_replace|].
           eapply holds_span_dict_preserved; [apply preserved_alloc|exact Hab].
        -- constructor; [|constructor].
           exists (List.length st). split; [reflexivity|].
           rewrite nth_error_replace_other.
           ++ apply nth_error_new.
           ++ intros E. rewrite <- E, nth_error_fresh in Hr. discriminate.
  - exact HF.
  - split; [apply preserved_but_refl|].
    exists t, []. split; [reflexivity|]. split; [exact Ht|constructor].
  - rewrite mapM_Ok_id in Hrun, Hpost. exists s'. split; [exact Hrun|]. exact Hpost.
Qed.

(** ** The loops of the aggregation *)

Lemma map_each_number (s : Store.store) (qs : list Q) :
  Store.map_each Store.number (map Store.VNum qs) s = (Ok qs, s).
Proof.
  induction qs as [|q qs IH]; [reflexivity|]. cbn [map Store.map_each].
  rewrite (bind_ok _ _ _ _ _ (number_run _ _)).
  rewrite (bind_ok _ _ _ _ _ IH). reflexivity.
Qed.

Lemma sum_run (s : Store.store) (r : Store.ref) (qs : list Q) :
  nth_error s r = Some (Store.OList (map Store.VNum qs)) ->
  Store.sum (Store.VRef r) s = (Ok (Store.VNum (pysum qs)), s).
Proof.
  intros H. unfold Store.sum.
  rewrite (bind_ok _ _ _ _ _ (items_of_run _ _ _ H)).
  rewrite (bind_ok _ _ _ _ _ (map_each_number _ _)). reflexivity.
Qed.

Lemma max_run (s : Store.store) (r : Store.ref) (q : Q) (qs : list Q) :
  nth_error s r = Some (Store.OList (map Store.VNum (q :: qs))) ->
  Store.max (Store.VRef r) s = (Ok (Store.VNum (pymax_list q qs)), s).
Proof.
  intros H. unfold Store.max.
  rewrite (bind_ok _ _ _ _ _ (items_of_run _ _ _ H)).
  rewrite (bind_ok _ _ _ _ _ (map_each_number _ _)). reflexivity.
Qed.

Lemma index_each (s : Store.store) (cv : Store.ref) (items : list Store.value) :
  forall pre vs,
    nth_error s cv = Some (Store.OList (pre ++ vs)) ->
    List.length items = List.length vs ->
    Store.map_each (fun ic : nat * Store.value => Store.index (Store.VRef cv) (fst ic))
                   (combine (seq (List.length pre) (List.length items)) items) s
    = (Ok vs, s).
Proof.
  induction items as [|x items IH]; intros pre [|v vs] H Hl; simpl in Hl; try discriminate.
  - reflexivity.
  - cbn [List.length seq combine Store.map_each fst].
    assert (Hv : nth_error (pre ++ v :: vs) (List.length pre) = Some v)
      by (rewrite nth_error_app2, Nat.sub_diag by apply Nat.le_refl; reflexivity).
    rewrite (bind_ok _ _ _ _ _ (index_run _ _ _ _ _ H Hv)).
    assert (Hvs : Store.map_each
                    (fun ic : nat * Store.value => Store.index (Store.VRef cv) (fst ic))
                    (combine (seq (S (List.length pre)) (List.length items)) items) s
                  = (Ok vs, s)).
    { replace (S (List.length pre)) with (List.length (pre ++ [v]))
        by (rewrite length_app; simpl; lia).
      apply IH; [|lia]. rewrite <- app_assoc. exact H. }
    rewrite (bind_ok _ _ _ _ _ Hvs). reflexivity.
Qed.

Lemma select_positive (s : Store.store) (qs : list Q) :
  Store.select (fun v => Store.bind (Store.number v)
                           (fun q => Store.ret (Qlt_bool 0 q)))
               (map Store.VNum qs) s
  = (Ok (map Store.VNum (filter (Qlt_bool 0) qs)), s).
Proof.
  induction qs as [|q qs IH]; [reflexivity|]. cbn [map Store.select filter].
  rewrite (bind_ok _ _ _ _ (Qlt_bool 0 q) (eq_refl _)).
  rewrite (bind_ok _ _ _ _ _ IH).
  destruct (Qlt_bool 0 q); reflexivity.
Qed.

Lemma positive_values_run (s : Store.store) (cv : Store.ref)
    (items : list Store.value) (qs : list Q) :
  nth_error s cv = Some (Store.OList (map Store.VNum qs)) ->
  List.length items = List.length qs ->
  Store.positive_values items (Store.VRef cv) s
  = (Ok (map Store.VNum (filter (Qlt_bool 0) qs)), s).
Proof.
  intros H Hl. unfold Store.positive_values, Store.enumerate.
  assert (Hl' : List.length items = List.length (map Store.VNum qs))
    by (rewrite length_map; exact Hl).
  rewrite (bind_ok _ _ _ _ _ (index_each s cv items [] (map Store.VNum qs) H Hl')).
  apply select_positive.
Qed.

Lemma critical_values_of_filter (sps : list span) (qs : list Q) :
  List.length sps = List.length qs ->
  critical_values_of sps qs = filter (Qlt_bool 0) qs.
Proof.
  unfold critical_values_of. revert qs.
  induction sps as [|sp sps IH]; intros [|q qs] Hl; simpl in Hl; try discriminate.
  - reflexivity.
  - simpl. destruct (Qlt_bool 0 q); simpl; rewrite IH by lia; reflexivity.
Qed.

Lemma Forall2_enumerate {A B C D : Type} (P : A -> B -> Prop) (h : C -> D)
    (items : list A) (sps : list B) :
  Forall2 P items sps ->
  forall (pre : list D) (qs : list C),
    List.length qs = List.length sps ->
    Forall2 (fun ic y => P (snd ic) (fst y) /\
                         nth_error (pre ++ map h qs) (fst ic) = Some (h (snd y)))
            (combine (seq (List.length pre) (List.length items)) items)
            (combine sps qs).
Proof.
  induction 1 as [|x sp items sps Hx HF IH]; intros pre [|q qs] Hl; simpl in Hl;
    try discriminate.
  - constructor.
  - cbn [List.length seq combine map]. constructor.
    + split; [exact Hx|]. cbn [fst snd].
      rewrite nth_error_app2, Nat.sub_diag by apply Nat.le_refl. reflexivity.
    + replace (S (List.length pre)) with (List.length (pre ++ [h q]))
        by (rewrite length_app; simpl; lia).
      replace (pre ++ h q :: map h qs) with ((pre ++ [h q]) ++ map h qs)
        by (rewrite <- app_assoc; reflexivity).
      apply IH. lia.
Qed.

(** The loop that appends the value of each child. *)
Lemma values_loop (fuel : nat) (lookup_v : Store.value) (d : dict span)
    (ps : list string) (s : Store.store) (t : Store.ref) (items : list Store.value)
    (sps : list span) :
  (forall st x sp,
      Store.holds_span st x sp -> Store.holds_lookup st lookup_v d ->
      exists st',
        Store._aggregate_span_recursive fuel x lookup_v ps st
        = (res_map Store.VNum (_aggregate_span_recursive fuel d ps sp), st') /\
        Store.preserved st st') ->
  nth_error s t = Some (Store.OList []) ->
  Forall2 (Store.holds_span s) items sps ->
  Store.holds_lookup s lookup_v d ->
  exists s',
    Store.for_each items
      (fun child => Store.bind (Store._aggregate_span_recursive fuel child lookup_v ps)
                      (fun child_value => Store.append (Store.VRef t) child_value)) s
    = (unit_of (mapM (_aggregate_span_recursive fuel d ps) sps), s') /\
    Store.preserved_but t s s' /\
    forall qs, mapM (_aggregate_span_recursive fuel d ps) sps = Ok qs ->
               nth_error s' t = Some (Store.OList (map Store.VNum qs)).
Proof.
  intros Hagg Ht HF Hl.
  destruct (for_each_inv (Store.holds_span s)
              (fun child => Store.bind
                              (Store._aggregate_span_recursive fuel child lookup_v ps)
                              (fun child_value => Store.append (Store.VRef t) child_value))
              (_aggregate_span_recursive fuel d ps)
              (fun qs st => Store.preserved_but t s st /\
                            nth_error st t = Some (Store.OList (map Store.VNum qs)))
              (fun st => Store.preserved_but t s st))
    with (xs := items) (ys := sps) (zs := @nil Q) (s := s) as (s' & Hrun & Hpost).
  - intros x sp qs st Hx [Hp Hr].
    destruct (Hagg st x sp) as (st' & Hrun & Hp').
    { exact (holds_span_preserved_but _ _ _ _ _ _ Ht Hp Hx). }
    { exact (holds_lookup_preserved_but _ _ _ _ _ _ Ht Hp Hl). }
    destruct (_aggregate_span_recursive fuel d ps sp) as [q| |];
      cbn [res_map unit_of] in Hrun |- *.
    + rewrite (bind_ok _ _ _ _ _ Hrun). cbv beta.
      rewrite (append_run _ _ _ _ (Hp' _ _ Hr)).
      eexists. split; [reflexivity|]. split.
      * eapply preserved_but_trans; [exact Hp|].
        eapply preserved_but_trans;
          [apply preserved_preserved_but, Hp'|apply preserved_but_replace].
      * rewrite map_app. eapply nth_error_replace_same, Hp', Hr.
    + rewrite (bind_raise _ _ _ _ _ Hrun). eexists. split; [reflexivity|].
      eapply preserved_but_trans; [exact Hp|apply preserved_preserved_but, Hp'].
    + rewrite (bind_out_of_fuel _ _ _ _ Hrun). eexists. split; [reflexivity|].
      eapply preserved_but_trans; [exact Hp|apply preserved_preserved_but, Hp'].
  - exact HF.
  - split; [apply preserved_but_refl|exact Ht].
  - exists s'. split; [exact Hrun|].
    destruct (mapM (_aggregate_span_recursive fuel d ps) sps) as [qs| |].
    + split; [apply Hpost|]. intros qs' E. injection E as <-. apply Hpost.
    + split; [exact Hpost|]. intros qs' E. discriminate.
    + split; [exact Hpost|]. intros qs' E. discriminate.
Qed.

(** The loop that appends the children with a positive value. *)
Lemma critical_children_loop (s : Store.store) (cc cv : Store.ref)
    (items : list Store.value) (sps : list span) (qs : list Q) :
  nth_error s cc = Some (Store.OList []) ->
  nth_error s cv = Some (Store.OList (map Store.VNum qs)) ->
  cv <> cc ->
  Forall2 (Store.holds_span s) items sps ->
  List.length qs = List.length sps ->
  exists s' content,
    Store.for_each (Store.enumerate items)
      (fun ic => Store.bind (Store.index (Store.VRef cv) (fst ic))
         (fun v => Store.bind (Store.number v)
            (fun q => if Qlt_bool 0 q then Store.append (Store.VRef cc) (snd ic)
                      else Store.ret tt))) s
    = (Ok tt, s') /\
    Store.preserved_but cc s s' /\
    nth_error s' cc = Some (Store.OList content) /\
    Forall2 (Store.holds_span s') content (critical_children_of sps qs).
Proof.
  intros Hcc Hcv Hne HF Hl.
  destruct (for_each_inv
              (fun (ic : nat * Store.value) (y : span * Q) =>
                 Store.holds_span s (snd ic) (fst y) /\
                 nth_error ([] ++ map Store.VNum qs) (fst ic) = Some (Store.VNum (snd y)))
              (fun ic => Store.bind (Store.index (Store.VRef cv) (fst ic))
                 (fun v => Store.bind (Store.number v)
                    (fun q => if Qlt_bool 0 q then Store.append (Store.VRef cc) (snd ic)
                              else Store.ret tt)))
              (fun y => Ok y)
              (fun zs st =>
                 Store.preserved_but cc s st /\
                 exists content,
                   nth_error st cc = Some (Store.OList content) /\
                   Forall2 (Store.holds_span s) content
                           (map fst (filter (fun z => Qlt_bool 0 (snd z)) zs)))
              (fun _ => False))
    with (xs := Store.enumerate items) (ys := combine sps qs)
         (zs := @nil (span * Q)) (s := s) as (s' & Hrun & Hpost).
  - intros [i child] [sp q] zs st [Hx Hi] [Hp (content & Hr & Hc)].
    cbn [fst snd] in *.
    rewrite (bind_ok _ _ _ _ _ (index_run _ _ _ _ _ (Hp _ _ Hne Hcv) Hi)).
    rewrite (bind_ok _ _ _ _ _ (number_run _ _)).
    rewrite filter_app, map_app. cbn [filter snd].
    destruct (Qlt_bool 0 q).
    + rewrite (append_run _ _ _ _ Hr). eexists. split; [reflexivity|]. split.
      * eapply preserved_but_trans; [exact Hp|apply preserved_but_replace].
      * exists (content ++ [child]). split.
        -- eapply nth_error_replace_same, Hr.
        -- apply Forall2_app; [exact Hc|]. constructor; [exact Hx|constructor].
    + exists st. split; [reflexivity|]. split; [exact Hp|].
      exists content. split; [exact Hr|]. simpl. rewrite app_nil_r. exact Hc.
  - apply (Forall2_enumerate (Store.holds_span s) Store.VNum items sps HF [] qs Hl).
  - split; [apply preserved_but_refl|]. exists []. split; [exact Hcc|constructor].
  - rewrite mapM_Ok_id in Hrun, Hpost.
    destruct Hpost as [Hp (content & Hr & Hc)].
    exists s', content. split; [exact Hrun|]. split; [exact Hp|]. split; [exact Hr|].
    eapply Forall2_impl; [|exact Hc].
    intros a b Hab. exact (holds_span_preserved_but _ _ _ _ _ _ Hcc Hp Hab).
Qed.

(** ** The recursive aggregation over the store *)

Lemma fresh_of_preserved (s s' : Store.store) :
  Store.preserved s s' -> nth_error s (List.length s') = None.
Proof.
  intros H. destruct (nth_error s (List.length s')) as [o|] eqn:E; [|reflexivity].
  apply H in E. rewrite nth_error_fresh in E. discriminate.
Qed.

Lemma neq_fresh (s : Store.store) (t : Store.ref) (o : Store.object) :
  nth_error s t = Some o -> t <> List.length s.
Proof. intros H ->. rewrite nth_error_fresh in H. discriminate. Qed.

Lemma own_value_run (s : Store.store) (v : Store.value) (sp : span) (ps : list string) :
  Store.holds_span s v sp ->
  (if existsb (fun pattern => startswith (lower (get_or (name sp) EmptyString)) pattern) ps
   then Store.bind (Store.get v "duration" (Store.VNum 0))
          (fun d => Store.bind (Store.number d)
                      (fun dq => Store.ret (Store.VNum (dq / 1000))))
   else Store.ret (Store.VNum 0)) s
  = (Ok (Store.VNum (own_value ps sp)), s).
Proof.
  intros H. unfold own_value, name_matches.
  destruct (existsb _ ps); [|reflexivity].
  rewrite (bind_ok _ _ _ _ _ (span_duration_run _ _ _ H)). reflexivity.
Qed.

Lemma children_run (s : Store.store) (lookup_v : Store.value) (d : dict span)
    (i : string) :
  Store.holds_lookup s lookup_v d ->
  exists entries zs,
    Store.entries_of lookup_v s = (Ok entries, s) /\
    Store.select (fun x => Store.bind (Store.get x "parentId" Store.VNone)
                             (fun p => Store.ret (Store.equal p (Store.VStr i))))
                 (dict_values entries) s = (Ok zs, s) /\
    Forall2 (Store.holds_span s) zs (children_of d i).
Proof.
  intros (r & entries & -> & Hr & HF).
  exists entries.
  destruct (select_read (Store.holds_span s)
              (fun x => Store.bind (Store.get x "parentId" Store.VNone)
                          (fun p => Store.ret (Store.equal p (Store.VStr i))))
              (is_child_of i) s) with (xs := dict_values entries) (ys := dict_values d)
    as (zs & Hrun & Hzs).
  - intros x sp Hx. rewrite (bind_ok _ _ _ _ _ (span_parent_run _ _ _ Hx)).
    unfold is_child_of. destruct (parentId sp); reflexivity.
  - unfold dict_values. clear Hr.
    induction HF as [|e e' es es' [_ He] HF IH]; simpl; constructor; assumption.
  - exists zs. split; [apply entries_of_run, Hr|]. split; [exact Hrun|exact Hzs].
Qed.

Lemma aggregate_run (lookup_v : Store.value) (d : dict span) (ps : list string)
    (fuel : nat) :
  forall s v sp,
    Store.holds_span s v sp -> Store.holds_lookup s lookup_v d ->
    exists s',
      Store._aggregate_span_recursive fuel v lookup_v ps s
      = (res_map Store.VNum (_aggregate_span_recursive fuel d ps sp), s') /\
      Store.preserved s s'.
Proof.
  induction fuel as [|fuel IH]; intros s v sp Hv Hl.
  { exists s. split; [reflexivity|apply preserved_refl]. }
  cbn [Store._aggregate_span_recursive _aggregate_span_recursive].
  pose proof (span_id_run _ _ _ Hv) as Hid.
  destruct (span_id_of sp) as [i|e|]; cbn [res_map bind] in Hid |- *.
  2: { rewrite (bind_raise _ _ _ _ _ Hid). exists s.
       split; [reflexivity|apply preserved_refl]. }
  2: { rewrite (bind_out_of_fuel _ _ _ _ Hid). exists s.
       split; [reflexivity|apply preserved_refl]. }
  rewrite (bind_ok _ _ _ _ _ Hid). cbv beta.
  rewrite (bind_ok _ _ _ _ _ (span_name_run _ _ _ Hv)). cbv beta.
  rewrite (bind_ok _ _ _ _ (get_or (name sp) EmptyString) (eq_refl _)). cbv beta zeta.
  destruct (children_run s lookup_v d i Hl) as (entries & zs & Hent & Hsel & Hzs).
  rewrite (bind_ok _ _ _ _ _ Hent). cbv beta.
  rewrite (bind_ok _ _ _ _ _ Hsel). cbv beta.
  (* children and child_values *)
  rewrite (bind_ok _ _ _ _ _ (new_list_run _ _)). cbv beta.
  set (ch := List.length s).
  set (s1 := s ++ [Store.OList zs]).
  assert (P1 : Store.preserved s s1) by apply preserved_alloc.
  assert (Hch1 : nth_error s1 ch = Some (Store.OList zs)) by apply nth_error_new.
  rewrite (bind_ok _ _ _ _ _ (new_list_run _ _)). cbv beta.
  set (cv := List.length s1).
  set (s2 := s1 ++ [Store.OList []]).
  assert (P2 : Store.preserved s s2)
    by (eapply preserved_trans; [exact P1|apply preserved_alloc]).
  assert (Hch2 : nth_error s2 ch = Some (Store.OList zs)) by apply nth_error_old, Hch1.
  assert (Hcv2 : nth_error s2 cv = Some (Store.OList [])) by apply nth_error_new.
  assert (Nch : ch <> cv) by exact (neq_fresh _ _ _ Hch1).
  assert (Fcv : nth_error s cv = None) by exact (fresh_of_preserved _ _ P1).
  rewrite (bind_ok _ _ _ _ _ (items_of_run _ _ _ Hch2)). cbv beta.
  destruct (values_loop fuel lookup_v d ps s2 cv zs (children_of d i) IH Hcv2
              (holds_spans_preserved _ _ _ _ P2 Hzs)
              (holds_lookup_preserved _ _ _ _ P2 Hl)) as (s3 & Hloop & B3 & Hcv3).
  destruct (mapM (_aggregate_span_recursive fuel d ps) (children_of d i)) as [qs|e|] eqn:Eqs;
    cbn [unit_of bind res_map] in Hloop |- *.
  2: { rewrite (bind_raise _ _ _ _ _ Hloop). exists s3. split; [reflexivity|].
       exact (preserved_but_fresh _ _ _ _ Fcv P2 B3). }
  2: { rewrite (bind_out_of_fuel _ _ _ _ Hloop). exists s3. split; [reflexivity|].
       exact (preserved_but_fresh _ _ _ _ Fcv P2 B3). }
  rewrite (bind_ok _ _ _ _ _ Hloop). cbv beta.
  specialize (Hcv3 qs eq_refl).
  assert (P3 : Store.preserved s s3) by exact (preserved_but_fresh _ _ _ _ Fcv P2 B3).
  assert (Hch3 : nth_error s3 ch = Some (Store.OList zs)) by exact (B3 _ _ Nch Hch2).
  assert (Hlen : List.length qs = List.length (children_of d i)).
  { apply mapM_Forall2 in Eqs. symmetry. exact (Forall2_length Eqs). }
  (* span_value and all_values *)
  rewrite (bind_ok _ _ _ _ _ (own_value_run _ _ _ ps (holds_span_preserved _ _ _ _ P3 Hv))).
  cbv beta.
  set (own := own_value ps sp).
  rewrite (bind_ok _ _ _ _ _ (new_list_run _ _)). cbv beta.
  set (s3' := s3 ++ [Store.OList [Store.VNum own]]).
  assert (Hsi : nth_error s3' (List.length s3) = Some (Store.OList [Store.VNum own]))
    by apply nth_error_new.
  assert (P3' : Store.preserved s3 s3') by apply preserved_alloc.
  rewrite (bind_ok _ _ _ _ _ (items_of_run _ _ _ Hsi)). cbv beta.
  rewrite (bind_ok _ _ _ _ _ (items_of_run _ _ _ (P3' _ _ Hcv3))). cbv beta.
  rewrite (bind_ok _ _ _ _ _ (new_list_run _ _)). cbv beta.
  set (av := List.length s3').
  set (s4 := s3' ++ [Store.OList ([Store.VNum own] ++ map Store.VNum qs)]).
  assert (P4 : Store.preserved s s4).
  { eapply preserved_trans; [exact P3|].
    eapply preserved_trans; [exact P3'|apply preserved_alloc]. }
  assert (Hav4 : nth_error s4 av = Some (Store.OList (map Store.VNum (own :: qs))))
    by apply nth_error_new.
  assert (Hch4 : nth_error s4 ch = Some (Store.OList zs))
    by apply nth_error_old, P3', Hch3.
  assert (Hcv4 : nth_error s4 cv = Some (Store.OList (map Store.VNum qs)))
    by apply nth_error_old, P3', Hcv3.
  rewrite (bind_ok _ _ _ _ _ (items_of_run _ _ _ Hav4)). cbv beta.
  unfold combine_values. cbv zeta. fold own.
  rewrite length_map.
  destruct (List.length (own :: qs) =? 1)%nat.
  { exists s4. split; [|exact P4].
    exact (index_run _ _ _ 0 (Store.VNum own) Hav4 eq_refl). }
  (* critical_children *)
  rewrite (bind_ok _ _ _ _ _ (new_list_run _ _)). cbv beta.
  set (cc := List.length s4).
  set (s5 := s4 ++ [Store.OList []]).
  assert (P5 : Store.preserved s s5)
    by (eapply preserved_trans; [exact P4|apply preserved_alloc]).
  assert (Hcc5 : nth_error s5 cc = Some (Store.OList [])) by apply nth_error_new.
  assert (Hav5 : nth_error s5 av = Some (Store.OList (map Store.VNum (own :: qs))))
    by apply nth_error_old, Hav4.
  assert (Hch5 : nth_error s5 ch = Some (Store.OList zs)) by apply nth_error_old, Hch4.
  assert (Hcv5 : nth_error s5 cv = Some (Store.OList (map Store.VNum qs)))
    by apply nth_error_old, Hcv4.
  assert (Ncv : cv <> cc) by exact (neq_fresh _ _ _ Hcv4).
  assert (Nch' : ch <> cc) by exact (neq_fresh _ _ _ Hch4).
  assert (Nav : av <> cc) by exact (neq_fresh _ _ _ Hav4).
  assert (Fcc : nth_error s cc = None) by exact (fresh_of_preserved _ _ P4).
  rewrite (bind_ok _ _ _ _ _ (items_of_run _ _ _ Hch5)). cbv beta.
  destruct (critical_children_loop s5 cc cv zs (children_of d i) qs Hcc5 Hcv5 Ncv
              (holds_spans_preserved _ _ _ _ P5 Hzs) Hlen)
    as (s6 & content & Hloop6 & B6 & Hcc6 & Hcont6).
  rewrite (bind_ok _ _ _ _ _ Hloop6). cbv beta.
  assert (P6 : Store.preserved s s6) by exact (preserved_but_fresh _ _ _ _ Fcc P5 B6).
  assert (Hav6 : nth_error s6 av = Some (Store.OList (map Store.VNum (own :: qs))))
    by exact (B6 _ _ Nav Hav5).
  assert (Hch6 : nth_error s6 ch = Some (Store.OList zs)) by exact (B6 _ _ Nch' Hch5).
  assert (Hcv6 : nth_error s6 cv = Some (Store.OList (map Store.VNum qs)))
    by exact (B6 _ _ Ncv Hcv5).
  rewrite (bind_ok _ _ _ _ _ (items_of_run _ _ _ Hcc6)). cbv beta.
  rewrite (Forall2_length Hcont6).
  destruct (List.length (critical_children_of (children_of d i) qs) <=? 1)%nat.
  { exists s6. split; [|exact P6]. exact (sum_run _ _ _ Hav6). }
  (* child_span_dicts *)
  rewrite (bind_ok _ _ _ _ _ (new_list_run _ _)). cbv beta.
  set (sd := List.length s6).
  set (s7 := s6 ++ [Store.OList []]).
  assert (P7 : Store.preserved s s7)
    by (eapply preserved_trans; [exact P6|apply preserved_alloc]).
  assert (Hsd7 : nth_error s7 sd = Some (Store.OList [])) by apply nth_error_new.
  assert (Hch7 : nth_error s7 ch = Some (Store.OList zs)) by apply nth_error_old, Hch6.
  assert (Hcv7 : nth_error s7 cv = Some (Store.OList (map Store.VNum qs)))
    by apply nth_error_old, Hcv6.
  assert (Fsd : nth_error s sd = None) by exact (fresh_of_preserved _ _ P6).
  destruct (span_dicts_loop s7 sd content (critical_children_of (children_of d i) qs)
              Hsd7 (holds_spans_preserved _ _ _ _ (preserved_alloc _ _) Hcont6))
    as (s8 & Hloop8 & B8 & Hdicts).
  rewrite (bind_ok _ _ _ _ _ Hloop8). cbv beta.
  assert (P8 : Store.preserved s s8) by exact (preserved_but_fresh _ _ _ _ Fsd P7 B8).
  assert (Hch8 : nth_error s8 ch = Some (Store.OList zs))
    by exact (B8 _ _ (neq_fresh _ _ _ Hch6) Hch7).
  assert (Hcv8 : nth_error s8 cv = Some (Store.OList (map Store.VNum qs)))
    by exact (B8 _ _ (neq_fresh _ _ _ Hcv6) Hcv7).
  destruct (check_concurrency_run _ _ _ Hdicts) as (s9 & Hcheck & P89).
  rewrite (bind_ok _ _ _ _ _ Hcheck). cbv beta.
  assert (P9 : Store.preserved s s9) by (eapply preserved_trans; eassumption).
  assert (Hlz : List.length zs = List.length qs)
    by (rewrite (Forall2_length Hzs); symmetry; exact Hlen).
  rewrite (critical_values_of_filter _ _ (eq_sym Hlen)).
  exists (s9 ++ [Store.OList (map Store.VNum (filter (Qlt_bool 0) qs))]).
  split; [|eapply preserved_trans; [exact P9|apply preserved_alloc]].
  destruct (_check_concurrency
              (map span_dict_of (critical_children_of (children_of d i) qs))).
  - rewrite (bind_ok _ _ _ (s9 ++ [Store.OList (map Store.VNum (filter (Qlt_bool 0) qs))])
               (Store.VNum match filter (Qlt_bool 0) qs with
                           | [] => 0
                           | q :: l => pymax_list q l
                           end)); [reflexivity|].
    rewrite (bind_ok _ _ _ _ _ (items_of_run _ _ _ (P89 _ _ Hch8))). cbv beta.
    rewrite (bind_ok _ _ _ _ _ (positive_values_run _ _ _ _ (P89 _ _ Hcv8) Hlz)).
    cbv beta.
    rewrite (bind_ok _ _ _ _ _ (new_list_run _ _)). cbv beta.
    rewrite (bind_ok _ _ _ _ _ (items_of_run _ _ _ (nth_error_new _ _))). cbv beta.
    destruct (filter (Qlt_bool 0) qs) as [|q l] eqn:Ef; [reflexivity|].
    cbn [map].
    exact (max_run (s9 ++ [Store.OList (Store.VNum q :: map Store.VNum l)])
             (List.length s9) q l (nth_error_new _ _)).
  - rewrite (bind_ok _ _ _ (s9 ++ [Store.OList (map Store.VNum (filter (Qlt_bool 0) qs))])
               (Store.VNum (pysum (filter (Qlt_bool 0) qs)))); [reflexivity|].
    rewrite (bind_ok _ _ _ _ _ (items_of_run _ _ _ (P89 _ _ Hch8))). cbv beta.
    rewrite (bind_ok _ _ _ _ _ (positive_values_run _ _ _ _ (P89 _ _ Hcv8) Hlz)).
    cbv beta.
    rewrite (bind_ok _ _ _ _ _ (new_list_run _ _)). cbv beta.
    exact (sum_run _ _ _ (nth_error_new _ _)).
Qed.

(** ** The root level over the store *)

Lemma dict_set_Forall2 {V W : Type} (R : V -> W -> Prop) (k : string) (v : V) (w : W)
    (es : dict V) (ds : dict W) :
  R v w ->
  Forall2 (fun e e' => fst e = fst e' /\ R (snd e) (snd e')) es ds ->
  Forall2 (fun e e' => fst e = fst e' /\ R (snd e) (snd e'))
          (dict_set k v es) (dict_set k w ds).
Proof.
  intros Hvw HF. induction HF as [|[k1 v1] [k2 w1] es ds [Hk Hv] HF IH]; simpl.
  - constructor; [split; [reflexivity|exact Hvw]|constructor].
  - simpl in Hk, Hv. subst k2. destruct (String.eqb k k1).
    + constructor; [split; [reflexivity|exact Hvw]|exact HF].
    + constructor; [split; [reflexivity|exact Hv]|exact IH].
Qed.

Lemma lookup_entries_run (s : Store.store) (items : list Store.value) (tr : trace) :
  Forall2 (Store.holds_span s) items tr ->
  forall acc accd,
    Forall2 (fun e e' => fst e = fst e' /\ Store.holds_span s (snd e) (snd e')) acc accd ->
    match build_span_lookup tr accd with
    | Ok d =>
        exists entries,
          Store.lookup_entries items acc s = (Ok entries, s) /\
          Forall2 (fun e e' => fst e = fst e' /\ Store.holds_span s (snd e) (snd e'))
                  entries d
    | Raise e => Store.lookup_entries items acc s = (Raise e, s)
    | OutOfFuel => Store.lookup_entries items acc s = (OutOfFuel, s)
    end.
Proof.
  induction 1 as [|x sp items tr Hx HF IH]; intros acc accd Hacc.
  - simpl. exists acc. split; [reflexivity|exact Hacc].
  - cbn [build_span_lookup Store.lookup_entries].
    pose proof (span_id_run _ _ _ Hx) as Hid.
    destruct (span_id_of sp) as [i|e|]; cbn [res_map bind] in Hid |- *.
    + rewrite (bind_ok _ _ _ _ _ Hid). cbv beta.
      rewrite (bind_ok _ _ _ _ i (eq_refl _)). cbv beta.
      apply IH. apply dict_set_Forall2; assumption.
    + apply bind_raise, Hid.
    + apply bind_out_of_fuel, Hid.
Qed.

Lemma roots_select_run (s : Store.store) (items : list Store.value) (tr : trace) :
  Forall2 (Store.holds_span s) items tr ->
  exists zs,
    Store.select (fun span => Store.bind (Store.get span "parentId" Store.VNone)
                                (fun p => Store.ret (Store.is_none p))) items s
    = (Ok zs, s) /\
    Forall2 (Store.holds_span s) zs (filter is_root tr).
Proof.
  intros HF.
  apply (select_read (Store.holds_span s)
           (fun span => Store.bind (Store.get span "parentId" Store.VNone)
                          (fun p => Store.ret (Store.is_none p)))
           is_root s); [|exact HF].
  intros x sp Hx. rewrite (bind_ok _ _ _ _ _ (span_parent_run _ _ _ Hx)).
  unfold is_root. destruct (parentId sp); reflexivity.
Qed.

Lemma calculate_final_run (fuel : nat) (ps : list string) (s : Store.store)
    (v : Store.value) (tr : trace) :
  Store.holds_trace s v tr ->
  exists s',
    Store._calculate_final_critical_io_recursive fuel v ps s
    = (res_map Store.VNum (_calculate_final_critical_io_recursive fuel tr ps), s') /\
    Store.preserved s s'.
Proof.
  intros (r & items & -> & Hr & HF).
  unfold Store._calculate_final_critical_io_recursive,
    _calculate_final_critical_io_recursive.
  rewrite (bind_ok _ _ _ _ _ (items_of_run _ _ _ Hr)). cbv beta.
  pose proof (lookup_entries_run s items tr HF [] [] (Forall2_nil _)) as Hlk.
  destruct (build_span_lookup tr []) as [d|e|]; cbn [bind res_map].
  2: { rewrite (bind_raise _ _ _ _ _ Hlk). exists s.
       split; [reflexivity|apply preserved_refl]. }
  2: { rewrite (bind_out_of_fuel _ _ _ _ Hlk). exists s.
       split; [reflexivity|apply preserved_refl]. }
  destruct Hlk as (entries & Hlk & Hent).
  rewrite (bind_ok _ _ _ _ _ Hlk). cbv beta.
  rewrite (bind_ok _ _ _ _ _ (new_dict_run _ _)). cbv beta.
  set (lk := List.length s).
  set (s1 := s ++ [Store.ODict entries]).
  assert (P1 : Store.preserved s s1) by apply preserved_alloc.
  assert (Hl1 : Store.holds_lookup s1 (Store.VRef lk) d).
  { exists lk, entries. split; [reflexivity|]. split; [apply nth_error_new|].
    eapply Forall2_impl; [|exact Hent].
    intros a b [Hk Hab]. split; [exact Hk|].
    eapply holds_span_preserved; eassumption. }
  destruct (roots_select_run s1 items tr (holds_spans_preserved _ _ _ _ P1 HF))
    as (zs & Hsel & Hzs).
  rewrite (bind_ok _ _ _ _ _ Hsel). cbv beta.
  rewrite (bind_ok _ _ _ _ _ (new_list_run _ _)). cbv beta.
  set (rs := List.length s1).
  set (s2 := s1 ++ [Store.OList zs]).
  assert (P2 : Store.preserved s1 s2) by apply preserved_alloc.
  assert (Hrs2 : nth_error s2 rs = Some (Store.OList zs)) by apply nth_error_new.
  rewrite (bind_ok _ _ _ _ _ (items_of_run _ _ _ Hrs2)). cbv beta.
  destruct Hzs as [|z root zs roots Hz Hzs].
  { exists s2. split; [reflexivity|]. eapply preserved_trans; eassumption. }
  set (allz := z :: zs) in *. set (allroots := root :: roots) in *.
  assert (Hall : Forall2 (Store.holds_span s1) allz allroots)
    by (constructor; assumption).
  change (match allz with [] => Store.ret (Store.VNum 0) | _ :: _ => ?k end)
    with k.
  assert (P02 : Store.preserved s s2) by (eapply preserved_trans; eassumption).
  rewrite (bind_ok _ _ _ _ _ (new_list_run _ _)). cbv beta.
  set (rv := List.length s2).
  set (s3 := s2 ++ [Store.OList []]).
  assert (P3 : Store.preserved s2 s3) by apply preserved_alloc.
  assert (P03 : Store.preserved s s3) by (eapply preserved_trans; eassumption).
  assert (P13 : Store.preserved s1 s3) by (eapply preserved_trans; eassumption).
  assert (Hrv3 : nth_error s3 rv = Some (Store.OList [])) by apply nth_error_new.
  assert (Frv : nth_error s rv = None) by exact (fresh_of_preserved _ _ P02).
  destruct (values_loop fuel (Store.VRef lk) d ps s3 rv allz allroots
              (aggregate_run (Store.VRef lk) d ps fuel) Hrv3
              (holds_spans_preserved _ _ _ _ P13 Hall)
              (holds_lookup_preserved _ _ _ _ P13 Hl1)) as (s4 & Hloop & B4 & Hrv4).
  destruct (mapM (_aggregate_span_recursive fuel d ps) allroots) as [qs|e|] eqn:Eqs;
    cbn [unit_of bind res_map] in Hloop |- *.
  2: { rewrite (bind_raise _ _ _ _ _ Hloop). exists s4. split; [reflexivity|].
       exact (preserved_but_fresh _ _ _ _ Frv P03 B4). }
  2: { rewrite (bind_out_of_fuel _ _ _ _ Hloop). exists s4. split; [reflexivity|].
       exact (preserved_but_fresh _ _ _ _ Frv P03 B4). }
  rewrite (bind_ok _ _ _ _ _ Hloop). cbv beta.
  specialize (Hrv4 qs eq_refl).
  assert (P04 : Store.preserved s s4) by exact (preserved_but_fresh _ _ _ _ Frv P03 B4).
  assert (Hlen : List.length qs = List.length allroots).
  { apply mapM_Forall2 in Eqs. symmetry. exact (Forall2_length Eqs). }
  rewrite (bind_ok _ _ _ _ _ (items_of_run _ _ _ Hrv4)). cbv beta.
  rewrite length_map.
  destruct qs as [|q [|q' qs]]; [discriminate Hlen| |].
  { exists s4. split; [|exact P04].
    exact (index_run _ _ _ 0 (Store.VNum q) Hrv4 eq_refl). }
  cbn [List.length Nat.eqb].
  rewrite (bind_ok _ _ _ _ _ (new_list_run _ _)). cbv beta.
  set (sd := List.length s4).
  set (s5 := s4 ++ [Store.OList []]).
  assert (P05 : Store.preserved s s5)
    by (eapply preserved_trans; [exact P04|apply preserved_alloc]).
  assert (Hsd5 : nth_error s5 sd = Some (Store.OList [])) by apply nth_error_new.
  assert (Fsd : nth_error s sd = None) by exact (fresh_of_preserved _ _ P04).
  assert (Hall5 : Forall2 (Store.holds_span s5) allz allroots).
  { eapply Forall2_impl; [|exact (holds_spans_preserved _ _ _ _ P13 Hall)].
    intros a b Hab.
    eapply holds_span_preserved; [apply preserved_alloc|].
    exact (holds_span_preserved_but _ _ _ _ _ _ Hrv3 B4 Hab). }
  destruct (span_dicts_loop s5 sd allz allroots Hsd5 Hall5) as (s6 & Hloop6 & B6 & Hdicts).
  rewrite (bind_ok _ _ _ _ _ Hloop6). cbv beta.
  assert (P06 : Store.preserved s s6) by exact (preserved_but_fresh _ _ _ _ Fsd P05 B6).
  assert (Hrv6 : nth_error s6 rv
                 = Some (Store.OList (map Store.VNum (q :: q' :: qs))))
    by exact (B6 _ _ (neq_fresh _ _ _ Hrv4) (nth_error_old _ _ _ _ Hrv4)).
  destruct (check_concurrency_run _ _ _ Hdicts) as (s7 & Hcheck & P67).
  rewrite (bind_ok _ _ _ _ _ Hcheck). cbv beta.
  exists s7. split; [|eapply preserved_trans; eassumption].
  destruct (_check_concurrency (map span_dict_of allroots)).
  - exact (max_run _ _ _ _ (P67 _ _ Hrv6)).
  - exact (sum_run _ _ _ (P67 _ _ Hrv6)).
Qed.

(** ** The aggregator over the store *)

Lemma append_new_dict (s : Store.store) (t : Store.ref) (content : list Store.value)
    (e : dict Store.value) :
  nth_error s t = Some (Store.OList content) ->
  exists s' r',
    Store.bind (Store.new_dict e) (fun entry => Store.append (Store.VRef t) entry) s
    = (Ok tt, s') /\
    Store.preserved_but t s s' /\
    nth_error s' t = Some (Store.OList (content ++ [Store.VRef r'])) /\
    nth_error s' r' = Some (Store.ODict e).
Proof.
  intros Ht.
  exists (Store.replace t (Store.OList (content ++ [Store.VRef (List.length s)]))
                        (s ++ [Store.ODict e])), (List.length s).
  split; [|split; [|split]].
  - rewrite (bind_ok _ _ _ _ _ (new_dict_run _ _)). cbv beta.
    apply append_run, nth_error_old, Ht.
  - eapply preserved_but_trans;
      [apply preserved_preserved_but, preserved_alloc|apply preserved_but_replace].
  - eapply nth_error_replace_same, nth_error_old, Ht.
  - rewrite nth_error_replace_other; [apply nth_error_new|].
    intros E. rewrite <- E, nth_error_fresh in Ht. discriminate.
Qed.

Lemma critical_io_of_trace_run (fuel : nat) (ps : list string) (pname : string)
    (s : Store.store) (t : Store.ref) (content : list Store.value)
    (v : Store.value) (tr : trace) :
  nth_error s t = Some (Store.OList content) ->
  Store.holds_trace s v tr ->
  exists s',
    Store.critical_io_of_trace fuel ps pname (Store.VRef t) v s
    = (unit_of (critical_io_of_trace fuel ps pname tr), s') /\
    Store.preserved_but t s s' /\
    forall r, critical_io_of_trace fuel ps pname tr = Ok r ->
              exists r', nth_error s' t = Some (Store.OList (content ++ [Store.VRef r'])) /\
                         nth_error s' r' = Some (Store.ODict (Store.result_entries r)).
Proof.
  intros Ht Hv. pose proof Hv as (rt & items & -> & Hr & HF).
  unfold Store.critical_io_of_trace, critical_io_of_trace.
  rewrite (bind_ok _ _ _ _ _ (items_of_run _ _ _ Hr)). cbv beta.
  destruct HF as [|x first items tr' Hx HF].
  { destruct (append_new_dict s t content
                [("trace_id", Store.VStr EmptyString); ("critical_io_ms", Store.VNum 0);
                 ("spans_count", Store.VNum 0);
                 ("execution_pattern", Store.VStr "no_trace")] Ht)
      as (s' & r' & Hrun & Hp & Ht' & Hr').
    exists s'. split; [exact Hrun|]. split; [exact Hp|].
    intros r E. injection E as <-. exists r'. split; [exact Ht'|exact Hr']. }
  assert (HF' : Forall2 (Store.holds_span s) (x :: items) (first :: tr'))
    by (constructor; assumption).
  set (allx := x :: items) in *. set (alltr := first :: tr') in *.
  change (match allx with [] => ?a | _ :: _ => ?k end) with k.
  destruct (select_read (Store.holds_span s) (Store.matches ps) (name_matches ps) s
              (fun a b H => matches_run s ps a b H) allx alltr HF')
    as (zs & Hsel & Hzs).
  rewrite (bind_ok _ _ _ _ _ Hsel). cbv beta.
  rewrite (bind_ok _ _ _ _ _ (new_list_run _ _)). cbv beta.
  set (s1 := s ++ [Store.OList zs]).
  assert (P1 : Store.preserved s s1) by apply preserved_alloc.
  assert (Hzs1 : nth_error s1 (List.length s) = Some (Store.OList zs))
    by apply nth_error_new.
  rewrite (bind_ok _ _ _ _ _ (items_of_run _ _ _ Hzs1)). cbv beta.
  assert (Ht1 : nth_error s1 t = Some (Store.OList content)) by apply P1, Ht.
  assert (Hr1 : nth_error s1 rt = Some (Store.OList allx)) by apply P1, Hr.
  assert (Hx1 : Store.holds_span s1 x first)
    by (eapply holds_span_preserved; eassumption).
  pose proof (Forall2_length Hzs) as Hlen.
  destruct (filter (name_matches ps) alltr) as [|c cs] eqn:Ef.
  - inversion Hzs; subst zs. cbv zeta.
    rewrite (bind_ok _ _ _ _ _ (index_run _ _ _ 0 x Hr1 eq_refl)). cbv beta.
    rewrite (bind_ok _ _ _ _ _ (span_trace_id_run _ _ _ Hx1)). cbv beta.
    destruct (append_new_dict s1 t content
                [("trace_id", Store.VStr (first_trace_id first));
                 ("critical_io_ms", Store.VNum 0); ("spans_count", Store.VNum 0);
                 ("execution_pattern",
                  Store.VStr (if (List.length ps =? 1)%nat
                              then ("no_" ++ pname ++ "_spans")%string
                              else "no_critical_spans"))] Ht1)
      as (s' & r' & Hrun & Hp & Ht' & Hr').
    exists s'. split; [exact Hrun|]. split.
    { eapply preserved_but_trans; [apply preserved_preserved_but, P1|exact Hp]. }
    intros r E. injection E as <-. exists r'. split; [exact Ht'|exact Hr'].
  - destruct zs as [|z zs]; [discriminate Hlen|].
    destruct (calculate_final_run fuel ps s1 (Store.VRef rt) alltr) as (s2 & Hrun2 & P2).
    { eapply holds_trace_preserved; eassumption. }
    destruct (_calculate_final_critical_io_recursive fuel alltr ps) as [q|e|];
      cbn [res_map bind unit_of] in Hrun2 |- *.
    2: { rewrite (bind_raise _ _ _ _ _ Hrun2). exists s2. split; [reflexivity|].
         split; [|intros r E; discriminate].
         apply preserved_preserved_but. eapply preserved_trans; eassumption. }
    2: { rewrite (bind_out_of_fuel _ _ _ _ Hrun2). exists s2. split; [reflexivity|].
         split; [|intros r E; discriminate].
         apply preserved_preserved_but. eapply preserved_trans; eassumption. }
    rewrite (bind_ok _ _ _ _ _ Hrun2). cbv beta.
    rewrite (bind_ok _ _ _ _ _ (index_run _ _ _ 0 x (P2 _ _ Hr1) eq_refl)). cbv beta.
    rewrite (bind_ok _ _ _ _ _
               (span_trace_id_run _ _ _ (holds_span_preserved _ _ _ _ P2 Hx1))).
    cbv beta.
    destruct (append_new_dict s2 t content
                [("trace_id", Store.VStr (first_trace_id first));
                 ("critical_io_ms", Store.VNum q);
                 ("spans_count",
                  Store.VNum (inject_Z (Z.of_nat (List.length (z :: zs)))));
                 ("execution_pattern", Store.VStr "recursive_hierarchical")]
                (P2 _ _ Ht1))
      as (s' & r' & Hrun & Hp & Ht' & Hr').
    exists s'. split; [exact Hrun|]. split.
    { eapply preserved_but_trans; [|exact Hp].
      apply preserved_preserved_but. eapply preserved_trans; eassumption. }
    intros r E. injection E as <-. exists r'. split; [exact Ht'|].
    rewrite Hr'. unfold Store.result_entries. cbn [trace_id critical_io_ms spans_count
                                                   execution_pattern].
    rewrite Hlen. reflexivity.
Qed.

Lemma get_critical_io_by_pattern_run (fuel : nat) (patterns : patterns_arg)
    (s : Store.store) (v : Store.value) (self : TraceParser) :
  Store.holds_parser s v self ->
  exists r s',
    Store._get_critical_io_by_pattern fuel patterns v s = (r, s') /\
    Store.preserved s s' /\
    Store.outcome s' r (fst (_get_critical_io_by_pattern fuel patterns self)).
Proof.
  intros (rp & attrs & rl & items & -> & Hrp & Ha & Hrl & HF).
  unfold Store._get_critical_io_by_pattern, _get_critical_io_by_pattern.
  cbv zeta. cbn [fst].
  set (pname := match patterns with PatStr s0 => s0 | PatList _ => "total" end).
  set (ps := normalize_patterns patterns).
  rewrite (bind_ok _ _ _ _ _ (new_list_run _ _)). cbv beta.
  set (t := List.length s).
  set (s1 := s ++ [Store.OList []]).
  assert (P1 : Store.preserved s s1) by apply preserved_alloc.
  assert (Ft : nth_error s t = None) by apply nth_error_fresh.
  assert (Ht1 : nth_error s1 t = Some (Store.OList [])) by apply nth_error_new.
  rewrite (bind_ok _ _ _ _ _ (getattr_run _ _ _ _ _ (P1 _ _ Hrp) Ha)). cbv beta.
  rewrite (bind_ok _ _ _ _ _ (items_of_run _ _ _ (P1 _ _ Hrl))). cbv beta.
  destruct (for_each_inv (Store.holds_trace s)
              (Store.critical_io_of_trace fuel ps pname (Store.VRef t))
              (critical_io_of_trace fuel ps pname)
              (fun rs st => Store.preserved_but t s1 st /\
                            Store.holds_results st (Store.VRef t) rs)
              (fun st => Store.preserved_but t s1 st))
    with (xs := items) (ys := traces self) (zs := @nil critical_io_value) (s := s1)
    as (s' & Hrun & Hpost).
  - intros x tr rs st Hx [Hp (r0 & content & E0 & Hr0 & Hc)]. injection E0 as <-.
    assert (P : Store.preserved s st) by exact (preserved_but_fresh _ _ _ _ Ft P1 Hp).
    destruct (critical_io_of_trace_run fuel ps pname st t content x tr Hr0
                (holds_trace_preserved _ _ _ _ P Hx)) as (st' & Hrun & Hp' & Hnew).
    exists st'. split; [exact Hrun|].
    destruct (critical_io_of_trace fuel ps pname tr) as [r| |].
    + destruct (Hnew r eq_refl) as (r' & Ht' & Hr'). split.
      * eapply preserved_but_trans; eassumption.
      * exists t, (content ++ [Store.VRef r']). split; [reflexivity|].
        split; [exact Ht'|].
        apply Forall2_app.
        -- eapply Forall2_impl; [|exact Hc].
           intros a b (r'' & -> & Hr''). exists r''. split; [reflexivity|].
           apply Hp'; [|exact Hr'']. exact (list_is_not_dict _ _ _ _ _ Hr0 Hr'').
        -- constructor; [|constructor]. exists r'. split; [reflexivity|exact Hr'].
    + eapply preserved_but_trans; eassumption.
    + eapply preserved_but_trans; eassumption.
  - exact HF.
  - split; [apply preserved_but_refl|].
    exists t, []. split; [reflexivity|]. split; [exact Ht1|constructor].
  - destruct (mapM (critical_io_of_trace fuel ps pname) (traces self)) as [rs|e|];
      cbn [unit_of] in Hrun.
    + rewrite (bind_ok _ _ _ _ _ Hrun). cbv beta.
      destruct Hpost as [Hp Hres].
      exists (Ok (Store.VRef t)), s'. split; [reflexivity|]. split.
      * exact (preserved_but_fresh _ _ _ _ Ft P1 Hp).
      * exists (Store.VRef t). split; [reflexivity|exact Hres].
    + rewrite (bind_raise _ _ _ _ _ Hrun).
      exists (Raise e), s'. split; [reflexivity|]. split; [|reflexivity].
      exact (preserved_but_fresh _ _ _ _ Ft P1 Hpost).
    + rewrite (bind_out_of_fuel _ _ _ _ Hrun).
      exists OutOfFuel, s'. split; [reflexivity|]. split; [|reflexivity].
      exact (preserved_but_fresh _ _ _ _ Ft P1 Hpost).
Qed.

(** ** Determinism and absence of side effects *)

Lemma holds_results_preserved (s s' : Store.store) (v : Store.value)
    (rs : list critical_io_value) :
  Store.preserved s s' -> Store.holds_results s v rs -> Store.holds_results s' v rs.
Proof.
  intros H (r & items & -> & Hr & HF). exists r, items.
  split; [reflexivity|]. split; [apply H, Hr|].
  eapply Forall2_impl; [|exact HF].
  intros a b (r' & -> & Hr'). exists r'. split; [reflexivity|apply H, Hr'].
Qed.

Lemma outcome_preserved (s s' : Store.store) (r : res Store.value)
    (expected : res (list critical_io_value)) :
  Store.preserved s s' -> Store.outcome s r expected -> Store.outcome s' r expected.
Proof.
  intros H. unfold Store.outcome. destruct expected as [rs|e|]; try (intros E; exact E).
  intros (v & -> & Hv). exists v. split; [reflexivity|].
  eapply holds_results_preserved; eassumption.
Qed.

Lemma sample_store_holds : Store.holds_parser sample_store (Store.VRef 6%nat) sample_store_parser.
Proof.
  assert (Hsp : Forall2 (Store.holds_span sample_store)
                        [Store.VRef 0%nat; Store.VRef 1%nat; Store.VRef 2%nat]
                        (two_children_trace 1000 50000)).
  { constructor; [|constructor; [|constructor; [|constructor]]].
    - exists 0%nat. eexists. split; [reflexivity|]. split; [reflexivity|].
      repeat split.
    - exists 1%nat. eexists. split; [reflexivity|]. split; [reflexivity|].
      repeat split.
    - exists 2%nat. eexists. split; [reflexivity|]. split; [reflexivity|].
      repeat split. }
  exists 6%nat. eexists. exists 5%nat. eexists.
  split; [reflexivity|]. split; [reflexivity|]. split; [reflexivity|].
  split; [reflexivity|].
  constructor; [|constructor; [|constructor; [|constructor]]].
  - exists 3%nat. eexists. split; [reflexivity|]. split; [reflexivity|]. exact Hsp.
  - exists 4%nat. eexists. split; [reflexivity|]. split; [reflexivity|]. constructor.
  - exists 3%nat. eexists. split; [reflexivity|]. split; [reflexivity|]. exact Hsp.
Qed.

(** C9.  The critical-path aggregator is deterministic and free of side
    effects.  In a store that holds the parser object, its trace list, the
    traces and their spans (shared or not), an invocation of
    [_get_critical_io_by_pattern] writes only to the lists it has made
    itself: every object that was in the store before the invocation is in
    the store afterwards, at its place and as it was, so the store still
    holds the same parser with the same traces and spans.  A second
    invocation, on the store the first one leaves, does the same, and the
    two invocations return identical results: both return a list of the
    same result dictionaries, or both raise the same exception. *)
Theorem critical_path_side_effect_free (fuel : nat) (patterns : patterns_arg)
    (s : Store.store) (self_ : Store.value) (self : TraceParser) :
  Store.holds_parser s self_ self ->
  exists r1 s1 r2 s2 expected,
    Store._get_critical_io_by_pattern fuel patterns self_ s = (r1, s1) /\
    Store._get_critical_io_by_pattern fuel patterns self_ s1 = (r2, s2) /\
    Store.preserved s s1 /\ Store.holds_parser s1 self_ self /\
    Store.preserved s1 s2 /\ Store.holds_parser s2 self_ self /\
    Store.outcome s2 r1 expected /\ Store.outcome s2 r2 expected /\
    expected = fst (_get_critical_io_by_pattern fuel patterns self).
Proof.
  intros H.
  destruct (get_critical_io_by_pattern_run fuel patterns s self_ self H)
    as (r1 & s1 & Hrun1 & P1 & O1).
  pose proof (holds_parser_preserved _ _ _ _ P1 H) as H1.
  destruct (get_critical_io_by_pattern_run fuel patterns s1 self_ self H1)
    as (r2 & s2 & Hrun2 & P2 & O2).
  exists r1, s1, r2, s2, (fst (_get_critical_io_by_pattern fuel patterns self)).
  repeat split; try assumption.
  - eapply holds_parser_preserved; eassumption.
  - eapply outcome_preserved; eassumption.
Qed.

Lemma critical_path_side_effect_free_witness :
  Store.holds_parser sample_store (Store.VRef 6%nat) sample_store_parser /\
  fst (Store._get_critical_io_by_pattern 5%nat (PatStr "gmail") (Store.VRef 6%nat) sample_store)
  = Ok (Store.VRef 7%nat) /\
  exists r1 s1 r2 s2 expected,
    Store._get_critical_io_by_pattern 5%nat (PatStr "gmail") (Store.VRef 6%nat) sample_store
    = (r1, s1) /\
    Store._get_critical_io_by_pattern 5%nat (PatStr "gmail") (Store.VRef 6%nat) s1 = (r2, s2) /\
    Store.preserved sample_store s1 /\
    Store.holds_parser s1 (Store.VRef 6%nat) sample_store_parser /\
    Store.preserved s1 s2 /\
    Store.holds_parser s2 (Store.VRef 6%nat) sample_store_parser /\
    Store.outcome s2 r1 expected /\ Store.outcome s2 r2 expected /\
    expected = fst (_get_critical_io_by_pattern 5%nat (PatStr "gmail") sample_store_parser).
Proof.
  split; [exact sample_store_holds|]. split; [vm_compute; reflexivity|].
  apply (critical_path_side_effect_free 5%nat (PatStr "gmail") sample_store (Store.VRef 6%nat)
           sample_store_parser).
  exact sample_store_holds.
Defined.
